(** * Rida source modules: extraction engine

    A shallow embedding of the regex-based source modules of the
    repository (ReadNovelFull, its readwn.com revision, and the two
    MangaPill revisions), with the properties the specification states
    about them.

    Conventions.
    - A JavaScript string is the list of its UTF-16 code units, each a [Z].
    - In the string literals of this file the backquote character stands
      for the double quote (code unit 34); [js] performs the substitution.
      No literal of the source contains a backquote of its own.
    - Regular expressions are written with the text they have in the
      source and turned into syntax trees by [parse]. *)

From Stdlib Require Import String Ascii List ZArith Lia Bool Arith.
From Stdlib Require Import Numbers.DecimalString.
Import ListNotations.
Open Scope Z_scope.

(** ** JavaScript strings *)

Definition jsstring := list Z.

Abbreviation len := (@List.length Z).

Definition code (a : ascii) : Z :=
  let n := Z.of_N (N_of_ascii a) in if n =? 96 then 34 else n.

Fixpoint js (s : string) : jsstring :=
  match s with
  | EmptyString => []
  | String a s' => code a :: js s'
  end.

Definition nl : Z := 10.

Fixpoint str_eqb (a b : jsstring) : bool :=
  match a, b with
  | [], [] => true
  | x :: a', y :: b' => (x =? y) && str_eqb a' b'
  | _, _ => false
  end.

(** [s.startsWith(p)] *)
Fixpoint startsWith (p s : jsstring) : bool :=
  match p, s with
  | [], _ => true
  | x :: p', y :: s' => (x =? y) && startsWith p' s'
  | _ :: _, [] => false
  end.

(** [s.includes(p)] *)
Fixpoint includes (p s : jsstring) : bool :=
  startsWith p s ||
  match s with
  | [] => false
  | _ :: s' => includes p s'
  end.

(** WhiteSpace and LineTerminator code points: the set [\s] matches and
    [trim] strips. *)
Definition is_line_terminator (c : Z) : bool :=
  (c =? 10) || (c =? 13) || (c =? 8232) || (c =? 8233).

Definition is_space (c : Z) : bool :=
  ((9 <=? c) && (c <=? 13)) || (c =? 32) || (c =? 160) || (c =? 5760)
  || ((8192 <=? c) && (c <=? 8202)) || (c =? 8232) || (c =? 8233)
  || (c =? 8239) || (c =? 8287) || (c =? 12288) || (c =? 65279).

Fixpoint trimStart (s : jsstring) : jsstring :=
  match s with
  | [] => []
  | c :: s' => if is_space c then trimStart s' else s
  end.

Definition trimEnd (s : jsstring) : jsstring := rev (trimStart (rev s)).

Definition trim (s : jsstring) : jsstring := trimEnd (trimStart s).

(** A JavaScript value that is a string or [undefined]; [truthy] is
    the test an [if] or [&&] applies to it. *)
Definition truthy (v : option jsstring) : bool :=
  match v with
  | Some (_ :: _) => true
  | _ => false
  end.

Definition nonempty (s : jsstring) : bool :=
  match s with
  | [] => false
  | _ :: _ => true
  end.

(** Number to string, as a template literal prints an integer. *)
Definition string_of_Z (z : Z) : jsstring :=
  js (NilEmpty.string_of_int (Z.to_int z)).

Definition string_of_nat (n : nat) : jsstring := string_of_Z (Z.of_nat n).

(** ** Regular expressions

    The fragment of ECMAScript patterns the modules use: literals, [.],
    character classes with ranges and the escapes [\s \d \w] and their
    complements, groups (capturing or not), alternation, the quantifiers
    [* + ? {n} {n,} {n,m}] greedy or lazy, and the assertion [$].  No
    pattern of the source looks to the left of the position it is tried
    at ([^], [\b], look-behind and back-references do not occur), so a
    match attempt depends only on the text from that position on: the
    matcher works on the remaining suffix. *)

Inductive citem : Type :=
| CChar (c : Z)
| CRange (lo hi : Z)
| CSpace (neg : bool)
| CDigit (neg : bool)
| CWord (neg : bool).

Inductive regex : Type :=
| Empty
| Char (c : Z)
| Dot
| Class (neg : bool) (items : list citem)
| Seq (r1 r2 : regex)
| Alt (r1 r2 : regex)
| Quant (lazy : bool) (min : nat) (max : option nat) (r : regex)
| Group (idx : nat) (r : regex)
| EndAnchor.

Record flags : Type := mkFlags {
  global : bool;
  ignoreCase : bool;
  dotAll : bool
}.

(** Captures: position [k] holds group [k+1]; [None] is [undefined]. *)
Definition captures := list (option jsstring).

Fixpoint set_cap (idx : nat) (v : option jsstring) (caps : captures)
  : captures :=
  match caps with
  | [] => []
  | c :: caps' =>
    match idx with
    | O => v :: caps'
    | S idx' => c :: set_cap idx' v caps'
    end
  end.

Fixpoint groups_of (r : regex) : list nat :=
  match r with
  | Seq r1 r2 | Alt r1 r2 => groups_of r1 ++ groups_of r2
  | Quant _ _ _ r1 => groups_of r1
  | Group idx r1 => idx :: groups_of r1
  | _ => []
  end.

Definition reset_caps (idxs : list nat) (caps : captures) : captures :=
  fold_left (fun c i => set_cap i None c) idxs caps.

Section Matcher.

Variable fl : flags.

(** Canonicalize of the specification, for patterns whose letters are
    ASCII: with the [i] flag a lower-case ASCII letter is compared as
    its upper-case form, and no character outside ASCII is mapped into
    ASCII. *)
Definition canon (c : Z) : Z :=
  if ignoreCase fl && (97 <=? c) && (c <=? 122) then c - 32 else c.

Definition swapcase (c : Z) : Z :=
  if (97 <=? c) && (c <=? 122) then c - 32
  else if (65 <=? c) && (c <=? 90) then c + 32
  else c.

Definition is_digit (c : Z) : bool := (48 <=? c) && (c <=? 57).

Definition is_word (c : Z) : bool :=
  is_digit c || ((65 <=? c) && (c <=? 90)) || ((97 <=? c) && (c <=? 122))
  || (c =? 95).

Definition in_range (lo hi c : Z) : bool := (lo <=? c) && (c <=? hi).

Definition item_matches (it : citem) (c : Z) : bool :=
  match it with
  | CChar x => canon x =? canon c
  | CRange lo hi =>
    in_range lo hi c || (ignoreCase fl && in_range lo hi (swapcase c))
  | CSpace neg => xorb neg (is_space c)
  | CDigit neg => xorb neg (is_digit c)
  | CWord neg => xorb neg (is_word c)
  end.

Definition class_matches (neg : bool) (items : list citem) (c : Z) : bool :=
  xorb neg (existsb (fun it => item_matches it c) items).

Definition mresult := option (jsstring * captures).
Definition cont := jsstring -> captures -> mresult.

Definition orelse (a : mresult) (b : unit -> mresult) : mresult :=
  match a with
  | Some res => Some res
  | None => b tt
  end.

(** RepeatMatcher of the specification, for an atom matched by [mr]
    whose capturing groups are [gs]: the captures of the atom are
    reset at each iteration, and an iteration that consumes nothing
    once the minimum is reached is rejected.  At most
    [min + length s] iterations can nest, so a fuel of
    [min + length s + 1] never runs out. *)
Fixpoint repeat_matcher (mr : jsstring -> captures -> cont -> mresult)
    (gs : list nat) (lazy : bool) (k : cont) (fuel mn : nat)
    (mx : option nat) (s : jsstring) (caps : captures) {struct fuel}
  : mresult :=
  match fuel with
  | O => None
  | S fuel' =>
    match mx with
    | Some O => k s caps
    | _ =>
      let iter (_ : unit) :=
        mr s (reset_caps gs caps) (fun s' caps' =>
          if (mn =? 0)%nat && (len s' =? len s)%nat then None
          else repeat_matcher mr gs lazy k fuel' (pred mn)
                 (option_map pred mx) s' caps') in
      if (0 <? mn)%nat then iter tt
      else if lazy then orelse (k s caps) iter
      else orelse (iter tt) (fun _ => k s caps)
    end
  end.

(** The backtracking matcher in continuation-passing style, as the
    specification of RegExp defines it. *)
Fixpoint m (r : regex) (s : jsstring) (caps : captures) (k : cont)
  {struct r} : mresult :=
  match r with
  | Empty => k s caps
  | Char c =>
    match s with
    | x :: s' => if canon x =? canon c then k s' caps else None
    | [] => None
    end
  | Dot =>
    match s with
    | x :: s' =>
      if dotAll fl || negb (is_line_terminator x) then k s' caps else None
    | [] => None
    end
  | Class neg items =>
    match s with
    | x :: s' => if class_matches neg items x then k s' caps else None
    | [] => None
    end
  | Seq r1 r2 => m r1 s caps (fun s' caps' => m r2 s' caps' k)
  | Alt r1 r2 => orelse (m r1 s caps k) (fun _ => m r2 s caps k)
  | Group idx r1 =>
    m r1 s caps (fun s' caps' =>
      k s' (set_cap idx (Some (firstn (len s - len s') s)) caps'))
  | EndAnchor =>
    match s with
    | [] => k s caps
    | _ :: _ => None
    end
  | Quant lazy mn mx r1 =>
    repeat_matcher (m r1) (groups_of r1) lazy k (mn + len s + 1)%nat
                   mn mx s caps
  end.

End Matcher.

(** ** Pattern text to syntax tree *)

Definition is_dec (c : Z) : bool := (48 <=? c) && (c <=? 57).

Fixpoint parse_nat (s : jsstring) (acc : nat) : nat * jsstring :=
  match s with
  | c :: s' =>
    if is_dec c then parse_nat s' (10 * acc + Z.to_nat (c - 48))%nat
    else (acc, s)
  | [] => (acc, s)
  end.

(** The escape after a backslash: a class escape or the character
    itself (control escapes [\n \t \r \f \v] and identity escapes). *)
Definition escape_item (c : Z) : option citem :=
  if c =? 115 then Some (CSpace false)
  else if c =? 83 then Some (CSpace true)
  else if c =? 100 then Some (CDigit false)
  else if c =? 68 then Some (CDigit true)
  else if c =? 119 then Some (CWord false)
  else if c =? 87 then Some (CWord true)
  else if c =? 110 then Some (CChar 10)
  else if c =? 116 then Some (CChar 9)
  else if c =? 114 then Some (CChar 13)
  else if c =? 102 then Some (CChar 12)
  else if c =? 118 then Some (CChar 11)
  else if (c =? 98) || (c =? 66) || is_dec c || (c =? 107)
          || (c =? 120) || (c =? 117) || (c =? 99) || (c =? 112)
          || (c =? 80)
       then None
  else Some (CChar c).

(** Items of a character class up to the closing bracket. *)
Fixpoint parse_class (fuel : nat) (s : jsstring) (acc : list citem)
  : option (list citem * jsstring) :=
  match fuel with
  | O => None
  | S fuel' =>
    match s with
    | [] => None
    | 93 :: s' => Some (rev acc, s')
    | 92 :: e :: s' =>
      match escape_item e with
      | Some it => parse_class fuel' s' (it :: acc)
      | None => None
      end
    | lo :: 45 :: hi :: s' =>
      if (hi =? 93) then parse_class fuel' (45 :: hi :: s') (CChar lo :: acc)
      else if hi =? 92 then None
      else parse_class fuel' s' (CRange lo hi :: acc)
    | c :: s' => parse_class fuel' s' (CChar c :: acc)
    end
  end.

(** A quantifier after an atom, if any. *)
Definition parse_quant (s : jsstring)
  : option (nat * option nat * jsstring) :=
  match s with
  | 42 :: s' => Some (O, None, s')
  | 43 :: s' => Some (1%nat, None, s')
  | 63 :: s' => Some (O, Some 1%nat, s')
  | 123 :: s' =>
    let '(lo, s1) := parse_nat s' O in
    match s1 with
    | 125 :: s2 => Some (lo, Some lo, s2)
    | 44 :: 125 :: s2 => Some (lo, None, s2)
    | 44 :: s2 =>
      let '(hi, s3) := parse_nat s2 O in
      match s3 with
      | 125 :: s4 => Some (lo, Some hi, s4)
      | _ => None
      end
    | _ => None
    end
  | _ => None
  end.

Definition quantified (atom : regex) (s : jsstring) : regex * jsstring :=
  match parse_quant s with
  | Some (lo, hi, s1) =>
    match s1 with
    | 63 :: s2 => (Quant true lo hi atom, s2)
    | _ => (Quant false lo hi atom, s1)
    end
  | None => (atom, s)
  end.

Fixpoint seq_of (ts : list regex) : regex :=
  match ts with
  | [] => Empty
  | [t] => t
  | t :: ts' => Seq t (seq_of ts')
  end.

(** Disjunction and Alternative of the pattern grammar; [g] is the
    number of capturing groups opened so far. *)
Fixpoint parse_disj (fuel : nat) (s : jsstring) (g : nat)
  : option (regex * jsstring * nat) :=
  match fuel with
  | O => None
  | S fuel' =>
    match parse_alt fuel' s g [] with
    | Some (r1, 124 :: s1, g1) =>
      match parse_disj fuel' s1 g1 with
      | Some (r2, s2, g2) => Some (Alt r1 r2, s2, g2)
      | None => None
      end
    | other => other
    end
  end
with parse_alt (fuel : nat) (s : jsstring) (g : nat) (acc : list regex)
  : option (regex * jsstring * nat) :=
  match fuel with
  | O => None
  | S fuel' =>
    match s with
    | [] => Some (seq_of (rev acc), s, g)
    | 124 :: _ | 41 :: _ => Some (seq_of (rev acc), s, g)
    | 36 :: s' => parse_alt fuel' s' g (EndAnchor :: acc)
    | 40 :: 63 :: 58 :: s' =>
      match parse_disj fuel' s' g with
      | Some (r, 41 :: s1, g1) =>
        let '(t, s2) := quantified r s1 in parse_alt fuel' s2 g1 (t :: acc)
      | _ => None
      end
    | 40 :: 63 :: _ => None
    | 40 :: s' =>
      match parse_disj fuel' s' (S g) with
      | Some (r, 41 :: s1, g1) =>
        let '(t, s2) := quantified (Group g r) s1 in
        parse_alt fuel' s2 g1 (t :: acc)
      | _ => None
      end
    | 91 :: 94 :: s' =>
      match parse_class (len s) s' [] with
      | Some (items, s1) =>
        let '(t, s2) := quantified (Class true items) s1 in
        parse_alt fuel' s2 g (t :: acc)
      | None => None
      end
    | 91 :: s' =>
      match parse_class (len s) s' [] with
      | Some (items, s1) =>
        let '(t, s2) := quantified (Class false items) s1 in
        parse_alt fuel' s2 g (t :: acc)
      | None => None
      end
    | 46 :: s' =>
      let '(t, s2) := quantified Dot s' in parse_alt fuel' s2 g (t :: acc)
    | 92 :: e :: s' =>
      match escape_item e with
      | Some (CChar c) =>
        let '(t, s2) := quantified (Char c) s' in
        parse_alt fuel' s2 g (t :: acc)
      | Some it =>
        let '(t, s2) := quantified (Class false [it]) s' in
        parse_alt fuel' s2 g (t :: acc)
      | None => None
      end
    | c :: s' =>
      if (c =? 42) || (c =? 43) || (c =? 63) || (c =? 123) || (c =? 92)
         || (c =? 94)
      then None
      else
        let '(t, s2) := quantified (Char c) s' in
        parse_alt fuel' s2 g (t :: acc)
    end
  end.

Definition parse (src : jsstring) : option (regex * nat) :=
  match parse_disj (S (S (len src))) src O with
  | Some (r, [], g) => Some (r, g)
  | _ => None
  end.

Definition parse_flags (f : jsstring) : flags :=
  {| global := existsb (Z.eqb 103) f;
     ignoreCase := existsb (Z.eqb 105) f;
     dotAll := existsb (Z.eqb 115) f |}.

(** A RegExp object: its tree, the number of its capturing groups and
    its flags.  [lastIndex], its only mutable field, is threaded by the
    functions that use it. *)
Record regexp : Type := mkRegexp {
  ast : regex;
  ngroups : nat;
  rflags : flags
}.

(** A pattern that is outside the fragment becomes one that never
    matches; [parses] records that this does not happen. *)
Definition re (src fl : string) : regexp :=
  match parse (js src) with
  | Some (r, g) => mkRegexp r g (parse_flags (js fl))
  | None => mkRegexp (Class false []) O (parse_flags (js fl))
  end.

Definition parses (src : string) : bool :=
  match parse (js src) with
  | Some _ => true
  | None => false
  end.

(** ** RegExp.prototype.exec and the String methods built on it *)

Record jsmatch : Type := mkMatch {
  index : nat;
  matched : jsstring;
  groups : captures
}.

(** [match[k]] *)
Definition grp (mt : jsmatch) (k : nat) : option jsstring :=
  match k with
  | O => Some (matched mt)
  | S k' => nth k' (groups mt) None
  end.

(** One attempt at the head of [s]: the rest of the text after the match
    and the captures. *)
Definition match_here (re : regexp) (s : jsstring) : option (jsstring * captures) :=
  m (rflags re) (ast re) s (repeat None (ngroups re))
    (fun s' caps => Some (s', caps)).

Definition mk_match (i : nat) (s rest : jsstring) (caps : captures) : jsmatch :=
  mkMatch i (firstn (len s - len rest) s) caps.

(** The first position, from [i] on, at which the pattern matches; the
    position one past the last character is tried too. *)
Fixpoint search_from (re : regexp) (s : jsstring) (i : nat) : option jsmatch :=
  match match_here re s with
  | Some (rest, caps) => Some (mk_match i s rest caps)
  | None =>
    match s with
    | [] => None
    | _ :: s' => search_from re s' (S i)
    end
  end.

(** RegExpBuiltinExec: the result and the new value of [lastIndex].
    Without the [g] flag the search starts at 0 and [lastIndex] is left
    alone; with it the search starts at [lastIndex], which becomes the
    end of the match, or 0 when there is none. *)
Definition regex_exec (re : regexp) (s : jsstring) (lastIndex : nat)
  : option jsmatch * nat :=
  let g := global (rflags re) in
  let start := if g then lastIndex else O in
  if (len s <? start)%nat then (None, if g then O else lastIndex)
  else
    match search_from re (skipn start s) start with
    | Some mt =>
      (Some mt, if g then (index mt + len (matched mt))%nat else lastIndex)
    | None => (None, if g then O else lastIndex)
    end.

(** [s.replace(re, f)] with the [g] flag: the matches are found from
    left to right, the search resuming at the end of each match, one
    character further after an empty match. *)
Fixpoint replace_loop (fuel : nat) (re : regexp) (f : jsmatch -> jsstring)
    (s : jsstring) (i : nat) : jsstring :=
  match fuel with
  | O => s
  | S fuel' =>
    match match_here re s with
    | Some (rest, caps) =>
      let mt := mk_match i s rest caps in
      if (len rest <? len s)%nat
      then f mt ++ replace_loop fuel' re f rest (i + (len s - len rest))
      else f mt ++
           match s with
           | [] => []
           | c :: s' => c :: replace_loop fuel' re f s' (S i)
           end
    | None =>
      match s with
      | [] => []
      | c :: s' => c :: replace_loop fuel' re f s' (S i)
      end
    end
  end.

(** Without the [g] flag only the first match is replaced. *)
Fixpoint replace_first (re : regexp) (f : jsmatch -> jsstring)
    (s : jsstring) (i : nat) : jsstring :=
  match match_here re s with
  | Some (rest, caps) => f (mk_match i s rest caps) ++ rest
  | None =>
    match s with
    | [] => []
    | c :: s' => c :: replace_first re f s' (S i)
    end
  end.

Definition replace (re : regexp) (f : jsmatch -> jsstring) (s : jsstring)
  : jsstring :=
  if global (rflags re) then replace_loop (S (len s)) re f s O
  else replace_first re f s O.

(** A replacement string without [$]: every replacement string of the
    source is one. *)
Definition replace_str (re : regexp) (by_ : jsstring) (s : jsstring)
  : jsstring :=
  replace re (fun _ => by_) s.

(** [s.match(re)] for a pattern without the [g] flag: the match object
    of [exec], or [null]. *)
Definition string_match (re : regexp) (s : jsstring) : option jsmatch :=
  search_from re s O.

(** [re.test(s)] on a fresh pattern without the [g] flag. *)
Definition regex_test (re : regexp) (s : jsstring) : bool :=
  match search_from re s O with
  | Some _ => true
  | None => false
  end.

(** [s.split('/').pop()]: the text after the last slash. *)
Fixpoint last_segment (s acc : jsstring) : jsstring :=
  match s with
  | [] => rev acc
  | c :: s' => if c =? 47 then last_segment s' [] else last_segment s' (c :: acc)
  end.

(** ** Numbers *)

(** The value of a numeral in radix [radix] (digits already checked by
    the pattern that captured it). *)
Definition digit_value (c : Z) : Z :=
  if (48 <=? c) && (c <=? 57) then c - 48
  else if (97 <=? c) && (c <=? 102) then c - 87
  else if (65 <=? c) && (c <=? 70) then c - 55
  else 0.

Definition numeral_value (radix : Z) (ds : jsstring) : Z :=
  fold_left (fun acc d => acc * radix + digit_value d) ds 0.

(** The Number [parseInt] returns for a non-negative integer: the
    nearest double, ties to even; [None] is [Infinity]. *)
Definition to_double (n : Z) : option Z :=
  if n <? 2 ^ 53 then Some n
  else
    let e := Z.log2 n - 52 in
    let q := Z.shiftr n e in
    let r := n - Z.shiftl q e in
    let half := Z.shiftl 1 (e - 1) in
    let q' := if (half <? r) || ((half =? r) && Z.odd q) then q + 1 else q in
    let v := Z.shiftl q' e in
    if v <? 2 ^ 1024 then Some v else None.

Definition parseInt (ds : jsstring) (radix : Z) : option Z :=
  to_double (numeral_value radix ds).

(** [String.fromCharCode(x)]: ToUint16 of the number, [Infinity] giving 0. *)
Definition fromCharCode (x : option Z) : jsstring :=
  match x with
  | Some v => [v mod 65536]
  | None => [0]
  end.

(** ** encodeURIComponent *)

Definition uri_unreserved (c : Z) : bool :=
  ((48 <=? c) && (c <=? 57)) || ((65 <=? c) && (c <=? 90))
  || ((97 <=? c) && (c <=? 122))
  || existsb (Z.eqb c) [45; 95; 46; 33; 126; 42; 39; 40; 41].

Definition hex_digit (v : Z) : Z := if v <? 10 then 48 + v else 55 + v.

Definition percent (b : Z) : jsstring := [37; hex_digit (b / 16); hex_digit (b mod 16)].

Definition utf8 (cp : Z) : list Z :=
  if cp <? 128 then [cp]
  else if cp <? 2048 then [192 + cp / 64; 128 + cp mod 64]
  else if cp <? 65536
       then [224 + cp / 4096; 128 + (cp / 64) mod 64; 128 + cp mod 64]
  else [240 + cp / 262144; 128 + (cp / 4096) mod 64;
        128 + (cp / 64) mod 64; 128 + cp mod 64].

(** [None] is the URIError a lone surrogate raises. *)
Fixpoint encodeURIComponent (s : jsstring) : option jsstring :=
  match s with
  | [] => Some []
  | c :: s' =>
    if uri_unreserved c then option_map (cons c) (encodeURIComponent s')
    else if (56320 <=? c) && (c <=? 57343) then None
    else if (55296 <=? c) && (c <=? 56319) then
      match s' with
      | d :: s'' =>
        if (56320 <=? d) && (d <=? 57343) then
          option_map
            (app (List.concat (map percent
                    (utf8 ((c - 55296) * 1024 + (d - 56320) + 65536)))))
            (encodeURIComponent s'')
        else None
      | [] => None
      end
    else option_map (app (List.concat (map percent (utf8 c))))
                    (encodeURIComponent s')
  end.

(** ** Effects: console, transport, exceptions *)

Record js_error : Type := mkError {
  err_name : jsstring;
  err_message : jsstring
}.

Definition Error (msg : jsstring) : js_error := mkError (js "Error") msg.
Definition TypeError (msg : jsstring) : js_error := mkError (js "TypeError") msg.
Definition URIError (msg : jsstring) : js_error := mkError (js "URIError") msg.

(** How a computation ends: with a value, with an exception (a rejected
    promise for an [async] function), or not at all. *)
Inductive outcome (A : Type) : Type :=
| Ret (a : A)
| Throw (e : js_error)
| Diverge.

Arguments Ret {A} a.
Arguments Throw {A} e.
Arguments Diverge {A}.

Inductive level : Type := LLog | LWarn | LErr.

Inductive log_arg : Type :=
| AStr (s : jsstring)
| AError (e : js_error).

Record log_entry : Type := mkLog {
  lvl : level;
  args : list log_arg
}.

(** The fetch-shaped collaborator: [text] is the outcome of awaiting
    [response.text()]. *)
Record response : Type := mkResponse {
  ok : bool;
  status : Z;
  statusText : jsstring;
  url : jsstring;
  text : outcome jsstring
}.

Record request : Type := mkRequest {
  req_url : jsstring;
  req_method : option jsstring;
  req_redirect : option jsstring;
  req_headers : list (jsstring * jsstring)
}.

Definition GET (u : jsstring) : request := mkRequest u None None [].

Definition transport := request -> outcome response.

(** What an operation leaves behind: the console lines it wrote and the
    requests it issued, oldest first. *)
Record world : Type := mkWorld {
  console : list log_entry;
  requests : list request
}.

Definition start : world := mkWorld [] [].

Definition M (A : Type) : Type := world -> outcome A * world.

Definition ret {A} (a : A) : M A := fun w => (Ret a, w).

Definition throw {A} (e : js_error) : M A := fun w => (Throw e, w).

Definition bind {A B} (c : M A) (k : A -> M B) : M B :=
  fun w =>
    match c w with
    | (Ret a, w') => k a w'
    | (Throw e, w') => (Throw e, w')
    | (Diverge, w') => (Diverge, w')
    end.

Notation "x <- c ;; k" := (bind c (fun x => k))
  (at level 61, c at next level, right associativity).
Notation "c ;;; k" := (bind c (fun _ => k))
  (at level 61, right associativity).

(** [try { body } catch (error) { handler }] *)
Definition try_catch {A} (body : M A) (handler : js_error -> M A) : M A :=
  fun w =>
    match body w with
    | (Throw e, w') => handler e w'
    | other => other
    end.

Definition console_write (l : level) (a : list log_arg) : M unit :=
  fun w => (Ret tt, mkWorld (console w ++ [mkLog l a]) (requests w)).

Definition console_log := console_write LLog.
Definition console_warn := console_write LWarn.
Definition console_error := console_write LErr.

Definition await_fetch (fetch : transport) (r : request) : M response :=
  fun w => (fetch r, mkWorld (console w) (requests w ++ [r])).

Definition await_text (r : response) : M jsstring :=
  fun w => (text r, w).

(** A loop of the source that may not terminate. *)
Definition run_loop {A} (o : option A) : M A :=
  fun w =>
    match o with
    | Some a => (Ret a, w)
    | None => (Diverge, w)
    end.

(** A method called on a value that may be [undefined]. *)
Definition receiver (method : string) (v : option jsstring) : M jsstring :=
  match v with
  | Some s => ret s
  | None =>
    throw (TypeError (js "Cannot read properties of undefined (reading '"
                       ++ js method ++ js "')"))
  end.

(** A value that may be [undefined] inside a template literal. *)
Definition tmpl (v : option jsstring) : jsstring :=
  match v with
  | Some s => s
  | None => js "undefined"
  end.

(** [a || b] on strings. *)
Definition or_else (a b : jsstring) : jsstring :=
  match a with
  | [] => b
  | _ :: _ => a
  end.

(** [for (const x of xs) body], the body pushing onto an array. *)
Fixpoint for_of {A B} (xs : list A) (body : list B -> A -> M (list B))
    (acc : list B) : M (list B) :=
  match xs with
  | [] => ret acc
  | x :: xs' => acc' <- body acc x ;; for_of xs' body acc'
  end.

(** The [while ((match = regex.exec(html)) !== null)] loop all the
    modules share; [None] when the fuel runs out. *)
Fixpoint exec_loop (fuel : nat) (html : jsstring) (regex : regexp)
    (lastIndex : nat) (matches : list jsmatch) : option (list jsmatch) :=
  match fuel with
  | O => None
  | S fuel' =>
    match regex_exec regex html lastIndex with
    | (Some mt, li) => exec_loop fuel' html regex li (matches ++ [mt])
    | (None, _) => Some matches
    end
  end.

(** ** Records returned to the caller

    A field a module fills with a raw capture is a string or
    [undefined], hence an [option]. *)

Record SearchResult : Type := mkSearchResult {
  sr_id : jsstring;
  sr_title : jsstring;
  sr_author : jsstring;
  sr_coverUrl : option jsstring;
  sr_description : jsstring;
  sr_path : option jsstring
}.

Record ChapterRef : Type := mkChapterRef {
  ch_id : option jsstring;
  ch_title : jsstring;
  ch_path : option jsstring
}.

Record BookDetails : Type := mkBookDetails {
  bd_id : jsstring;
  bd_title : jsstring;
  bd_author : jsstring;
  bd_coverUrl : option jsstring;
  bd_description : jsstring;
  bd_genres : list jsstring;
  bd_status : jsstring;
  bd_type : option jsstring;
  bd_chapters : list ChapterRef
}.

Definition placeholder : jsstring :=
  js "https://via.placeholder.com/150x200?text=No+Cover".

(** [table[key]] on an object literal, inside a replacer: a missing key
    gives [undefined], which [replace] prints. *)
Fixpoint lookup (table : list (jsstring * jsstring)) (key : option jsstring)
  : jsstring :=
  match table, key with
  | (k, v) :: table', Some key' =>
    if str_eqb k key' then v else lookup table' key
  | _, _ => js "undefined"
  end.

(** [String.fromCharCode(parseInt(group, radix))] on a capture;
    [parseInt(undefined)] is [NaN], whose character code is 0. *)
Definition char_of_numeral (radix : Z) (v : option jsstring) : jsstring :=
  match v with
  | Some ds => fromCharCode (parseInt ds radix)
  | None => [0]
  end.

(** A helper that starts with [if (!x) return ''], applied to a value
    that may be [undefined]. *)
Definition guarded (f : jsstring -> jsstring) (v : option jsstring)
  : jsstring :=
  match v with
  | Some s => f s
  | None => []
  end.

(** * ReadNovelFull, second revision (src/ReadFullNovelV2.js) *)

Module ReadNovelFullV2.

Definition BASE_URL : jsstring := js "https://readnovelfull.com".

Definition extractAll (html : jsstring) (regex : regexp)
  : option (list jsmatch) :=
  exec_loop (len html + 2) html regex O [].

Definition extractFirst (html : jsstring) (regex : regexp)
  : option captures :=
  match string_match regex html with
  | Some mt => Some (groups mt)
  | None => None
  end.

Definition translate_re : regexp :=
  Eval vm_compute in re "&(nbsp|amp|quot|lt|gt);" "g".

Definition translate : list (jsstring * jsstring) :=
  [(js "nbsp", js " "); (js "amp", js "&"); (js "quot", js "`");
   (js "lt", js "<"); (js "gt", js ">")].

Definition decimal_re : regexp := Eval vm_compute in re "&#(\d+);" "gi".

Definition hex_re : regexp :=
  Eval vm_compute in re "&#x([0-9A-Fa-f]+);" "gi".

Definition decodeEntities (encodedString : jsstring) : jsstring :=
  if negb (nonempty encodedString) then []
  else
    let decoded :=
      replace translate_re (fun mt => lookup translate (grp mt 1))
              encodedString in
    let decoded :=
      replace decimal_re (fun mt => char_of_numeral 10 (grp mt 1)) decoded in
    let decoded :=
      replace hex_re (fun mt => char_of_numeral 16 (grp mt 1)) decoded in
    decoded.

Definition br_re : regexp := Eval vm_compute in re "<br\s*\/?>" "gi".

Definition tag_re : regexp := Eval vm_compute in re "<[^>]*>" "g".

Definition cleanHtmlText (html : jsstring) : jsstring :=
  if negb (nonempty html) then []
  else decodeEntities
         (trim (replace_str tag_re [] (replace_str br_re [nl] html))).

Definition comprehensiveItemRegex : regexp :=
  Eval vm_compute in
    re "<div class=`col-xs-3.*?<a href=`\/([^`]+)`[^>]*>\s*<img[^>]*src=`([^`]+)`[^>]*>.*?<h3 class=`novel-title`[^>]*><a[^>]*>([^<]+)<\/a><\/h3>.*?<span class=`author`[^>]*>([^<]+)<\/span>.*?<div class=`novel-desc`>(.*?)<\/div>"
       "gis".

Definition title_re : regexp :=
  Eval vm_compute in re "<h3 class=`title`[^>]*>([^<]+)<\/h3>" "i".

Definition author_re : regexp :=
  Eval vm_compute in
    re ">\s*Author\(s\):\s*<\/label>\s*<ul[^>]*>\s*<li[^>]*><a[^>]*>([^<]+)<\/a><\/li>\s*<\/ul>"
       "i".

Definition cover_re : regexp :=
  Eval vm_compute in re "<div class=`book`>\s*<img[^>]*src=`([^`]+)`" "i".

Definition description_re : regexp :=
  Eval vm_compute in re "<div class=`desc-text`[^>]*>(.*?)<\/div>" "is".

Definition genreList_re : regexp :=
  Eval vm_compute in re ">\s*Genre:\s*<\/label>\s*<ul[^>]*>(.*?)<\/ul>" "is".

Definition genreRegex : regexp :=
  Eval vm_compute in re "<a[^>]*>([^<]+)<\/a>" "gi".

Definition status_re : regexp :=
  Eval vm_compute in re ">\s*Status:\s*<\/label>\s*<a[^>]*>([^<]+)<\/a>" "i".

Definition novelId_re : regexp :=
  Eval vm_compute in re "data-novel-id=`(\d+)`" "i".

Definition novelId_alt_re : regexp :=
  Eval vm_compute in
    re "$('#rate').raty\(\{.*?readOnly: true, score: \d+, novelId: (\d+)\}"
       "i".

Definition chapterRegex : regexp :=
  Eval vm_compute in
    re "<li[^>]*>\s*<a href=`\/([^`]+)`[^>]*title=`[^`]+`>\s*([^<]+)\s*<\/a>\s*<\/li>"
       "gi".

Definition chapterList_re : regexp :=
  Eval vm_compute in re "<div id=`list-chapter`[^>]*>(.*?)<\/div>" "is".

Definition content_re : regexp :=
  Eval vm_compute in re "<div id=`chr-content`[^>]*>(.*?)<\/div>" "is".

(** [a ?? b] on the results of [extractFirst]. *)
Definition nullish {A} (a : option A) (b : option A) : option A :=
  match a with
  | Some x => Some x
  | None => b
  end.

Section WithFetch.

Variable fetch : transport.

Definition search_item (results : list SearchResult) (mt : jsmatch)
  : M (list SearchResult) :=
  let id := grp mt 1 in
  cover <- receiver "startsWith" (grp mt 2) ;;
  let coverUrl :=
    if startsWith (js "http") cover then cover else BASE_URL ++ cover in
  t <- receiver "trim" (grp mt 3) ;;
  let title := decodeEntities (trim t) in
  a <- receiver "trim" (grp mt 4) ;;
  let author := decodeEntities (trim a) in
  let description := guarded cleanHtmlText (grp mt 5) in
  match id with
  | Some ((_ :: _) as id') =>
    if nonempty title then
      ret (results ++
           [mkSearchResult id' title
              (or_else author (js "Unknown Author"))
              (Some (or_else coverUrl placeholder))
              (or_else description (js "No description available."))
              None])
    else ret results
  | _ => ret results
  end.

Definition search (query : jsstring) : M (list SearchResult) :=
  match encodeURIComponent query with
  | None => throw (URIError (js "URI malformed"))
  | Some q =>
    let searchUrl := BASE_URL ++ js "/novel-list/search?keyword=" ++ q in
    console_log [AStr (js "ReadNovelFull Searching: " ++ searchUrl)] ;;;
    try_catch
      (response <- await_fetch fetch (GET searchUrl) ;;
       if negb (ok response) then
         console_error
           [AStr (js "Search failed: " ++ string_of_Z (status response)
                  ++ js " " ++ statusText response)] ;;;
         ret []
       else
         html <- await_text response ;;
         matches <- run_loop (extractAll html comprehensiveItemRegex) ;;
         console_log
           [AStr (js "Found " ++ string_of_nat (List.length matches)
                  ++ js " potential search results.")] ;;;
         results <- for_of matches search_item [] ;;
         console_log
           [AStr (js "Parsed " ++ string_of_nat (List.length results)
                  ++ js " valid results.")] ;;;
         ret results)
      (fun error =>
         console_error
           [AStr (js "ReadNovelFull Search Error:"); AError error] ;;;
         ret [])
  end.

Definition chapter_item (chapters : list ChapterRef) (mt : jsmatch)
  : M (list ChapterRef) :=
  let chapterId := grp mt 1 in
  t <- receiver "trim" (grp mt 2) ;;
  let chapterTitle := decodeEntities (trim t) in
  match chapterId with
  | Some ((_ :: _) as id') =>
    if nonempty chapterTitle
    then ret (chapters ++ [mkChapterRef (Some id') chapterTitle None])
    else ret chapters
  | _ => ret chapters
  end.

Definition genre_item (genres : list jsstring) (mt : jsmatch)
  : M (list jsstring) :=
  g <- receiver "trim" (grp mt 1) ;;
  ret (genres ++ [decodeEntities (trim g)]).

(** A field read as [m ? f(m[0]) : default]. *)
Definition field (mt : option captures) (f : jsstring -> jsstring)
    (default : jsstring) : M jsstring :=
  match mt with
  | Some caps => s <- receiver "trim" (nth 0 caps None) ;; ret (f s)
  | None => ret default
  end.

Definition details_of_page (id bookUrl html : jsstring) : M BookDetails :=
  let titleMatch := extractFirst html title_re in
  title <- field titleMatch (fun s => decodeEntities (trim s))
             (js "Unknown Title") ;;
  let authorMatch := extractFirst html author_re in
  author <- field authorMatch (fun s => decodeEntities (trim s))
              (js "Unknown Author") ;;
  let coverMatch := extractFirst html cover_re in
  coverUrl <-
    match coverMatch with
    | Some caps =>
      c <- receiver "startsWith" (nth 0 caps None) ;;
      ret (if startsWith (js "http") c then c else BASE_URL ++ c)
    | None => ret placeholder
    end ;;
  let descriptionMatch := extractFirst html description_re in
  let description :=
    match descriptionMatch with
    | Some caps => guarded cleanHtmlText (nth 0 caps None)
    | None => js "No description available."
    end in
  let genreListMatch := extractFirst html genreList_re in
  genres <-
    match genreListMatch with
    | Some caps =>
      genreMatches <-
        run_loop (extractAll (tmpl (nth 0 caps None)) genreRegex) ;;
      for_of genreMatches genre_item []
    | None => ret []
    end ;;
  let statusMatch := extractFirst html status_re in
  bookStatus <- field statusMatch (fun s => decodeEntities (trim s))
                  (js "Unknown") ;;
  let novelIdMatch :=
    nullish (extractFirst html novelId_re)
            (extractFirst html novelId_alt_re) in
  chapters <-
    match novelIdMatch with
    | Some caps =>
      let numericalNovelId := nth 0 caps None in
      let chaptersUrl :=
        BASE_URL ++ js "/ajax/chapter-archive?novelId="
        ++ tmpl numericalNovelId in
      console_log
        [AStr (js "Fetching chapter list from AJAX URL: " ++ chaptersUrl)] ;;;
      chaptersResponse <-
        await_fetch fetch
          (mkRequest chaptersUrl None None
             [(js "Referer", bookUrl);
              (js "X-Requested-With", js "XMLHttpRequest")]) ;;
      if negb (ok chaptersResponse) then
        console_error
          [AStr (js "Failed to fetch AJAX chapters: "
                 ++ string_of_Z (status chaptersResponse))] ;;;
        ret []
      else
        chaptersHtml <- await_text chaptersResponse ;;
        chapterMatches <- run_loop (extractAll chaptersHtml chapterRegex) ;;
        chapters <- for_of chapterMatches chapter_item [] ;;
        console_log
          [AStr (js "Parsed " ++ string_of_nat (List.length chapters)
                 ++ js " chapters from AJAX response.")] ;;;
        ret chapters
    | None =>
      console_warn
        [AStr (js "Could not find numerical novel ID to fetch chapter list via AJAX for:");
         AStr id] ;;;
      let chapterListHtmlMatch := extractFirst html chapterList_re in
      match chapterListHtmlMatch with
      | Some caps =>
        chapterMatches <-
          run_loop (extractAll (tmpl (nth 0 caps None)) chapterRegex) ;;
        chapters <- for_of chapterMatches chapter_item [] ;;
        console_log
          [AStr (js "Parsed " ++ string_of_nat (List.length chapters)
                 ++ js " chapters from direct HTML (fallback).")] ;;;
        ret chapters
      | None => ret []
      end
    end ;;
  ret (mkBookDetails id title author (Some coverUrl) description genres
         bookStatus None chapters).

(** [response] is declared [const]: the assignment of the retry
    raises a TypeError once the second request has been awaited. *)
Definition getBookDetails (id : jsstring) : M BookDetails :=
  let bookUrl := BASE_URL ++ js "/" ++ id ++ js ".html" in
  console_log [AStr (js "Fetching details for: " ++ bookUrl)] ;;;
  try_catch
    (response <- await_fetch fetch (GET bookUrl) ;;
     (if negb (ok response) then
        let fallbackUrl := BASE_URL ++ js "/" ++ id in
        console_log
          [AStr (js "Retrying details fetch without .html: "
                 ++ fallbackUrl)] ;;;
        _ <- await_fetch fetch (GET fallbackUrl) ;;
        throw (TypeError (js "Assignment to constant variable."))
      else ret tt) ;;;
     html <- await_text response ;;
     details_of_page id bookUrl html)
    (fun error =>
       console_error
         [AStr (js "Get Book Details Error for ID " ++ id ++ js ":");
          AError error] ;;;
       throw (Error (js "Failed to get details for " ++ id ++ js ": "
                     ++ err_message error))).

Definition content_of_page (id html : jsstring) : M jsstring :=
  let contentMatch := extractFirst html content_re in
  match contentMatch with
  | Some (Some ((_ :: _) as c) :: _) =>
    let content := cleanHtmlText c in
    if negb (nonempty content) then
      console_warn
        [AStr (js "Extracted content is empty for chapter:");
         AStr id] ;;;
      throw (Error (js "Extracted chapter content is empty."))
    else ret content
  | _ =>
    console_error
      [AStr (js "Could not find #chr-content div for chapter:");
       AStr id] ;;;
    throw (Error (js "Chapter content container not found."))
  end.

Definition getContent (id : jsstring) : M jsstring :=
  let chapterUrl := BASE_URL ++ js "/" ++ id ++ js ".html" in
  console_log [AStr (js "Fetching content for: " ++ chapterUrl)] ;;;
  try_catch
    (first <- await_fetch fetch (GET chapterUrl) ;;
     response <-
       (if negb (ok first) then
          let fallbackUrl := BASE_URL ++ js "/" ++ id in
          console_log
            [AStr (js "Retrying content fetch without .html: "
                   ++ fallbackUrl)] ;;;
          second <- await_fetch fetch (GET fallbackUrl) ;;
          if negb (ok second) then
            throw (Error
              (js "Failed to fetch chapter content (tried with and without .html): "
               ++ string_of_Z (status second)))
          else ret second
        else ret first) ;;
     html <- await_text response ;;
     content_of_page id html)
    (fun error =>
       console_error
         [AStr (js "Get Content Error for ID " ++ id ++ js ":");
          AError error] ;;;
       throw (Error (js "Failed to get content for " ++ id ++ js ": "
                     ++ err_message error))).

End WithFetch.

End ReadNovelFullV2.

(** * ReadNovelFull on readwn.com (src/unnamed/part_000) *)

Module ReadWN.

Definition BASE_URL : jsstring := js "https://readnovelfull.com".

Definition currentSiteUrl : jsstring := js "https://www.readwn.com".

Definition extractAll (html : jsstring) (regex : regexp)
  : option (list jsmatch) :=
  if negb (nonempty html) then Some []
  else exec_loop (len html + 2) html regex O [].

(** [extractAll] on a capture: [undefined] is caught by its guard. *)
Definition extractAll_of (v : option jsstring) (regex : regexp)
  : option (list jsmatch) :=
  match v with
  | Some html => extractAll html regex
  | None => Some []
  end.

Definition extractFirst (html : jsstring) (regex : regexp)
  : option captures :=
  if negb (nonempty html) then None
  else
    match string_match regex html with
    | Some mt => Some (groups mt)
    | None => None
    end.

Definition translate_re : regexp :=
  Eval vm_compute in re "&(nbsp|amp|quot|lt|gt|apos);" "g".

Definition translate : list (jsstring * jsstring) :=
  [(js "nbsp", js " "); (js "amp", js "&"); (js "quot", js "`");
   (js "lt", js "<"); (js "gt", js ">"); (js "apos", js "'")].

Definition decimal_re : regexp := Eval vm_compute in re "&#(\d+);" "gi".

Definition hex_re : regexp :=
  Eval vm_compute in re "&#x([0-9A-Fa-f]+);" "gi".

Definition named_pass : jsstring -> jsstring :=
  replace translate_re (fun mt => lookup translate (grp mt 1)).

Definition decimal_pass : jsstring -> jsstring :=
  replace decimal_re (fun mt => char_of_numeral 10 (grp mt 1)).

Definition hex_pass : jsstring -> jsstring :=
  replace hex_re (fun mt => char_of_numeral 16 (grp mt 1)).

Definition decodeEntities (encodedString : jsstring) : jsstring :=
  if negb (nonempty encodedString) then []
  else
    let decoded := named_pass encodedString in
    let decoded := decimal_pass decoded in
    let decoded := hex_pass decoded in
    decoded.

Definition script_re : regexp :=
  Eval vm_compute in re "<script[^>]*>.*?<\/script>" "gis".

Definition style_re : regexp :=
  Eval vm_compute in re "<style[^>]*>.*?<\/style>" "gis".

Definition p_re : regexp := Eval vm_compute in re "<\/?p[^>]*>" "gi".

Definition br_re : regexp := Eval vm_compute in re "<br\s*\/?>" "gi".

Definition tag_re : regexp := Eval vm_compute in re "<[^>]*>" "g".

Definition newlines_re : regexp := Eval vm_compute in re "\n{3,}" "g".

Definition cleanHtmlText (html : jsstring) : jsstring :=
  if negb (nonempty html) then []
  else
    let cleaned := replace_str script_re [] html in
    let cleaned := replace_str style_re [] cleaned in
    let cleaned := replace_str p_re [nl; nl] cleaned in
    let cleaned := replace_str br_re [nl] cleaned in
    let cleaned := replace_str tag_re [] cleaned in
    trim (replace_str newlines_re [nl; nl] (decodeEntities cleaned)).

Definition spaces_re : regexp := Eval vm_compute in re "\s+" "g".

Definition itemRegex : regexp :=
  Eval vm_compute in
    re "<div class=`novel-item[^`]*`>\s*<a href=`(\/novel\/[^`]+)`[^>]*>\s*<img[^>]*src=`([^`]+)`[^>]*alt=`([^`]+)`[^>]*>\s*<\/a>\s*<div class=`novel-detail`>\s*<h3><a[^>]*>([^<]+)<\/a><\/h3>.*?<p>(.*?)<\/p>"
       "gis".

Definition title_re : regexp :=
  Eval vm_compute in re "<h1 class=`novel-title`[^>]*>([^<]+)<\/h1>" "i".

Definition author_re : regexp :=
  Eval vm_compute in
    re "<th scope=`row`>\s*Author\s*<\/th>\s*<td><a[^>]*>([^<]+)<\/a><\/td>"
       "i".

Definition cover_re : regexp :=
  Eval vm_compute in re "<figure class=`cover`>\s*<img[^>]*src=`([^`]+)`" "i".

Definition description_re : regexp :=
  Eval vm_compute in re "<div class=`novel-summary`[^>]*>(.*?)<\/div>" "is".

Definition genreList_re : regexp :=
  Eval vm_compute in
    re "<th scope=`row`>\s*Genre\s*<\/th>\s*<td>(.*?)<\/td>" "is".

Definition genreRegex : regexp :=
  Eval vm_compute in re "<a[^>]*>([^<]+)<\/a>" "gi".

Definition status_re : regexp :=
  Eval vm_compute in
    re "<th scope=`row`>\s*Status\s*<\/th>\s*<td>([^<]+)<\/td>" "i".

Definition chapterList_re : regexp :=
  Eval vm_compute in re "<ul class=`chapter-list`>(.*?)<\/ul>" "is".

Definition chapterRegex : regexp :=
  Eval vm_compute in re "<a href=`(\/novel\/[^`]+)`[^>]*title=`([^`]+)`" "gi".

Definition content_re : regexp :=
  Eval vm_compute in re "<div id=`chapter-container`[^>]*>(.*?)<\/div>" "is".

Definition content_fallback_re : regexp :=
  Eval vm_compute in re "<div class=`chapter-content`[^>]*>(.*?)<\/div>" "is".

Section WithFetch.

Variable fetch : transport.

Definition search_item (results : list SearchResult) (mt : jsmatch)
  : M (list SearchResult) :=
  relativePath <- receiver "split" (grp mt 1) ;;
  let id := last_segment relativePath [] in
  cover <- receiver "startsWith" (grp mt 2) ;;
  let coverUrl :=
    if startsWith (js "http") cover then cover
    else currentSiteUrl ++ cover in
  t <- receiver "trim" (grp mt 4) ;;
  let title := decodeEntities (trim t) in
  let description := guarded cleanHtmlText (grp mt 5) in
  let author : jsstring := [] in
  if nonempty id && nonempty title then
    ret (results ++
         [mkSearchResult id title author (Some coverUrl) description
            (Some relativePath)])
  else ret results.

Definition search (query : jsstring) : M (list SearchResult) :=
  match encodeURIComponent (replace_str spaces_re (js "-") query) with
  | None => throw (URIError (js "URI malformed"))
  | Some q =>
    let searchUrl := currentSiteUrl ++ js "/search/" ++ q in
    console_log [AStr (js "ReadNovelFull Searching: " ++ searchUrl)] ;;;
    try_catch
      (response <-
         await_fetch fetch
           (mkRequest searchUrl None (Some (js "follow")) []) ;;
       if negb (ok response) then
         console_error
           [AStr (js "Search failed: " ++ string_of_Z (status response)
                  ++ js " " ++ statusText response ++ js " at "
                  ++ url response)] ;;;
         ret []
       else
         html <- await_text response ;;
         matches <- run_loop (extractAll html itemRegex) ;;
         console_log
           [AStr (js "Found " ++ string_of_nat (List.length matches)
                  ++ js " potential search results on "
                  ++ url response ++ js ".")] ;;;
         results <- for_of matches search_item [] ;;
         console_log
           [AStr (js "Parsed " ++ string_of_nat (List.length results)
                  ++ js " valid results.")] ;;;
         ret results)
      (fun error =>
         console_error
           [AStr (js "ReadNovelFull Search Error:"); AError error] ;;;
         ret [])
  end.

Definition chapter_item (chapters : list ChapterRef) (mt : jsmatch)
  : M (list ChapterRef) :=
  chapterPath <- receiver "split" (grp mt 1) ;;
  let chapterId := last_segment chapterPath [] in
  t <- receiver "trim" (grp mt 2) ;;
  let chapterTitle := decodeEntities (trim t) in
  if nonempty chapterId && nonempty chapterTitle then
    ret (chapters ++
         [mkChapterRef (Some chapterId) chapterTitle (Some chapterPath)])
  else ret chapters.

Definition genre_item (genres : list jsstring) (mt : jsmatch)
  : M (list jsstring) :=
  g <- receiver "trim" (grp mt 1) ;;
  ret (genres ++ [decodeEntities (trim g)]).

Definition field (mt : option captures) (f : jsstring -> jsstring)
    (default : jsstring) : M jsstring :=
  match mt with
  | Some caps => s <- receiver "trim" (nth 0 caps None) ;; ret (f s)
  | None => ret default
  end.

Definition details_of_page (id html : jsstring) : M BookDetails :=
  let titleMatch := extractFirst html title_re in
  title <- field titleMatch (fun s => decodeEntities (trim s))
             (js "Unknown Title") ;;
  let authorMatch := extractFirst html author_re in
  author <- field authorMatch (fun s => decodeEntities (trim s))
              (js "Unknown Author") ;;
  let coverMatch := extractFirst html cover_re in
  coverUrl <-
    match coverMatch with
    | Some caps =>
      c <- receiver "startsWith" (nth 0 caps None) ;;
      ret (if startsWith (js "http") c then c else currentSiteUrl ++ c)
    | None => ret placeholder
    end ;;
  let descriptionMatch := extractFirst html description_re in
  let description :=
    match descriptionMatch with
    | Some caps => guarded cleanHtmlText (nth 0 caps None)
    | None => js "No description available."
    end in
  let genreListMatch := extractFirst html genreList_re in
  genres <-
    match genreListMatch with
    | Some caps =>
      genreMatches <-
        run_loop (extractAll_of (nth 0 caps None) genreRegex) ;;
      for_of genreMatches genre_item []
    | None => ret []
    end ;;
  let statusMatch := extractFirst html status_re in
  bookStatus <- field statusMatch (fun s => decodeEntities (trim s))
                  (js "Unknown") ;;
  let chapterListHtmlMatch := extractFirst html chapterList_re in
  chapters <-
    match chapterListHtmlMatch with
    | Some caps =>
      chapterMatches <-
        run_loop (extractAll_of (nth 0 caps None) chapterRegex) ;;
      chapters <- for_of chapterMatches chapter_item [] ;;
      console_log
        [AStr (js "Parsed " ++ string_of_nat (List.length chapters)
               ++ js " chapters from direct HTML.")] ;;;
      ret chapters
    | None =>
      console_warn
        [AStr (js "Could not find chapter list (ul.chapter-list) for:");
         AStr id] ;;;
      ret []
    end ;;
  ret (mkBookDetails id title author (Some coverUrl) description genres
         bookStatus None chapters).

Definition getBookDetails (id : jsstring) : M BookDetails :=
  let bookUrl := currentSiteUrl ++ js "/novel/" ++ id in
  console_log [AStr (js "Fetching details for: " ++ bookUrl)] ;;;
  try_catch
    (response <- await_fetch fetch (GET bookUrl) ;;
     (if negb (ok response) then
        throw (Error (js "Failed to fetch book details: "
                      ++ string_of_Z (status response) ++ js " at "
                      ++ bookUrl))
      else ret tt) ;;;
     html <- await_text response ;;
     details_of_page id html)
    (fun error =>
       console_error
         [AStr (js "Get Book Details Error for ID " ++ id ++ js ":");
          AError error] ;;;
       throw (Error (js "Failed to get details for " ++ id ++ js ": "
                     ++ err_message error))).

(** The chain of the two content containers: the first whose capture
    is a non-empty string. *)
Definition content_of_page (chapterUrl html : jsstring) : M jsstring :=
  let contentMatch := extractFirst html content_re in
  contentHtml <-
    match contentMatch with
    | Some (Some ((_ :: _) as c) :: _) => ret c
    | _ =>
      console_error
        [AStr (js "Could not find #chapter-container div for chapter:");
         AStr chapterUrl] ;;;
      let fallbackMatch := extractFirst html content_fallback_re in
      match fallbackMatch with
      | Some (Some ((_ :: _) as c) :: _) =>
        console_log [AStr (js "Used fallback regex for chapter content.")] ;;;
        ret c
      | _ =>
        throw (Error (js "Chapter content container not found (#chapter-container or .chapter-content)."))
      end
    end ;;
  let content := cleanHtmlText contentHtml in
  if negb (nonempty content) then
    console_warn
      [AStr (js "Extracted content is empty for chapter:");
       AStr chapterUrl] ;;;
    throw (Error (js "Extracted chapter content is empty."))
  else ret content.

Definition getContent (id : jsstring) (book : option BookDetails)
  : M jsstring :=
  match book with
  | Some b =>
    if negb (nonempty (bd_id b)) then
      throw (Error (js "Book details (including novel slug 'id') are required to fetch chapter content."))
    else
      let novelSlug := bd_id b in
      let chapterSlug := id in
      let chapterUrl :=
        currentSiteUrl ++ js "/novel/" ++ novelSlug ++ js "/"
        ++ chapterSlug in
      console_log [AStr (js "Fetching content for: " ++ chapterUrl)] ;;;
      try_catch
        (response <- await_fetch fetch (GET chapterUrl) ;;
         (if negb (ok response) then
            throw (Error (js "Failed to fetch chapter content: "
                          ++ string_of_Z (status response) ++ js " for "
                          ++ chapterUrl))
          else ret tt) ;;;
         html <- await_text response ;;
         content_of_page chapterUrl html)
        (fun error =>
           console_error
             [AStr (js "Get Content Error for Chapter ID " ++ id
                    ++ js " (Novel " ++ novelSlug ++ js "):");
              AError error] ;;;
           throw (Error (js "Failed to get content for chapter " ++ id
                         ++ js ": " ++ err_message error)))
  | None =>
    throw (Error (js "Book details (including novel slug 'id') are required to fetch chapter content."))
  end.

End WithFetch.

End ReadWN.

(** * MangaPill (src/unnamed/part_001) *)

Module MangaPill.

Definition baseURL : jsstring := js "https://mangapill.com".

Definition extractAll (html : jsstring) (regex : regexp)
  : option (list jsmatch) :=
  exec_loop (len html + 2) html regex O [].

Definition extractFirst (html : jsstring) (regex : regexp)
  : option captures :=
  match string_match regex html with
  | Some mt => Some (groups mt)
  | None => None
  end.

Definition translate_re : regexp :=
  Eval vm_compute in re "&(nbsp|amp|quot|lt|gt);" "g".

Definition translate : list (jsstring * jsstring) :=
  [(js "nbsp", js " "); (js "amp", js "&"); (js "quot", js "`");
   (js "lt", js "<"); (js "gt", js ">")].

Definition decimal_re : regexp := Eval vm_compute in re "&#(\d+);" "gi".

Definition hex_re : regexp :=
  Eval vm_compute in re "&#x([0-9A-Fa-f]+);" "gi".

Definition decodeEntities (encodedString : jsstring) : jsstring :=
  if negb (nonempty encodedString) then []
  else
    let decoded :=
      replace translate_re (fun mt => lookup translate (grp mt 1))
              encodedString in
    let decoded :=
      replace decimal_re (fun mt => char_of_numeral 10 (grp mt 1)) decoded in
    let decoded :=
      replace hex_re (fun mt => char_of_numeral 16 (grp mt 1)) decoded in
    decoded.

Definition itemRegex : regexp :=
  Eval vm_compute in
    re "<a href=`(\/manga\/[^`]+)`[^>]*>\s*<img[^>]+data-src=`([^`]+)`[^>]*alt=`([^`]+)`[^>]*>\s*<\/a>\s*<div class=`mt-3 font-bold[^`]*`>([^<]+)<\/div>"
       "gi".

Definition title_re : regexp :=
  Eval vm_compute in re "<h1[^>]*>([^<]+)<\/h1>" "i".

Definition cover_re : regexp :=
  Eval vm_compute in
    re "<img[^>]+class=`[^`]*mb-3[^`]*`[^>]*data-src=`([^`]+)`" "i".

Definition cover_alt_re : regexp :=
  Eval vm_compute in
    re "<div class=`flex flex-col sm:flex-row my-3`>\s*<div>\s*<img[^>]+data-src=`([^`]+)`"
       "i".

Definition description_re : regexp :=
  Eval vm_compute in
    re "<p class=`text-sm[^`]*`>\s*([^<]+(?:\s+[^<]+)*)\s*<\/p>" "i".

Definition author_re : regexp :=
  Eval vm_compute in
    re "<div>Author\(s\)<\/div>\s*<div[^>]*>([^<]+)<\/div>" "i".

Definition author_alt_re : regexp :=
  Eval vm_compute in re "<div>Author<\/div>\s*<div[^>]*>([^<]+)<\/div>" "i".

Definition status_re : regexp :=
  Eval vm_compute in re "<div>Status<\/div>\s*<div[^>]*>([^<]+)<\/div>" "i".

Definition type_re : regexp :=
  Eval vm_compute in re "<div>Type<\/div>\s*<div[^>]*>([^<]+)<\/div>" "i".

Definition genreRegex : regexp :=
  Eval vm_compute in
    re "<a[^>]+href=`\/search\?genre=[^`]+`[^>]*>([^<]+)<\/a>" "gi".

Definition chapterList_re : regexp :=
  Eval vm_compute in re "<div id=`chapters`[^>]*>(.*?)<\/div>" "is".

Definition chapterRegex : regexp :=
  Eval vm_compute in
    re "<a href=`(\/chapters\/[^`]+)`[^>]*>\s*([^<]+)\s*<\/a>" "gi".

Definition pageRegex : regexp :=
  Eval vm_compute in
    re "<chapter-page[^>]*>\s*<picture(?:[^>]*\s*>\s*<source[^>]*>)*[^>]*\s*<img[^>]+data-src=`([^`]+)`"
       "gi".

Definition fallbackPageRegex : regexp :=
  Eval vm_compute in re "<img[^>]+data-src=`([^`]+)`" "gi".

Definition chapters_path_re : regexp :=
  Eval vm_compute in re "\/chapters\/\d+" "".

Definition nullish {A} (a : option A) (b : option A) : option A :=
  match a with
  | Some x => Some x
  | None => b
  end.

Definition referer : list (jsstring * jsstring) :=
  [(js "Referer", baseURL ++ js "/")].

Section WithFetch.

Variable fetch : transport.

Definition search_item (results : list SearchResult) (mt : jsmatch)
  : M (list SearchResult) :=
  match grp mt 1 with
  | Some ((_ :: _) as id) =>
    if startsWith (js "/manga/") id then
      let coverUrl := grp mt 2 in
      t <- receiver "trim" (grp mt 4) ;;
      let title := decodeEntities (trim t) in
      let description : jsstring := [] in
      let author : jsstring := [] in
      ret (results ++
           [mkSearchResult id title author coverUrl description None])
    else ret results
  | _ => ret results
  end.

Definition search (query : jsstring) : M (list SearchResult) :=
  match encodeURIComponent query with
  | None => throw (URIError (js "URI malformed"))
  | Some q =>
    let searchURL := baseURL ++ js "/search?q=" ++ q in
    console_log [AStr (js "Searching MangaPill: " ++ searchURL)] ;;;
    try_catch
      (response <-
         await_fetch fetch
           (mkRequest searchURL (Some (js "GET")) None referer) ;;
       if negb (ok response) then
         console_error
           [AStr (js "Search failed: " ++ string_of_Z (status response)
                  ++ js " " ++ statusText response)] ;;;
         ret []
       else
         html <- await_text response ;;
         matches <- run_loop (extractAll html itemRegex) ;;
         console_log
           [AStr (js "Found " ++ string_of_nat (List.length matches)
                  ++ js " potential search results.")] ;;;
         results <- for_of matches search_item [] ;;
         console_log
           [AStr (js "Parsed " ++ string_of_nat (List.length results)
                  ++ js " valid results.")] ;;;
         ret results)
      (fun error =>
         console_error
           [AStr (js "MangaPill Search Error:"); AError error] ;;;
         ret [])
  end.

Definition field (mt : option captures) (default : jsstring)
  : M jsstring :=
  match mt with
  | Some caps =>
    s <- receiver "trim" (nth 0 caps None) ;;
    ret (decodeEntities (trim s))
  | None => ret default
  end.

Definition chapter_item (chapters : list ChapterRef) (mt : jsmatch)
  : M (list ChapterRef) :=
  let chapterId := grp mt 1 in
  t <- receiver "trim" (grp mt 2) ;;
  let chapterTitle := decodeEntities (trim t) in
  ret (chapters ++ [mkChapterRef chapterId chapterTitle None]).

Definition genre_item (genres : list jsstring) (mt : jsmatch)
  : M (list jsstring) :=
  g <- receiver "trim" (grp mt 1) ;;
  ret (genres ++ [decodeEntities (trim g)]).

Definition details_of_page (id html : jsstring) : M BookDetails :=
  let titleMatch := extractFirst html title_re in
  title <- field titleMatch (js "Unknown Title") ;;
  let coverMatch :=
    nullish (extractFirst html cover_re)
            (extractFirst html cover_alt_re) in
  let coverUrl :=
    match coverMatch with
    | Some caps => nth 0 caps None
    | None => Some []
    end in
  let descriptionMatch := extractFirst html description_re in
  description <- field descriptionMatch (js "No description available.") ;;
  let authorMatch :=
    nullish (extractFirst html author_re)
            (extractFirst html author_alt_re) in
  author <- field authorMatch (js "N/A") ;;
  let statusMatch := extractFirst html status_re in
  bookStatus <- field statusMatch (js "N/A") ;;
  let typeMatch := extractFirst html type_re in
  type <- field typeMatch (js "N/A") ;;
  genreMatches <- run_loop (extractAll html genreRegex) ;;
  genres <- for_of genreMatches genre_item [] ;;
  let chapterListHtmlMatch := string_match chapterList_re html in
  chapters <-
    match chapterListHtmlMatch with
    | Some lm =>
      match grp lm 1 with
      | Some ((_ :: _) as chapterListHtml) =>
        chapterMatches <-
          run_loop (extractAll chapterListHtml chapterRegex) ;;
        chapters <- for_of chapterMatches chapter_item [] ;;
        ret (rev chapters)
      | _ => ret []
      end
    | None => ret []
    end ;;
  ret (mkBookDetails id title author coverUrl description genres
         bookStatus (Some type) chapters).

Definition getBookDetails (id : jsstring) : M BookDetails :=
  let bookURL := baseURL ++ id in
  console_log [AStr (js "Fetching details for: " ++ bookURL)] ;;;
  try_catch
    (response <-
       await_fetch fetch (mkRequest bookURL (Some (js "GET")) None referer) ;;
     (if negb (ok response) then
        throw (Error (js "Failed to fetch book details: "
                      ++ string_of_Z (status response)))
      else ret tt) ;;;
     html <- await_text response ;;
     details_of_page id html)
    (fun error =>
       console_error
         [AStr (js "Get Book Details Error for ID " ++ id ++ js ":");
          AError error] ;;;
       throw (Error (js "Failed to get details for " ++ id ++ js ": "
                     ++ err_message error))).

Definition page_item (pages : list jsstring) (mt : jsmatch)
  : M (list jsstring) :=
  match grp mt 1 with
  | Some ((_ :: _) as u) =>
    if includes (js "mangapill") u then ret (pages ++ [u]) else ret pages
  | _ => ret pages
  end.

Definition fallback_page_item (pages : list jsstring) (mt : jsmatch)
  : M (list jsstring) :=
  match grp mt 1 with
  | Some ((_ :: _) as u) =>
    if includes (js "mangapill") u && regex_test chapters_path_re u
    then ret (pages ++ [u])
    else ret pages
  | _ => ret pages
  end.

(** The pages of a chapter: those of the primary pattern, and those
    of the fallback pattern only when the primary gave none. *)
Definition pages_of_page (id html : jsstring) : M (list jsstring) :=
  matches <- run_loop (extractAll html pageRegex) ;;
  console_log
    [AStr (js "Found " ++ string_of_nat (List.length matches)
           ++ js " potential page images.")] ;;;
  pages <- for_of matches page_item [] ;;
  pages <-
    (if (List.length pages =? 0)%nat then
       console_warn
         [AStr (js "No pages extracted using primary regex, trying fallback pattern for chapter:");
          AStr id] ;;;
       fallbackMatches <- run_loop (extractAll html fallbackPageRegex) ;;
       console_log
         [AStr (js "Fallback found "
                ++ string_of_nat (List.length fallbackMatches)
                ++ js " potential images.")] ;;;
       for_of fallbackMatches fallback_page_item pages
     else ret pages) ;;
  if (List.length pages =? 0)%nat then
    console_error
      [AStr (js "Could not extract any page image URLs for chapter:");
       AStr id] ;;;
    throw (Error (js "No page images found for this chapter."))
  else
    console_log
      [AStr (js "Extracted " ++ string_of_nat (List.length pages)
             ++ js " pages for chapter " ++ id)] ;;;
    ret pages.

Definition getContent (id : jsstring) : M (list jsstring) :=
  let chapterURL := baseURL ++ id in
  console_log [AStr (js "Fetching content for: " ++ chapterURL)] ;;;
  try_catch
    (response <-
       await_fetch fetch
         (mkRequest chapterURL (Some (js "GET")) None referer) ;;
     (if negb (ok response) then
        throw (Error (js "Failed to fetch chapter content: "
                      ++ string_of_Z (status response)))
      else ret tt) ;;;
     html <- await_text response ;;
     pages_of_page id html)
    (fun error =>
       console_error
         [AStr (js "Get Content Error for ID " ++ id ++ js ":");
          AError error] ;;;
       throw (Error (js "Failed to get content for " ++ id ++ js ": "
                     ++ err_message error))).

End WithFetch.

End MangaPill.

(** * MangaPill, first revision (src/unnamed/part_002)

    Its operations are those of the later revision with other patterns
    for the description and the pages and another test on the pages of
    the fallback; its entity decoder is the one that differs in kind:
    it has neither the guard on an empty argument nor the hexadecimal
    pass. *)

Module MangaPillV1.

Definition translate_re : regexp :=
  Eval vm_compute in re "&(nbsp|amp|quot|lt|gt);" "g".

Definition translate : list (jsstring * jsstring) :=
  [(js "nbsp", js " "); (js "amp", js "&"); (js "quot", js "`");
   (js "lt", js "<"); (js "gt", js ">")].

Definition decimal_re : regexp := Eval vm_compute in re "&#(\d+);" "gi".

Definition decodeEntities (encodedString : jsstring) : jsstring :=
  replace decimal_re (fun mt => char_of_numeral 10 (grp mt 1))
    (replace translate_re (fun mt => lookup translate (grp mt 1))
             encodedString).

Definition baseURL : jsstring := js "https://mangapill.com".

Definition extractAll (html : jsstring) (regex : regexp)
  : option (list jsmatch) :=
  exec_loop (len html + 2) html regex O [].

Definition extractFirst (html : jsstring) (regex : regexp)
  : option captures :=
  match string_match regex html with
  | Some mt => Some (groups mt)
  | None => None
  end.

Definition itemRegex : regexp :=
  Eval vm_compute in
    re "<a href=`(\/manga\/[^`]+)`[^>]*>\s*<img[^>]+data-src=`([^`]+)`[^>]*alt=`([^`]+)`[^>]*>\s*<\/a>\s*<div class=`mt-3 font-bold[^`]*`>([^<]+)<\/div>"
       "gi".

Definition title_re : regexp :=
  Eval vm_compute in re "<h1[^>]*>([^<]+)<\/h1>" "i".

Definition cover_re : regexp :=
  Eval vm_compute in
    re "<img[^>]+class=`[^`]*mb-3[^`]*`[^>]*data-src=`([^`]+)`" "i".

Definition cover_alt_re : regexp :=
  Eval vm_compute in
    re "<div class=`flex flex-col sm:flex-row my-3`>\s*<div>\s*<img[^>]+data-src=`([^`]+)`"
       "i".

Definition description_re : regexp :=
  Eval vm_compute in re "<p class=`text-sm[^`]*`>\s*([^<]+)\s*<\/p>" "i".

Definition author_re : regexp :=
  Eval vm_compute in
    re "<div>Author\(s\)<\/div>\s*<div[^>]*>([^<]+)<\/div>" "i".

Definition author_alt_re : regexp :=
  Eval vm_compute in re "<div>Author<\/div>\s*<div[^>]*>([^<]+)<\/div>" "i".

Definition status_re : regexp :=
  Eval vm_compute in re "<div>Status<\/div>\s*<div[^>]*>([^<]+)<\/div>" "i".

Definition type_re : regexp :=
  Eval vm_compute in re "<div>Type<\/div>\s*<div[^>]*>([^<]+)<\/div>" "i".

Definition genreRegex : regexp :=
  Eval vm_compute in
    re "<a[^>]+href=`\/search\?genre=[^`]+`[^>]*>([^<]+)<\/a>" "gi".

Definition chapterList_re : regexp :=
  Eval vm_compute in re "<div id=`chapters`[^>]*>(.*?)<\/div>" "is".

Definition chapterRegex : regexp :=
  Eval vm_compute in
    re "<a href=`(\/chapters\/[^`]+)`[^>]*>\s*([^<]+)\s*<\/a>" "gi".

Definition pageRegex : regexp :=
  Eval vm_compute in
    re "<chapter-page[^>]*>\s*<picture>\s*<source[^>]*>\s*<img[^>]+data-src=`([^`]+)`"
       "gi".

Definition fallbackPageRegex : regexp :=
  Eval vm_compute in re "<img[^>]+data-src=`([^`]+)`[^>]*>" "gi".

Definition nullish {A} (a : option A) (b : option A) : option A :=
  match a with
  | Some x => Some x
  | None => b
  end.

Definition referer : list (jsstring * jsstring) :=
  [(js "Referer", baseURL ++ js "/")].

Section WithFetch.

Variable fetch : transport.

Definition search_item (results : list SearchResult) (mt : jsmatch)
  : M (list SearchResult) :=
  match grp mt 1 with
  | Some ((_ :: _) as id) =>
    if startsWith (js "/manga/") id then
      let coverUrl := grp mt 2 in
      t <- receiver "trim" (grp mt 4) ;;
      let title := decodeEntities (trim t) in
      let description : jsstring := [] in
      let author : jsstring := [] in
      ret (results ++
           [mkSearchResult id title author coverUrl description None])
    else ret results
  | _ => ret results
  end.

Definition search (query : jsstring) : M (list SearchResult) :=
  match encodeURIComponent query with
  | None => throw (URIError (js "URI malformed"))
  | Some q =>
    let searchURL := baseURL ++ js "/search?q=" ++ q in
    console_log [AStr (js "Searching MangaPill: " ++ searchURL)] ;;;
    try_catch
      (response <-
         await_fetch fetch
           (mkRequest searchURL (Some (js "GET")) None referer) ;;
       if negb (ok response) then
         console_error
           [AStr (js "Search failed: " ++ string_of_Z (status response)
                  ++ js " " ++ statusText response)] ;;;
         ret []
       else
         html <- await_text response ;;
         matches <- run_loop (extractAll html itemRegex) ;;
         console_log
           [AStr (js "Found " ++ string_of_nat (List.length matches)
                  ++ js " potential search results.")] ;;;
         results <- for_of matches search_item [] ;;
         console_log
           [AStr (js "Parsed " ++ string_of_nat (List.length results)
                  ++ js " valid results.")] ;;;
         ret results)
      (fun error =>
         console_error
           [AStr (js "MangaPill Search Error:"); AError error] ;;;
         ret [])
  end.

Definition field (mt : option captures) (default : jsstring)
  : M jsstring :=
  match mt with
  | Some caps =>
    s <- receiver "trim" (nth 0 caps None) ;;
    ret (decodeEntities (trim s))
  | None => ret default
  end.

Definition chapter_item (chapters : list ChapterRef) (mt : jsmatch)
  : M (list ChapterRef) :=
  let chapterId := grp mt 1 in
  t <- receiver "trim" (grp mt 2) ;;
  let chapterTitle := decodeEntities (trim t) in
  ret (chapters ++ [mkChapterRef chapterId chapterTitle None]).

Definition genre_item (genres : list jsstring) (mt : jsmatch)
  : M (list jsstring) :=
  g <- receiver "trim" (grp mt 1) ;;
  ret (genres ++ [decodeEntities (trim g)]).

Definition details_of_page (id html : jsstring) : M BookDetails :=
  let titleMatch := extractFirst html title_re in
  title <- field titleMatch (js "Unknown Title") ;;
  let coverMatch :=
    nullish (extractFirst html cover_re)
            (extractFirst html cover_alt_re) in
  let coverUrl :=
    match coverMatch with
    | Some caps => nth 0 caps None
    | None => Some []
    end in
  let descriptionMatch := extractFirst html description_re in
  description <- field descriptionMatch (js "No description available.") ;;
  let authorMatch :=
    nullish (extractFirst html author_re)
            (extractFirst html author_alt_re) in
  author <- field authorMatch (js "N/A") ;;
  let statusMatch := extractFirst html status_re in
  bookStatus <- field statusMatch (js "N/A") ;;
  let typeMatch := extractFirst html type_re in
  type <- field typeMatch (js "N/A") ;;
  genreMatches <- run_loop (extractAll html genreRegex) ;;
  genres <- for_of genreMatches genre_item [] ;;
  let chapterListHtmlMatch := string_match chapterList_re html in
  chapters <-
    match chapterListHtmlMatch with
    | Some lm =>
      match grp lm 1 with
      | Some ((_ :: _) as chapterListHtml) =>
        chapterMatches <-
          run_loop (extractAll chapterListHtml chapterRegex) ;;
        chapters <- for_of chapterMatches chapter_item [] ;;
        ret (rev chapters)
      | _ => ret []
      end
    | None => ret []
    end ;;
  ret (mkBookDetails id title author coverUrl description genres
         bookStatus (Some type) chapters).

Definition getBookDetails (id : jsstring) : M BookDetails :=
  let bookURL := baseURL ++ id in
  console_log [AStr (js "Fetching details for: " ++ bookURL)] ;;;
  try_catch
    (response <-
       await_fetch fetch (mkRequest bookURL (Some (js "GET")) None referer) ;;
     (if negb (ok response) then
        throw (Error (js "Failed to fetch book details: "
                      ++ string_of_Z (status response)))
      else ret tt) ;;;
     html <- await_text response ;;
     details_of_page id html)
    (fun error =>
       console_error
         [AStr (js "Get Book Details Error for ID " ++ id ++ js ":");
          AError error] ;;;
       throw (Error (js "Failed to get details for " ++ id ++ js ": "
                     ++ err_message error))).

Definition page_item (pages : list jsstring) (mt : jsmatch)
  : M (list jsstring) :=
  match grp mt 1 with
  | Some ((_ :: _) as u) =>
    if includes (js "mangapill") u then ret (pages ++ [u]) else ret pages
  | _ => ret pages
  end.

Definition fallback_page_item (pages : list jsstring) (mt : jsmatch)
  : M (list jsstring) :=
  match grp mt 1 with
  | Some ((_ :: _) as u) =>
    if includes (js "mangapill") u && includes (js "/chapters/") u
    then ret (pages ++ [u])
    else ret pages
  | _ => ret pages
  end.

Definition pages_of_page (id html : jsstring) : M (list jsstring) :=
  matches <- run_loop (extractAll html pageRegex) ;;
  console_log
    [AStr (js "Found " ++ string_of_nat (List.length matches)
           ++ js " potential page images.")] ;;;
  pages <- for_of matches page_item [] ;;
  pages <-
    (if (List.length pages =? 0)%nat then
       console_warn
         [AStr (js "No pages extracted using primary regex, trying fallback pattern for chapter:");
          AStr id] ;;;
       fallbackMatches <- run_loop (extractAll html fallbackPageRegex) ;;
       console_log
         [AStr (js "Fallback found "
                ++ string_of_nat (List.length fallbackMatches)
                ++ js " potential images.")] ;;;
       for_of fallbackMatches fallback_page_item pages
     else ret pages) ;;
  if (List.length pages =? 0)%nat then
    console_error
      [AStr (js "Could not extract any page image URLs for chapter:");
       AStr id] ;;;
    throw (Error (js "No page images found for this chapter."))
  else
    console_log
      [AStr (js "Extracted " ++ string_of_nat (List.length pages)
             ++ js " pages for chapter " ++ id)] ;;;
    ret pages.

Definition getContent (id : jsstring) : M (list jsstring) :=
  let chapterURL := baseURL ++ id in
  console_log [AStr (js "Fetching content for: " ++ chapterURL)] ;;;
  try_catch
    (response <-
       await_fetch fetch
         (mkRequest chapterURL (Some (js "GET")) None referer) ;;
     (if negb (ok response) then
        throw (Error (js "Failed to fetch chapter content: "
                      ++ string_of_Z (status response)))
      else ret tt) ;;;
     html <- await_text response ;;
     pages_of_page id html)
    (fun error =>
       console_error
         [AStr (js "Get Content Error for ID " ++ id ++ js ":");
          AError error] ;;;
       throw (Error (js "Failed to get content for " ++ id ++ js ": "
                     ++ err_message error))).

End WithFetch.

End MangaPillV1.

(** * ReadNovelFull through a DOM (src/ReadFullNovelV2.js, second half)

    The four exported functions that follow the module in the same
    file read the page through [DOMParser] and selectors instead of
    patterns.  The DOM is the host's: a [Dom] holds the operations the
    functions call on it, none of which raises ([parseFromString] with
    [text/html] always gives a document, [querySelector] and
    [getAttribute] give [null] when there is nothing to give). *)

Record Dom : Type := mkDom {
  node : Type;
  parseFromString : jsstring -> node;
  querySelector : node -> jsstring -> option node;
  querySelectorAll : node -> jsstring -> list node;
  textContent : node -> jsstring;
  getAttribute : node -> jsstring -> option jsstring;
  innerHTML : node -> jsstring
}.

(** The object [getBookDetails] of this half returns. *)
Record BookSummary : Type := mkBookSummary {
  bs_id : jsstring;
  bs_title : jsstring;
  bs_author : jsstring;
  bs_coverUrl : option jsstring;
  bs_description : jsstring
}.

Module ReadNovelFullDom.

Definition BASE_URL : jsstring := js "https://readnovelfull.com".

Definition br_re : regexp := Eval vm_compute in re "<br\s*\/?>" "gi".

Definition tag_re : regexp := Eval vm_compute in re "<[^>]*>" "g".

Definition nbsp_re : regexp := Eval vm_compute in re "&nbsp;" "g".

(** [link ? link.split('/').pop() : ''] *)
Definition id_of_link (link : option jsstring) : jsstring :=
  match link with
  | Some ((_ :: _) as l) => last_segment l []
  | _ => []
  end.

(** The clean up of [getContent], applied to the [innerHTML] of the
    content element. *)
Definition clean_content (html : jsstring) : jsstring :=
  trim (replace_str nbsp_re (js " ")
          (replace_str tag_re [] (replace_str br_re [nl] html))).

Section WithDom.

Variable dom : Dom.

Definition text_or (e : option (node dom)) (default : jsstring)
  : jsstring :=
  match e with
  | Some x => trim (textContent dom x)
  | None => default
  end.

Definition src_or (e : option (node dom)) : option jsstring :=
  match e with
  | Some x => getAttribute dom x (js "src")
  | None => Some placeholder
  end.

(** The callback of [novelElements.forEach]. *)
Definition search_element (results : list SearchResult)
    (element : node dom) : list SearchResult :=
  let titleElement := querySelector dom element (js ".novel-title") in
  let authorElement := querySelector dom element (js ".author") in
  let coverElement := querySelector dom element (js ".novel-cover img") in
  let descriptionElement :=
    querySelector dom element (js ".novel-desc") in
  match titleElement with
  | Some te =>
    let title := trim (textContent dom te) in
    let link := getAttribute dom te (js "href") in
    let id := id_of_link link in
    results ++
    [mkSearchResult id title
       (text_or authorElement (js "Unknown Author"))
       (src_or coverElement)
       (text_or descriptionElement (js "No description available"))
       None]
  | None => results
  end.

Definition search (query : jsstring) (fetch : transport)
  : M (list SearchResult) :=
  try_catch
    (match encodeURIComponent query with
     | None => throw (URIError (js "URI malformed"))
     | Some q =>
       let searchUrl :=
         BASE_URL ++ js "/novel-list/search?keyword=" ++ q in
       response <- await_fetch fetch (GET searchUrl) ;;
       html <- await_text response ;;
       let doc := parseFromString dom html in
       let novelElements :=
         querySelectorAll dom doc (js "#list-page .list-novel .row") in
       ret (fold_left search_element novelElements [])
     end)
    (fun error =>
       console_error [AStr (js "Search error:"); AError error] ;;;
       ret []).

Definition getBookDetails (id : jsstring) (fetch : transport)
  : M BookSummary :=
  try_catch
    (let bookUrl := BASE_URL ++ js "/" ++ id in
     response <- await_fetch fetch (GET bookUrl) ;;
     html <- await_text response ;;
     let doc := parseFromString dom html in
     let titleElement := querySelector dom doc (js ".title") in
     let authorElement := querySelector dom doc (js ".author") in
     let coverElement := querySelector dom doc (js ".book img") in
     let descriptionElement := querySelector dom doc (js ".desc-text") in
     match titleElement with
     | None => throw (Error (js "Book not found"))
     | Some te =>
       ret (mkBookSummary id (trim (textContent dom te))
              (text_or authorElement (js "Unknown Author"))
              (src_or coverElement)
              (text_or descriptionElement
                 (js "No description available")))
     end)
    (fun error =>
       console_error
         [AStr (js "Get book details error:"); AError error] ;;;
       throw (Error (js "Failed to fetch book details"))).

Definition getContent (id : jsstring) (fetch : transport) : M jsstring :=
  try_catch
    (let chapterUrl := BASE_URL ++ js "/" ++ id in
     response <- await_fetch fetch (GET chapterUrl) ;;
     html <- await_text response ;;
     let doc := parseFromString dom html in
     let contentElement := querySelector dom doc (js "#chr-content") in
     match contentElement with
     | None => throw (Error (js "Chapter content not found"))
     | Some ce => ret (clean_content (innerHTML dom ce))
     end)
    (fun error =>
       console_error [AStr (js "Get content error:"); AError error] ;;;
       throw (Error (js "Failed to fetch book content"))).

(** The callback of [chapterElements.forEach]. *)
Definition chapter_element (chapters : list ChapterRef)
    (element : node dom) : list ChapterRef :=
  let title := trim (textContent dom element) in
  let link := getAttribute dom element (js "href") in
  let chapterId := id_of_link link in
  if nonempty chapterId
  then chapters ++ [mkChapterRef (Some chapterId) title None]
  else chapters.

Definition getChapterList (id : jsstring) (fetch : transport)
  : M (list ChapterRef) :=
  try_catch
    (let bookUrl := BASE_URL ++ js "/" ++ id in
     response <- await_fetch fetch (GET bookUrl) ;;
     html <- await_text response ;;
     let doc := parseFromString dom html in
     let chapterElements :=
       querySelectorAll dom doc (js "#chapter-list a") in
     ret (fold_left chapter_element chapterElements []))
    (fun error =>
       console_error
         [AStr (js "Get chapter list error:"); AError error] ;;;
       ret []).

End WithDom.

End ReadNovelFullDom.

Definition qmin (mn : nat) (mx : option nat) : nat :=
  match mx with
  | Some x => Nat.min mn x
  | None => mn
  end.

Fixpoint minlen (r : regex) : nat :=
  match r with
  | Empty | EndAnchor => 0
  | Char _ | Dot | Class _ _ => 1
  | Seq r1 r2 => minlen r1 + minlen r2
  | Alt r1 r2 => Nat.min (minlen r1) (minlen r2)
  | Quant _ mn mx r1 => qmin mn mx * minlen r1
  | Group _ r1 => minlen r1
  end.

Definition suffix_of (s' s : jsstring) : Prop := exists p, s = p ++ s'.

(** What a successful match owes to its continuation. *)
Definition passes (n : nat) (s : jsstring) (k : cont) (res : jsstring * captures) : Prop :=
  exists s' caps', k s' caps' = Some res /\ suffix_of s' s
                   /\ (length s' + n <= length s)%nat.

Definition advancing (re : regexp) : bool :=
  global (rflags re) && (0 <? minlen (ast re))%nat.

(** [mt] is an occurrence of its text in [html] at its index. *)
Definition occurs_in (html : jsstring) (mt : jsmatch) : Prop :=
  firstn (length (matched mt)) (skipn (index mt) html) = matched mt
  /\ (index mt + length (matched mt) <= length html)%nat.

(** [mt] is the leftmost match of [re] in [html] from position [from]. *)
Definition leftmost (re : regexp) (html : jsstring) (from : nat)
    (mt : jsmatch) : Prop :=
  (from <= index mt)%nat /\ occurs_in html mt
  /\ (forall j, (from <= j < index mt)%nat ->
        match_here re (skipn j html) = None)
  /\ exists rest caps,
       match_here re (skipn (index mt) html) = Some (rest, caps)
       /\ groups mt = caps
       /\ skipn (index mt) html = matched mt ++ rest.

(** The matches are the successive leftmost ones, each sought from the
    end of the one before, starting at [from]. *)
Fixpoint document_order (re : regexp) (html : jsstring) (from : nat)
    (l : list jsmatch) : Prop :=
  match l with
  | [] => forall j, (from <= j <= length html)%nat ->
                    match_here re (skipn j html) = None
  | mt :: l' =>
    leftmost re html from mt
    /\ document_order re html (index mt + length (matched mt)) l'
  end.

Definition error_reported (w w' : world) : Prop :=
  exists pre a, console w' = console w ++ pre ++ [mkLog LErr a].

(** A computation that ends, and not by an exception. *)
Definition returns {A} (c : M A) : Prop :=
  forall w, exists a w', c w = (Ret a, w').

Definition no_diverge {A} (c : M A) : Prop :=
  forall w, fst (c w) <> Diverge.


(** The groups every successful match of [r] has set. *)
Fixpoint mandatory (r : regex) : list nat :=
  match r with
  | Seq r1 r2 =>
    filter (fun i => negb (existsb (Nat.eqb i) (groups_of r2))) (mandatory r1)
    ++ mandatory r2
  | Quant _ mn mx r1 => if (0 <? qmin mn mx)%nat then mandatory r1 else []
  | Group idx r1 => idx :: mandatory r1
  | _ => []
  end.

(** Every capturing group of the pattern takes part in every match: no
    [match[k]] of a successful match is [undefined]. *)
Definition all_defined (re : regexp) : bool :=
  forallb (fun i => existsb (Nat.eqb i) (mandatory (ast re)))
          (seq 0 (ngroups re)).

Definition defined (caps : captures) (n : nat) : Prop :=
  length caps = n /\ forall i, (i < n)%nat -> exists v, nth i caps None = Some v.

(** How the captures after a match of [r] relate to those before. *)
Definition caps_inv (r : regex) (caps caps' : captures) : Prop :=
  length caps' = length caps
  /\ (forall i, In i (mandatory r) -> (i < length caps)%nat ->
        nth i caps' None <> None)
  /\ (forall i, ~ In i (groups_of r) -> nth i caps' None = nth i caps None).

(** Partial correctness: whatever [c] returns satisfies [P]. *)
Definition sound {A} (c : M A) (P : A -> Prop) : Prop :=
  forall w a w', c w = (Ret a, w') -> P a.

(** Total correctness: [c] returns, and what it returns satisfies [P]. *)
Definition ensures {A} (c : M A) (P : A -> Prop) : Prop :=
  forall w, exists a w', c w = (Ret a, w') /\ P a.

(** A transport that answers every request with a successful response
    whose body can be read. *)
Definition answering (fetch : transport) : Prop :=
  forall rq, exists r html, fetch rq = Ret r /\ ok r = true /\ text r = Ret html.

(** The non-empty first capture of a match: what the test
    [!m || !m[0]] looks for. *)
Definition first_capture (mt : option captures) : option jsstring :=
  match mt with
  | Some (Some (c0 :: c) :: _) => Some (c0 :: c)
  | _ => None
  end.

(** A cover that is a string beginning with [http]: the test the
    modules themselves apply before they prefix their origin. *)
Definition begins_http (v : option jsstring) : Prop :=
  exists u, v = Some u /\ startsWith (js "http") u = true.

(** A search result with an identifier and a title. *)
Definition well_formed (r : SearchResult) : Prop :=
  nonempty (sr_id r) = true /\ nonempty (sr_title r) = true.

(** The URLs [ReadNovelFullV2] builds from an identifier: with the
    [.html] suffix first, without it for the retry. *)
Module V2Urls.
Import ReadNovelFullV2.

Definition searchRequest (q : jsstring) : request :=
  GET (BASE_URL ++ js "/novel-list/search?keyword=" ++ q).

Definition bookUrl (id : jsstring) : jsstring :=
  BASE_URL ++ js "/" ++ id ++ js ".html".

Definition fallbackUrl (id : jsstring) : jsstring :=
  BASE_URL ++ js "/" ++ id.
End V2Urls.

Module ReadWNUrls.
Import ReadWN.

Definition searchRequest (q : jsstring) : request :=
  mkRequest (currentSiteUrl ++ js "/search/" ++ q) None
            (Some (js "follow")) [].

Definition bookUrl (id : jsstring) : jsstring :=
  currentSiteUrl ++ js "/novel/" ++ id.

Definition chapterUrl (novelSlug chapterSlug : jsstring) : jsstring :=
  currentSiteUrl ++ js "/novel/" ++ novelSlug ++ js "/" ++ chapterSlug.
End ReadWNUrls.

Module MangaPillUrls.
Import MangaPill.

Definition searchRequest (q : jsstring) : request :=
  mkRequest (baseURL ++ js "/search?q=" ++ q) (Some (js "GET")) None referer.

Definition pageRequest (id : jsstring) : request :=
  mkRequest (baseURL ++ id) (Some (js "GET")) None referer.
End MangaPillUrls.




(** ** Direct descriptions of text transformations *)

(** Whether a match of [r] can begin with the character [x]; always
    [true] when [r] can match without consuming. *)
Fixpoint starts (fl : flags) (r : regex) (x : Z) : bool :=
  match r with
  | Char c => canon fl x =? canon fl c
  | Class neg items => class_matches fl neg items x
  | Seq r1 r2 => if (0 <? minlen r1)%nat then starts fl r1 x else true
  | Alt r1 r2 => starts fl r1 x || starts fl r2 x
  | Quant _ mn mx r1 => if (0 <? qmin mn mx)%nat then starts fl r1 x else true
  | Group _ r1 => starts fl r1 x
  | _ => true
  end.

Fixpoint take_while (p : Z -> bool) (s : jsstring) : jsstring :=
  match s with
  | x :: s' => if p x then x :: take_while p s' else []
  | [] => []
  end.

Fixpoint drop_while (p : Z -> bool) (s : jsstring) : jsstring :=
  match s with
  | x :: s' => if p x then drop_while p s' else s
  | [] => []
  end.

(** Collapsing line breaks, read from the specification: a run of [n]
    consecutive line breaks is kept when [n] is 1 or 2 and becomes two
    line breaks when [n] is 3 or more.  [run] is the length of the run
    that ends where [s] begins. *)
Fixpoint collapse_run (run : nat) (s : jsstring) : jsstring :=
  match s with
  | [] => repeat nl (Nat.min run 2)
  | c :: s' =>
    if c =? nl then collapse_run (S run) s'
    else repeat nl (Nat.min run 2) ++ c :: collapse_run 0 s'
  end.

Definition collapse (s : jsstring) : jsstring := collapse_run 0 s.


(** A pattern that begins with the literal character [c]. *)
Definition begins_with (c : Z) (re : regexp) : Prop :=
  exists r', ast re = Seq (Char c) r'.

Definition is_nl (c : Z) : bool := c =? nl.

(** No run of three line breaks anywhere in the text. *)
Definition runs_ok (s : jsstring) : Prop :=
  forall j, (length (take_while is_nl (skipn j s)) <= 2)%nat.

(** [u] is a contiguous piece of [s]. *)
Definition piece_of (u s : jsstring) : Prop :=
  exists a b, s = a ++ u ++ b.

Definition trimmed (s : jsstring) : Prop :=
  trimStart s = s /\ trimEnd s = s.

(** Hexadecimal digits, as the class [[0-9A-Fa-f]] reads them. *)
Definition is_hex (c : Z) : bool :=
  ((48 <=? c) && (c <=? 57)) || ((65 <=? c) && (c <=? 70))
  || ((97 <=? c) && (c <=? 102)).

Definition gi : flags := mkFlags true true false.

(** The pattern of a literal word, and of a choice between patterns, in
    the shape [parse] gives them. *)
Definition word_of (w : jsstring) : regex := seq_of (map Char w).

Fixpoint alt_of (rs : list regex) : regex :=
  match rs with
  | [] => Empty
  | [r] => r
  | r :: rs' => Alt r (alt_of rs')
  end.

(** The first of the words [ws] that begins [s] and after which [k]
    succeeds. *)
Fixpoint try_words (k : cont) (ws : list jsstring) (s : jsstring)
    (caps : captures) : mresult :=
  match ws with
  | [] => None
  | w :: ws' =>
    orelse (if startsWith w s then k (skipn (length w) s) caps else None)
           (fun _ => try_words k ws' s caps)
  end.

(** The names the decoder of the readwn module knows. *)
Definition known_names : list jsstring := map fst ReadWN.translate.

Definition not_gt (x : Z) : bool := negb (x =? 62).

(** Tags stripped, read from the specification: a [<] with a [>]
    somewhere after it opens a tag, which runs to the first [>]; the
    text outside tags is kept.  [inside] tells whether [s] begins inside
    a tag. *)
Fixpoint strip_tags (inside : bool) (s : jsstring) : jsstring :=
  match s with
  | [] => []
  | c :: s' =>
    if inside then
      if c =? 62 then strip_tags false s' else strip_tags true s'
    else if (c =? 60) && existsb (Z.eqb 62) s' then strip_tags true s'
    else c :: strip_tags false s'
  end.

(** ** Texts read without patterns

    What the decoder and the cleaner do to a text, said of the text
    alone: none of the descriptions below uses a pattern of the
    modules. *)

(** A small letter as its capital. *)
Definition upper (c : Z) : Z :=
  if (97 <=? c) && (c <=? 122) then c - 32 else c.

(** [s] begins with the word [w]; with [fold], capitals and small
    letters are taken as the same. *)
Fixpoint begins_text (fold : bool) (w s : jsstring) : bool :=
  match w, s with
  | [], _ => true
  | c :: w', x :: s' =>
    (if fold then upper x =? upper c else x =? c) && begins_text fold w' s'
  | _ :: _, [] => false
  end.

(** A text rewritten from left to right.  Where [item] recognises
    something at the head of what is left, it gives the text to put in
    its place and the number of characters it takes up: the item is
    replaced and the reading goes on after it.  Elsewhere the
    character is kept.  [skip] characters of [s] belong to the item
    just replaced. *)
Fixpoint rewrite_items (item : jsstring -> option (jsstring * nat))
    (skip : nat) (s : jsstring) : jsstring :=
  match s with
  | [] => []
  | x :: s' =>
    match skip with
    | S k => rewrite_items item k s'
    | O =>
      match item (x :: s') with
      | Some (by_, S n) => by_ ++ rewrite_items item n s'
      | _ => x :: rewrite_items item O s'
      end
    end
  end.

(** The six named references of the specification and the character
    of each; [&nbsp;] stands for an ordinary space. *)
Definition named_characters : list (jsstring * Z) :=
  [(js "nbsp", 32); (js "amp", 38); (js "quot", 34); (js "lt", 60);
   (js "gt", 62); (js "apos", 39)].

(** The five names the other decoders know. *)
Definition named_without_apos : list (jsstring * Z) :=
  firstn 5 named_characters.

(** The first name of the table that, followed by [;], begins [t]. *)
Fixpoint named_entry (table : list (jsstring * Z)) (t : jsstring)
  : option (jsstring * Z) :=
  match table with
  | [] => None
  | (n, c) :: table' =>
    if begins_text false (n ++ [59]) t then Some (n, c)
    else named_entry table' t
  end.

(** A named reference at the head of a text: [&], a name, [;]. *)
Definition named_reference (table : list (jsstring * Z)) (s : jsstring)
  : option (jsstring * nat) :=
  if begins_text false (js "&") s then
    match named_entry table (skipn 1 s) with
    | Some (n, c) => Some ([c], (length n + 2)%nat)
    | None => None
    end
  else None.

(** A numeral at the head of [t], all the digits there are, with a
    [;] after it: the character of its value and the number of
    characters read. *)
Definition numeral_at (digit : Z -> bool) (radix : Z) (t : jsstring)
  : option (jsstring * nat) :=
  let ds := take_while digit t in
  if nonempty ds && begins_text false (js ";") (drop_while digit t)
  then Some (fromCharCode (parseInt ds radix), S (length ds))
  else None.

(** A decimal reference at the head of a text: [&#], digits, [;]. *)
Definition decimal_reference (s : jsstring) : option (jsstring * nat) :=
  if begins_text false (js "&#") s then
    match numeral_at is_dec 10 (skipn 2 s) with
    | Some (c, n) => Some (c, (2 + n)%nat)
    | None => None
    end
  else None.

(** A hexadecimal reference: [&#x] or [&#X], hexadecimal digits, [;]. *)
Definition hex_reference (s : jsstring) : option (jsstring * nat) :=
  if begins_text true (js "&#x") s then
    match numeral_at is_hex 16 (skipn 3 s) with
    | Some (c, n) => Some (c, (3 + n)%nat)
    | None => None
    end
  else None.

(** The three passes of the decoder, each over the whole text, and the
    decoder of the specification (section 4.1): names, then decimal
    references, then hexadecimal ones. *)
Definition decode_named (table : list (jsstring * Z)) : jsstring -> jsstring :=
  rewrite_items (named_reference table) 0.

Definition decode_decimal : jsstring -> jsstring :=
  rewrite_items decimal_reference 0.

Definition decode_hex : jsstring -> jsstring :=
  rewrite_items hex_reference 0.

Definition decode_references (s : jsstring) : jsstring :=
  decode_hex (decode_decimal (decode_named named_characters s)).

(** The number of characters up to the first [>], that one included. *)
Fixpoint through_gt (s : jsstring) : option nat :=
  match s with
  | [] => None
  | c :: s' => if c =? 62 then Some 1%nat else option_map S (through_gt s')
  end.

(** The number of characters up to the first occurrence of the word
    [w], the word included, whatever the case of its letters. *)
Fixpoint through_word (w s : jsstring) : option nat :=
  if begins_text true w s then Some (length w)
  else
    match s with
    | [] => None
    | _ :: s' => option_map S (through_word w s')
    end.

(** A block [<name ...> ... </name>] at the head of a text: the
    characters [<name], what follows up to the first [>], and the
    content up to the first closing tag [</name>].  Its length. *)
Definition element (name : jsstring) (s : jsstring) : option nat :=
  if begins_text true (60 :: name) s then
    let after := skipn (S (length name)) s in
    match through_gt after with
    | Some n1 =>
      match through_word (60 :: 47 :: name ++ [62]) (skipn n1 after) with
      | Some n2 => Some (S (length name) + n1 + n2)%nat
      | None => None
      end
    | None => None
    end
  else None.

(** A paragraph tag at the head of a text: [<p] or [</p], in either
    case, and what follows up to the first [>].  Its length. *)
Definition paragraph_tag (s : jsstring) : option nat :=
  if begins_text true (js "</p") s
  then option_map (fun n => (3 + n)%nat) (through_gt (skipn 3 s))
  else if begins_text true (js "<p") s
  then option_map (fun n => (2 + n)%nat) (through_gt (skipn 2 s))
  else None.

(** A line-break tag at the head of a text: [<br], in either case,
    white space if any, then [>] or [/>].  Its length. *)
Definition br_tag (s : jsstring) : option nat :=
  if begins_text true (js "<br") s then
    let blank := length (take_while is_space (skipn 3 s)) in
    let rest := drop_while is_space (skipn 3 s) in
    if begins_text false (js ">") rest then Some (4 + blank)%nat
    else if begins_text false (js "/>") rest then Some (5 + blank)%nat
    else None
  else None.

(** Every item [item] recognises, replaced by [by_]. *)
Definition cut (item : jsstring -> option nat) (by_ : jsstring)
  : jsstring -> jsstring :=
  rewrite_items (fun s => option_map (fun n => (by_, n)) (item s)) 0.

(** The pipeline of the specification (section 4.2), stage by stage. *)
Definition remove_script : jsstring -> jsstring :=
  cut (element (js "script")) [].

Definition remove_style : jsstring -> jsstring :=
  cut (element (js "style")) [].

Definition paragraph_breaks : jsstring -> jsstring :=
  cut paragraph_tag [nl; nl].

Definition line_breaks : jsstring -> jsstring := cut br_tag [nl].

Definition clean_pipeline (html : jsstring) : jsstring :=
  trim (collapse (decode_references (strip_tags false
    (line_breaks (paragraph_breaks (remove_style (remove_script html))))))).

(** The pattern [re], its matches replaced through [f], reads a text
    as [item] does: where the pattern matches at the head of a text,
    [item] recognises the same characters there and gives the same
    replacement, and where it does not, [item] recognises nothing. *)
Definition read_by (re : regexp) (f : jsmatch -> jsstring)
    (item : jsstring -> option (jsstring * nat)) : Prop :=
  forall i s,
    match match_here re s with
    | Some (rest, caps) =>
      exists n, item s = Some (f (mk_match i s rest caps), S n)
                /\ rest = skipn (S n) s /\ (S n <= length s)%nat
    | None => item s = None
    end.


(** [id] is the last segment of [path]: it holds no slash, and what
    comes before it in [path] is empty or ends with a slash. *)
Definition last_segment_of (id path : jsstring) : Prop :=
  ~ In 47 id
  /\ exists pre, path = pre ++ id
                 /\ (pre = [] \/ exists pre', pre = pre' ++ [47]).

(** ** Sites, links and references

    What the claims about identifiers and covers speak of, said
    without the code: a site that is up, and the URL a reference found
    in a page stands for. *)







(** ** Source adapters

    A module as the specification sees it (section 4.5): its operations,
    the request each issues and the patterns of the fields the claims
    speak of. *)
Record SourceAdapter : Type := mkAdapter {
  sa_id : jsstring;
  sa_search : transport -> jsstring -> M (list SearchResult);
  sa_getBookDetails : transport -> jsstring -> M BookDetails;
  sa_searchRequest : jsstring -> option request;
  sa_items : jsstring -> option (list jsmatch);
  sa_bookRequest : jsstring -> request;
  sa_title : jsstring -> option captures;
  sa_author : jsstring -> option captures;
  sa_author_default : jsstring
}.

Definition readNovelFullV2 : SourceAdapter :=
  mkAdapter (js "readnovelfull")
    ReadNovelFullV2.search ReadNovelFullV2.getBookDetails
    (fun query => option_map V2Urls.searchRequest (encodeURIComponent query))
    (fun html =>
       ReadNovelFullV2.extractAll html ReadNovelFullV2.comprehensiveItemRegex)
    (fun id => GET (V2Urls.bookUrl id))
    (fun html => ReadNovelFullV2.extractFirst html ReadNovelFullV2.title_re)
    (fun html => ReadNovelFullV2.extractFirst html ReadNovelFullV2.author_re)
    (js "Unknown Author").

Definition readwn : SourceAdapter :=
  mkAdapter (js "readnovelfull")
    ReadWN.search ReadWN.getBookDetails
    (fun query =>
       option_map ReadWNUrls.searchRequest
         (encodeURIComponent (replace_str ReadWN.spaces_re (js "-") query)))
    (fun html => ReadWN.extractAll html ReadWN.itemRegex)
    (fun id => GET (ReadWNUrls.bookUrl id))
    (fun html => ReadWN.extractFirst html ReadWN.title_re)
    (fun html => ReadWN.extractFirst html ReadWN.author_re)
    (js "Unknown Author").

Definition mangapill : SourceAdapter :=
  mkAdapter (js "mangapill")
    MangaPill.search MangaPill.getBookDetails
    (fun query =>
       option_map MangaPillUrls.searchRequest (encodeURIComponent query))
    (fun html => MangaPill.extractAll html MangaPill.itemRegex)
    MangaPillUrls.pageRequest
    (fun html => MangaPill.extractFirst html MangaPill.title_re)
    (fun html =>
       MangaPill.nullish
         (MangaPill.extractFirst html MangaPill.author_re)
         (MangaPill.extractFirst html MangaPill.author_alt_re))
    (js "N/A").

Definition adapters : list SourceAdapter := [readNovelFullV2; readwn; mangapill].


(** ** Concrete documents and transports *)

(** A transport that answers every request with the same page. *)
Definition serving (page : jsstring) : transport :=
  fun rq => Ret (mkResponse true 200 (js "OK") (req_url rq) (Ret page)).

(** A transport whose requests all fail. *)
Definition offline : transport :=
  fun _ => Throw (TypeError (js "Failed to fetch")).

(** A transport on which the [.html] URL is not found and every other
    URL serves [page]. *)
Definition html_missing (page : jsstring) : transport :=
  fun rq =>
    if str_eqb (req_url rq) (V2Urls.bookUrl (js "martial-peak"))
    then Ret (mkResponse false 404 (js "Not Found") (req_url rq) (Ret []))
    else serving page rq.

Definition zero_width : regexp := Eval vm_compute in re "a*" "g".

Definition novel_results : jsstring :=
  js "<div class=`col-xs-3`><a href=`/martial-peak`><img src=`/img/mp.jpg`></a></div><h3 class=`novel-title`><a href=`/martial-peak`>Martial Peak</a></h3><span class=`author`>Momo</span><div class=`novel-desc`>Hello<br>World &amp; Friends</div>".



Definition untitled_page : jsstring := js "<p>Nothing to see here</p>".

Definition chapter_page : jsstring :=
  js "<h3 class=`title`>T</h3><div id=`chr-content`>a<p>b</p>c</div>".



(** The run of a search of [ReadNovelFullV2] against [novel_results]:
    its one result and the world it leaves. *)
Definition novel_hit : SearchResult :=
  Eval vm_compute in
    match fst (ReadNovelFullV2.search (serving novel_results)
                 (js "martial") start) with
    | Ret (r :: _) => r
    | _ => mkSearchResult [] [] [] None [] None
    end.

Definition novel_world : world :=
  Eval vm_compute in
    snd (ReadNovelFullV2.search (serving novel_results) (js "martial") start).


(** ** Further descriptions, for the operations the claims do not name *)

(** The same pattern without the [g] flag, as the modules write the
    patterns they give to [extractFirst]. *)
Definition without_g (re : regexp) : regexp :=
  mkRegexp (ast re) (ngroups re)
           (mkFlags false (ignoreCase (rflags re)) (dotAll (rflags re))).

(** The pattern of the named references of a decoder that knows the
    names [ws]. *)
Definition names_pattern (ws : list jsstring) : regex :=
  Seq (Char 38) (Seq (Group 0 (alt_of (map word_of ws))) (Char 59)).

(** A computation that issues no request, however it ends. *)
Definition silent {A} (c : M A) : Prop :=
  forall w, requests (snd (c w)) = requests w.

(** The line [console.error] writes last when an operation fails:
    its label and the exception that caused the failure. *)
Definition failure_logged (label : jsstring) (cause : js_error) (w : world)
  : Prop :=
  exists pre, console w = pre ++ [mkLog LErr [AStr label; AError cause]].

(** The first revision of MangaPill as a source adapter, and the four
    pattern-based modules together. *)
Definition mangapillV1 : SourceAdapter :=
  mkAdapter (js "mangapill")
    MangaPillV1.search MangaPillV1.getBookDetails
    (fun query =>
       option_map MangaPillUrls.searchRequest (encodeURIComponent query))
    (fun html => MangaPillV1.extractAll html MangaPillV1.itemRegex)
    MangaPillUrls.pageRequest
    (fun html => MangaPillV1.extractFirst html MangaPillV1.title_re)
    (fun html =>
       MangaPillV1.nullish
         (MangaPillV1.extractFirst html MangaPillV1.author_re)
         (MangaPillV1.extractFirst html MangaPillV1.author_alt_re))
    (js "N/A").

Definition all_adapters : list SourceAdapter :=
  [readNovelFullV2; readwn; mangapill; mangapillV1].

(** The modules whose [getBookDetails] issues one request. *)
Definition single_request_adapters : list SourceAdapter :=
  [readwn; mangapill; mangapillV1].

(** What [getBookDetails] raises when the cause is [cause], and the
    label of the line it logs. *)
Definition details_failure (id : jsstring) (cause : js_error) : js_error :=
  Error (js "Failed to get details for " ++ id ++ js ": "
         ++ err_message cause).

Definition details_label (id : jsstring) : jsstring :=
  js "Get Book Details Error for ID " ++ id ++ js ":".

Definition content_failure (id : jsstring) (cause : js_error) : js_error :=
  Error (js "Failed to get content for " ++ id ++ js ": "
         ++ err_message cause).

Definition content_label (id : jsstring) : jsstring :=
  js "Get Content Error for ID " ++ id ++ js ":".

(** The exception [getContent] of the readwn module raises before
    anything else when it is given no book, or a book without [id]. *)
Definition book_required : js_error :=
  Error (js "Book details (including novel slug 'id') are required to fetch chapter content.").

(** The request [getBookDetails] of ReadFullNovelV2.js issues for the
    chapter list, once it has read the numeric id [n] off the page of
    the book [id]. *)
Definition chaptersRequest (id : jsstring) (n : option jsstring) : request :=
  mkRequest
    (ReadNovelFullV2.BASE_URL ++ js "/ajax/chapter-archive?novelId=" ++ tmpl n)
    None None
    [(js "Referer", V2Urls.bookUrl id);
     (js "X-Requested-With", js "XMLHttpRequest")].

(** The numeric id of a novel, as [getBookDetails] looks for it. *)
Definition novelIdMatch (html : jsstring) : option captures :=
  ReadNovelFullV2.nullish
    (ReadNovelFullV2.extractFirst html ReadNovelFullV2.novelId_re)
    (ReadNovelFullV2.extractFirst html ReadNovelFullV2.novelId_alt_re).

(** A computation that issues the requests [rs], whatever the state it
    starts in, and whose outcome satisfies [P]. *)
Definition ends {A} (c : M A) (rs : list request) (P : outcome A -> Prop)
  : Prop :=
  forall w, requests (snd (c w)) = requests w ++ rs /\ P (fst (c w)).

(** The outcome of an operation that wraps what its body raises. *)
Definition wrapped {A} (mk : js_error -> js_error) (o : outcome A)
  : outcome A :=
  match o with
  | Throw e => Throw (mk e)
  | other => other
  end.

(** ** Pages and transports of the examples *)

Definition numbered_page : jsstring :=
  js "<h3 class=`title`>T</h3><div id=`rating` data-novel-id=`42`></div>".

(** A transport on which the chapter archive answers 500 and every
    other URL serves [page]. *)
Definition archive_down (page : jsstring) : transport :=
  fun rq =>
    if startsWith (ReadNovelFullV2.BASE_URL ++ js "/ajax/") (req_url rq)
    then Ret (mkResponse false 500 (js "Internal Server Error") (req_url rq)
                (Ret []))
    else serving page rq.

(** ** Chapter lists *)

Definition text_of (v : option jsstring) : jsstring :=
  match v with
  | Some s => s
  | None => []
  end.

(** The chapter a match of the MangaPill chapter pattern stands for. *)
Definition chapter_of (decode : jsstring -> jsstring) (mt : jsmatch)
  : ChapterRef :=
  mkChapterRef (grp mt 1) (decode (trim (text_of (grp mt 2)))) None.

(** The chapters of a MangaPill book: those of its listing, last match
    first, and none when the page has no listing or an empty one. *)
Definition reading_order (decode : jsstring -> jsstring)
    (listing : option jsmatch)
    (extract : jsstring -> option (list jsmatch))
    (chapters : list ChapterRef) : Prop :=
  match listing with
  | Some lm =>
    match grp lm 1 with
    | Some (c0 :: c) =>
      exists ms, extract (c0 :: c) = Some ms
                 /\ chapters = rev (map (chapter_of decode) ms)
    | _ => chapters = []
    end
  | None => chapters = []
  end.

(** The chapter a match of the readwn chapter pattern stands for, when
    it has an identifier and a title. *)
Definition kept_chapter (mt : jsmatch) : list ChapterRef :=
  let path := text_of (grp mt 1) in
  let id := last_segment path [] in
  let title := ReadWN.decodeEntities (trim (text_of (grp mt 2))) in
  if nonempty id && nonempty title
  then [mkChapterRef (Some id) title (Some path)]
  else [].

(** The chapters of a readwn book: those of its listing that have an
    identifier and a title, in the order of the page. *)
Definition page_order (listing : option captures)
    (chapters : list ChapterRef) : Prop :=
  match listing with
  | Some caps =>
    exists ms, ReadWN.extractAll_of (nth 0 caps None) ReadWN.chapterRegex
               = Some ms
               /\ chapters = flat_map kept_chapter ms
  | None => chapters = []
  end.

Definition manga_page : jsstring :=
  js "<h1>One Piece</h1><div id=`chapters`><a href=`/chapters/1-2/one-piece-2`>Chapter 2</a><a href=`/chapters/1-1/one-piece-1`>Chapter 1</a></div>".

(** A page URL [getContent] of MangaPill lets through. *)
Definition page_url (u : jsstring) : Prop :=
  u <> [] /\ includes (js "mangapill") u = true.

Definition images_page : jsstring :=
  js "<img class=`js-page` data-src=`https://cdn.mangapill.com/chapters/1-1/1.jpg`><img data-src=`/static/logo.png`>".

(** ** Search results *)

(** A result of ReadFullNovelV2.js: every field is filled, by what the
    page holds or by the default. *)
Definition filled (r : SearchResult) : Prop :=
  nonempty (sr_id r) = true /\ nonempty (sr_title r) = true
  /\ nonempty (sr_author r) = true /\ nonempty (sr_description r) = true
  /\ begins_http (sr_coverUrl r).

(** A result of the readwn module: its identifier is the last segment
    of its path, and it has a title and no author. *)
Definition slugged (r : SearchResult) : Prop :=
  nonempty (sr_id r) = true /\ nonempty (sr_title r) = true
  /\ sr_author r = []
  /\ exists path, sr_path r = Some path /\ last_segment_of (sr_id r) path.

(** A result of MangaPill: its identifier is a path under [/manga/],
    and it has neither author nor description. *)
Definition bare (r : SearchResult) : Prop :=
  startsWith (js "/manga/") (sr_id r) = true
  /\ sr_author r = [] /\ sr_description r = [] /\ sr_path r = None.

(** ** Chapter content *)

Definition container_missing : js_error :=
  Error (js "Chapter content container not found.").

Definition containers_missing : js_error :=
  Error (js "Chapter content container not found (#chapter-container or .chapter-content).").

Definition content_empty : js_error :=
  Error (js "Extracted chapter content is empty.").

(** What [getContent] of the readwn module raises when the cause is
    [cause]. *)
Definition chapter_failure (id : jsstring) (cause : js_error) : js_error :=
  Error (js "Failed to get content for chapter " ++ id ++ js ": "
         ++ err_message cause).

Definition empty_chapter_page : jsstring :=
  js "<div id=`chr-content`><p> </p><br></div>".

(** ** The DOM functions *)

Definition dom_details_failure : js_error :=
  Error (js "Failed to fetch book details").

Definition dom_content_failure : js_error :=
  Error (js "Failed to fetch book content").

(** A chapter with an identifier that is not empty and holds no slash. *)
Definition addressable (c : ChapterRef) : Prop :=
  exists id, ch_id c = Some id /\ id <> [] /\ ~ In 47 id.

(** A document in which no selector finds anything. *)
Definition blank_dom : Dom :=
  mkDom unit (fun _ => tt) (fun _ _ => None) (fun _ _ => [])
        (fun _ => []) (fun _ _ => None) (fun _ => []).

(** A document whose elements are all links to [/a/chapter-1], with
    the text of the page for text and content. *)
Definition link_dom : Dom :=
  mkDom jsstring (fun html => html) (fun d _ => Some d) (fun d _ => [d; d])
        (fun d => d)
        (fun _ name =>
           if str_eqb name (js "href") then Some (js "/a/chapter-1")
           else None)
        (fun d => d).

(** The URL the DOM functions request for the identifier [id]. *)
Definition domUrl (id : jsstring) : jsstring :=
  ReadNovelFullDom.BASE_URL ++ js "/" ++ id.

(** ** Text without tags *)

(** No [<] of [s] has a [>] after it: the pattern [<[^>]*>] finds
    nothing in [s]. *)
Definition tagless (s : jsstring) : Prop :=
  forall a b, s = a ++ 60 :: b -> ~ In 62 b.

(** Whether [s] has a [>] after a [<], [seen] telling whether a [<]
    came before [s]. *)
Fixpoint has_tag (seen : bool) (s : jsstring) : bool :=
  match s with
  | [] => false
  | c :: s' =>
    if seen && (c =? 62) then true
    else has_tag (seen || (c =? 60)) s'
  end.

(** The character every match of [r] ends with, when [r] ends with a
    literal character. *)
Fixpoint last_char (r : regex) : option Z :=
  match r with
  | Char c => Some c
  | Seq _ r2 => last_char r2
  | Group _ r1 => last_char r1
  | _ => None
  end.

(** A pattern for a tag: it begins with [<] and ends with [>]. *)
Definition tag_pattern (re : regexp) : Prop :=
  begins_with 60 re /\ last_char (ast re) = Some 62.

(** ** Texts with numeric references *)

(** A text as a sequence of pieces: stretches, decimal references and
    hexadecimal references. *)
Inductive piece : Type :=
| Plain (t : jsstring)
| Decimal (ds : jsstring)
| Hexadecimal (hs : jsstring).

(** A piece as it is written in the text. *)
Definition written (p : piece) : jsstring :=
  match p with
  | Plain t => t
  | Decimal ds => js "&#" ++ ds ++ js ";"
  | Hexadecimal hs => js "&#x" ++ hs ++ js ";"
  end.

(** The UTF-16 code unit of a numeral: its value modulo 65536. *)
Definition unit_of (radix : Z) (ds : jsstring) : Z :=
  numeral_value radix ds mod 65536.

(** A piece as a decoder leaves it; [hex] tells whether the decoder has
    the hexadecimal pass. *)
Definition decoded (hex : bool) (p : piece) : jsstring :=
  match p with
  | Plain t => t
  | Decimal ds => [unit_of 10 ds]
  | Hexadecimal hs => if hex then [unit_of 16 hs] else written p
  end.

(** The pieces the property speaks of: a stretch holds no [&]; a
    reference holds one digit at least, its value is below 2^53, and a
    decimal reference does not stand for [&] itself. *)
Definition well_written (p : piece) : Prop :=
  match p with
  | Plain t => forall x, In x t -> x <> 38
  | Decimal ds =>
    ds <> [] /\ forallb is_dec ds = true /\ numeral_value 10 ds < 2 ^ 53
    /\ unit_of 10 ds <> 38
  | Hexadecimal hs =>
    hs <> [] /\ forallb is_hex hs = true /\ numeral_value 16 hs < 2 ^ 53
  end.

Lemma suffix_of_refl s : suffix_of s s.
Proof. exists []. reflexivity. Qed.

Lemma suffix_of_tl x s : suffix_of s (x :: s).
Proof. exists [x]. reflexivity. Qed.

Lemma suffix_of_trans a b c : suffix_of a b -> suffix_of b c -> suffix_of a c.
Proof.
  intros [p ->] [q ->]. exists (q ++ p). now rewrite app_assoc.
Qed.

Lemma suffix_of_len s' s : suffix_of s' s -> (length s' <= length s)%nat.
Proof. intros [p ->]. rewrite length_app. lia. Qed.

Lemma repeat_matcher_inv mr gs lazy k n :
  (forall s caps k' res, mr s caps k' = Some res -> passes n s k' res) ->
  forall fuel mn mx s caps res,
    repeat_matcher mr gs lazy k fuel mn mx s caps = Some res ->
    passes (qmin mn mx * n) s k res.
Proof.
  intros Hmr. induction fuel as [|fuel IH]; intros mn mx s caps res H.
  - discriminate.
  - simpl in H.
    assert (Hk : k s caps = Some res -> (mn = 0 \/ mx = Some 0)%nat ->
                 passes (qmin mn mx * n) s k res).
    { intros E Hz. exists s, caps. split; [exact E|]. split; [apply suffix_of_refl|].
      destruct Hz as [-> | ->]; simpl.
      - destruct mx; simpl; lia.
      - rewrite Nat.min_0_r. simpl. lia. }
    assert (Hit : forall mx', mx' = mx -> mx <> Some 0%nat ->
       mr s (reset_caps gs caps)
          (fun s' caps' =>
             if (mn =? 0)%nat && (length s' =? length s)%nat then None
             else repeat_matcher mr gs lazy k fuel (pred mn)
                    (option_map pred mx') s' caps') = Some res ->
       passes (qmin mn mx * n) s k res).
    { intros mx' -> Hmx E. apply Hmr in E.
      destruct E as (s1 & caps1 & E1 & Hs1 & Hl1).
      destruct ((mn =? 0)%nat && (length s1 =? length s)%nat); [discriminate|].
      apply IH in E1. destruct E1 as (s2 & caps2 & E2 & Hs2 & Hl2).
      exists s2, caps2. split; [exact E2|]. split.
      - eapply suffix_of_trans; eauto.
      - assert (qmin mn mx <= S (qmin (pred mn) (option_map pred mx)))%nat.
        { destruct mx as [[|x]|]; simpl; try congruence; destruct mn; simpl; lia. }
        nia. }
    destruct mx as [[|x]|].
    + apply Hk; auto.
    + destruct (0 <? mn)%nat eqn:Hmn.
      * apply (Hit (Some (S x))) in H; auto; discriminate.
      * apply Nat.ltb_ge in Hmn. assert (mn = 0)%nat by lia.
        destruct lazy; unfold orelse in H.
        -- destruct (k s caps) eqn:Ek.
           ++ injection H as <-. apply Hk; auto.
           ++ apply (Hit (Some (S x))) in H; auto; discriminate.
        -- match type of H with match ?c with _ => _ end = _ => destruct c eqn:Ei end.
           ++ injection H as <-. apply (Hit (Some (S x))) in Ei; auto; discriminate.
           ++ apply Hk; auto.
    + destruct (0 <? mn)%nat eqn:Hmn.
      * apply (Hit None) in H; auto; discriminate.
      * apply Nat.ltb_ge in Hmn. assert (mn = 0)%nat by lia.
        destruct lazy; unfold orelse in H.
        -- destruct (k s caps) eqn:Ek.
           ++ injection H as <-. apply Hk; auto.
           ++ apply (Hit None) in H; auto; discriminate.
        -- match type of H with match ?c with _ => _ end = _ => destruct c eqn:Ei end.
           ++ injection H as <-. apply (Hit None) in Ei; auto; discriminate.
           ++ apply Hk; auto.
Qed.

Lemma passes_weaken n n' s k res :
  (n' <= n)%nat -> passes n s k res -> passes n' s k res.
Proof.
  intros Hn (s' & caps' & E & Hs & Hl). exists s', caps'. repeat split; auto. lia.
Qed.

Lemma m_inv fl r :
  forall s caps k res, m fl r s caps k = Some res -> passes (minlen r) s k res.
Proof.
  induction r; intros s caps k res H; simpl in H.
  - exists s, caps. repeat split; auto using suffix_of_refl; simpl; lia.
  - destruct s as [|x s]; [discriminate|].
    destruct (canon fl x =? canon fl c)%Z; [|discriminate].
    exists s, caps. repeat split; auto using suffix_of_tl. simpl. lia.
  - destruct s as [|x s]; [discriminate|].
    destruct (dotAll fl || negb (is_line_terminator x)); [|discriminate].
    exists s, caps. repeat split; auto using suffix_of_tl. simpl. lia.
  - destruct s as [|x s]; [discriminate|].
    destruct (class_matches fl neg items x); [|discriminate].
    exists s, caps. repeat split; auto using suffix_of_tl. simpl. lia.
  - apply IHr1 in H. destruct H as (s1 & caps1 & E1 & Hs1 & Hl1).
    apply IHr2 in E1. destruct E1 as (s2 & caps2 & E2 & Hs2 & Hl2).
    exists s2, caps2. split; [exact E2|]. split.
    + eapply suffix_of_trans; eauto.
    + simpl. lia.
  - unfold orelse in H. destruct (m fl r1 s caps k) eqn:E1.
    + injection H as <-. apply IHr1 in E1.
      eapply passes_weaken; [|exact E1]. simpl. lia.
    + apply IHr2 in H. eapply passes_weaken; [|exact H]. simpl. lia.
  - eapply repeat_matcher_inv in H; [exact H|].
    intros s0 caps0 k0 res0 H0. exact (IHr _ _ _ _ H0).
  - apply IHr in H. destruct H as (s1 & caps1 & E1 & Hs1 & Hl1).
    exists s1, (set_cap idx (Some (firstn (length s - length s1) s)) caps1).
    repeat split; auto.
  - destruct s; [|discriminate].
    exists [], caps. repeat split; auto using suffix_of_refl; simpl; lia.
Qed.


Lemma match_here_inv re s rest caps :
  match_here re s = Some (rest, caps) ->
  suffix_of rest s /\ (length rest + minlen (ast re) <= length s)%nat.
Proof.
  unfold match_here. intros H. apply m_inv in H.
  destruct H as (s' & caps' & E & Hs & Hl). injection E as -> ->. auto.
Qed.

Lemma firstn_suffix (p rest : jsstring) :
  firstn (length (p ++ rest) - length rest) (p ++ rest) = p.
Proof.
  rewrite length_app. replace (length p + length rest - length rest)%nat with (length p) by lia.
  rewrite firstn_app, Nat.sub_diag, firstn_all. simpl. apply app_nil_r.
Qed.

Lemma mk_match_split i s rest caps :
  suffix_of rest s -> s = matched (mk_match i s rest caps) ++ rest.
Proof.
  intros [p ->]. simpl. now rewrite firstn_suffix.
Qed.

Lemma search_from_some re : forall s i mt,
  search_from re s i = Some mt ->
  exists n rest caps,
    (n <= length s)%nat
    /\ (forall j, (j < n)%nat -> match_here re (skipn j s) = None)
    /\ match_here re (skipn n s) = Some (rest, caps)
    /\ mt = mk_match (i + n) (skipn n s) rest caps.
Proof.
  induction s as [|x s IH]; intros i mt H; simpl in H.
  - destruct (match_here re []) as [[rest caps]|] eqn:E; [|discriminate].
    injection H as <-. exists 0%nat, rest, caps. simpl. rewrite Nat.add_0_r.
    repeat split; auto; intros; lia.
  - destruct (match_here re (x :: s)) as [[rest caps]|] eqn:E.
    + injection H as <-. exists 0%nat, rest, caps. simpl. rewrite Nat.add_0_r.
      repeat split; auto; intros; lia.
    + apply IH in H. destruct H as (n & rest & caps & Hn & Hj & Hm & ->).
      exists (S n), rest, caps. simpl. repeat split; auto; try lia.
      * intros [|j] Hlt; simpl; [exact E|]. apply Hj. lia.
      * f_equal. lia.
Qed.

Lemma search_from_none re : forall s i,
  search_from re s i = None ->
  forall j, (j <= length s)%nat -> match_here re (skipn j s) = None.
Proof.
  induction s as [|x s IH]; intros i H j Hj; simpl in H.
  - destruct (match_here re []) as [[rest caps]|] eqn:E; [discriminate|].
    simpl in Hj. assert (j = 0)%nat by lia. subst. exact E.
  - destruct (match_here re (x :: s)) as [[rest caps]|] eqn:E; [discriminate|].
    destruct j as [|j]; [exact E|]. simpl. eapply IH; eauto. simpl in Hj. lia.
Qed.

Lemma skipn_skipn_add (a b : nat) (s : jsstring) :
  skipn a (skipn b s) = skipn (b + a) s.
Proof.
  revert s; induction b; intros s; simpl; auto. destruct s; simpl; auto.
  now rewrite skipn_nil.
Qed.

(** One call of [exec] on a pattern with the [g] flag. *)
Lemma regex_exec_some re html li mt li' :
  global (rflags re) = true ->
  regex_exec re html li = (Some mt, li') ->
  leftmost re html li mt /\ li' = (index mt + length (matched mt))%nat
  /\ (length (matched mt) >= minlen (ast re))%nat.
Proof.
  intros Hg H. unfold regex_exec in H. rewrite Hg in H.
  destruct (length html <? li)%nat eqn:Hli; [discriminate|].
  apply Nat.ltb_ge in Hli.
  destruct (search_from re (skipn li html) li) as [mt'|] eqn:E; [|discriminate].
  injection H as -> <-.
  apply search_from_some in E.
  destruct E as (n & rest & caps & Hn & Hj & Hm & ->).
  rewrite skipn_skipn_add in Hm.
  destruct (match_here_inv _ _ _ _ Hm) as [Hsuf Hlen].
  pose proof (mk_match_split (li + n) _ _ caps Hsuf) as Hsplit.
  rewrite skipn_skipn_add in *.
  rewrite length_skipn in Hn.
  assert (Hlm : (length (matched (mk_match (li + n) (skipn (li + n) html) rest caps))
                 + length rest = length html - (li + n))%nat).
  { apply (f_equal (@length Z)) in Hsplit.
    rewrite length_app, length_skipn in Hsplit. lia. }
  set (mt := mk_match (li + n) (skipn (li + n) html) rest caps) in *.
  assert (Hidx : index mt = (li + n)%nat) by reflexivity.
  split; [|split]; auto.
  - unfold leftmost. rewrite Hidx. split; [lia|]. split; [|split].
    + unfold occurs_in. rewrite Hidx. split.
      * rewrite Hsplit at 1. rewrite firstn_app, Nat.sub_diag, firstn_all. simpl.
        apply app_nil_r.
      * lia.
    + intros j Hjr. replace j with (li + (j - li))%nat by lia.
      rewrite <- skipn_skipn_add. apply Hj. lia.
    + exists rest, caps. repeat split; auto.
  - rewrite length_skipn in Hlen. lia.
Qed.

Lemma regex_exec_none re html li li' :
  global (rflags re) = true ->
  regex_exec re html li = (None, li') ->
  forall j, (li <= j <= length html)%nat -> match_here re (skipn j html) = None.
Proof.
  intros Hg H j Hj. unfold regex_exec in H. rewrite Hg in H.
  destruct (length html <? li)%nat eqn:Hli.
  - apply Nat.ltb_lt in Hli. lia.
  - destruct (search_from re (skipn li html) li) eqn:E; [discriminate|].
    replace j with (li + (j - li))%nat by lia. rewrite <- skipn_skipn_add.
    eapply search_from_none; eauto. rewrite length_skipn. lia.
Qed.

(** The loop ends on an advancing pattern, with fuel to spare. *)
Lemma exec_loop_advancing re html :
  advancing re = true ->
  forall fuel li acc,
    (li <= length html)%nat -> (length html + 2 <= fuel + li)%nat ->
    exists l, exec_loop fuel html re li acc = Some (acc ++ l)
              /\ document_order re html li l
              /\ (length l + li <= length html)%nat.
Proof.
  unfold advancing. intros Hadv. apply andb_prop in Hadv. destruct Hadv as [Hg Hmin].
  apply Nat.ltb_lt in Hmin.
  induction fuel as [|fuel IH]; intros li acc Hli Hfuel; [lia|].
  simpl. destruct (regex_exec re html li) as [[mt|] li'] eqn:E.
  - destruct (regex_exec_some _ _ _ _ _ Hg E) as (Hleft & -> & Hlen).
    pose proof Hleft as (Hfrom & [_ Hocc] & _).
    destruct (IH (index mt + length (matched mt))%nat (acc ++ [mt])) as (l & El & Hord & Hl);
      try lia.
    exists (mt :: l). rewrite El, <- app_assoc. simpl.
    split; [reflexivity|]. split; [split; assumption|]. lia.
  - exists []. rewrite app_nil_r. repeat split; simpl; try lia.
    eapply regex_exec_none; eauto.
Qed.

(** An empty match at [lastIndex] leaves [lastIndex] where it is: the
    loop then repeats the same call for ever. *)
Lemma exec_loop_stuck re html li mt :
  regex_exec re html li = (Some mt, li) ->
  forall fuel acc, exec_loop fuel html re li acc = None.
Proof.
  intros E. induction fuel as [|fuel IH]; intros acc; simpl; auto.
  rewrite E. apply IH.
Qed.



Arguments js : simpl never.
Arguments string_of_Z : simpl never.
Arguments string_of_nat : simpl never.
Arguments encodeURIComponent : simpl never.
Arguments replace : simpl never.
Arguments replace_str : simpl never.
Arguments string_match : simpl never.
Arguments search_from : simpl never.
Arguments exec_loop : simpl never.
Arguments trim : simpl never.
Arguments startsWith : simpl never.
Arguments includes : simpl never.
Arguments last_segment : simpl never.
Arguments regex_test : simpl never.
Arguments placeholder : simpl never.
Arguments GET : simpl never.
Arguments ReadNovelFullV2.extractAll : simpl never.
Arguments ReadNovelFullV2.extractFirst : simpl never.
Arguments ReadNovelFullV2.decodeEntities : simpl never.
Arguments ReadNovelFullV2.cleanHtmlText : simpl never.
Arguments ReadNovelFullV2.BASE_URL : simpl never.
Arguments ReadWN.extractAll : simpl never.
Arguments ReadWN.extractAll_of : simpl never.
Arguments ReadWN.extractFirst : simpl never.
Arguments ReadWN.decodeEntities : simpl never.
Arguments ReadWN.cleanHtmlText : simpl never.
Arguments ReadWN.currentSiteUrl : simpl never.
Arguments MangaPill.extractAll : simpl never.
Arguments MangaPill.extractFirst : simpl never.
Arguments MangaPill.decodeEntities : simpl never.
Arguments MangaPill.baseURL : simpl never.
Arguments MangaPill.referer : simpl never.

Lemma no_diverge_ret {A} (a : A) : no_diverge (ret a).
Proof. intros w. simpl. discriminate. Qed.

Lemma no_diverge_throw {A} e : no_diverge (@throw A e).
Proof. intros w. simpl. discriminate. Qed.

Lemma no_diverge_bind {A B} (c : M A) (k : A -> M B) :
  no_diverge c -> (forall a, no_diverge (k a)) -> no_diverge (bind c k).
Proof.
  intros Hc Hk w. unfold bind. specialize (Hc w).
  destruct (c w) as [[a|e|] w']; simpl in *.
  - apply Hk.
  - discriminate.
  - congruence.
Qed.

Lemma no_diverge_receiver name v : no_diverge (receiver name v).
Proof. destruct v; simpl; [apply no_diverge_ret|apply no_diverge_throw]. Qed.

Lemma no_diverge_write l a : no_diverge (console_write l a).
Proof. intros w. simpl. discriminate. Qed.

Lemma no_diverge_for_of {A B} (body : list B -> A -> M (list B)) :
  (forall acc x, no_diverge (body acc x)) ->
  forall xs acc, no_diverge (for_of xs body acc).
Proof.
  intros Hb. induction xs as [|x xs IH]; intros acc; simpl.
  - apply no_diverge_ret.
  - apply no_diverge_bind; auto.
Qed.

Lemma no_diverge_try {A} (body : M A) handler :
  no_diverge body -> (forall e, no_diverge (handler e)) ->
  no_diverge (try_catch body handler).
Proof.
  intros Hb Hh w. unfold try_catch. specialize (Hb w).
  destruct (body w) as [[a|e|] w']; simpl in *.
  - discriminate.
  - apply Hh.
  - congruence.
Qed.

(** A [try] whose handler returns never raises. *)
Lemma try_catch_quiet {A} (body : M A) handler :
  (forall e w, exists a w', handler e w = (Ret a, w')) ->
  forall w e, fst (try_catch body handler w) <> Throw e.
Proof.
  intros Hh w e. unfold try_catch.
  destruct (body w) as [[a|e'|] w']; simpl; try discriminate.
  destruct (Hh e' w') as (a & w'' & ->). simpl. discriminate.
Qed.

Module V2Facts.
Import ReadNovelFullV2 V2Urls.

Lemma v2_search_quiet fetch query q w :
  encodeURIComponent query = Some q ->
  (forall e, fst (search fetch query w) <> Throw e)
  /\ (forall e, fetch (searchRequest q) = Throw e ->
        exists w', search fetch query w = (Ret [], w') /\ error_reported w w')
  /\ (forall r, fetch (searchRequest q) = Ret r -> ok r = false ->
        exists w', search fetch query w = (Ret [], w') /\ error_reported w w')
  /\ (forall r e, fetch (searchRequest q) = Ret r -> ok r = true ->
        text r = Throw e ->
        exists w', search fetch query w = (Ret [], w') /\ error_reported w w')
  /\ (forall r html, fetch (searchRequest q) = Ret r -> ok r = true ->
        text r = Ret html -> extractAll html comprehensiveItemRegex = Some [] ->
        exists w', search fetch query w = (Ret [], w')).
Proof.
  intros Hq. unfold search, searchRequest. rewrite Hq.
  split; [|split; [|split; [|split]]].
  - intros e. unfold bind at 1. cbn. apply try_catch_quiet.
    intros e' w'. eexists _, _. reflexivity.
  - intros e Hf. unfold bind, try_catch, await_fetch. cbn. rewrite Hf. cbn.
    eexists. split; [reflexivity|]. cbn.
    eexists [_], _. cbn. rewrite <- app_assoc. reflexivity.
  - intros r Hf Hok. unfold bind, try_catch, await_fetch. cbn. rewrite Hf, Hok. cbn.
    eexists. split; [reflexivity|]. cbn.
    eexists [_], _. cbn. rewrite <- app_assoc. reflexivity.
  - intros r e Hf Hok Ht. unfold bind, try_catch, await_fetch, await_text. cbn.
    rewrite Hf, Hok. cbn. rewrite Ht. cbn.
    eexists. split; [reflexivity|]. cbn.
    eexists [_], _. cbn. rewrite <- app_assoc. reflexivity.
  - intros r html Hf Hok Ht Hx. unfold bind, try_catch, await_fetch, await_text. cbn.
    rewrite Hf, Hok. cbn. rewrite Ht. cbn. rewrite Hx. cbn.
    eexists. reflexivity.
Qed.
End V2Facts.

Lemma set_cap_length i v caps : length (set_cap i v caps) = length caps.
Proof.
  revert i; induction caps as [|c caps IH]; intros [|i]; simpl; auto.
Qed.

Lemma nth_set_cap_same i v caps :
  (i < length caps)%nat -> nth i (set_cap i v caps) None = v.
Proof.
  revert i; induction caps as [|c caps IH]; intros [|i] H; simpl in *; try lia; auto.
  apply IH. lia.
Qed.

Lemma nth_set_cap_other i j v caps :
  i <> j -> nth j (set_cap i v caps) None = nth j caps None.
Proof.
  revert i j; induction caps as [|c caps IH]; intros [|i] [|j] H; simpl; auto.
  congruence.
Qed.

Lemma reset_caps_length gs : forall caps, length (reset_caps gs caps) = length caps.
Proof.
  unfold reset_caps. induction gs as [|g gs IH]; intros caps; simpl; auto.
  rewrite IH. apply set_cap_length.
Qed.

Lemma reset_caps_other gs j : ~ In j gs ->
  forall caps, nth j (reset_caps gs caps) None = nth j caps None.
Proof.
  unfold reset_caps. induction gs as [|g gs IH]; intros Hj caps; simpl; auto.
  rewrite IH.
  - apply nth_set_cap_other. intros ->. apply Hj. now left.
  - intros H. apply Hj. now right.
Qed.

Lemma repeat_matcher_caps mr gs mand lazy k :
  (forall s caps k' res, mr s caps k' = Some res ->
     exists s' caps', k' s' caps' = Some res
       /\ length caps' = length caps
       /\ (forall i, In i mand -> (i < length caps)%nat -> nth i caps' None <> None)
       /\ (forall i, ~ In i gs -> nth i caps' None = nth i caps None)) ->
  forall fuel mn mx s caps res,
    repeat_matcher mr gs lazy k fuel mn mx s caps = Some res ->
    exists s' caps', k s' caps' = Some res
      /\ length caps' = length caps
      /\ (forall i, In i mand -> (i < length caps)%nat ->
            nth i caps None <> None \/ (0 < qmin mn mx)%nat ->
            nth i caps' None <> None)
      /\ (forall i, ~ In i gs -> nth i caps' None = nth i caps None).
Proof.
  intros Hmr. induction fuel as [|fuel IH]; intros mn mx s caps res H.
  - discriminate.
  - simpl in H.
    assert (Hk : k s caps = Some res -> (mn = 0 \/ mx = Some 0)%nat ->
      exists s' caps', k s' caps' = Some res
      /\ length caps' = length caps
      /\ (forall i, In i mand -> (i < length caps)%nat ->
            nth i caps None <> None \/ (0 < qmin mn mx)%nat ->
            nth i caps' None <> None)
      /\ (forall i, ~ In i gs -> nth i caps' None = nth i caps None)).
    { intros E Hz. exists s, caps. repeat split; auto.
      intros i Hi Hlt [Hs|Hq]; auto.
      destruct Hz as [-> | ->]; simpl in Hq.
      - destruct mx; simpl in Hq; lia.
      - rewrite Nat.min_0_r in Hq. lia. }
    assert (Hit : forall mx',
       mr s (reset_caps gs caps)
          (fun s' caps' =>
             if (mn =? 0)%nat && (length s' =? length s)%nat then None
             else repeat_matcher mr gs lazy k fuel (pred mn) mx' s' caps')
         = Some res ->
      exists s' caps', k s' caps' = Some res
      /\ length caps' = length caps
      /\ (forall i, In i mand -> (i < length caps)%nat ->
            nth i caps None <> None \/ (0 < qmin mn mx)%nat ->
            nth i caps' None <> None)
      /\ (forall i, ~ In i gs -> nth i caps' None = nth i caps None)).
    { intros mx' E. apply Hmr in E.
      destruct E as (s1 & caps1 & E1 & Hl1 & Hm1 & Hf1).
      destruct ((mn =? 0)%nat && (length s1 =? length s)%nat); [discriminate|].
      apply IH in E1. destruct E1 as (s2 & caps2 & E2 & Hl2 & Hm2 & Hf2).
      rewrite reset_caps_length in Hl1.
      exists s2, caps2. split; [exact E2|]. split; [congruence|]. split.
      - intros i Hi Hlt _. apply Hm2; auto; try congruence.
        left. apply Hm1; auto. now rewrite reset_caps_length.
      - intros i Hi. rewrite Hf2, Hf1 by auto. now apply reset_caps_other. }
    destruct mx as [[|x]|].
    + apply Hk; auto.
    + destruct (0 <? mn)%nat eqn:Hmn.
      * apply Hit in H; auto.
      * apply Nat.ltb_ge in Hmn. assert (mn = 0)%nat by lia.
        destruct lazy; unfold orelse in H.
        -- destruct (k s caps) eqn:Ek.
           ++ injection H as <-. apply Hk; auto.
           ++ apply Hit in H; auto.
        -- match type of H with match ?c with _ => _ end = _ => destruct c eqn:Ei end.
           ++ injection H as <-. apply Hit in Ei; auto.
           ++ apply Hk; auto.
    + destruct (0 <? mn)%nat eqn:Hmn.
      * apply Hit in H; auto.
      * apply Nat.ltb_ge in Hmn. assert (mn = 0)%nat by lia.
        destruct lazy; unfold orelse in H.
        -- destruct (k s caps) eqn:Ek.
           ++ injection H as <-. apply Hk; auto.
           ++ apply Hit in H; auto.
        -- match type of H with match ?c with _ => _ end = _ => destruct c eqn:Ei end.
           ++ injection H as <-. apply Hit in Ei; auto.
           ++ apply Hk; auto.
Qed.

Lemma caps_inv_refl r caps : mandatory r = [] -> caps_inv r caps caps.
Proof. intros E. unfold caps_inv. rewrite E. repeat split; auto; intros i []. Qed.

Lemma m_caps fl r :
  forall s caps k res, m fl r s caps k = Some res ->
    exists s' caps', k s' caps' = Some res /\ caps_inv r caps caps'.
Proof.
  induction r; intros s caps k res H; simpl in H.
  - exists s, caps. split; auto. now apply caps_inv_refl.
  - destruct s as [|x s]; [discriminate|].
    destruct (canon fl x =? canon fl c)%Z; [|discriminate].
    exists s, caps. split; auto. now apply caps_inv_refl.
  - destruct s as [|x s]; [discriminate|].
    destruct (dotAll fl || negb (is_line_terminator x)); [|discriminate].
    exists s, caps. split; auto. now apply caps_inv_refl.
  - destruct s as [|x s]; [discriminate|].
    destruct (class_matches fl neg items x); [|discriminate].
    exists s, caps. split; auto. now apply caps_inv_refl.
  - apply IHr1 in H. destruct H as (s1 & caps1 & E1 & Hl1 & Hm1 & Hf1).
    apply IHr2 in E1. destruct E1 as (s2 & caps2 & E2 & Hl2 & Hm2 & Hf2).
    exists s2, caps2. split; [exact E2|]. split; [congruence|]. split.
    + simpl. intros i Hi Hlt. apply in_app_or in Hi. destruct Hi as [Hi|Hi].
      * apply filter_In in Hi. destruct Hi as [Hi Hn].
        rewrite Hf2; [now apply Hm1|].
        intros Hin. apply negb_true_iff in Hn.
        assert (existsb (Nat.eqb i) (groups_of r2) = true); [|congruence].
        apply existsb_exists. exists i. split; auto. apply Nat.eqb_refl.
      * apply Hm2; auto. congruence.
    + simpl. intros i Hi. rewrite Hf2, Hf1; auto; intros Hin; apply Hi;
        apply in_or_app; auto.
  - unfold orelse in H. destruct (m fl r1 s caps k) eqn:E1.
    + injection H as <-. apply IHr1 in E1.
      destruct E1 as (s1 & caps1 & E1 & Hl1 & Hm1 & Hf1).
      exists s1, caps1. split; auto. split; [exact Hl1|]. split; [intros i []|].
      simpl. intros i Hi. apply Hf1. intros Hin. apply Hi. apply in_or_app; auto.
    + apply IHr2 in H. destruct H as (s1 & caps1 & E1' & Hl1 & Hm1 & Hf1).
      exists s1, caps1. split; auto. split; [exact Hl1|]. split; [intros i []|].
      simpl. intros i Hi. apply Hf1. intros Hin. apply Hi. apply in_or_app; auto.
  - eapply repeat_matcher_caps with (mand := mandatory r) in H.
    + destruct H as (s1 & caps1 & E1 & Hl1 & Hm1 & Hf1).
      exists s1, caps1. split; auto. split; [exact Hl1|]. split; [|exact Hf1].
      simpl. intros i Hi Hlt. destruct (0 <? qmin min max)%nat eqn:Hq; [|destruct Hi].
      apply Hm1; auto. right. now apply Nat.ltb_lt.
    + intros s0 caps0 k0 res0 H0. apply IHr in H0.
      destruct H0 as (s1 & caps1 & E1 & Hl1 & Hm1 & Hf1). eauto 10.
  - apply IHr in H. destruct H as (s1 & caps1 & E1 & Hl1 & Hm1 & Hf1).
    eexists _, _. split; [exact E1|]. split; [|split].
    + rewrite set_cap_length. exact Hl1.
    + simpl. intros i Hi Hlt. destruct (Nat.eq_dec idx i) as [->|Hne].
      * rewrite nth_set_cap_same by congruence. discriminate.
      * rewrite nth_set_cap_other by auto. destruct Hi as [Hi|Hi]; [congruence|].
        now apply Hm1.
    + simpl. intros i Hi. rewrite nth_set_cap_other by tauto. apply Hf1. tauto.
  - destruct s; [|discriminate].
    exists [], caps. split; auto. now apply caps_inv_refl.
Qed.

Lemma match_here_defined re s rest caps :
  all_defined re = true ->
  match_here re s = Some (rest, caps) -> defined caps (ngroups re).
Proof.
  unfold match_here, all_defined. intros Hall H. apply m_caps in H.
  destruct H as (s' & caps' & E & Hl & Hm & _). injection E as -> ->.
  rewrite repeat_length in Hl, Hm. split; auto.
  intros i Hi. rewrite forallb_forall in Hall.
  specialize (Hall i). rewrite in_seq in Hall.
  assert (Hex : existsb (Nat.eqb i) (mandatory (ast re)) = true) by (apply Hall; lia).
  apply existsb_exists in Hex. destruct Hex as (j & Hj & Hij).
  apply Nat.eqb_eq in Hij. subst j.
  specialize (Hm i Hj Hi). destruct (nth i caps None); [eauto|congruence].
Qed.

Lemma search_from_defined re s i mt :
  all_defined re = true ->
  search_from re s i = Some mt -> defined (groups mt) (ngroups re).
Proof.
  intros Hall H. apply search_from_some in H.
  destruct H as (n & rest & caps & _ & _ & Hm & ->). simpl.
  eapply match_here_defined; eauto.
Qed.

Lemma document_order_defined re html :
  all_defined re = true ->
  forall l from, document_order re html from l ->
    forall mt, In mt l -> defined (groups mt) (ngroups re).
Proof.
  intros Hall. induction l as [|mt0 l IH]; intros from H mt Hin; [destruct Hin|].
  destruct H as [Hl Hrest]. destruct Hin as [<-|Hin].
  - destruct Hl as (_ & _ & _ & rest & caps & Hm & <- & _).
    eapply match_here_defined; eauto.
  - eapply IH; eauto.
Qed.

(** ** Reasoning about operations *)

Lemma sound_ret {A} (a : A) (P : A -> Prop) : P a -> sound (ret a) P.
Proof. intros H w a' w' E. injection E as <- _. exact H. Qed.

Lemma sound_throw {A} e (P : A -> Prop) : sound (throw e) P.
Proof. intros w a w' E. discriminate. Qed.

Lemma sound_bind {A B} (c : M A) (k : A -> M B) (Q : A -> Prop) P :
  sound c Q -> (forall a, Q a -> sound (k a) P) -> sound (bind c k) P.
Proof.
  intros Hc Hk w b w' E. unfold bind in E.
  destruct (c w) as [[a|e|] w1] eqn:Ec; try discriminate.
  eapply Hk; eauto.
Qed.

Lemma sound_bind_any {A B} (c : M A) (k : A -> M B) P :
  (forall a, sound (k a) P) -> sound (bind c k) P.
Proof.
  intros Hk. apply sound_bind with (Q := fun _ => True); auto.
  intros w a w' _. exact I.
Qed.

Lemma sound_try {A} (body : M A) handler (P : A -> Prop) :
  sound body P -> (forall e, sound (handler e) P) ->
  sound (try_catch body handler) P.
Proof.
  intros Hb Hh w a w' E. unfold try_catch in E.
  destruct (body w) as [[a1|e|] w1] eqn:Eb.
  - injection E as <- <-. eapply Hb; eauto.
  - eapply Hh; eauto.
  - discriminate.
Qed.

Lemma sound_for_of {A B} (body : list B -> A -> M (list B))
    (I : list B -> Prop) :
  (forall acc x, I acc -> sound (body acc x) I) ->
  forall xs acc, I acc -> sound (for_of xs body acc) I.
Proof.
  intros Hb. induction xs as [|x xs IH]; intros acc Hacc; simpl.
  - now apply sound_ret.
  - eapply sound_bind; [apply Hb; exact Hacc|]. intros a Ha. now apply IH.
Qed.

Lemma sound_weaken {A} (c : M A) (P Q : A -> Prop) :
  (forall a, P a -> Q a) -> sound c P -> sound c Q.
Proof. intros HPQ Hc w a w' E. apply HPQ. eapply Hc; eauto. Qed.

Lemma ensures_ret {A} (a : A) (P : A -> Prop) : P a -> ensures (ret a) P.
Proof. intros H w. exists a, w. split; [reflexivity|exact H]. Qed.

Lemma ensures_bind {A B} (c : M A) (k : A -> M B) (Q : A -> Prop) P :
  ensures c Q -> (forall a, Q a -> ensures (k a) P) -> ensures (bind c k) P.
Proof.
  intros Hc Hk w. destruct (Hc w) as (a & w1 & Ec & Ha).
  destruct (Hk a Ha w1) as (b & w2 & Ek & Hb).
  exists b, w2. unfold bind. rewrite Ec. auto.
Qed.

Lemma ensures_write l a (P : unit -> Prop) :
  P tt -> ensures (console_write l a) P.
Proof. intros H w. eexists _, _. split; [reflexivity|exact H]. Qed.

Lemma ensures_receiver name v s (P : jsstring -> Prop) :
  v = Some s -> P s -> ensures (receiver name v) P.
Proof. intros -> H. now apply ensures_ret. Qed.

Lemma ensures_receiver_bind {B} name v s (k : jsstring -> M B) P :
  v = Some s -> ensures (k s) P -> ensures (bind (receiver name v) k) P.
Proof.
  intros -> H. apply ensures_bind with (Q := fun a => a = s).
  - now apply ensures_ret.
  - now intros a ->.
Qed.

Lemma ensures_write_bind {B} l a (k : unit -> M B) P :
  ensures (k tt) P -> ensures (bind (console_write l a) k) P.
Proof.
  intros H. apply ensures_bind with (Q := fun _ => True).
  - now apply ensures_write.
  - now intros [] _.
Qed.

Lemma ensures_text_bind {B} r html (k : jsstring -> M B) P :
  text r = Ret html -> ensures (k html) P -> ensures (bind (await_text r) k) P.
Proof.
  intros E H. apply ensures_bind with (Q := fun a => a = html).
  - intros w. exists html, w. unfold await_text. rewrite E. auto.
  - now intros a ->.
Qed.

Lemma ensures_run_loop {A} (o : option A) a (P : A -> Prop) :
  o = Some a -> P a -> ensures (run_loop o) P.
Proof. intros -> H w. exists a, w. auto. Qed.

Lemma ensures_try {A} (body : M A) handler (P : A -> Prop) :
  ensures body P -> ensures (try_catch body handler) P.
Proof.
  intros Hb w. destruct (Hb w) as (a & w1 & Eb & Ha).
  exists a, w1. unfold try_catch. rewrite Eb. auto.
Qed.

Lemma ensures_for_of {A B} (body : list B -> A -> M (list B))
    (I : list B -> Prop) xs :
  (forall acc x, In x xs -> I acc -> ensures (body acc x) I) ->
  forall acc, I acc -> ensures (for_of xs body acc) I.
Proof.
  induction xs as [|x xs IH]; intros Hb acc Hacc; simpl.
  - now apply ensures_ret.
  - eapply ensures_bind; [apply Hb; [now left|exact Hacc]|].
    intros a Ha. apply IH; auto. intros acc' x' Hin. apply Hb. now right.
Qed.

Lemma ensures_fetch fetch rq :
  answering fetch ->
  ensures (await_fetch fetch rq)
          (fun r => ok r = true /\ exists html, text r = Ret html).
Proof.
  intros Hf w. destruct (Hf rq) as (r & html & E & Hok & Ht).
  exists r. eexists. unfold await_fetch. rewrite E. eauto.
Qed.

Lemma ensures_text r html (P : jsstring -> Prop) :
  text r = Ret html -> P html -> ensures (await_text r) P.
Proof. intros E H w. exists html, w. unfold await_text. rewrite E. auto. Qed.

Lemma ensures_weaken {A} (c : M A) (P Q : A -> Prop) :
  (forall a, P a -> Q a) -> ensures c P -> ensures c Q.
Proof.
  intros HPQ Hc w. destruct (Hc w) as (a & w' & E & Ha). eauto.
Qed.

Lemma ensures_sound {A} (c : M A) (P Q : A -> Prop) :
  ensures c P -> sound c Q -> ensures c (fun a => P a /\ Q a).
Proof.
  intros He Hs w. destruct (He w) as (a & w' & E & Ha).
  exists a, w'. repeat split; auto. eapply Hs; eauto.
Qed.

(** ** The patterns of the modules *)

(** Every pattern handed to [extractAll] has the [g] flag and cannot
    match the empty string. *)
Lemma source_patterns_advancing :
  forallb advancing
    [ReadNovelFullV2.comprehensiveItemRegex; ReadNovelFullV2.genreRegex;
     ReadNovelFullV2.chapterRegex;
     ReadWN.itemRegex; ReadWN.genreRegex; ReadWN.chapterRegex;
     MangaPill.itemRegex; MangaPill.genreRegex; MangaPill.chapterRegex;
     MangaPill.pageRegex; MangaPill.fallbackPageRegex] = true.
Proof. reflexivity. Qed.

(** Every capturing group of every pattern from which the modules read
    captures takes part in every match. *)
Lemma source_patterns_defined :
  forallb all_defined
    [ReadNovelFullV2.comprehensiveItemRegex; ReadNovelFullV2.title_re;
     ReadNovelFullV2.author_re; ReadNovelFullV2.cover_re;
     ReadNovelFullV2.description_re; ReadNovelFullV2.genreList_re;
     ReadNovelFullV2.genreRegex; ReadNovelFullV2.status_re;
     ReadNovelFullV2.novelId_re; ReadNovelFullV2.novelId_alt_re;
     ReadNovelFullV2.chapterRegex;
     ReadNovelFullV2.chapterList_re; ReadNovelFullV2.content_re;
     ReadWN.itemRegex; ReadWN.title_re; ReadWN.author_re; ReadWN.cover_re;
     ReadWN.description_re; ReadWN.genreList_re; ReadWN.genreRegex;
     ReadWN.status_re; ReadWN.chapterList_re; ReadWN.chapterRegex;
     ReadWN.content_re; ReadWN.content_fallback_re;
     MangaPill.itemRegex; MangaPill.title_re; MangaPill.cover_re;
     MangaPill.cover_alt_re; MangaPill.description_re; MangaPill.author_re;
     MangaPill.author_alt_re; MangaPill.status_re; MangaPill.type_re;
     MangaPill.genreRegex; MangaPill.chapterList_re; MangaPill.chapterRegex;
     MangaPill.pageRegex; MangaPill.fallbackPageRegex] = true.
Proof. reflexivity. Qed.

Lemma defined_nth caps n i :
  defined caps n -> (i < n)%nat -> exists v, nth i caps None = Some v.
Proof. intros [_ H]. apply H. Qed.

Lemma exec_loop_ensures re html :
  advancing re = true -> all_defined re = true ->
  ensures (run_loop (exec_loop (length html + 2) html re 0 []))
          (Forall (fun mt => defined (groups mt) (ngroups re))).
Proof.
  intros Hadv Hdef.
  destruct (exec_loop_advancing re html Hadv (length html + 2) 0 [])
    as (l & El & Hord & _); try lia.
  eapply ensures_run_loop; [exact El|]. simpl.
  apply Forall_forall. intros mt Hin.
  eapply document_order_defined; eauto.
Qed.

(** Facts about a pattern of the source, settled by evaluation. *)
Ltac pat := first [reflexivity | vm_compute; lia].

Module V2Orch.
Import ReadNovelFullV2 V2Urls.

Section WithFetch.
Variable fetch : transport.

Lemma v2_extractFirst_defined html r caps :
  all_defined r = true ->
  extractFirst html r = Some caps -> defined caps (ngroups r).
Proof.
  unfold extractFirst, string_match. intros Hd H.
  destruct (search_from r html 0) as [mt|] eqn:E; [|discriminate].
  injection H as <-. eapply search_from_defined; eauto.
Qed.

Lemma v2_extractAll_ensures html r :
  advancing r = true -> all_defined r = true ->
  ensures (run_loop (extractAll html r))
          (Forall (fun mt => defined (groups mt) (ngroups r))).
Proof. apply exec_loop_ensures. Qed.

Lemma v2_field_ensures html r f d :
  all_defined r = true -> (0 < ngroups r)%nat ->
  ensures (field (extractFirst html r) f d)
          (fun t => extractFirst html r = None -> t = d).
Proof.
  intros Hd Hn. destruct (extractFirst html r) as [caps|] eqn:E; simpl.
  - destruct (defined_nth _ _ 0 (v2_extractFirst_defined _ _ _ Hd E) Hn) as [v Hv].
    eapply ensures_receiver_bind; [exact Hv|].
    apply ensures_ret. discriminate.
  - apply ensures_ret. reflexivity.
Qed.

Lemma v2_genre_items_ensures l :
  Forall (fun mt => defined (groups mt) 1) l ->
  ensures (for_of l genre_item []) (fun _ => True).
Proof.
  intros Hl. apply ensures_for_of; auto.
  intros acc mt Hin _. rewrite Forall_forall in Hl.
  destruct (defined_nth _ _ 0 (Hl mt Hin)) as [v Hv]; [lia|].
  unfold genre_item. eapply ensures_receiver_bind; [exact Hv|].
  now apply ensures_ret.
Qed.

Lemma v2_chapter_items_ensures l :
  Forall (fun mt => defined (groups mt) 2) l ->
  ensures (for_of l chapter_item []) (fun _ => True).
Proof.
  intros Hl. apply ensures_for_of; auto.
  intros acc mt Hin _. rewrite Forall_forall in Hl.
  destruct (defined_nth _ _ 1 (Hl mt Hin)) as [v Hv]; [lia|].
  unfold chapter_item. eapply ensures_receiver_bind; [exact Hv|].
  destruct (grp mt 1) as [[|c0 c]|];
    [| destruct (nonempty _) |]; now apply ensures_ret.
Qed.

Lemma chapters_of_ensures html r :
  advancing r = true -> ngroups r = 2%nat -> all_defined r = true ->
  forall tail,
  ensures
    (chapterMatches <- run_loop (extractAll html r) ;;
     chapters <- for_of chapterMatches chapter_item [] ;;
     console_log [AStr (js "Parsed " ++ string_of_nat (List.length chapters) ++ tail)] ;;;
     ret chapters)
    (fun _ => True).
Proof.
  intros Ha Hn Hd tail.
  eapply ensures_bind; [apply v2_extractAll_ensures; auto|].
  intros l Hl. rewrite Hn in Hl.
  eapply ensures_bind; [apply v2_chapter_items_ensures; exact Hl|].
  intros chapters _.
  apply ensures_write_bind. now apply ensures_ret.
Qed.

(** The page of a book always yields a record: no field can make
    the extraction fail, the title included. *)
Lemma v2_details_of_page_ensures id bookUrl html :
  answering fetch ->
  ensures (details_of_page fetch id bookUrl html)
    (fun d => bd_id d = id
              /\ (extractFirst html title_re = None ->
                  bd_title d = js "Unknown Title")
              /\ (extractFirst html author_re = None ->
                  bd_author d = js "Unknown Author")).
Proof.
  intros Hf. unfold details_of_page.
  eapply ensures_bind; [apply v2_field_ensures; pat|].
  intros title Htitle.
  eapply ensures_bind; [apply v2_field_ensures; pat|].
  intros author Hauthor.
  eapply ensures_bind with (Q := fun _ => True).
  { destruct (extractFirst html cover_re) as [caps|] eqn:E.
    - destruct (defined_nth _ _ 0 (v2_extractFirst_defined html cover_re _ eq_refl E))
        as [v Hv]; [pat|].
      eapply ensures_receiver_bind; [exact Hv|]. now apply ensures_ret.
    - now apply ensures_ret. }
  intros coverUrl _.
  eapply ensures_bind with (Q := fun _ => True).
  { destruct (extractFirst html genreList_re) as [caps|] eqn:E.
    - eapply ensures_bind; [apply v2_extractAll_ensures; reflexivity|].
      intros l Hl. now apply v2_genre_items_ensures.
    - now apply ensures_ret. }
  intros genres _.
  eapply ensures_bind; [apply v2_field_ensures; pat|].
  intros bookStatus _.
  eapply ensures_bind with (Q := fun _ => True).
  { destruct (nullish _ _) as [caps|].
    - apply ensures_write_bind.
      eapply ensures_bind; [apply ensures_fetch; exact Hf|].
      intros r (Hok & h & Ht). rewrite Hok. cbn [negb].
      eapply ensures_text_bind; [exact Ht|].
      apply chapters_of_ensures; reflexivity.
    - apply ensures_write_bind.
      destruct (extractFirst html chapterList_re) as [caps|].
      + apply chapters_of_ensures; reflexivity.
      + now apply ensures_ret. }
  intros chapters _. apply ensures_ret. cbn. auto.
Qed.

Lemma v2_getBookDetails_sound_id id :
  sound (getBookDetails fetch id) (fun d => bd_id d = id).
Proof.
  unfold getBookDetails. apply sound_bind_any. intros _.
  apply sound_try.
  - apply sound_bind_any. intros r. apply sound_bind_any. intros _.
    apply sound_bind_any. intros html. unfold details_of_page.
    repeat (apply sound_bind_any; intros ?).
    now apply sound_ret.
  - intros e. apply sound_bind_any. intros _. apply sound_throw.
Qed.

Lemma v2_getBookDetails_ensures id r html :
  answering fetch ->
  fetch (GET (bookUrl id)) = Ret r -> ok r = true -> text r = Ret html ->
  ensures (getBookDetails fetch id)
    (fun d => bd_id d = id
              /\ (extractFirst html title_re = None ->
                  bd_title d = js "Unknown Title")
              /\ (extractFirst html author_re = None ->
                  bd_author d = js "Unknown Author")).
Proof.
  intros Hf Hr Hok Ht. unfold getBookDetails.
  apply ensures_write_bind.
  apply ensures_try.
  eapply ensures_bind with (Q := fun r' => r' = r).
  { intros w. exists r. eexists. unfold await_fetch. fold (bookUrl id).
    rewrite Hr. auto. }
  intros ? ->. rewrite Hok. cbn [negb].
  eapply ensures_bind with (Q := fun _ => True); [now apply ensures_ret|].
  intros _ _.
  eapply ensures_text_bind; [exact Ht|].
  now apply v2_details_of_page_ensures.
Qed.


(** [getContent] retries once: when the first response is not ok
    and the second is, the operation goes on with the second as it
    would have with a first response that was ok, after the two
    requests and no other. *)
Lemma getContent_retry id r r2 html w :
  fetch (GET (bookUrl id)) = Ret r -> ok r = false ->
  fetch (GET (fallbackUrl id)) = Ret r2 -> ok r2 = true ->
  text r2 = Ret html ->
  exists w1,
    requests w1 = requests w ++ [GET (bookUrl id); GET (fallbackUrl id)]
    /\ (forall c w2, content_of_page id html w1 = (Ret c, w2) ->
           getContent fetch id w = (Ret c, w2))
    /\ (forall e w2, content_of_page id html w1 = (Throw e, w2) ->
           exists e' w3, getContent fetch id w = (Throw e', w3)
                         /\ requests w3 = requests w1).
Proof.
  intros Hr Hok Hr2 Hok2 Ht. eexists. split; [|split].
  2: { intros c w2 Hc.
       unfold getContent, bind, try_catch, await_fetch, await_text.
       cbn. fold (bookUrl id). rewrite Hr, Hok. cbn. fold (fallbackUrl id).
       rewrite Hr2, Hok2. cbn. rewrite Ht. rewrite Hc. reflexivity. }
  - cbn. now rewrite <- app_assoc.
  - intros e w2 Hc.
    unfold getContent, bind, try_catch, await_fetch, await_text.
    cbn. fold (bookUrl id). rewrite Hr, Hok. cbn. fold (fallbackUrl id).
    rewrite Hr2, Hok2. cbn. rewrite Ht. rewrite Hc. cbn. unfold throw.
    eexists _, _. split; [reflexivity|]. cbn.
    unfold content_of_page in Hc.
    destruct (extractFirst html content_re) as [[|[[|c0 c]|] caps]|];
      unfold bind, console_error, console_warn, console_write, throw in Hc;
      cbn in Hc; try (injection Hc as _ <-; reflexivity).
    destruct (nonempty (cleanHtmlText (c0 :: c))); cbn in Hc;
      [discriminate|injection Hc as _ <-; reflexivity].
Qed.

Lemma getContent_no_retry id r html w :
  fetch (GET (bookUrl id)) = Ret r -> ok r = true -> text r = Ret html ->
  exists w1,
    requests w1 = requests w ++ [GET (bookUrl id)]
    /\ (forall c w2, content_of_page id html w1 = (Ret c, w2) ->
           getContent fetch id w = (Ret c, w2)).
Proof.
  intros Hr Hok Ht. eexists. split.
  2: { intros c w2 Hc.
       unfold getContent, bind, try_catch, await_fetch, await_text.
       cbn. fold (bookUrl id). rewrite Hr, Hok. cbn. rewrite Ht, Hc.
       reflexivity. }
  reflexivity.
Qed.

Lemma getContent_both_fail id r r2 w :
  fetch (GET (bookUrl id)) = Ret r -> ok r = false ->
  fetch (GET (fallbackUrl id)) = Ret r2 -> ok r2 = false ->
  exists w',
    getContent fetch id w =
      (Throw (Error (js "Failed to get content for " ++ id ++ js ": "
         ++ js "Failed to fetch chapter content (tried with and without .html): "
         ++ string_of_Z (status r2))), w')
    /\ requests w' = requests w ++ [GET (bookUrl id); GET (fallbackUrl id)].
Proof.
  intros Hr Hok Hr2 Hok2.
  unfold getContent, bind, try_catch, await_fetch.
  cbn. fold (bookUrl id). rewrite Hr, Hok. cbn. fold (fallbackUrl id).
  rewrite Hr2, Hok2. cbn. unfold throw. eexists. split; [reflexivity|].
  cbn. now rewrite <- app_assoc.
Qed.

(** ** Cover URLs *)





Lemma search_item_well_formed acc mt :
  Forall well_formed acc -> sound (search_item acc mt) (Forall well_formed).
Proof.
  intros Hacc. unfold search_item.
  apply sound_bind_any; intros cover.
  apply sound_bind_any; intros t. apply sound_bind_any; intros a.
  destruct (grp mt 1) as [[|i0 i]|]; try now apply sound_ret.
  destruct (nonempty _) eqn:Et; [|now apply sound_ret].
  apply sound_ret. apply Forall_app. split; [exact Hacc|].
  constructor; [|constructor]. split; [reflexivity|exact Et].
Qed.

Lemma v2_search_well_formed query :
  sound (search fetch query) (Forall well_formed).
Proof.
  unfold search. destruct (encodeURIComponent query); [|apply sound_throw].
  apply sound_bind_any; intros _. apply sound_try.
  - apply sound_bind_any; intros r. destruct (negb (ok r)).
    + apply sound_bind_any; intros _. apply sound_ret. constructor.
    + apply sound_bind_any; intros html. apply sound_bind_any; intros l.
      apply sound_bind_any; intros _.
      eapply sound_bind.
      * apply sound_for_of; [apply search_item_well_formed|constructor].
      * intros rs Hrs. apply sound_bind_any; intros _. now apply sound_ret.
  - intros e. apply sound_bind_any; intros _. apply sound_ret. constructor.
Qed.

End WithFetch.
End V2Orch.

Module ReadWNOrch.
Import ReadWN ReadWNUrls.

Section WithFetch.
Variable fetch : transport.

Lemma wn_search_quiet query q w :
  encodeURIComponent (replace_str spaces_re (js "-") query) = Some q ->
  (forall e, fst (search fetch query w) <> Throw e)
  /\ (forall e, fetch (searchRequest q) = Throw e ->
        exists w', search fetch query w = (Ret [], w') /\ error_reported w w')
  /\ (forall r, fetch (searchRequest q) = Ret r -> ok r = false ->
        exists w', search fetch query w = (Ret [], w') /\ error_reported w w')
  /\ (forall r e, fetch (searchRequest q) = Ret r -> ok r = true ->
        text r = Throw e ->
        exists w', search fetch query w = (Ret [], w') /\ error_reported w w')
  /\ (forall r html, fetch (searchRequest q) = Ret r -> ok r = true ->
        text r = Ret html -> extractAll html itemRegex = Some [] ->
        exists w', search fetch query w = (Ret [], w')).
Proof.
  intros Hq. unfold search, searchRequest. rewrite Hq.
  split; [|split; [|split; [|split]]].
  - intros e. unfold bind at 1. cbn. apply try_catch_quiet.
    intros e' w'. eexists _, _. reflexivity.
  - intros e Hf. unfold bind, try_catch, await_fetch. cbn. rewrite Hf. cbn.
    eexists. split; [reflexivity|]. cbn.
    eexists [_], _. cbn. rewrite <- app_assoc. reflexivity.
  - intros r Hf Hok. unfold bind, try_catch, await_fetch. cbn. rewrite Hf, Hok. cbn.
    eexists. split; [reflexivity|]. cbn.
    eexists [_], _. cbn. rewrite <- app_assoc. reflexivity.
  - intros r e Hf Hok Ht. unfold bind, try_catch, await_fetch, await_text. cbn.
    rewrite Hf, Hok. cbn. rewrite Ht. cbn.
    eexists. split; [reflexivity|]. cbn.
    eexists [_], _. cbn. rewrite <- app_assoc. reflexivity.
  - intros r html Hf Hok Ht Hx. unfold bind, try_catch, await_fetch, await_text. cbn.
    rewrite Hf, Hok. cbn. rewrite Ht. cbn. rewrite Hx. cbn.
    eexists. reflexivity.
Qed.

Lemma wn_extractFirst_defined html r caps :
  all_defined r = true ->
  extractFirst html r = Some caps -> defined caps (ngroups r).
Proof.
  unfold extractFirst, string_match. intros Hd H.
  destruct (negb (nonempty html)); [discriminate|].
  destruct (search_from r html 0) as [mt|] eqn:E; [|discriminate].
  injection H as <-. eapply search_from_defined; eauto.
Qed.

Lemma extractAll_of_ensures v r :
  advancing r = true -> all_defined r = true ->
  ensures (run_loop (extractAll_of v r))
          (Forall (fun mt => defined (groups mt) (ngroups r))).
Proof.
  intros Ha Hd. destruct v as [[|h0 html]|]; unfold extractAll_of, extractAll.
  - eapply ensures_run_loop; [reflexivity|constructor].
  - cbn [nonempty negb]. now apply exec_loop_ensures.
  - eapply ensures_run_loop; [reflexivity|constructor].
Qed.

Lemma wn_field_ensures html r f d :
  all_defined r = true -> (0 < ngroups r)%nat ->
  ensures (field (extractFirst html r) f d)
          (fun t => extractFirst html r = None -> t = d).
Proof.
  intros Hd Hn. destruct (extractFirst html r) as [caps|] eqn:E; simpl.
  - destruct (defined_nth _ _ 0 (wn_extractFirst_defined _ _ _ Hd E) Hn) as [v Hv].
    eapply ensures_receiver_bind; [exact Hv|].
    apply ensures_ret. discriminate.
  - apply ensures_ret. reflexivity.
Qed.

Lemma wn_genre_items_ensures l :
  Forall (fun mt => defined (groups mt) 1) l ->
  ensures (for_of l genre_item []) (fun _ => True).
Proof.
  intros Hl. apply ensures_for_of; auto.
  intros acc mt Hin _. rewrite Forall_forall in Hl.
  destruct (defined_nth _ _ 0 (Hl mt Hin)) as [v Hv]; [lia|].
  unfold genre_item. eapply ensures_receiver_bind; [exact Hv|].
  now apply ensures_ret.
Qed.

Lemma wn_chapter_items_ensures l :
  Forall (fun mt => defined (groups mt) 2) l ->
  ensures (for_of l chapter_item []) (fun _ => True).
Proof.
  intros Hl. apply ensures_for_of; auto.
  intros acc mt Hin _. rewrite Forall_forall in Hl.
  destruct (defined_nth _ _ 0 (Hl mt Hin)) as [p Hp]; [lia|].
  destruct (defined_nth _ _ 1 (Hl mt Hin)) as [v Hv]; [lia|].
  unfold chapter_item.
  eapply ensures_receiver_bind; [exact Hp|].
  eapply ensures_receiver_bind; [exact Hv|].
  destruct (_ && _); now apply ensures_ret.
Qed.

Lemma wn_details_of_page_ensures id html :
  ensures (details_of_page id html)
    (fun d => bd_id d = id
              /\ (extractFirst html title_re = None ->
                  bd_title d = js "Unknown Title")
              /\ (extractFirst html author_re = None ->
                  bd_author d = js "Unknown Author")).
Proof.
  unfold details_of_page.
  eapply ensures_bind; [apply wn_field_ensures; pat|].
  intros title Htitle.
  eapply ensures_bind; [apply wn_field_ensures; pat|].
  intros author Hauthor.
  eapply ensures_bind with (Q := fun _ => True).
  { destruct (extractFirst html cover_re) as [caps|] eqn:E.
    - destruct (defined_nth _ _ 0 (wn_extractFirst_defined html cover_re _ eq_refl E))
        as [v Hv]; [pat|].
      eapply ensures_receiver_bind; [exact Hv|]. now apply ensures_ret.
    - now apply ensures_ret. }
  intros coverUrl _.
  eapply ensures_bind with (Q := fun _ => True).
  { destruct (extractFirst html genreList_re) as [caps|] eqn:E.
    - eapply ensures_bind; [apply extractAll_of_ensures; reflexivity|].
      intros l Hl. now apply wn_genre_items_ensures.
    - now apply ensures_ret. }
  intros genres _.
  eapply ensures_bind; [apply wn_field_ensures; pat|].
  intros bookStatus _.
  eapply ensures_bind with (Q := fun _ => True).
  { destruct (extractFirst html chapterList_re) as [caps|].
    - eapply ensures_bind; [apply extractAll_of_ensures; reflexivity|].
      intros l Hl.
      eapply ensures_bind; [apply wn_chapter_items_ensures; exact Hl|].
      intros chapters _. apply ensures_write_bind. now apply ensures_ret.
    - apply ensures_write_bind. now apply ensures_ret. }
  intros chapters _. apply ensures_ret. cbn. auto.
Qed.

Lemma wn_getBookDetails_sound_id id :
  sound (getBookDetails fetch id) (fun d => bd_id d = id).
Proof.
  unfold getBookDetails. apply sound_bind_any. intros _.
  apply sound_try.
  - apply sound_bind_any. intros r. apply sound_bind_any. intros _.
    apply sound_bind_any. intros html. unfold details_of_page.
    repeat (apply sound_bind_any; intros ?).
    now apply sound_ret.
  - intros e. apply sound_bind_any. intros _. apply sound_throw.
Qed.

Lemma wn_getBookDetails_ensures id r html :
  fetch (GET (bookUrl id)) = Ret r -> ok r = true -> text r = Ret html ->
  ensures (getBookDetails fetch id)
    (fun d => bd_id d = id
              /\ (extractFirst html title_re = None ->
                  bd_title d = js "Unknown Title")
              /\ (extractFirst html author_re = None ->
                  bd_author d = js "Unknown Author")).
Proof.
  intros Hr Hok Ht. unfold getBookDetails.
  apply ensures_write_bind.
  apply ensures_try.
  eapply ensures_bind with (Q := fun r' => r' = r).
  { intros w. exists r. eexists. unfold await_fetch. fold (bookUrl id).
    rewrite Hr. auto. }
  intros ? ->. rewrite Hok. cbn [negb].
  eapply ensures_bind with (Q := fun _ => True); [now apply ensures_ret|].
  intros _ _.
  eapply ensures_text_bind; [exact Ht|].
  apply wn_details_of_page_ensures.
Qed.




Lemma wn_search_well_formed query :
  sound (search fetch query) (Forall well_formed).
Proof.
  unfold search. destruct (encodeURIComponent _); [|apply sound_throw].
  apply sound_bind_any; intros _. apply sound_try.
  - apply sound_bind_any; intros r. destruct (negb (ok r)).
    + apply sound_bind_any; intros _. apply sound_ret. constructor.
    + apply sound_bind_any; intros html. apply sound_bind_any; intros l.
      apply sound_bind_any; intros _.
      eapply sound_bind with (Q := Forall well_formed).
      * apply sound_for_of; [|constructor].
        intros acc mt Hacc. unfold search_item.
        apply sound_bind_any; intros p.
        apply sound_bind_any; intros cover. apply sound_bind_any; intros t.
        destruct (nonempty _ && nonempty _) eqn:E; [|now apply sound_ret].
        apply andb_prop in E. destruct E as [E1 E2].
        apply sound_ret. apply Forall_app. split; [exact Hacc|].
        constructor; [|constructor]. split; [exact E1|exact E2].
      * intros rs Hrs. apply sound_bind_any; intros _. now apply sound_ret.
  - intros e. apply sound_bind_any; intros _. apply sound_ret. constructor.
Qed.


(** ** The chain of the two content containers *)

Lemma first_capture_some mt c :
  first_capture mt = Some c ->
  exists c0 c' caps, c = c0 :: c' /\ mt = Some (Some (c0 :: c') :: caps).
Proof.
  destruct mt as [[|[[|c0 c']|] caps]|]; simpl; try discriminate.
  intros E. injection E as <-. eauto.
Qed.



Lemma content_absent chapterUrl html w :
  first_capture (extractFirst html content_re) = None ->
  first_capture (extractFirst html content_fallback_re) = None ->
  exists w',
    content_of_page chapterUrl html w =
      (Throw (Error (js "Chapter content container not found (#chapter-container or .chapter-content).")), w').
Proof.
  intros H1 H2. unfold content_of_page.
  destruct (extractFirst html content_re) as [[|[[|d0 d]|] caps1]|];
    try discriminate H1;
    destruct (extractFirst html content_fallback_re) as [[|[[|e0 e]|] caps2]|];
    try discriminate H2; unfold bind; cbn; eexists; reflexivity.
Qed.


End WithFetch.
End ReadWNOrch.

Module MangaPillOrch.
Import MangaPill MangaPillUrls.

Section WithFetch.
Variable fetch : transport.

Lemma mp_search_quiet query q w :
  encodeURIComponent query = Some q ->
  (forall e, fst (search fetch query w) <> Throw e)
  /\ (forall e, fetch (searchRequest q) = Throw e ->
        exists w', search fetch query w = (Ret [], w') /\ error_reported w w')
  /\ (forall r, fetch (searchRequest q) = Ret r -> ok r = false ->
        exists w', search fetch query w = (Ret [], w') /\ error_reported w w')
  /\ (forall r e, fetch (searchRequest q) = Ret r -> ok r = true ->
        text r = Throw e ->
        exists w', search fetch query w = (Ret [], w') /\ error_reported w w')
  /\ (forall r html, fetch (searchRequest q) = Ret r -> ok r = true ->
        text r = Ret html -> extractAll html itemRegex = Some [] ->
        exists w', search fetch query w = (Ret [], w')).
Proof.
  intros Hq. unfold search, searchRequest. rewrite Hq.
  split; [|split; [|split; [|split]]].
  - intros e. unfold bind at 1. cbn. apply try_catch_quiet.
    intros e' w'. eexists _, _. reflexivity.
  - intros e Hf. unfold bind, try_catch, await_fetch. cbn. rewrite Hf. cbn.
    eexists. split; [reflexivity|]. cbn.
    eexists [_], _. cbn. rewrite <- app_assoc. reflexivity.
  - intros r Hf Hok. unfold bind, try_catch, await_fetch. cbn. rewrite Hf, Hok. cbn.
    eexists. split; [reflexivity|]. cbn.
    eexists [_], _. cbn. rewrite <- app_assoc. reflexivity.
  - intros r e Hf Hok Ht. unfold bind, try_catch, await_fetch, await_text. cbn.
    rewrite Hf, Hok. cbn. rewrite Ht. cbn.
    eexists. split; [reflexivity|]. cbn.
    eexists [_], _. cbn. rewrite <- app_assoc. reflexivity.
  - intros r html Hf Hok Ht Hx. unfold bind, try_catch, await_fetch, await_text. cbn.
    rewrite Hf, Hok. cbn. rewrite Ht. cbn. rewrite Hx. cbn.
    eexists. reflexivity.
Qed.

(** A result is pushed for every block whose link begins with
    [/manga/]; its title is not checked. *)
Lemma search_ids query :
  sound (search fetch query)
        (Forall (fun r => startsWith (js "/manga/") (sr_id r) = true)).
Proof.
  unfold search. destruct (encodeURIComponent _); [|apply sound_throw].
  apply sound_bind_any; intros _. apply sound_try.
  - apply sound_bind_any; intros r. destruct (negb (ok r)).
    + apply sound_bind_any; intros _. apply sound_ret. constructor.
    + apply sound_bind_any; intros html. apply sound_bind_any; intros l.
      apply sound_bind_any; intros _.
      eapply sound_bind
        with (Q := Forall (fun r => startsWith (js "/manga/") (sr_id r) = true)).
      * apply sound_for_of; [|constructor].
        intros acc mt Hacc. unfold search_item.
        destruct (grp mt 1) as [[|i0 i]|]; try now apply sound_ret.
        destruct (startsWith _ _) eqn:E; [|now apply sound_ret].
        apply sound_bind_any; intros t.
        apply sound_ret. apply Forall_app. split; [exact Hacc|].
        constructor; [|constructor]. exact E.
      * intros rs Hrs. apply sound_bind_any; intros _. now apply sound_ret.
  - intros e. apply sound_bind_any; intros _. apply sound_ret. constructor.
Qed.

Lemma mp_extractFirst_defined html r caps :
  all_defined r = true ->
  extractFirst html r = Some caps -> defined caps (ngroups r).
Proof.
  unfold extractFirst, string_match. intros Hd H.
  destruct (search_from r html 0) as [mt|] eqn:E; [|discriminate].
  injection H as <-. eapply search_from_defined; eauto.
Qed.

Lemma mp_field_ensures html r d :
  all_defined r = true -> (0 < ngroups r)%nat ->
  ensures (field (extractFirst html r) d)
          (fun t => extractFirst html r = None -> t = d).
Proof.
  intros Hd Hn. destruct (extractFirst html r) as [caps|] eqn:E; simpl.
  - destruct (defined_nth _ _ 0 (mp_extractFirst_defined _ _ _ Hd E) Hn) as [v Hv].
    eapply ensures_receiver_bind; [exact Hv|].
    apply ensures_ret. discriminate.
  - apply ensures_ret. reflexivity.
Qed.

Lemma field_chain_ensures html r1 r2 d :
  all_defined r1 = true -> (0 < ngroups r1)%nat ->
  all_defined r2 = true -> (0 < ngroups r2)%nat ->
  ensures (field (nullish (extractFirst html r1) (extractFirst html r2)) d)
          (fun t => nullish (extractFirst html r1) (extractFirst html r2)
                    = None -> t = d).
Proof.
  intros Hd1 Hn1 Hd2 Hn2.
  destruct (extractFirst html r1) as [caps|] eqn:E1; simpl.
  - destruct (defined_nth _ _ 0 (mp_extractFirst_defined _ _ _ Hd1 E1) Hn1) as [v Hv].
    eapply ensures_receiver_bind; [exact Hv|]. apply ensures_ret. discriminate.
  - destruct (extractFirst html r2) as [caps|] eqn:E2; simpl.
    + destruct (defined_nth _ _ 0 (mp_extractFirst_defined _ _ _ Hd2 E2) Hn2) as [v Hv].
      eapply ensures_receiver_bind; [exact Hv|]. apply ensures_ret. discriminate.
    + now apply ensures_ret.
Qed.

Lemma mp_extractAll_ensures html r :
  advancing r = true -> all_defined r = true ->
  ensures (run_loop (extractAll html r))
          (Forall (fun mt => defined (groups mt) (ngroups r))).
Proof. apply exec_loop_ensures. Qed.

Lemma mp_genre_items_ensures l :
  Forall (fun mt => defined (groups mt) 1) l ->
  ensures (for_of l genre_item []) (fun _ => True).
Proof.
  intros Hl. apply ensures_for_of; auto.
  intros acc mt Hin _. rewrite Forall_forall in Hl.
  destruct (defined_nth _ _ 0 (Hl mt Hin)) as [v Hv]; [lia|].
  unfold genre_item. eapply ensures_receiver_bind; [exact Hv|].
  now apply ensures_ret.
Qed.

Lemma mp_chapter_items_ensures l :
  Forall (fun mt => defined (groups mt) 2) l ->
  ensures (for_of l chapter_item []) (fun _ => True).
Proof.
  intros Hl. apply ensures_for_of; auto.
  intros acc mt Hin _. rewrite Forall_forall in Hl.
  destruct (defined_nth _ _ 1 (Hl mt Hin)) as [v Hv]; [lia|].
  unfold chapter_item.
  eapply ensures_receiver_bind; [exact Hv|]. now apply ensures_ret.
Qed.

Lemma mp_details_of_page_ensures id html :
  ensures (details_of_page id html)
    (fun d => bd_id d = id
              /\ (extractFirst html title_re = None ->
                  bd_title d = js "Unknown Title")
              /\ (nullish (extractFirst html author_re)
                          (extractFirst html author_alt_re) = None ->
                  bd_author d = js "N/A")).
Proof.
  unfold details_of_page.
  eapply ensures_bind; [apply mp_field_ensures; pat|].
  intros title Htitle.
  eapply ensures_bind; [apply mp_field_ensures; pat|].
  intros description _.
  eapply ensures_bind; [apply field_chain_ensures; pat|].
  intros author Hauthor.
  eapply ensures_bind; [apply mp_field_ensures; pat|].
  intros bookStatus _.
  eapply ensures_bind; [apply mp_field_ensures; pat|].
  intros type _.
  eapply ensures_bind; [apply mp_extractAll_ensures; reflexivity|].
  intros gl Hgl.
  eapply ensures_bind; [apply mp_genre_items_ensures; exact Hgl|].
  intros genres _.
  eapply ensures_bind with (Q := fun _ => True).
  { destruct (string_match chapterList_re html) as [lm|].
    - destruct (grp lm 1) as [[|c0 c]|]; try now apply ensures_ret.
      eapply ensures_bind; [apply mp_extractAll_ensures; reflexivity|].
      intros l Hl.
      eapply ensures_bind; [apply mp_chapter_items_ensures; exact Hl|].
      intros chapters _. now apply ensures_ret.
    - now apply ensures_ret. }
  intros chapters _. apply ensures_ret. cbn. auto.
Qed.

Lemma mp_getBookDetails_sound_id id :
  sound (getBookDetails fetch id) (fun d => bd_id d = id).
Proof.
  unfold getBookDetails. apply sound_bind_any. intros _.
  apply sound_try.
  - apply sound_bind_any. intros r. apply sound_bind_any. intros _.
    apply sound_bind_any. intros html. unfold details_of_page.
    repeat (apply sound_bind_any; intros ?).
    now apply sound_ret.
  - intros e. apply sound_bind_any. intros _. apply sound_throw.
Qed.

Lemma mp_getBookDetails_ensures id r html :
  fetch (pageRequest id) = Ret r -> ok r = true -> text r = Ret html ->
  ensures (getBookDetails fetch id)
    (fun d => bd_id d = id
              /\ (extractFirst html title_re = None ->
                  bd_title d = js "Unknown Title")
              /\ (nullish (extractFirst html author_re)
                          (extractFirst html author_alt_re) = None ->
                  bd_author d = js "N/A")).
Proof.
  intros Hr Hok Ht. unfold getBookDetails.
  apply ensures_write_bind.
  apply ensures_try.
  eapply ensures_bind with (Q := fun r' => r' = r).
  { intros w. exists r. eexists. unfold await_fetch. fold (pageRequest id).
    rewrite Hr. auto. }
  intros ? ->. rewrite Hok. cbn [negb].
  eapply ensures_bind with (Q := fun _ => True); [now apply ensures_ret|].
  intros _ _.
  eapply ensures_text_bind; [exact Ht|].
  apply mp_details_of_page_ensures.
Qed.

(** ** The chain of the two page patterns *)





End WithFetch.
End MangaPillOrch.

(** ** Where a pattern can match *)

Lemma m_nil_fails fl r caps k res :
  (0 < minlen r)%nat -> m fl r [] caps k = Some res -> False.
Proof.
  intros Hm H. apply m_inv in H. destruct H as (s' & caps' & _ & _ & Hl).
  simpl in Hl. lia.
Qed.

Lemma m_starts fl r :
  forall x s caps k res,
    (0 < minlen r)%nat -> m fl r (x :: s) caps k = Some res ->
    starts fl r x = true.
Proof.
  induction r; intros x s caps k res Hm H; simpl in *; try lia.
  - destruct (canon fl x =? canon fl c); [reflexivity|discriminate].
  - destruct (class_matches fl neg items x); [reflexivity|discriminate].
  - destruct (0 <? minlen r1)%nat eqn:E; [|reflexivity].
    apply Nat.ltb_lt in E. eapply IHr1; eauto.
  - unfold orelse in H. destruct (m fl r1 (x :: s) caps k) eqn:E1.
    + rewrite (IHr1 _ _ _ _ _ ltac:(lia) E1). reflexivity.
    + rewrite (IHr2 _ _ _ _ _ ltac:(lia) H). apply orb_true_r.
  - assert (Hq : (0 < qmin min max)%nat) by nia.
    assert (Hr : (0 < minlen r)%nat) by nia.
    apply Nat.ltb_lt in Hq as Hq'. rewrite Hq'.
    rewrite Nat.add_1_r in H. simpl in H.
    assert (Hmin : (0 < min)%nat) by (destruct max; simpl in Hq; lia).
    apply Nat.ltb_lt in Hmin as Hmin'. rewrite Hmin' in H.
    destruct max as [[|mx]|]; [simpl in Hq; lia| |]; eapply IHr; eauto.
  - eapply IHr; eauto.
Qed.

Lemma match_here_starts re x s res :
  (0 < minlen (ast re))%nat -> match_here re (x :: s) = Some res ->
  starts (rflags re) (ast re) x = true.
Proof. unfold match_here. intros Hm H. eapply m_starts; eauto. Qed.

Lemma match_here_nil re res :
  (0 < minlen (ast re))%nat -> match_here re [] = Some res -> False.
Proof. unfold match_here. intros Hm H. eapply m_nil_fails; eauto. Qed.

(** A pattern that no character of the text can begin matches nowhere
    in it. *)
Lemma no_start_no_match re s :
  (0 < minlen (ast re))%nat ->
  (forall x, In x s -> starts (rflags re) (ast re) x = false) ->
  forall j, match_here re (skipn j s) = None.
Proof.
  intros Hm Hs j. destruct (match_here re (skipn j s)) as [res|] eqn:E; auto.
  exfalso. destruct (skipn j s) as [|x t] eqn:Es.
  - eapply match_here_nil; eauto.
  - apply match_here_starts in E; auto.
    rewrite Hs in E; [discriminate|].
    assert (In x (skipn j s)) by (rewrite Es; now left).
    rewrite <- (firstn_skipn j s). apply in_or_app. now right.
Qed.

Lemma replace_loop_unchanged re f :
  forall fuel s i,
    (forall j, match_here re (skipn j s) = None) ->
    replace_loop fuel re f s i = s.
Proof.
  induction fuel as [|fuel IH]; intros s i H; simpl; auto.
  pose proof (H 0%nat) as H0. simpl in H0. rewrite H0.
  destruct s as [|c s]; auto. f_equal.
  apply IH. intros j. apply (H (S j)).
Qed.

Lemma replace_first_unchanged re f :
  forall s i,
    (forall j, match_here re (skipn j s) = None) ->
    replace_first re f s i = s.
Proof.
  induction s as [|c s IH]; intros i H; simpl;
    pose proof (H 0%nat) as H0; simpl in H0; rewrite H0; auto.
  f_equal. apply IH. intros j. apply (H (S j)).
Qed.

Lemma replace_unchanged re f s :
  (forall j, match_here re (skipn j s) = None) -> replace re f s = s.
Proof.
  intros H. unfold replace. destruct (global (rflags re)).
  - now apply replace_loop_unchanged.
  - now apply replace_first_unchanged.
Qed.

Lemma replace_no_start re f s :
  (0 < minlen (ast re))%nat ->
  (forall x, In x s -> starts (rflags re) (ast re) x = false) ->
  replace re f s = s.
Proof.
  intros Hm Hs. apply replace_unchanged. now apply no_start_no_match.
Qed.

(** ** Greedy repetition of a one-character atom *)

Section Greedy.

Variable p : Z -> bool.
Variable mr : jsstring -> captures -> cont -> mresult.
Hypothesis mr_spec : forall s caps k,
  mr s caps k = match s with
                | x :: s' => if p x then k s' caps else None
                | [] => None
                end.

(** When what follows cannot begin with a character of the atom, the
    repetition takes all the characters it can and does not give any
    back. *)
Lemma greedy_all lazy k :
  (forall x s caps, p x = true -> k (x :: s) caps = None) ->
  forall s fuel mn caps,
    (length (take_while p s) < fuel)%nat ->
    repeat_matcher mr [] lazy k fuel mn None s caps
    = if (mn <=? length (take_while p s))%nat
      then k (drop_while p s) caps else None.
Proof.
  intros Hk. induction s as [|x s IH]; intros fuel mn caps Hf;
    (destruct fuel as [|fuel]; [simpl in Hf; lia|]); simpl; rewrite mr_spec.
  - destruct mn as [|mn]; simpl; [|reflexivity].
    destruct lazy; unfold orelse; [|reflexivity].
    destruct (k [] caps); reflexivity.
  - destruct (p x) eqn:Hp; simpl.
    + replace (length s =? S (length s))%nat with false
        by (symmetry; apply Nat.eqb_neq; lia).
      rewrite andb_false_r. simpl in Hf. rewrite Hp in Hf. simpl in Hf.
      rewrite IH by lia.
      destruct mn as [|mn]; simpl.
      * destruct lazy; unfold orelse; rewrite (Hk x s caps Hp);
          destruct (k (drop_while p s) caps); reflexivity.
      * reflexivity.
    + destruct mn as [|mn]; simpl; [|reflexivity].
      destruct lazy; unfold orelse; [|reflexivity].
      destruct (k (x :: s) caps); reflexivity.
Qed.

(** With nothing after it, a greedy repetition takes all it can. *)
Lemma greedy_top :
  forall s fuel mn caps,
    (length (take_while p s) < fuel)%nat ->
    repeat_matcher mr [] false (fun s' c => Some (s', c)) fuel mn None s caps
    = if (mn <=? length (take_while p s))%nat
      then Some (drop_while p s, caps) else None.
Proof.
  induction s as [|x s IH]; intros fuel mn caps Hf;
    (destruct fuel as [|fuel]; [simpl in Hf; lia|]); simpl; rewrite mr_spec.
  - destruct mn; simpl; auto.
  - destruct (p x) eqn:Hp; simpl.
    + replace (length s =? S (length s))%nat with false
        by (symmetry; apply Nat.eqb_neq; lia).
      rewrite andb_false_r. simpl in Hf. rewrite Hp in Hf. simpl in Hf.
      rewrite IH by lia.
      destruct mn as [|mn]; simpl; reflexivity.
    + destruct mn; simpl; auto.
Qed.

End Greedy.

Lemma take_while_length p s : (length (take_while p s) <= length s)%nat.
Proof. induction s as [|x s IH]; simpl; [lia|]. destruct (p x); simpl; lia. Qed.

Lemma take_drop_while p s : take_while p s ++ drop_while p s = s.
Proof.
  induction s as [|x s IH]; simpl; auto. destruct (p x); simpl; auto.
  now rewrite IH.
Qed.

(** ** Plain text goes through the tag and reference patterns unchanged *)

Lemma canon_neq fl x c :
  (c < 97 \/ 122 < c) -> (c < 65 \/ 90 < c) -> x <> c ->
  (canon fl x =? canon fl c) = false.
Proof.
  intros H1 H2 Hx. unfold canon. apply Z.eqb_neq.
  destruct (ignoreCase fl); simpl;
    destruct (97 <=? x) eqn:A; destruct (x <=? 122) eqn:B;
    destruct (97 <=? c) eqn:C; destruct (c <=? 122) eqn:D; simpl; lia.
Qed.

Lemma begins_with_unchanged c re f s :
  (c < 97 \/ 122 < c) -> (c < 65 \/ 90 < c) ->
  begins_with c re -> (forall x, In x s -> x <> c) -> replace re f s = s.
Proof.
  intros H1 H2 [r' Hr] Hs. apply replace_no_start.
  - rewrite Hr. simpl. lia.
  - intros x Hx. rewrite Hr. simpl. apply canon_neq; auto.
Qed.

Ltac begins := eexists; reflexivity.



(** ** Trimming *)

Lemma trimStart_piece s : exists a, s = a ++ trimStart s /\ forallb is_space a = true.
Proof.
  induction s as [|c s IH]; simpl.
  - exists []. auto.
  - destruct (is_space c) eqn:E.
    + destruct IH as (a & Ha & Hs). exists (c :: a). simpl. rewrite E, Hs.
      split; [now f_equal|reflexivity].
    + exists []. auto.
Qed.

Lemma trimEnd_piece s : exists b, s = trimEnd s ++ b /\ forallb is_space b = true.
Proof.
  unfold trimEnd. destruct (trimStart_piece (rev s)) as (a & Ha & Hs).
  exists (rev a). split.
  - apply (f_equal (@rev Z)) in Ha.
    rewrite rev_involutive, rev_app_distr in Ha. exact Ha.
  - rewrite forallb_forall in *. intros x Hx. apply Hs. now apply in_rev.
Qed.

Lemma trim_piece s : piece_of (trim s) s.
Proof.
  unfold trim. destruct (trimStart_piece s) as (a & Ha & _).
  destruct (trimEnd_piece (trimStart s)) as (b & Hb & _).
  exists a, b. rewrite <- Hb. exact Ha.
Qed.

Lemma trimStart_head s :
  match trimStart s with
  | c :: _ => is_space c = false
  | [] => True
  end.
Proof.
  induction s as [|c s IH]; simpl; auto. destruct (is_space c) eqn:E; auto.
Qed.

Lemma trimStart_fix s :
  match s with c :: _ => is_space c = false | [] => True end ->
  trimStart s = s.
Proof. destruct s as [|c s]; simpl; auto. now intros ->. Qed.

Lemma trimStart_idem s : trimStart (trimStart s) = trimStart s.
Proof. apply trimStart_fix. apply trimStart_head. Qed.

Lemma trimEnd_idem s : trimEnd (trimEnd s) = trimEnd s.
Proof.
  unfold trimEnd. rewrite rev_involutive, trimStart_idem. reflexivity.
Qed.

Lemma trimStart_trimEnd s :
  trimStart s = s -> trimStart (trimEnd s) = trimEnd s.
Proof.
  intros Hs. apply trimStart_fix.
  destruct (trimEnd_piece s) as (b & Hb & _).
  destruct (trimEnd s) as [|c t] eqn:E; auto.
  clear E. subst s. simpl in Hs.
  destruct (is_space c) eqn:Ec; auto.
  exfalso. apply (f_equal (@length Z)) in Hs. simpl in Hs.
  destruct (trimStart_piece (t ++ b)) as (a & Ha & _).
  assert (L : (length (t ++ b) = length a + length (trimStart (t ++ b)))%nat)
    by (rewrite <- length_app, <- Ha; reflexivity).
  lia.
Qed.

Lemma trim_trimmed s : trimmed (trim s).
Proof.
  unfold trimmed, trim. split.
  - apply trimStart_trimEnd. apply trimStart_idem.
  - apply trimEnd_idem.
Qed.

Lemma trim_fix s : trimmed s -> trim s = s.
Proof. intros [H1 H2]. unfold trim. now rewrite H1, H2. Qed.


Lemma piece_of_in u s x : piece_of u s -> In x u -> In x s.
Proof.
  intros (a & b & ->) H. apply in_or_app. right. apply in_or_app. now left.
Qed.



(** ** Collapsing line breaks *)

Lemma collapse_run_spec : forall s run,
  collapse_run run s
  = repeat nl (Nat.min (run + length (take_while is_nl s)) 2)
    ++ collapse_run 0 (drop_while is_nl s).
Proof.
  induction s as [|c s IH]; intros run; simpl.
  - rewrite Nat.add_0_r, app_nil_r. reflexivity.
  - unfold is_nl at 1 3. destruct (c =? nl) eqn:E.
    + rewrite IH. simpl. rewrite Nat.add_succ_r. reflexivity.
    + simpl. rewrite Nat.add_0_r, E. reflexivity.
Qed.

Lemma drop_while_head p s :
  match drop_while p s with
  | c :: _ => p c = false
  | [] => True
  end.
Proof.
  induction s as [|c s IH]; simpl; auto. destruct (p c) eqn:E; auto.
Qed.

Lemma drop_while_length p s : (length (drop_while p s) <= length s)%nat.
Proof.
  induction s as [|c s IH]; simpl; auto. destruct (p c); simpl; lia.
Qed.

Lemma take_drop_length p s :
  (length (take_while p s) + length (drop_while p s) = length s)%nat.
Proof.
  rewrite <- length_app, take_drop_while. reflexivity.
Qed.

Lemma newlines_match s :
  match_here ReadWN.newlines_re s
  = if (3 <=? length (take_while is_nl s))%nat
    then Some (drop_while is_nl s, []) else None.
Proof.
  unfold match_here. cbn [ReadWN.newlines_re ast ngroups rflags repeat m groups_of].
  apply greedy_top with (p := is_nl).
  - intros s0 caps k. destruct s0 as [|x s0]; reflexivity.
  - pose proof (take_while_length is_nl s). lia.
Qed.

Lemma collapse_short c s :
  (length (take_while is_nl (c :: s)) < 3)%nat ->
  collapse_run 0 (c :: s) = c :: collapse_run 0 s.
Proof.
  intros H. simpl in *. unfold is_nl in H. destruct (c =? nl) eqn:E; [|reflexivity].
  apply Z.eqb_eq in E. subst c. simpl in H.
  rewrite (collapse_run_spec s 1), (collapse_run_spec s 0).
  fold is_nl in H.
  destruct (length (take_while is_nl s)) as [|[|n]]; simpl in *; try lia; reflexivity.
Qed.

Lemma collapse_regex_loop : forall fuel s i,
  (length s < fuel)%nat ->
  replace_loop fuel ReadWN.newlines_re (fun _ => [nl; nl]) s i
  = collapse_run 0 s.
Proof.
  induction fuel as [|fuel IH]; intros s i Hf; [lia|].
  simpl. rewrite newlines_match.
  destruct (3 <=? length (take_while is_nl s))%nat eqn:E.
  - apply Nat.leb_le in E.
    pose proof (take_drop_length is_nl s) as Hl.
    replace (length (drop_while is_nl s) <? length s)%nat with true
      by (symmetry; apply Nat.ltb_lt; lia).
    rewrite IH by lia. rewrite (collapse_run_spec s 0). simpl.
    destruct (length (take_while is_nl s)) as [|[|[|n]]]; try lia; reflexivity.
  - apply Nat.leb_gt in E. destruct s as [|c s]; [reflexivity|].
    rewrite IH by (simpl in Hf; lia). symmetry. now apply collapse_short.
Qed.

(** The last replacement of the cleaner is the collapse the
    specification describes. *)
Lemma collapse_regex s :
  replace_str ReadWN.newlines_re [nl; nl] s = collapse s.
Proof.
  unfold replace_str, replace, collapse. cbn [ReadWN.newlines_re rflags global].
  apply collapse_regex_loop. lia.
Qed.

Lemma runs_ok_fix s : runs_ok s -> collapse s = s.
Proof.
  intros H. rewrite <- collapse_regex. apply replace_unchanged.
  intros j. rewrite newlines_match.
  specialize (H j). destruct (3 <=? _)%nat eqn:E; auto.
  apply Nat.leb_le in E. lia.
Qed.

Lemma runs_ok_cons c s :
  (length (take_while is_nl (c :: s)) <= 2)%nat -> runs_ok s -> runs_ok (c :: s).
Proof. intros H Hs [|j]; simpl; [exact H|apply Hs]. Qed.

Lemma runs_ok_tl c s : runs_ok (c :: s) -> runs_ok s.
Proof. intros H j. apply (H (S j)). Qed.

Lemma take_while_app_le p a b :
  (length (take_while p a) <= length (take_while p (a ++ b)))%nat.
Proof.
  induction a as [|x a IH]; simpl; [lia|]. destruct (p x); simpl; lia.
Qed.

Lemma runs_ok_app_l a b : runs_ok (a ++ b) -> runs_ok a.
Proof.
  revert b. induction a as [|x a IH]; intros b H.
  - intros j. rewrite skipn_nil. simpl. lia.
  - apply runs_ok_cons.
    + pose proof (H 0%nat) as H0. simpl skipn in H0.
      pose proof (take_while_app_le is_nl (x :: a) b). simpl app in *. lia.
    + apply (IH b). eapply runs_ok_tl. exact H.
Qed.

Lemma runs_ok_app_r a b : runs_ok (a ++ b) -> runs_ok b.
Proof.
  induction a as [|x a IH]; intros H; auto. apply IH. eapply runs_ok_tl. exact H.
Qed.

Lemma runs_ok_piece u s : piece_of u s -> runs_ok s -> runs_ok u.
Proof.
  intros (a & b & ->) H. apply runs_ok_app_r in H. now apply runs_ok_app_l in H.
Qed.

Lemma runs_ok_nil : runs_ok [].
Proof. intros j. rewrite skipn_nil. simpl. lia. Qed.

Lemma take_while_repeat_nl u :
  match u with x :: _ => is_nl x = false | [] => True end ->
  forall k, length (take_while is_nl (repeat nl k ++ u)) = k.
Proof.
  intros Hx. induction k as [|k IHk]; simpl.
  - destruct u as [|x u]; simpl; auto. now rewrite Hx.
  - change (is_nl nl) with true. cbn iota. simpl length. now rewrite IHk.
Qed.

Lemma runs_ok_repeat u :
  runs_ok u ->
  match u with x :: _ => is_nl x = false | [] => True end ->
  forall k, (k <= 2)%nat -> runs_ok (repeat nl k ++ u).
Proof.
  intros Hu Hx. induction k as [|k IHk]; intros Hk; simpl; auto.
  apply runs_ok_cons.
  - change (nl :: repeat nl k ++ u) with (repeat nl (S k) ++ u).
    rewrite take_while_repeat_nl; auto.
  - apply IHk. lia.
Qed.

Lemma runs_ok_collapse_run : forall n s,
  (length s < n)%nat -> forall run, runs_ok (collapse_run run s).
Proof.
  induction n as [|n IH]; intros s Hn run; [lia|].
  rewrite collapse_run_spec.
  pose proof (drop_while_head is_nl s) as Hh.
  pose proof (drop_while_length is_nl s) as Hl.
  destruct (drop_while is_nl s) as [|c t] eqn:Ed.
  - apply runs_ok_repeat; [apply runs_ok_nil|exact I|lia].
  - assert (Ht : runs_ok (collapse_run 0 t)) by (apply IH; simpl in Hl; lia).
    assert (Ec : collapse_run 0 (c :: t) = c :: collapse_run 0 t).
    { simpl. unfold is_nl in Hh. now rewrite Hh. }
    rewrite Ec. apply runs_ok_repeat; [|exact Hh|lia].
    apply runs_ok_cons; auto. simpl. rewrite Hh. simpl. lia.
Qed.

Lemma runs_ok_collapse s : runs_ok (collapse s).
Proof. apply (runs_ok_collapse_run (S (length s))). lia. Qed.

Lemma collapse_idem s : collapse (collapse s) = collapse s.
Proof. apply runs_ok_fix. apply runs_ok_collapse. Qed.

Lemma collapse_run_in x : forall s run,
  In x (collapse_run run s) -> In x s \/ x = nl.
Proof.
  induction s as [|c s IH]; intros run H; simpl in H.
  - right. now apply repeat_spec in H.
  - destruct (c =? nl) eqn:E.
    + apply IH in H. destruct H; auto. left. now right.
    + apply in_app_or in H. destruct H as [H|[H|H]].
      * right. now apply repeat_spec in H.
      * left. now left.
      * apply IH in H. destruct H; auto. left. now right.
Qed.


(** ** The cleaners on plain text *)

Ltac not_letter := right; lia.


Lemma amp_pattern_plain re f s :
  begins_with 38 re -> (forall x, In x s -> x <> 38) -> replace re f s = s.
Proof.
  intros Hb Hs. apply begins_with_unchanged with (c := 38); auto; left; lia.
Qed.

Lemma ReadWN_decode_no_amp s :
  (forall x, In x s -> x <> 38) -> ReadWN.decodeEntities s = s.
Proof.
  intros Hs. unfold ReadWN.decodeEntities, ReadWN.named_pass,
    ReadWN.decimal_pass, ReadWN.hex_pass.
  destruct s as [|c s]; [reflexivity|]. cbn [nonempty negb].
  rewrite (amp_pattern_plain ReadWN.translate_re); [|begins|exact Hs].
  rewrite (amp_pattern_plain ReadWN.decimal_re); [|begins|exact Hs].
  rewrite (amp_pattern_plain ReadWN.hex_re); [|begins|exact Hs].
  reflexivity.
Qed.

Lemma V2_decode_no_amp s :
  (forall x, In x s -> x <> 38) -> ReadNovelFullV2.decodeEntities s = s.
Proof.
  intros Hs. unfold ReadNovelFullV2.decodeEntities.
  destruct s as [|c s]; [reflexivity|]. cbn [nonempty negb].
  rewrite (amp_pattern_plain ReadNovelFullV2.translate_re); [|begins|exact Hs].
  rewrite (amp_pattern_plain ReadNovelFullV2.decimal_re); [|begins|exact Hs].
  rewrite (amp_pattern_plain ReadNovelFullV2.hex_re); [|begins|exact Hs].
  reflexivity.
Qed.

(** The readwn cleaner is, on every input, the composition of its
    stages: the guard on the empty string changes nothing. *)
Lemma ReadWN_clean_stages html :
  ReadWN.cleanHtmlText html
  = trim (collapse (ReadWN.decodeEntities
      (replace_str ReadWN.tag_re []
        (replace_str ReadWN.br_re [nl]
          (replace_str ReadWN.p_re [nl; nl]
            (replace_str ReadWN.style_re []
              (replace_str ReadWN.script_re [] html))))))).
Proof.
  unfold ReadWN.cleanHtmlText. rewrite collapse_regex.
  destruct html as [|c html]; reflexivity.
Qed.





Lemma ReadWN_clean_trimmed html : trimmed (ReadWN.cleanHtmlText html).
Proof. rewrite ReadWN_clean_stages. apply trim_trimmed. Qed.

Lemma ReadWN_clean_runs html : runs_ok (ReadWN.cleanHtmlText html).
Proof.
  rewrite ReadWN_clean_stages.
  eapply runs_ok_piece; [apply trim_piece|apply runs_ok_collapse].
Qed.

(** ** Numeric character references *)

Lemma take_while_app p ds c rest :
  forallb p ds = true -> p c = false ->
  take_while p (ds ++ c :: rest) = ds.
Proof.
  intros Hd Hc. induction ds as [|d ds IH]; simpl in *.
  - now rewrite Hc.
  - apply andb_prop in Hd. destruct Hd as [Hd1 Hd2]. rewrite Hd1.
    f_equal. now apply IH.
Qed.

Lemma drop_while_app p ds c rest :
  forallb p ds = true -> p c = false ->
  drop_while p (ds ++ c :: rest) = c :: rest.
Proof.
  intros Hd Hc. induction ds as [|d ds IH]; simpl in *.
  - now rewrite Hc.
  - apply andb_prop in Hd. destruct Hd as [Hd1 Hd2]. rewrite Hd1.
    now apply IH.
Qed.

Lemma firstn_app_exact (a b : jsstring) (n : nat) :
  n = (length (a ++ b) - length b)%nat -> firstn n (a ++ b) = a.
Proof. intros ->. apply firstn_suffix. Qed.

Lemma digit_class x :
  class_matches gi false [CDigit false] x = is_dec x.
Proof.
  unfold class_matches, is_dec. simpl. unfold is_digit.
  now rewrite orb_false_r.
Qed.

Ltac leb_cases :=
  repeat match goal with
         | |- context [?a <=? ?b] => destruct (Z.leb_spec a b); try lia
         end; simpl; try reflexivity.

Lemma hex_class x :
  class_matches gi false [CRange 48 57; CRange 65 70; CRange 97 102] x
  = is_hex x.
Proof.
  unfold class_matches. simpl. unfold swapcase.
  destruct (Z.leb_spec 97 x); destruct (Z.leb_spec x 122);
    destruct (Z.leb_spec 65 x); destruct (Z.leb_spec x 90);
    simpl; try lia; unfold is_hex, in_range; leb_cases.
Qed.

(** A reference [&#] digits [;] at the head of a text: the decimal
    pattern matches it whole, capturing the digits. *)
Lemma decimal_match ds rest :
  ds <> [] -> forallb is_dec ds = true ->
  match_here ReadWN.decimal_re (38 :: 35 :: ds ++ 59 :: rest)
  = Some (rest, [Some ds]).
Proof.
  intros Hne Hd. unfold match_here.
  cbn [ReadWN.decimal_re ast ngroups rflags repeat m groups_of].
  change (canon _ 38 =? canon _ 38) with true. cbn iota.
  change (canon _ 35 =? canon _ 35) with true. cbn iota.
  rewrite greedy_all with (p := is_dec).
  - rewrite take_while_app, drop_while_app by auto.
    destruct ds as [|d ds]; [congruence|].
    cbn [length Nat.leb].
    change (canon _ 59 =? canon _ 59) with true. cbn iota.
    rewrite firstn_app_exact; [reflexivity|].
    rewrite !length_app. simpl. lia.
  - intros s caps k. destruct s as [|x s]; [reflexivity|].
    fold gi. rewrite digit_class. reflexivity.
  - intros x s caps Hx. unfold is_dec in Hx.
    assert (H : (canon gi x =? canon gi 59) = false)
      by (apply canon_neq; lia).
    unfold gi in H. now rewrite H.
  - pose proof (take_while_length is_dec (ds ++ 59 :: rest)). lia.
Qed.

Lemma hex_match hs rest :
  hs <> [] -> forallb is_hex hs = true ->
  match_here ReadWN.hex_re (38 :: 35 :: 120 :: hs ++ 59 :: rest)
  = Some (rest, [Some hs]).
Proof.
  intros Hne Hd. unfold match_here.
  cbn [ReadWN.hex_re ast ngroups rflags repeat m groups_of].
  change (canon _ 38 =? canon _ 38) with true. cbn iota.
  change (canon _ 35 =? canon _ 35) with true. cbn iota.
  change (canon _ 120 =? canon _ 120) with true. cbn iota.
  rewrite greedy_all with (p := is_hex).
  - rewrite take_while_app, drop_while_app by auto.
    destruct hs as [|d hs]; [congruence|].
    cbn [length Nat.leb].
    change (canon _ 59 =? canon _ 59) with true. cbn iota.
    rewrite firstn_app_exact; [reflexivity|].
    rewrite !length_app. simpl. lia.
  - intros s caps k. destruct s as [|x s]; [reflexivity|].
    fold gi. rewrite hex_class. reflexivity.
  - intros x s caps Hx. unfold is_hex in Hx.
    assert (H : (canon gi x =? canon gi 59) = false)
      by (apply canon_neq; lia).
    unfold gi in H. now rewrite H.
  - pose proof (take_while_length is_hex (hs ++ 59 :: rest)). lia.
Qed.

Lemma short_no_match re s :
  (length s < minlen (ast re))%nat ->
  forall j, match_here re (skipn j s) = None.
Proof.
  intros Hl j. destruct (match_here re (skipn j s)) as [[rest caps]|] eqn:E; auto.
  apply match_here_inv in E. destruct E as [_ E].
  rewrite length_skipn in E. lia.
Qed.

Lemma replace_head_unchanged re f c s :
  match_here re (c :: s) = None ->
  (forall j, match_here re (skipn j s) = None) ->
  replace re f (c :: s) = c :: s.
Proof.
  intros H0 Hs. apply replace_unchanged. intros [|j]; [exact H0|apply Hs].
Qed.

Lemma no_amp_no_match re s :
  begins_with 38 re -> (forall x, In x s -> x <> 38) ->
  forall j, match_here re (skipn j s) = None.
Proof.
  intros [r' Hr] Hs. apply no_start_no_match.
  - rewrite Hr. simpl. lia.
  - intros x Hx. rewrite Hr. simpl. apply canon_neq; auto; left; lia.
Qed.

Lemma digits_no_amp ds x : forallb is_dec ds = true -> In x ds -> x <> 38.
Proof.
  intros H Hx. rewrite forallb_forall in H. specialize (H x Hx).
  unfold is_dec in H. lia.
Qed.

Lemma hex_no_amp hs x : forallb is_hex hs = true -> In x hs -> x <> 38.
Proof.
  intros H Hx. rewrite forallb_forall in H. specialize (H x Hx).
  unfold is_hex in H. lia.
Qed.

Lemma fromCharCode_length v : length (fromCharCode v) = 1%nat.
Proof. destruct v; reflexivity. Qed.

(** The replacement of one match that spans the whole text. *)
Lemma replace_whole re f s caps :
  global (rflags re) = true -> s <> [] ->
  match_here re s = Some ([], caps) ->
  match_here re [] = None ->
  replace re f s = f (mk_match 0 s [] caps).
Proof.
  intros Hg Hs Hm Hn. unfold replace. rewrite Hg. simpl. rewrite Hm.
  destruct s as [|c s]; [congruence|]. simpl length.
  cbn [Nat.ltb Nat.leb]. destruct (length s) eqn:El; simpl; rewrite Hn;
    now rewrite app_nil_r.
Qed.

Lemma ReadWN_decode_decimal ds :
  ds <> [] -> forallb is_dec ds = true ->
  ReadWN.decodeEntities (js "&#" ++ ds ++ js ";")
  = fromCharCode (parseInt ds 10).
Proof.
  intros Hne Hd. unfold ReadWN.decodeEntities.
  change (js "&#" ++ ds ++ js ";") with (38 :: 35 :: ds ++ [59]).
  cbn [nonempty negb].
  assert (Hrest : forall x, In x (35 :: ds ++ [59]) -> x <> 38).
  { intros x [<-|Hx]; [discriminate|]. apply in_app_or in Hx.
    destruct Hx as [Hx|[<-|[]]]; [|discriminate]. eapply digits_no_amp; eauto. }
  unfold ReadWN.named_pass. rewrite replace_head_unchanged;
    [|reflexivity|apply no_amp_no_match; [begins|exact Hrest]].
  unfold ReadWN.decimal_pass.
  rewrite (replace_whole ReadWN.decimal_re _ _ [Some ds]);
    [|reflexivity|discriminate|apply decimal_match; auto|reflexivity].
  cbn [grp mk_match groups nth char_of_numeral].
  unfold ReadWN.hex_pass. apply replace_unchanged. apply short_no_match.
  rewrite fromCharCode_length. cbn. lia.
Qed.

Lemma ReadWN_decode_hex hs :
  hs <> [] -> forallb is_hex hs = true ->
  ReadWN.decodeEntities (js "&#x" ++ hs ++ js ";")
  = fromCharCode (parseInt hs 16).
Proof.
  intros Hne Hd. unfold ReadWN.decodeEntities.
  change (js "&#x" ++ hs ++ js ";") with (38 :: 35 :: 120 :: hs ++ [59]).
  cbn [nonempty negb].
  assert (Hrest : forall x, In x (35 :: 120 :: hs ++ [59]) -> x <> 38).
  { intros x [<-|[<-|Hx]]; try discriminate. apply in_app_or in Hx.
    destruct Hx as [Hx|[<-|[]]]; [|discriminate]. eapply hex_no_amp; eauto. }
  unfold ReadWN.named_pass. rewrite replace_head_unchanged;
    [|reflexivity|apply no_amp_no_match; [begins|exact Hrest]].
  unfold ReadWN.decimal_pass. rewrite replace_head_unchanged;
    [|reflexivity|apply no_amp_no_match; [begins|exact Hrest]].
  unfold ReadWN.hex_pass.
  rewrite (replace_whole ReadWN.hex_re _ _ [Some hs]);
    [|reflexivity|discriminate|apply hex_match; auto|reflexivity].
  reflexivity.
Qed.

(** Below 2^53 the number [parseInt] returns is the value itself. *)
Lemma parseInt_exact ds radix :
  numeral_value radix ds < 2 ^ 53 ->
  fromCharCode (parseInt ds radix) = [numeral_value radix ds mod 65536].
Proof.
  intros H. unfold parseInt, to_double.
  apply Z.ltb_lt in H. rewrite H. reflexivity.
Qed.

(** ** Named references *)

Lemma canon_plain fl x : ignoreCase fl = false -> canon fl x = x.
Proof. intros H. unfold canon. now rewrite H. Qed.

Lemma startsWith_cons c p x s :
  startsWith (c :: p) (x :: s) = (c =? x) && startsWith p s.
Proof. reflexivity. Qed.

Lemma startsWith_nil s : startsWith [] s = true.
Proof. destruct s; reflexivity. Qed.

Lemma m_word fl w :
  ignoreCase fl = false -> w <> [] ->
  forall s caps k,
    m fl (word_of w) s caps k
    = if startsWith w s then k (skipn (length w) s) caps else None.
Proof.
  intros Hi. unfold word_of. induction w as [|c w IH]; intros Hw s caps k;
    [congruence|].
  destruct w as [|c' w].
  - cbn [map seq_of m]. destruct s as [|x s]; [reflexivity|].
    rewrite !canon_plain by auto. rewrite (Z.eqb_sym x c).
    rewrite startsWith_cons, startsWith_nil, andb_true_r.
    cbn [length skipn]. destruct (c =? x); reflexivity.
  - change (seq_of (map Char (c :: c' :: w)))
      with (Seq (Char c) (seq_of (map Char (c' :: w)))).
    cbn [m]. destruct s as [|x s]; [reflexivity|].
    rewrite !canon_plain by auto. rewrite (Z.eqb_sym x c).
    rewrite startsWith_cons. destruct (c =? x); [|reflexivity].
    cbn [andb]. rewrite IH by discriminate. reflexivity.
Qed.

Lemma orelse_none a : orelse a (fun _ => None) = a.
Proof. now destruct a. Qed.

Lemma m_alt_words fl ws :
  ignoreCase fl = false -> ws <> [] -> Forall (fun w => w <> []) ws ->
  forall s caps k,
    m fl (alt_of (map word_of ws)) s caps k = try_words k ws s caps.
Proof.
  intros Hi. induction ws as [|w ws IH]; intros Hne Hws s caps k; [congruence|].
  inversion Hws as [|? ? Hw Hws']; subst.
  destruct ws as [|w' ws].
  - simpl. rewrite m_word by auto. now rewrite orelse_none.
  - change (alt_of (map word_of (w :: w' :: ws)))
      with (Alt (word_of w) (alt_of (map word_of (w' :: ws)))).
    cbn [m try_words]. rewrite m_word by auto.
    rewrite IH by (auto; discriminate). reflexivity.
Qed.

Lemma word_before_semicolon : forall w name rest,
  startsWith w (name ++ 59 :: rest) = true ->
  (exists t, skipn (length w) (name ++ 59 :: rest) = 59 :: t) ->
  (forall x, In x name -> x <> 59) -> (forall x, In x w -> x <> 59) ->
  w = name.
Proof.
  induction w as [|c w IH]; intros [|n name] rest Hs [t Ht] Hn Hw.
  - reflexivity.
  - simpl in Ht. injection Ht as -> _. exfalso. apply (Hn 59); simpl; auto.
  - simpl app in Hs. rewrite startsWith_cons in Hs.
    apply andb_prop in Hs. destruct Hs as [Hc _]. apply Z.eqb_eq in Hc.
    exfalso. apply (Hw c); simpl; auto.
  - simpl app in Hs. rewrite startsWith_cons in Hs.
    apply andb_prop in Hs. destruct Hs as [Hc Hs]. apply Z.eqb_eq in Hc.
    subst n. f_equal. apply (IH name rest); eauto.
    + intros x Hx. apply Hn. now right.
    + intros x Hx. apply Hw. now right.
Qed.

Lemma try_words_unknown ws name rest caps (k : cont) :
  (forall s c, k s c <> None -> exists t, s = 59 :: t) ->
  (forall x, In x name -> x <> 59) ->
  Forall (fun w => forall x, In x w -> x <> 59) ws ->
  ~ In name ws ->
  try_words k ws (name ++ 59 :: rest) caps = None.
Proof.
  intros Hk Hn. induction ws as [|w ws IH]; intros Hws Hin; [reflexivity|].
  inversion Hws as [|? ? Hw Hws']; subst. cbn [try_words].
  destruct (startsWith w (name ++ 59 :: rest)) eqn:Es.
  - destruct (k (skipn (length w) (name ++ 59 :: rest)) caps) eqn:Ek.
    + exfalso. apply Hin. left.
      eapply word_before_semicolon; eauto.
      apply (Hk _ caps). congruence.
    + cbn [orelse]. apply IH; auto. intros H. apply Hin. now right.
  - cbn [orelse]. apply IH; auto. intros H. apply Hin. now right.
Qed.

(** A name the decoder does not know is not matched by its pattern of
    named references. *)
Lemma unknown_name_no_match name rest :
  (forall x, In x name -> x <> 59) -> ~ In name known_names ->
  match_here ReadWN.translate_re (38 :: name ++ 59 :: rest) = None.
Proof.
  intros Hn Hin. unfold match_here.
  change (ast ReadWN.translate_re)
    with (Seq (Char 38)
            (Seq (Group 0 (alt_of (map word_of known_names))) (Char 59))).
  cbn [m ReadWN.translate_re rflags ngroups repeat].
  rewrite !canon_plain by reflexivity. cbn [Z.eqb Pos.eqb].
  rewrite m_alt_words; try reflexivity; try discriminate.
  - apply try_words_unknown; auto.
    + intros s c H. destruct s as [|x s]; [congruence|].
      rewrite !canon_plain in H by reflexivity.
      destruct (x =? 59) eqn:E; [|congruence].
      apply Z.eqb_eq in E. subst. eauto.
    + repeat constructor; intros x Hx; cbn in Hx;
        repeat (destruct Hx as [<-|Hx]; [discriminate|]); destruct Hx.
  - repeat constructor; discriminate.
Qed.

Lemma amp_hash_head re r' y t :
  ast re = Seq (Char 38) (Seq (Char 35) r') -> y <> 35 ->
  match_here re (38 :: y :: t) = None.
Proof.
  intros Hr Hy. unfold match_here. rewrite Hr. cbn [m].
  rewrite Z.eqb_refl. rewrite canon_neq; auto; left; lia.
Qed.

(** An unknown named reference, alone, is returned as it is. *)
Lemma ReadWN_decode_unknown name :
  forallb is_word name = true -> ~ In name known_names ->
  ReadWN.decodeEntities (js "&" ++ name ++ js ";") = js "&" ++ name ++ js ";".
Proof.
  intros Hw Hin.
  change (js "&" ++ name ++ js ";") with (38 :: name ++ [59]).
  assert (Hchars : forall x, In x name -> x <> 59 /\ x <> 38 /\ x <> 35).
  { intros x Hx. rewrite forallb_forall in Hw. specialize (Hw x Hx).
    unfold is_word, is_digit in Hw. lia. }
  assert (Hrest : forall x, In x (name ++ [59]) -> x <> 38).
  { intros x Hx. apply in_app_or in Hx. destruct Hx as [Hx|[<-|[]]];
      [now apply Hchars|discriminate]. }
  assert (Hhead : exists y t, name ++ [59] = y :: t /\ y <> 35).
  { destruct name as [|n name]; simpl.
    - exists 59, []. split; [reflexivity|discriminate].
    - exists n, (name ++ [59]). split; [reflexivity|].
      apply Hchars. now left. }
  unfold ReadWN.decodeEntities. cbn [nonempty negb].
  unfold ReadWN.named_pass, ReadWN.decimal_pass, ReadWN.hex_pass.
  rewrite replace_head_unchanged.
  2: { apply unknown_name_no_match; auto. intros x Hx. now apply Hchars. }
  2: { apply no_amp_no_match; [begins|exact Hrest]. }
  destruct Hhead as (y & t & Ey & Hy). rewrite Ey in *.
  rewrite replace_head_unchanged.
  2: { eapply amp_hash_head; [reflexivity|exact Hy]. }
  2: { apply no_amp_no_match; [begins|exact Hrest]. }
  rewrite replace_head_unchanged.
  2: { eapply amp_hash_head; [reflexivity|exact Hy]. }
  2: { apply no_amp_no_match; [begins|exact Hrest]. }
  reflexivity.
Qed.

(** The six named references. *)
Lemma ReadWN_decode_named n c :
  In (n, c) ReadWN.translate ->
  ReadWN.decodeEntities (js "&" ++ n ++ js ";") = c.
Proof.
  intros H. cbn in H.
  repeat (destruct H as [H|H]; [injection H as <- <-; vm_compute; reflexivity|]).
  destruct H.
Qed.

(** ** Stripping tags *)

Lemma tag_match s :
  match_here ReadWN.tag_re (60 :: s)
  = match drop_while not_gt s with
    | _ :: rest => Some (rest, [])
    | [] => None
    end.
Proof.
  unfold match_here.
  cbn [ReadWN.tag_re ast ngroups rflags repeat m groups_of].
  rewrite !canon_plain by reflexivity. cbn [Z.eqb Pos.eqb].
  rewrite greedy_all with (p := not_gt).
  - cbn [Nat.leb]. pose proof (drop_while_head not_gt s) as Hh.
    destruct (drop_while not_gt s) as [|x rest]; [reflexivity|].
    rewrite !canon_plain by reflexivity. unfold not_gt in Hh.
    apply negb_false_iff in Hh. now rewrite Hh.
  - intros s0 caps k. destruct s0 as [|x s0]; [reflexivity|].
    unfold class_matches, not_gt. cbn [existsb item_matches].
    rewrite !canon_plain by reflexivity. rewrite orb_false_r, (Z.eqb_sym 62 x).
    reflexivity.
  - intros x s0 caps Hx. rewrite !canon_plain by reflexivity.
    unfold not_gt in Hx. apply negb_true_iff in Hx. now rewrite Hx.
  - pose proof (take_while_length not_gt s). lia.
Qed.

Lemma tag_no_match c s : c <> 60 -> match_here ReadWN.tag_re (c :: s) = None.
Proof.
  intros Hc. unfold match_here. cbn [ReadWN.tag_re ast ngroups rflags repeat m].
  rewrite !canon_plain by reflexivity. apply Z.eqb_neq in Hc. now rewrite Hc.
Qed.

Lemma strip_tags_inside : forall s,
  strip_tags true s
  = match drop_while not_gt s with
    | _ :: rest => strip_tags false rest
    | [] => []
    end.
Proof.
  induction s as [|c s IH]; [reflexivity|].
  cbn [strip_tags drop_while]. unfold not_gt at 1.
  destruct (c =? 62); [reflexivity|exact IH].
Qed.

Lemma exists_gt : forall s,
  existsb (Z.eqb 62) s
  = match drop_while not_gt s with [] => false | _ :: _ => true end.
Proof.
  induction s as [|c s IH]; [reflexivity|].
  cbn [existsb drop_while]. unfold not_gt at 1. rewrite (Z.eqb_sym 62 c).
  destruct (c =? 62); [reflexivity|exact IH].
Qed.

Lemma strip_tags_loop : forall fuel s i,
  (length s < fuel)%nat ->
  replace_loop fuel ReadWN.tag_re (fun _ => []) s i = strip_tags false s.
Proof.
  induction fuel as [|fuel IH]; intros s i Hf; [lia|].
  destruct s as [|c s]; [reflexivity|].
  cbn [replace_loop strip_tags]. simpl in Hf.
  destruct (Z.eq_dec c 60) as [->|Hc].
  - rewrite tag_match, exists_gt, strip_tags_inside.
    pose proof (drop_while_length not_gt s) as Hl.
    destruct (drop_while not_gt s) as [|x rest] eqn:Ed.
    + cbn [Z.eqb Pos.eqb andb]. f_equal. apply IH. lia.
    + cbn [Z.eqb Pos.eqb andb]. simpl in Hl.
      replace (length rest <? length (60%Z :: s))%nat with true
        by (symmetry; apply Nat.ltb_lt; simpl; lia).
      cbn [app]. apply IH. lia.
  - rewrite tag_no_match by auto. apply Z.eqb_neq in Hc. rewrite Hc.
    cbn [andb]. f_equal. apply IH. lia.
Qed.

(** The replacement [/<[^>]*>/g -> ''] strips the tags. *)
Lemma strip_tags_regex s :
  replace_str ReadWN.tag_re [] s = strip_tags false s.
Proof.
  unfold replace_str, replace. cbn [ReadWN.tag_re rflags global].
  apply strip_tags_loop. lia.
Qed.

Lemma strip_tags_in x : forall s inside,
  In x (strip_tags inside s) -> In x s.
Proof.
  induction s as [|c s IH]; intros inside H; [exact H|].
  cbn [strip_tags] in H. destruct inside.
  - right. destruct (c =? 62); eapply IH; eauto.
  - destruct ((c =? 60) && existsb (Z.eqb 62) s).
    + right. eapply IH; eauto.
    + destruct H as [H|H]; [now left|right; eapply IH; eauto].
Qed.

(** What is left has no tag: no [<] with a [>] after it. *)
Lemma strip_tags_no_tag : forall s inside a b,
  strip_tags inside s = a ++ 60 :: b -> ~ In 62 b.
Proof.
  induction s as [|c s IH]; intros inside a b H.
  - destruct a; discriminate.
  - cbn [strip_tags] in H. destruct inside.
    + destruct (c =? 62); eapply IH; eauto.
    + destruct ((c =? 60) && existsb (Z.eqb 62) s) eqn:E.
      * eapply IH; eauto.
      * destruct a as [|a0 a].
        -- injection H as -> Hb. cbn [Z.eqb Pos.eqb andb] in E.
           intros Hin. rewrite <- Hb in Hin. apply strip_tags_in in Hin.
           assert (existsb (Z.eqb 62) s = true); [|congruence].
           apply existsb_exists. exists 62. split; [exact Hin|reflexivity].
        -- injection H as _ H. eapply IH; eauto.
Qed.

Lemma digit_value_nonneg d : 0 <= digit_value d.
Proof.
  unfold digit_value.
  destruct (Z.leb_spec 48 d); destruct (Z.leb_spec d 57); simpl; try lia;
    destruct (Z.leb_spec 97 d); destruct (Z.leb_spec d 102); simpl; try lia;
    destruct (Z.leb_spec 65 d); destruct (Z.leb_spec d 70); simpl; lia.
Qed.

Lemma numeral_value_nonneg radix ds : 0 <= radix -> 0 <= numeral_value radix ds.
Proof.
  intros Hr. unfold numeral_value.
  assert (G : forall acc, 0 <= acc ->
            0 <= fold_left (fun acc d => acc * radix + digit_value d) ds acc).
  { induction ds as [|d ds IH]; intros acc Hacc; [exact Hacc|].
    simpl. apply IH. pose proof (digit_value_nonneg d). nia. }
  apply G. lia.
Qed.

(** * The adapters, uniformly *)


Lemma serving_answers page : answering (serving page).
Proof. intros rq. eexists _, _. repeat split. Qed.

Lemma details_keep_id a :
  In a adapters ->
  forall fetch id, sound (sa_getBookDetails a fetch id) (fun d => bd_id d = id).
Proof.
  intros [<-|[<-|[<-|[]]]] fetch id; cbn [sa_getBookDetails readNovelFullV2 readwn mangapill].
  - apply V2Orch.v2_getBookDetails_sound_id.
  - apply ReadWNOrch.wn_getBookDetails_sound_id.
  - apply MangaPillOrch.mp_getBookDetails_sound_id.
Qed.

Lemma details_return a :
  In a adapters ->
  forall fetch id r html,
    answering fetch ->
    fetch (sa_bookRequest a id) = Ret r -> ok r = true -> text r = Ret html ->
    ensures (sa_getBookDetails a fetch id)
      (fun d => bd_id d = id
                /\ (sa_title a html = None -> bd_title d = js "Unknown Title")
                /\ (sa_author a html = None ->
                    bd_author d = sa_author_default a)).
Proof.
  intros [<-|[<-|[<-|[]]]] fetch id r html Hf Hr Hok Ht.
  - now apply V2Orch.v2_getBookDetails_ensures with (r := r).
  - now apply ReadWNOrch.wn_getBookDetails_ensures with (r := r).
  - now apply MangaPillOrch.mp_getBookDetails_ensures with (r := r).
Qed.

Lemma search_quiet a :
  In a adapters ->
  forall fetch query rq w,
    sa_searchRequest a query = Some rq ->
    (forall e, fst (sa_search a fetch query w) <> Throw e)
    /\ (forall e, fetch rq = Throw e ->
          exists w', sa_search a fetch query w = (Ret [], w')
                     /\ error_reported w w')
    /\ (forall r, fetch rq = Ret r -> ok r = false ->
          exists w', sa_search a fetch query w = (Ret [], w')
                     /\ error_reported w w')
    /\ (forall r e, fetch rq = Ret r -> ok r = true -> text r = Throw e ->
          exists w', sa_search a fetch query w = (Ret [], w')
                     /\ error_reported w w')
    /\ (forall r html, fetch rq = Ret r -> ok r = true -> text r = Ret html ->
          sa_items a html = Some [] ->
          exists w', sa_search a fetch query w = (Ret [], w')).
Proof.
  intros [<-|[<-|[<-|[]]]] fetch query rq w Hrq; cbn in Hrq;
    destruct (encodeURIComponent _) as [q|] eqn:Eq; try discriminate;
    injection Hrq as <-.
  - now apply V2Facts.v2_search_quiet.
  - now apply ReadWNOrch.wn_search_quiet.
  - now apply MangaPillOrch.mp_search_quiet.
Qed.

Lemma search_has_ids a :
  In a adapters ->
  forall fetch query,
    sound (sa_search a fetch query)
          (Forall (fun r => nonempty (sr_id r) = true)).
Proof.
  intros [<-|[<-|[<-|[]]]] fetch query; cbn [sa_search readNovelFullV2 readwn mangapill].
  - eapply sound_weaken; [|apply V2Orch.v2_search_well_formed].
    intros rs H. eapply Forall_impl; [|exact H]. now intros r [H1 _].
  - eapply sound_weaken; [|apply ReadWNOrch.wn_search_well_formed].
    intros rs H. eapply Forall_impl; [|exact H]. now intros r [H1 _].
  - eapply sound_weaken; [|apply MangaPillOrch.search_ids].
    intros rs H. eapply Forall_impl; [|exact H].
    intros r. cbv beta. destruct (sr_id r); intros Hr;
      [vm_compute in Hr; discriminate Hr|reflexivity].
Qed.


(** The URL of a search is built outside the [try]: a query with a lone
    surrogate makes [encodeURIComponent] raise, and the operation with
    it, before any request is issued. *)
Lemma search_lone_surrogate fetch w :
  ReadNovelFullV2.search fetch [55357] w
  = (Throw (URIError (js "URI malformed")), w)
  /\ MangaPill.search fetch [55357] w
     = (Throw (URIError (js "URI malformed")), w).
Proof. split; reflexivity. Qed.

(** The scenario of the specification: the description of a page whose
    [desc-text] block holds a line break and a reference. *)
Lemma description_scenario :
  ReadNovelFullV2.extractFirst
    (js "<div class=`desc-text`>Hello<br>World &amp; Friends</div>")
    ReadNovelFullV2.description_re
  = Some [Some (js "Hello<br>World &amp; Friends")]
  /\ ReadNovelFullV2.cleanHtmlText (js "Hello<br>World &amp; Friends")
     = js "Hello" ++ [nl] ++ js "World & Friends"
  /\ ReadWN.cleanHtmlText (js "Hello<br>World &amp; Friends")
     = js "Hello" ++ [nl] ++ js "World & Friends".
Proof. vm_compute. repeat split. Qed.

(** The stages of the readwn cleaner at work, one example each. *)
Lemma clean_stage_examples :
  ReadWN.cleanHtmlText (js "a<script>x &amp; y</script>b<STYLE>p{}</STYLE>c")
  = js "abc"
  /\ ReadWN.cleanHtmlText (js "a<p>b</p>c") = js "a" ++ [nl; nl] ++ js "b" ++ [nl; nl] ++ js "c"
  /\ ReadWN.cleanHtmlText (js "a<br/>b<BR >c") = js "a" ++ [nl] ++ js "b" ++ [nl] ++ js "c"
  /\ ReadWN.cleanHtmlText (js "a<i>b</i> &lt;c&gt;") = js "ab <c>"
  /\ ReadWN.cleanHtmlText (js "a&#10;&#10;&#10;&#10;b ") = js "a" ++ [nl; nl] ++ js "b".
Proof. vm_compute. repeat split. Qed.

(** * The claims *)




(** C5 (as amended).  On a pattern that has the [g] flag and cannot
    match the empty string, [extractAll] terminates for every document
    and returns the successive leftmost matches in document order. *)
Theorem C5_extractAll_terminates_when_matches_advance :
  forall html regex,
    advancing regex = true ->
    exists matches,
      ReadNovelFullV2.extractAll html regex = Some matches
      /\ ReadWN.extractAll html regex = Some matches
      /\ MangaPill.extractAll html regex = Some matches
      /\ document_order regex html 0 matches
      /\ (length matches <= length html)%nat.
Proof.
  intros html regex Ha.
  destruct (exec_loop_advancing regex html Ha (length html + 2) 0 [])
    as (l & El & Hord & Hl); try lia.
  exists l. simpl in El. repeat split; auto; try lia.
  unfold ReadWN.extractAll. destruct html as [|c html]; [|exact El].
  simpl in Hl. destruct l; [reflexivity|simpl in Hl; lia].
Qed.

Lemma C5_extractAll_terminates_when_matches_advance_witness :
  advancing ReadNovelFullV2.genreRegex = true
  /\ exists matches,
       ReadNovelFullV2.extractAll (js "<a href=`/g/1`>Action</a>, <a>Drama</a>")
         ReadNovelFullV2.genreRegex = Some matches
       /\ (length matches <= 39)%nat.
Proof.
  split; [reflexivity|].
  destruct (C5_extractAll_terminates_when_matches_advance
              (js "<a href=`/g/1`>Action</a>, <a>Drama</a>")
              ReadNovelFullV2.genreRegex eq_refl)
    as (l & E & _ & _ & _ & Hl).
  exists l. split; [exact E|exact Hl].
Defined.

(** C5, as stated, fails: no copy of [extractAll] guards against a
    match that does not advance.  On a pattern that matches the empty
    string the loop calls [exec] at the same position for ever. *)
Lemma C5_zero_width_match_never_ends :
  regex_exec zero_width (js "b") 0 = (Some (mkMatch 0 [] []), O)
  /\ (forall fuel, exec_loop fuel (js "b") zero_width 0 [] = None)
  /\ ReadNovelFullV2.extractAll (js "b") zero_width = None
  /\ ReadWN.extractAll (js "b") zero_width = None
  /\ MangaPill.extractAll (js "b") zero_width = None.
Proof.
  assert (E : regex_exec zero_width (js "b") 0 = (Some (mkMatch 0 [] []), O))
    by reflexivity.
  repeat split; try exact E; try reflexivity.
  intros fuel. eapply exec_loop_stuck. exact E.
Qed.

(** C6.  The retry of [getBookDetails] in ReadFullNovelV2.js does not
    work: with the [.html] URL not found and the plain URL served, the
    second request is issued and the operation then fails on the
    assignment to the constant, whereas [getContent], whose response is
    declared with [let], returns the content of the page. *)
Theorem C6_getBookDetails_retry_raises :
  fst (ReadNovelFullV2.getBookDetails (html_missing chapter_page)
         (js "martial-peak") start)
  = Throw (Error (js "Failed to get details for martial-peak: Assignment to constant variable."))
  /\ requests (snd (ReadNovelFullV2.getBookDetails (html_missing chapter_page)
                      (js "martial-peak") start))
     = [GET (V2Urls.bookUrl (js "martial-peak"));
        GET (V2Urls.fallbackUrl (js "martial-peak"))]
  /\ fst (ReadNovelFullV2.getContent (html_missing chapter_page)
            (js "martial-peak") start)
     = Ret (js "abc")
  /\ requests (snd (ReadNovelFullV2.getContent (html_missing chapter_page)
                      (js "martial-peak") start))
     = [GET (V2Urls.bookUrl (js "martial-peak"));
        GET (V2Urls.fallbackUrl (js "martial-peak"))].
Proof. vm_compute. repeat split. Qed.

(** C7 (as amended).  When the title pattern of an adapter yields no
    match on the page of a book, [getBookDetails] does not fail: it
    returns a record whose title is the default ['Unknown Title'], as it
    returns the default author when the author pattern yields no
    match. *)
Theorem C7_missing_title_is_defaulted :
  forall a fetch id r html w,
    In a adapters -> answering fetch ->
    fetch (sa_bookRequest a id) = Ret r -> ok r = true ->
    text r = Ret html ->
    sa_title a html = None ->
    exists d w',
      sa_getBookDetails a fetch id w = (Ret d, w')
      /\ bd_id d = id
      /\ bd_title d = js "Unknown Title"
      /\ (sa_author a html = None -> bd_author d = sa_author_default a).
Proof.
  intros a fetch id r html w Ha Hf Hr Hok Ht Htitle.
  destruct (details_return a Ha fetch id r html Hf Hr Hok Ht w)
    as (d & w' & E & Hid & Htl & Hau).
  exists d, w'. auto.
Qed.

Lemma C7_missing_title_is_defaulted_witness :
  In mangapill adapters /\ answering (serving untitled_page)
  /\ ok (mkResponse true 200 (js "OK") (js "https://mangapill.com/manga/1/x")
           (Ret untitled_page)) = true
  /\ sa_title mangapill untitled_page = None
  /\ exists d w',
       MangaPill.getBookDetails (serving untitled_page) (js "/manga/1/x") start
       = (Ret d, w')
       /\ bd_title d = js "Unknown Title".
Proof.
  assert (Ha : In mangapill adapters) by (right; right; left; reflexivity).
  assert (Ht : sa_title mangapill untitled_page = None) by reflexivity.
  split; [exact Ha|]. split; [apply serving_answers|].
  split; [reflexivity|]. split; [exact Ht|].
  destruct (C7_missing_title_is_defaulted mangapill (serving untitled_page)
              (js "/manga/1/x")
              (mkResponse true 200 (js "OK")
                 (js "https://mangapill.com/manga/1/x") (Ret untitled_page))
              untitled_page start Ha (serving_answers untitled_page)
              eq_refl eq_refl eq_refl Ht)
    as (d & w' & E & _ & Htl & _).
  exists d, w'. split; [exact E|exact Htl].
Defined.

(** C7, as stated, fails: on a page without a title the operation
    returns a record with the default title instead of raising. *)
Lemma C7_untitled_page_does_not_raise :
  ReadNovelFullV2.extractFirst untitled_page ReadNovelFullV2.title_re = None
  /\ (exists d,
        fst (ReadNovelFullV2.getBookDetails (serving untitled_page)
               (js "x") start) = Ret d
        /\ bd_title d = js "Unknown Title")
  /\ MangaPill.extractFirst untitled_page MangaPill.title_re = None
  /\ (exists d,
        fst (MangaPill.getBookDetails (serving untitled_page)
               (js "/manga/1/x") start) = Ret d
        /\ bd_title d = js "Unknown Title").
Proof.
  split; [reflexivity|]. split.
  - eexists. vm_compute. split; reflexivity.
  - split; [reflexivity|]. eexists. vm_compute. split; reflexivity.
Qed.



(** * Further properties of the code *)

(** ** Replacement never lengthens when no replacement does *)

Lemma replace_loop_le re f :
  (forall i t rest caps, match_here re t = Some (rest, caps) ->
     (length (f (mk_match i t rest caps)) <= length t - length rest)%nat) ->
  forall fuel s i, (length (replace_loop fuel re f s i) <= length s)%nat.
Proof.
  intros Hf. induction fuel as [|fuel IH]; intros s i; [simpl; lia|].
  simpl. destruct (match_here re s) as [[rest caps]|] eqn:E.
  - pose proof (Hf i s rest caps E) as Hl.
    destruct (match_here_inv _ _ _ _ E) as [Hsuf _].
    apply suffix_of_len in Hsuf.
    destruct (length rest <? length s)%nat eqn:El; rewrite length_app.
    + specialize (IH rest (i + (length s - length rest))%nat).
      lia.
    + apply Nat.ltb_ge in El. destruct s as [|c s']; cbn [length] in *; [lia|].
      specialize (IH s' (S i)). lia.
  - destruct s; simpl; [lia|]. specialize (IH s (S i)). lia.
Qed.

Lemma replace_first_le re f :
  (forall i t rest caps, match_here re t = Some (rest, caps) ->
     (length (f (mk_match i t rest caps)) <= length t - length rest)%nat) ->
  forall s i, (length (replace_first re f s i) <= length s)%nat.
Proof.
  intros Hf. induction s as [|c s IH]; intros i; simpl.
  - destruct (match_here re []) as [[rest caps]|] eqn:E; [|simpl; lia].
    pose proof (Hf i [] rest caps E). rewrite length_app.
    destruct (match_here_inv _ _ _ _ E) as [Hsuf _].
    apply suffix_of_len in Hsuf. cbn [length] in *. lia.
  - destruct (match_here re (c :: s)) as [[rest caps]|] eqn:E.
    + pose proof (Hf i (c :: s) rest caps E). rewrite length_app.
      destruct (match_here_inv _ _ _ _ E) as [Hsuf _].
      apply suffix_of_len in Hsuf. cbn [length] in *. lia.
    + simpl. specialize (IH (S i)). lia.
Qed.

Lemma replace_le re f s :
  (forall i t rest caps, match_here re t = Some (rest, caps) ->
     (length (f (mk_match i t rest caps)) <= length t - length rest)%nat) ->
  (length (replace re f s) <= length s)%nat.
Proof.
  intros Hf. unfold replace. destruct (global (rflags re)).
  - now apply replace_loop_le.
  - now apply replace_first_le.
Qed.

(** ** What the pattern of the named references captures *)

Lemma try_words_some (k : cont) ws s caps res :
  try_words k ws s caps = Some res ->
  exists w, In w ws /\ startsWith w s = true
            /\ k (skipn (length w) s) caps = Some res.
Proof.
  induction ws as [|w ws IH]; simpl; [discriminate|].
  unfold orelse. destruct (startsWith w s) eqn:Es.
  - destruct (k (skipn (length w) s) caps) as [r|] eqn:Ek.
    + intros H. injection H as <-. exists w. auto.
    + intros H. destruct (IH H) as (w' & Hin & Hs & Hk). exists w'. auto.
  - intros H. destruct (IH H) as (w' & Hin & Hs & Hk). exists w'. auto.
Qed.

Lemma startsWith_firstn w : forall s,
  startsWith w s = true ->
  firstn (length w) s = w /\ (length w <= length s)%nat.
Proof.
  induction w as [|c w IH]; intros s H; [split; [reflexivity|simpl; lia]|].
  destruct s as [|x s]; [discriminate|]. simpl in H.
  apply andb_prop in H as [Hc Hw]. apply Z.eqb_eq in Hc. subst x.
  destruct (IH s Hw) as [Hf Hl]. simpl. rewrite Hf. split; [reflexivity|lia].
Qed.

Lemma names_match re ws s rest caps :
  ast re = names_pattern ws -> ngroups re = 1%nat ->
  ignoreCase (rflags re) = false ->
  ws <> [] -> Forall (fun w => w <> []) ws ->
  match_here re s = Some (rest, caps) ->
  exists w, In w ws /\ caps = [Some w].
Proof.
  intros Hast Hn Hi Hne Hws. unfold match_here. rewrite Hast, Hn.
  cbn [names_pattern m repeat]. destruct s as [|x s]; [discriminate|].
  rewrite !canon_plain by exact Hi.
  destruct (x =? 38); [|discriminate].
  rewrite m_alt_words by assumption.
  intros H. apply try_words_some in H as (w & Hin & Hs & Hk).
  exists w. split; [exact Hin|].
  destruct (startsWith_firstn _ _ Hs) as [Hf Hl].
  destruct (skipn (length w) s) as [|y t] eqn:Ek; [discriminate|].
  rewrite !canon_plain in Hk by exact Hi.
  destruct (y =? 59); [|discriminate].
  injection Hk as _ <-. cbn [set_cap].
  assert (Hlen : length (skipn (length w) s) = (length s - length w)%nat)
    by apply length_skipn.
  rewrite Ek in Hlen. cbn [length] in Hlen.
  replace (length s - S (length t))%nat with (length w) by lia.
  now rewrite Hf.
Qed.

Lemma str_eqb_refl k : str_eqb k k = true.
Proof. induction k; simpl; [reflexivity|]. now rewrite Z.eqb_refl. Qed.

(** A name of the table is looked up to its character. *)
Lemma lookup_known table w :
  In w (map fst table) ->
  Forall (fun kv => length (snd kv) = 1%nat) table ->
  length (lookup table (Some w)) = 1%nat.
Proof.
  induction table as [|[k v] table IH]; simpl; [intros []|].
  intros Hin Hall. inversion Hall as [|? ? Hv Ht]; subst.
  destruct (str_eqb k w) eqn:E; [exact Hv|].
  destruct Hin as [->|Hin]; [now rewrite str_eqb_refl in E|].
  now apply IH.
Qed.

(** One pass of a decoder: every reference it replaces is at least
    four characters long and becomes one character. *)
Lemma named_pass_le re table s :
  ast re = names_pattern (map fst table) -> ngroups re = 1%nat ->
  ignoreCase (rflags re) = false ->
  map fst table <> [] -> Forall (fun w => w <> []) (map fst table) ->
  Forall (fun kv => length (snd kv) = 1%nat) table ->
  (length (replace re (fun mt => lookup table (grp mt 1)) s) <= length s)%nat.
Proof.
  intros Hast Hn Hi Hne Hws Hv. apply replace_le.
  intros i t rest caps Hm.
  destruct (names_match re _ t rest caps Hast Hn Hi Hne Hws Hm)
    as (w & Hin & ->).
  cbn [grp mk_match groups nth]. rewrite lookup_known by assumption.
  destruct (match_here_inv _ _ _ _ Hm) as [_ Hl]. rewrite Hast in Hl.
  cbn [names_pattern minlen] in Hl. lia.
Qed.

Lemma numeric_pass_le re radix s :
  (1 <= minlen (ast re))%nat ->
  (length (replace re (fun mt => char_of_numeral radix (grp mt 1)) s)
   <= length s)%nat.
Proof.
  intros Hmin. apply replace_le. intros i t rest caps Hm.
  destruct (match_here_inv _ _ _ _ Hm) as [_ Hl].
  assert (H1 : length (char_of_numeral radix (grp (mk_match i t rest caps) 1))
               = 1%nat).
  { unfold char_of_numeral. destruct (grp _ 1); [|reflexivity].
    apply fromCharCode_length. }
  lia.
Qed.

Ltac table_facts :=
  first [ reflexivity | discriminate
        | repeat constructor; discriminate
        | repeat constructor ].

Ltac named_le :=
  apply named_pass_le; table_facts.

Ltac numeric_le := apply numeric_pass_le; vm_compute; lia.

(** X1.  Decoding never makes a text longer: every reference a pass
    replaces is at least four characters long and is replaced by one
    character, in each of the four decoders. *)
Theorem X1_decoding_never_lengthens :
  forall s,
    (length (ReadNovelFullV2.decodeEntities s) <= length s)%nat
    /\ (length (ReadWN.decodeEntities s) <= length s)%nat
    /\ (length (MangaPill.decodeEntities s) <= length s)%nat
    /\ (length (MangaPillV1.decodeEntities s) <= length s)%nat.
Proof.
  intros s. repeat split.
  - unfold ReadNovelFullV2.decodeEntities.
    destruct (negb (nonempty s)); [simpl; lia|]. cbv zeta.
    etransitivity; [numeric_le|]. etransitivity; [numeric_le|]. named_le.
  - unfold ReadWN.decodeEntities, ReadWN.hex_pass, ReadWN.decimal_pass,
      ReadWN.named_pass.
    destruct (negb (nonempty s)); [simpl; lia|]. cbv zeta.
    etransitivity; [numeric_le|]. etransitivity; [numeric_le|]. named_le.
  - unfold MangaPill.decodeEntities.
    destruct (negb (nonempty s)); [simpl; lia|]. cbv zeta.
    etransitivity; [numeric_le|]. etransitivity; [numeric_le|]. named_le.
  - unfold MangaPillV1.decodeEntities.
    etransitivity; [numeric_le|]. named_le.
Qed.

(** ** Numeric references, in every decoder *)

Lemma reference_no_amp (p : Z -> bool) ds x :
  (forall y, p y = true -> y <> 38) -> forallb p ds = true ->
  In x (ds ++ [59]) -> x <> 38.
Proof.
  intros Hp Hd Hx. apply in_app_or in Hx.
  destruct Hx as [Hx|[<-|[]]]; [|discriminate].
  rewrite forallb_forall in Hd. auto.
Qed.

Lemma is_dec_no_amp y : is_dec y = true -> y <> 38.
Proof. unfold is_dec. lia. Qed.

Lemma is_hex_no_amp y : is_hex y = true -> y <> 38.
Proof. unfold is_hex. lia. Qed.

Lemma decimal_passes tre f ds :
  begins_with 38 tre ->
  (forall t, match_here tre (38 :: 35 :: t) = None) ->
  ds <> [] -> forallb is_dec ds = true ->
  replace ReadWN.decimal_re (fun mt => char_of_numeral 10 (grp mt 1))
    (replace tre f (38 :: 35 :: ds ++ [59]))
  = fromCharCode (parseInt ds 10).
Proof.
  intros Hb Hh Hne Hd.
  assert (Hrest : forall x, In x (35 :: ds ++ [59]) -> x <> 38).
  { intros x [<-|Hx]; [discriminate|].
    eapply reference_no_amp; eauto using is_dec_no_amp. }
  rewrite replace_head_unchanged;
    [|apply Hh|apply no_amp_no_match; [exact Hb|exact Hrest]].
  rewrite (replace_whole ReadWN.decimal_re _ _ [Some ds]);
    [|reflexivity|discriminate|apply decimal_match; auto|reflexivity].
  reflexivity.
Qed.

Lemma hex_pass_after_decimal v :
  replace ReadWN.hex_re (fun mt => char_of_numeral 16 (grp mt 1))
    (fromCharCode v) = fromCharCode v.
Proof.
  apply replace_unchanged. apply short_no_match.
  rewrite fromCharCode_length. cbn. lia.
Qed.

Lemma hex_passes tre f hs :
  begins_with 38 tre ->
  (forall t, match_here tre (38 :: 35 :: t) = None) ->
  hs <> [] -> forallb is_hex hs = true ->
  replace ReadWN.hex_re (fun mt => char_of_numeral 16 (grp mt 1))
    (replace ReadWN.decimal_re (fun mt => char_of_numeral 10 (grp mt 1))
       (replace tre f (38 :: 35 :: 120 :: hs ++ [59])))
  = fromCharCode (parseInt hs 16).
Proof.
  intros Hb Hh Hne Hd.
  assert (Hrest : forall x, In x (35 :: 120 :: hs ++ [59]) -> x <> 38).
  { intros x [<-|[<-|Hx]]; try discriminate.
    eapply reference_no_amp; eauto using is_hex_no_amp. }
  rewrite replace_head_unchanged;
    [|apply Hh|apply no_amp_no_match; [exact Hb|exact Hrest]].
  rewrite replace_head_unchanged;
    [|reflexivity|apply no_amp_no_match; [begins|exact Hrest]].
  rewrite (replace_whole ReadWN.hex_re _ _ [Some hs]);
    [|reflexivity|discriminate|apply hex_match; auto|reflexivity].
  reflexivity.
Qed.

(** The first revision of MangaPill has no hexadecimal pass. *)
Lemma hex_kept_without_pass tre f hs :
  begins_with 38 tre ->
  (forall t, match_here tre (38 :: 35 :: t) = None) ->
  forallb is_hex hs = true ->
  replace ReadWN.decimal_re (fun mt => char_of_numeral 10 (grp mt 1))
    (replace tre f (38 :: 35 :: 120 :: hs ++ [59]))
  = 38 :: 35 :: 120 :: hs ++ [59].
Proof.
  intros Hb Hh Hd.
  assert (Hrest : forall x, In x (35 :: 120 :: hs ++ [59]) -> x <> 38).
  { intros x [<-|[<-|Hx]]; try discriminate.
    eapply reference_no_amp; eauto using is_hex_no_amp. }
  rewrite replace_head_unchanged;
    [|apply Hh|apply no_amp_no_match; [exact Hb|exact Hrest]].
  apply replace_head_unchanged;
    [reflexivity|apply no_amp_no_match; [begins|exact Hrest]].
Qed.

Ltac names_head := first [begins | intros; reflexivity].

(** ** The two primitives of extraction agree *)

(** A match depends on the flags [i] and [s] of its pattern only, and
    on its continuation pointwise. *)
Lemma repeat_matcher_agree mr mr' gs lazy (k k' : cont) :
  (forall s c (k1 k2 : cont), (forall s' c', k1 s' c' = k2 s' c') ->
     mr s c k1 = mr' s c k2) ->
  (forall s c, k s c = k' s c) ->
  forall fuel mn mx s caps,
    repeat_matcher mr gs lazy k fuel mn mx s caps
    = repeat_matcher mr' gs lazy k' fuel mn mx s caps.
Proof.
  intros Hmr Hk. induction fuel as [|fuel IH]; intros mn mx s caps;
    [reflexivity|].
  cbn [repeat_matcher].
  assert (Hiter :
    mr s (reset_caps gs caps) (fun s' caps' =>
      if (mn =? 0)%nat && (len s' =? len s)%nat then None
      else repeat_matcher mr gs lazy k fuel (pred mn) (option_map pred mx)
             s' caps')
    = mr' s (reset_caps gs caps) (fun s' caps' =>
      if (mn =? 0)%nat && (len s' =? len s)%nat then None
      else repeat_matcher mr' gs lazy k' fuel (pred mn) (option_map pred mx)
             s' caps')).
  { apply Hmr. intros s' c'. destruct (_ && _); [reflexivity|apply IH]. }
  destruct mx as [[|mx]|]; rewrite ?Hk, ?Hiter; reflexivity.
Qed.

Lemma class_matches_agree fl fl' neg items x :
  ignoreCase fl = ignoreCase fl' ->
  class_matches fl neg items x = class_matches fl' neg items x.
Proof.
  intros Hi. unfold class_matches. f_equal.
  induction items as [|it items IH]; [reflexivity|]. cbn [existsb].
  rewrite IH. f_equal.
  destruct it; cbn [item_matches]; unfold canon; now rewrite ?Hi.
Qed.

Lemma m_agree fl fl' :
  ignoreCase fl = ignoreCase fl' -> dotAll fl = dotAll fl' ->
  forall r s caps (k k' : cont),
    (forall s' c', k s' c' = k' s' c') ->
    m fl r s caps k = m fl' r s caps k'.
Proof.
  intros Hi Hd. induction r; intros s caps k k' Hk; cbn [m].
  - apply Hk.
  - destruct s as [|x s]; [reflexivity|]. unfold canon. rewrite Hi, Hk.
    reflexivity.
  - destruct s as [|x s]; [reflexivity|]. now rewrite Hd, Hk.
  - destruct s as [|x s]; [reflexivity|].
    rewrite (class_matches_agree fl fl') by exact Hi. now rewrite Hk.
  - apply IHr1. intros s' c'. now apply IHr2.
  - rewrite (IHr1 s caps k k' Hk), (IHr2 s caps k k' Hk). reflexivity.
  - apply repeat_matcher_agree; [|exact Hk].
    intros s0 c0 k1 k2 H12. now apply IHr.
  - apply IHr. intros s' c'. apply Hk.
  - destruct s; [apply Hk|reflexivity].
Qed.

Lemma match_here_without_g re s :
  match_here (without_g re) s = match_here re s.
Proof. unfold match_here. apply m_agree; reflexivity. Qed.

Lemma search_from_eq re s i :
  search_from re s i
  = match match_here re s with
    | Some (rest, caps) => Some (mk_match i s rest caps)
    | None =>
      match s with
      | [] => None
      | _ :: s' => search_from re s' (S i)
      end
    end.
Proof. destruct s; reflexivity. Qed.

Lemma search_from_without_g re : forall s i,
  search_from (without_g re) s i = search_from re s i.
Proof.
  induction s as [|c s IH]; intros i;
    rewrite (search_from_eq (without_g re)), (search_from_eq re),
      match_here_without_g; [reflexivity|].
  now rewrite IH.
Qed.

Lemma exec_loop_S fuel html re li acc :
  exec_loop (S fuel) html re li acc
  = match regex_exec re html li with
    | (Some mt, li') => exec_loop fuel html re li' (acc ++ [mt])
    | (None, _) => Some acc
    end.
Proof. reflexivity. Qed.

Lemma exec_loop_head re html :
  advancing re = true ->
  exists l,
    exec_loop (length html + 2) html re 0 [] = Some l
    /\ option_map groups (string_match (without_g re) html)
       = option_map groups (hd_error l).
Proof.
  intros Ha. unfold string_match. rewrite search_from_without_g.
  assert (Hg : global (rflags re) = true).
  { unfold advancing in Ha. now apply andb_prop in Ha. }
  replace (length html + 2)%nat with (S (length html + 1)) by lia.
  rewrite exec_loop_S.
  destruct (regex_exec re html 0) as [[mt|] li] eqn:E.
  - destruct (regex_exec_some _ _ _ _ _ Hg E) as ((_ & Hocc & _) & -> & Hlen).
    destruct Hocc as [_ Hle].
    assert (Hmin : (0 < minlen (ast re))%nat).
    { unfold advancing in Ha. apply andb_prop in Ha as [_ Ha].
      now apply Nat.ltb_lt. }
    destruct (exec_loop_advancing re html Ha (length html + 1)
                (index mt + length (matched mt)) ([] ++ [mt]))
      as (l & El & _); try lia.
    exists (([] ++ [mt]) ++ l). split; [exact El|].
    unfold regex_exec in E. rewrite Hg in E. cbn in E.
    destruct (search_from re html 0) as [mt'|]; [|discriminate].
    injection E as -> _. reflexivity.
  - exists []. split; [reflexivity|].
    unfold regex_exec in E. rewrite Hg in E. cbn in E.
    destruct (search_from re html 0) as [mt'|]; [discriminate|]. reflexivity.
Qed.

(** X3.  What [extractFirst] returns for a pattern is the captures of
    the first match [extractAll] returns for the same pattern with the
    [g] flag, and [null] exactly when [extractAll] finds nothing. *)
Theorem X3_extractFirst_is_head_of_extractAll :
  forall html regex,
    advancing regex = true ->
    exists matches,
      ReadNovelFullV2.extractAll html regex = Some matches
      /\ ReadNovelFullV2.extractFirst html (without_g regex)
         = option_map groups (hd_error matches)
      /\ ReadWN.extractAll html regex = Some matches
      /\ ReadWN.extractFirst html (without_g regex)
         = option_map groups (hd_error matches)
      /\ MangaPill.extractAll html regex = Some matches
      /\ MangaPill.extractFirst html (without_g regex)
         = option_map groups (hd_error matches).
Proof.
  intros html regex Ha.
  destruct (exec_loop_head regex html Ha) as (l & El & Hh).
  assert (Hf : match string_match (without_g regex) html with
               | Some mt => Some (groups mt)
               | None => None
               end = option_map groups (hd_error l)).
  { rewrite <- Hh. now destruct (string_match _ html). }
  exists l. unfold ReadNovelFullV2.extractAll, ReadNovelFullV2.extractFirst,
    ReadWN.extractAll, ReadWN.extractFirst, MangaPill.extractAll,
    MangaPill.extractFirst.
  repeat split; try exact El; try exact Hf.
  - destruct html as [|c html]; [|exact El]. cbn [nonempty negb].
    change (length [] + 2)%nat with 2%nat in El. rewrite exec_loop_S in El.
    destruct (regex_exec regex [] 0) as [[mt|] li] eqn:E; [|exact El].
    exfalso. unfold advancing in Ha. apply andb_prop in Ha as [Hg Hm].
    destruct (regex_exec_some _ _ _ _ _ Hg E) as ((_ & [_ Hocc] & _) & _ & Hl).
    apply Nat.ltb_lt in Hm. cbn in Hocc. lia.
  - destruct html as [|c html]; [|exact Hf]. cbn [nonempty negb].
    rewrite <- Hf. unfold string_match. rewrite search_from_without_g.
    rewrite search_from_eq.
    destruct (match_here regex []) as [res|] eqn:E; [|reflexivity].
    exfalso. unfold advancing in Ha. apply andb_prop in Ha as [_ Hm].
    apply Nat.ltb_lt in Hm. eapply match_here_nil; eauto.
Qed.

Lemma X3_extractFirst_is_head_of_extractAll_witness :
  advancing ReadNovelFullV2.genreRegex = true
  /\ exists matches,
       ReadNovelFullV2.extractAll (js "<a href=`/g/1`>Action</a>, <a>Drama</a>")
         ReadNovelFullV2.genreRegex = Some matches
       /\ ReadNovelFullV2.extractFirst
            (js "<a href=`/g/1`>Action</a>, <a>Drama</a>")
            (without_g ReadNovelFullV2.genreRegex)
          = option_map groups (hd_error matches).
Proof.
  split; [reflexivity|].
  destruct (X3_extractFirst_is_head_of_extractAll
              (js "<a href=`/g/1`>Action</a>, <a>Drama</a>")
              ReadNovelFullV2.genreRegex eq_refl)
    as (l & E & F & _).
  exists l. split; [exact E|exact F].
Defined.

(** ** Operations as a whole: failures, requests *)

Lemma silent_ret {A} (a : A) : silent (ret a).
Proof. intros w. reflexivity. Qed.

Lemma silent_throw {A} e : silent (@throw A e).
Proof. intros w. reflexivity. Qed.

Lemma silent_write l a : silent (console_write l a).
Proof. intros w. reflexivity. Qed.

Lemma silent_text r : silent (await_text r).
Proof. intros w. reflexivity. Qed.

Lemma silent_run_loop {A} (o : option A) : silent (run_loop o).
Proof. intros w. destruct o; reflexivity. Qed.

Lemma silent_receiver name v : silent (receiver name v).
Proof. intros w. destruct v; reflexivity. Qed.

Lemma silent_bind {A B} (c : M A) (k : A -> M B) :
  silent c -> (forall a, silent (k a)) -> silent (bind c k).
Proof.
  intros Hc Hk w. unfold bind. specialize (Hc w).
  destruct (c w) as [[a|e|] w']; cbn [snd] in *; [|exact Hc|exact Hc].
  rewrite <- Hc. apply Hk.
Qed.

Lemma silent_try {A} (body : M A) handler :
  silent body -> (forall e, silent (handler e)) ->
  silent (try_catch body handler).
Proof.
  intros Hb Hh w. unfold try_catch. specialize (Hb w).
  destruct (body w) as [[a|e|] w']; cbn [snd] in *; [exact Hb| |exact Hb].
  rewrite <- Hb. apply Hh.
Qed.

Lemma silent_for_of {A B} (body : list B -> A -> M (list B)) :
  (forall acc x, silent (body acc x)) ->
  forall xs acc, silent (for_of xs body acc).
Proof.
  intros Hb. induction xs as [|x xs IH]; intros acc; cbn [for_of].
  - apply silent_ret.
  - apply silent_bind; [apply Hb|]. intros acc'. apply IH.
Qed.

Ltac open_helpers :=
  progress cbv beta zeta delta
    [ReadNovelFullV2.field ReadNovelFullV2.genre_item
     ReadNovelFullV2.chapter_item ReadNovelFullV2.search_item
     ReadNovelFullV2.content_of_page
     ReadWN.field ReadWN.genre_item ReadWN.chapter_item ReadWN.search_item
     ReadWN.content_of_page ReadWN.details_of_page
     MangaPill.field MangaPill.genre_item MangaPill.chapter_item
     MangaPill.search_item MangaPill.page_item MangaPill.fallback_page_item
     MangaPill.pages_of_page MangaPill.details_of_page
     MangaPillV1.field MangaPillV1.genre_item MangaPillV1.chapter_item
     MangaPillV1.search_item MangaPillV1.page_item
     MangaPillV1.fallback_page_item MangaPillV1.pages_of_page
     MangaPillV1.details_of_page
     console_log console_warn console_error].

Ltac silence :=
  repeat first
    [ exact (silent_ret _) | exact (silent_throw _)
    | exact (silent_write _ _) | exact (silent_text _)
    | exact (silent_run_loop _) | exact (silent_receiver _ _)
    | match goal with
      | |- silent (bind _ _) => apply silent_bind; [|intros ?]
      | |- silent (try_catch _ _) => apply silent_try; [|intros ?]
      | |- silent (for_of _ _ _) => apply silent_for_of; intros ? ?
      | |- silent (match ?x with _ => _ end) => destruct x
      | |- silent (if ?b then _ else _) => destruct b
      end
    | open_helpers ].

(** An operation that logs, tries, and on failure logs the cause and
    raises an error made from it. *)
Lemma wrapped_failure {A} l (body : M A) label (mk : js_error -> js_error)
    w e :
  fst ((console_log l ;;;
        try_catch body
          (fun error =>
             console_error [AStr label; AError error] ;;;
             throw (mk error))) w) = Throw e ->
  exists cause,
    e = mk cause
    /\ failure_logged label cause
         (snd ((console_log l ;;;
                try_catch body
                  (fun error =>
                     console_error [AStr label; AError error] ;;;
                     throw (mk error))) w)).
Proof.
  unfold bind, console_log, console_error, console_write, try_catch, throw.
  cbn. destruct (body _) as [[a|e0|] w0]; cbn; intros H; try discriminate.
  injection H as <-. exists e0. split; [reflexivity|].
  unfold failure_logged. cbn. eauto.
Qed.

(** X4.  Every exception of [getBookDetails], in the four
    pattern-based modules, is an [Error] whose message is
    [Failed to get details for], the identifier, and the message of the
    cause; the cause is the last thing written to [console.error]. *)
Theorem X4_getBookDetails_failures_are_wrapped :
  forall a fetch id w e,
    In a all_adapters ->
    fst (sa_getBookDetails a fetch id w) = Throw e ->
    exists cause,
      e = details_failure id cause
      /\ failure_logged (details_label id) cause
           (snd (sa_getBookDetails a fetch id w)).
Proof.
  intros a fetch id w e Ha H.
  destruct Ha as [<-|[<-|[<-|[<-|[]]]]]; cbn [sa_getBookDetails] in *;
    eapply wrapped_failure with (mk := details_failure id); exact H.
Qed.

Lemma X4_getBookDetails_failures_are_wrapped_witness :
  In mangapill all_adapters
  /\ fst (MangaPill.getBookDetails offline (js "/manga/1/x") start)
     = Throw (Error (js "Failed to get details for /manga/1/x: Failed to fetch"))
  /\ exists cause,
       Error (js "Failed to get details for /manga/1/x: Failed to fetch")
       = details_failure (js "/manga/1/x") cause.
Proof.
  assert (Ha : In mangapill all_adapters) by (right; right; left; reflexivity).
  assert (H : fst (sa_getBookDetails mangapill offline (js "/manga/1/x") start)
              = Throw (Error (js "Failed to get details for /manga/1/x: Failed to fetch")))
    by reflexivity.
  split; [exact Ha|]. split; [exact H|].
  destruct (X4_getBookDetails_failures_are_wrapped mangapill offline
              (js "/manga/1/x") start _ Ha H) as (cause & E & _).
  exists cause. exact E.
Defined.

(** X5.  Every exception of [getContent] is wrapped in the same way,
    with one exception: the readwn module checks that it was given a
    book with an [id] before it does anything, and raises that error as
    it is, with nothing logged and no request issued. *)
Theorem X5_getContent_failures_are_wrapped :
  forall fetch id w e,
    (fst (ReadNovelFullV2.getContent fetch id w) = Throw e ->
     exists cause,
       e = content_failure id cause
       /\ failure_logged (content_label id) cause
            (snd (ReadNovelFullV2.getContent fetch id w)))
    /\ (fst (MangaPill.getContent fetch id w) = Throw e ->
        exists cause,
          e = content_failure id cause
          /\ failure_logged (content_label id) cause
               (snd (MangaPill.getContent fetch id w)))
    /\ (fst (MangaPillV1.getContent fetch id w) = Throw e ->
        exists cause,
          e = content_failure id cause
          /\ failure_logged (content_label id) cause
               (snd (MangaPillV1.getContent fetch id w)))
    /\ (forall book,
          fst (ReadWN.getContent fetch id book w) = Throw e ->
          (e = book_required
           /\ snd (ReadWN.getContent fetch id book w) = w
           /\ (book = None \/ exists b, book = Some b /\ bd_id b = []))
          \/ (exists b cause,
                book = Some b /\ bd_id b <> []
                /\ e = Error (js "Failed to get content for chapter " ++ id
                              ++ js ": " ++ err_message cause)
                /\ failure_logged
                     (js "Get Content Error for Chapter ID " ++ id
                      ++ js " (Novel " ++ bd_id b ++ js "):")
                     cause (snd (ReadWN.getContent fetch id book w)))).
Proof.
  intros fetch id w e. split; [|split; [|split]].
  - intros H. eapply wrapped_failure with (mk := content_failure id). exact H.
  - intros H. eapply wrapped_failure with (mk := content_failure id). exact H.
  - intros H. eapply wrapped_failure with (mk := content_failure id). exact H.
  - intros [b|]; unfold ReadWN.getContent.
    + destruct (bd_id b) as [|c0 c] eqn:Eb; cbn [nonempty negb].
      * intros H. injection H as <-. left. repeat split. right. eauto.
      * intros H. right. exists b.
        eapply wrapped_failure
          with (mk := fun cause =>
                  Error (js "Failed to get content for chapter " ++ id
                         ++ js ": " ++ err_message cause)) in H.
        destruct H as (cause & -> & Hl). exists cause. rewrite Eb.
        repeat split; [discriminate|exact Hl].
    + intros H. injection H as <-. left. auto.
Qed.

Lemma X5_getContent_failures_are_wrapped_witness :
  fst (MangaPill.getContent offline (js "/chapters/1/x") start)
  = Throw (Error (js "Failed to get content for /chapters/1/x: Failed to fetch"))
  /\ exists cause,
       Error (js "Failed to get content for /chapters/1/x: Failed to fetch")
       = content_failure (js "/chapters/1/x") cause.
Proof.
  assert (H : fst (MangaPill.getContent offline (js "/chapters/1/x") start)
              = Throw (Error (js "Failed to get content for /chapters/1/x: Failed to fetch")))
    by reflexivity.
  split; [exact H|].
  destruct (X5_getContent_failures_are_wrapped offline (js "/chapters/1/x")
              start (Error (js "Failed to get content for /chapters/1/x: Failed to fetch")))
    as (_ & Hm & _).
  destruct (Hm H) as (cause & E & _). exists cause. exact E.
Defined.

(** X6.  The modules other than ReadFullNovelV2.js do not retry: when
    the response to the one request of [getBookDetails] or
    [getContent] is not ok, the body is not read, the operation raises
    the wrapped error whose message carries the status, and that
    request is the only one issued. *)
Theorem X6_non_success_status_is_raised_without_retry :
  forall fetch id r w,
    ok r = false ->
    (forall a, In a single_request_adapters ->
       fetch (sa_bookRequest a id) = Ret r ->
       exists tail,
         fst (sa_getBookDetails a fetch id w)
         = Throw (details_failure id
                    (Error (js "Failed to fetch book details: "
                            ++ string_of_Z (status r) ++ tail)))
         /\ requests (snd (sa_getBookDetails a fetch id w))
            = requests w ++ [sa_bookRequest a id])
    /\ (fetch (MangaPillUrls.pageRequest id) = Ret r ->
        fst (MangaPill.getContent fetch id w)
        = Throw (content_failure id
                   (Error (js "Failed to fetch chapter content: "
                           ++ string_of_Z (status r))))
        /\ fst (MangaPillV1.getContent fetch id w)
           = fst (MangaPill.getContent fetch id w)
        /\ requests (snd (MangaPill.getContent fetch id w))
           = requests w ++ [MangaPillUrls.pageRequest id]
        /\ requests (snd (MangaPillV1.getContent fetch id w))
           = requests w ++ [MangaPillUrls.pageRequest id])
    /\ (forall b,
          bd_id b <> [] ->
          fetch (GET (ReadWNUrls.chapterUrl (bd_id b) id)) = Ret r ->
          fst (ReadWN.getContent fetch id (Some b) w)
          = Throw (Error (js "Failed to get content for chapter " ++ id
                          ++ js ": Failed to fetch chapter content: "
                          ++ string_of_Z (status r) ++ js " for "
                          ++ ReadWNUrls.chapterUrl (bd_id b) id))
          /\ requests (snd (ReadWN.getContent fetch id (Some b) w))
             = requests w ++ [GET (ReadWNUrls.chapterUrl (bd_id b) id)]).
Proof.
  intros fetch id r w Hok. split; [|split].
  - intros a [<-|[<-|[<-|[]]]] Hr;
      cbn [sa_bookRequest sa_getBookDetails readwn mangapill mangapillV1] in *.
    + exists (js " at " ++ ReadWNUrls.bookUrl id).
      unfold ReadWN.getBookDetails, bind, try_catch, await_fetch, console_log,
        console_error, console_write, throw.
      cbn. fold (ReadWNUrls.bookUrl id). rewrite Hr, Hok. cbn. auto.
    + exists []. rewrite app_nil_r.
      unfold MangaPill.getBookDetails, bind, try_catch, await_fetch,
        console_log, console_error, console_write, throw.
      cbn. fold (MangaPillUrls.pageRequest id). rewrite Hr, Hok. cbn. auto.
    + exists []. rewrite app_nil_r.
      unfold MangaPillV1.getBookDetails, bind, try_catch, await_fetch,
        console_log, console_error, console_write, throw.
      cbn. change (mkRequest (MangaPillV1.baseURL ++ id) (Some (js "GET")) None
                     MangaPillV1.referer)
             with (MangaPillUrls.pageRequest id).
      rewrite Hr, Hok. cbn. auto.
  - intros Hr.
    unfold MangaPill.getContent, MangaPillV1.getContent, bind, try_catch,
      await_fetch, console_log, console_error, console_write, throw.
    cbn. fold (MangaPillUrls.pageRequest id).
    change (mkRequest (MangaPillV1.baseURL ++ id) (Some (js "GET")) None
              MangaPillV1.referer)
      with (MangaPillUrls.pageRequest id).
    rewrite Hr, Hok. cbn. auto.
  - intros b Hb Hr.
    assert (En : nonempty (bd_id b) = true)
      by (destruct (bd_id b); [congruence|reflexivity]).
    unfold ReadWN.getContent. rewrite En. cbn [negb].
    unfold bind, try_catch, await_fetch, console_log, console_error,
      console_write, throw.
    cbn. fold (ReadWNUrls.chapterUrl (bd_id b) id). rewrite Hr, Hok. cbn.
    auto.
Qed.

Lemma X6_non_success_status_is_raised_without_retry_witness :
  ok (mkResponse false 404 (js "Not Found") [] (Ret [])) = false
  /\ In readwn single_request_adapters
  /\ exists tail,
       fst (ReadWN.getBookDetails
              (fun _ => Ret (mkResponse false 404 (js "Not Found") [] (Ret [])))
              (js "martial-peak") start)
       = Throw (details_failure (js "martial-peak")
                  (Error (js "Failed to fetch book details: " ++ js "404"
                          ++ tail))).
Proof.
  assert (Ha : In readwn single_request_adapters) by (left; reflexivity).
  split; [reflexivity|]. split; [exact Ha|].
  destruct (X6_non_success_status_is_raised_without_retry
              (fun _ => Ret (mkResponse false 404 (js "Not Found") [] (Ret [])))
              (js "martial-peak")
              (mkResponse false 404 (js "Not Found") [] (Ret [])) start
              eq_refl) as (Hd & _).
  destruct (Hd readwn Ha eq_refl) as (tail & E & _).
  exists tail. exact E.
Defined.

(** ** The retry and the dependent request of ReadFullNovelV2.js *)

Lemma v2_content_primary id html c w :
  first_capture (ReadNovelFullV2.extractFirst html ReadNovelFullV2.content_re)
  = Some c ->
  nonempty (ReadNovelFullV2.cleanHtmlText c) = true ->
  ReadNovelFullV2.content_of_page id html w
  = (Ret (ReadNovelFullV2.cleanHtmlText c), w).
Proof.
  intros Hc Hn. unfold ReadNovelFullV2.content_of_page.
  apply ReadWNOrch.first_capture_some in Hc as (c0 & c' & caps & -> & ->).
  cbv zeta. now rewrite Hn.
Qed.

(** X7.  [getContent] of ReadFullNovelV2.js retries exactly once: when
    the response for the [.html] URL is not ok, one more request goes
    to the URL without the suffix; a second response that is not ok
    raises the wrapped error with its status, and one that is ok is
    read in place of the first. *)
Theorem X7_getContent_retries_once :
  forall fetch id r w,
    fetch (GET (V2Urls.bookUrl id)) = Ret r -> ok r = false ->
    (forall r2,
        fetch (GET (V2Urls.fallbackUrl id)) = Ret r2 -> ok r2 = false ->
        fst (ReadNovelFullV2.getContent fetch id w)
        = Throw (content_failure id
                   (Error (js "Failed to fetch chapter content (tried with and without .html): "
                           ++ string_of_Z (status r2))))
        /\ requests (snd (ReadNovelFullV2.getContent fetch id w))
           = requests w ++ [GET (V2Urls.bookUrl id);
                            GET (V2Urls.fallbackUrl id)])
    /\ (forall r2 html c,
          fetch (GET (V2Urls.fallbackUrl id)) = Ret r2 -> ok r2 = true ->
          text r2 = Ret html ->
          first_capture
            (ReadNovelFullV2.extractFirst html ReadNovelFullV2.content_re)
          = Some c ->
          nonempty (ReadNovelFullV2.cleanHtmlText c) = true ->
          fst (ReadNovelFullV2.getContent fetch id w)
          = Ret (ReadNovelFullV2.cleanHtmlText c)
          /\ requests (snd (ReadNovelFullV2.getContent fetch id w))
             = requests w ++ [GET (V2Urls.bookUrl id);
                              GET (V2Urls.fallbackUrl id)]).
Proof.
  intros fetch id r w Hr Hok. split.
  - intros r2 Hr2 Hok2.
    destruct (V2Orch.getContent_both_fail fetch id r r2 w Hr Hok Hr2 Hok2)
      as (w' & E & Hreq).
    rewrite E. split; [reflexivity|exact Hreq].
  - intros r2 html c Hr2 Hok2 Ht Hc Hn.
    destruct (V2Orch.getContent_retry fetch id r r2 html w Hr Hok Hr2 Hok2 Ht)
      as (w1 & Hreq & Hret & _).
    rewrite (Hret _ _ (v2_content_primary id html c w1 Hc Hn)).
    split; [reflexivity|exact Hreq].
Qed.

Lemma X7_getContent_retries_once_witness :
  html_missing chapter_page (GET (V2Urls.bookUrl (js "martial-peak")))
  = Ret (mkResponse false 404 (js "Not Found")
           (V2Urls.bookUrl (js "martial-peak")) (Ret []))
  /\ fst (ReadNovelFullV2.getContent (html_missing chapter_page)
            (js "martial-peak") start)
     = Ret (ReadNovelFullV2.cleanHtmlText (js "a<p>b</p>c")).
Proof.
  assert (Hr : html_missing chapter_page
                 (GET (V2Urls.bookUrl (js "martial-peak")))
               = Ret (mkResponse false 404 (js "Not Found")
                        (V2Urls.bookUrl (js "martial-peak")) (Ret [])))
    by reflexivity.
  split; [exact Hr|].
  destruct (X7_getContent_retries_once (html_missing chapter_page)
              (js "martial-peak") _ start Hr eq_refl) as [_ H].
  destruct (H (mkResponse true 200 (js "OK")
                 (V2Urls.fallbackUrl (js "martial-peak")) (Ret chapter_page))
              chapter_page (js "a<p>b</p>c") eq_refl eq_refl eq_refl
              eq_refl eq_refl) as [E _].
  exact E.
Defined.

(** X8.  The retry of [getBookDetails] in ReadFullNovelV2.js can never
    succeed: the operation returns a record only when the response to
    its first request, for the [.html] URL, is ok. *)
Theorem X8_getBookDetails_returns_only_on_first_response :
  forall fetch id w d w',
    ReadNovelFullV2.getBookDetails fetch id w = (Ret d, w') ->
    exists r,
      fetch (GET (V2Urls.bookUrl id)) = Ret r /\ ok r = true
      /\ bd_id d = id.
Proof.
  intros fetch id w d w' H.
  assert (Hid : bd_id d = id)
    by (eapply (V2Orch.v2_getBookDetails_sound_id fetch id); exact H).
  unfold ReadNovelFullV2.getBookDetails, bind, try_catch, await_fetch,
    console_log, console_error, console_write, throw in H.
  cbn in H. fold (V2Urls.bookUrl id) in H.
  destruct (fetch (GET (V2Urls.bookUrl id))) as [r| |] eqn:Er;
    cbn in H; try discriminate.
  destruct (ok r) eqn:Eok; [eauto|]. exfalso. cbn in H.
  destruct (fetch (GET (ReadNovelFullV2.BASE_URL ++ js "/" ++ id)))
    as [r2| |]; cbn in H; discriminate.
Qed.

Lemma X8_getBookDetails_returns_only_on_first_response_witness :
  exists d w',
    ReadNovelFullV2.getBookDetails (serving chapter_page) (js "martial-peak")
      start = (Ret d, w')
    /\ exists r,
         serving chapter_page (GET (V2Urls.bookUrl (js "martial-peak")))
         = Ret r /\ ok r = true.
Proof.
  destruct (ReadNovelFullV2.getBookDetails (serving chapter_page)
              (js "martial-peak") start) as [o w'] eqn:E.
  destruct o as [d| |]; try (vm_compute in E; discriminate).
  exists d, w'. split; [reflexivity|].
  destruct (X8_getBookDetails_returns_only_on_first_response
              (serving chapter_page) (js "martial-peak") start d w' E)
    as (r & Hr & Hok & _).
  exists r. split; assumption.
Defined.

(** ** Outcomes and requests of a sequence *)

Lemma ends_ret {A} (a : A) (P : outcome A -> Prop) :
  P (Ret a) -> ends (ret a) [] P.
Proof. intros H w. cbn. now rewrite app_nil_r. Qed.

Lemma ends_throw {A} e (P : outcome A -> Prop) :
  P (Throw e) -> ends (throw e) [] P.
Proof. intros H w. cbn. now rewrite app_nil_r. Qed.

Lemma ends_weaken {A} (c : M A) rs (P Q : outcome A -> Prop) :
  (forall o, P o -> Q o) -> ends c rs P -> ends c rs Q.
Proof. intros H Hc w. destruct (Hc w). auto. Qed.

Lemma ends_quiet_bind {A B} (c : M A) (k : A -> M B) (Q : A -> Prop) rs P :
  ensures c Q -> silent c ->
  (forall a, Q a -> ends (k a) rs P) -> ends (bind c k) rs P.
Proof.
  intros Hc Hs Hk w. destruct (Hc w) as (a & w1 & E & Ha).
  specialize (Hs w). unfold bind. rewrite E in *. cbn [snd] in Hs.
  rewrite <- Hs. apply Hk. exact Ha.
Qed.

Lemma ends_write_bind {B} l a (k : unit -> M B) rs P :
  ends (k tt) rs P -> ends (bind (console_write l a) k) rs P.
Proof.
  intros Hk w. unfold bind, console_write.
  exact (Hk (mkWorld (console w ++ [mkLog l a]) (requests w))).
Qed.

Lemma ends_text_bind {B} r html (k : jsstring -> M B) rs P :
  text r = Ret html -> ends (k html) rs P -> ends (bind (await_text r) k) rs P.
Proof.
  intros Ht Hk w. unfold bind, await_text. rewrite Ht. exact (Hk w).
Qed.

Lemma ends_fetch_bind {B} fetch rq r (k : response -> M B) rs P :
  fetch rq = Ret r -> ends (k r) rs P ->
  ends (bind (await_fetch fetch rq) k) (rq :: rs) P.
Proof.
  intros Hr Hk w. unfold bind, await_fetch. rewrite Hr.
  destruct (Hk (mkWorld (console w) (requests w ++ [rq]))) as [H1 H2].
  split; [|exact H2]. rewrite H1. cbn. now rewrite <- app_assoc.
Qed.

Lemma ends_fetch_fails {B} fetch rq e (k : response -> M B)
    (P : outcome B -> Prop) :
  fetch rq = Throw e -> P (Throw e) ->
  ends (bind (await_fetch fetch rq) k) [rq] P.
Proof. intros Hr HP w. unfold bind, await_fetch. rewrite Hr. auto. Qed.

(** The last step of a sequence: a step that issues no request. *)
Lemma ends_bind_last {A B} (c : M A) (k : A -> M B) rs
    (Pc : outcome A -> Prop) (P : outcome B -> Prop) :
  ends c rs Pc ->
  (forall a, Pc (Ret a) -> ends (k a) [] P) ->
  (forall e, Pc (Throw e) -> P (Throw e)) ->
  (Pc Diverge -> P Diverge) ->
  ends (bind c k) rs P.
Proof.
  intros Hc Hk He Hd w. destruct (Hc w) as [H1 H2]. unfold bind.
  destruct (c w) as [[a|e|] w1]; cbn [fst snd] in *; auto.
  destruct (Hk a H2 w1) as [H3 H4]. rewrite H3, app_nil_r. auto.
Qed.

(** An operation that logs, tries, and wraps what its body raises. *)
Lemma ends_wrapped {A} l (body : M A) label mk rs (P : outcome A -> Prop) :
  ends body rs P ->
  ends (console_log l ;;;
        try_catch body
          (fun error =>
             console_error [AStr label; AError error] ;;;
             throw (mk error)))
       rs (fun o => exists o0, P o0 /\ o = wrapped mk o0).
Proof.
  intros Hb w. unfold bind, console_log, console_error, console_write,
    try_catch, throw. cbn.
  destruct (Hb (mkWorld (console w ++ [mkLog LLog l]) (requests w)))
    as [H1 H2].
  destruct (body _) as [[a|e|] w1]; cbn [fst snd] in *;
    (split; [exact H1|eexists; split; [exact H2|reflexivity]]).
Qed.

(** The fields [getBookDetails] of ReadFullNovelV2.js reads before the
    chapters: each is read without a request and none can fail. *)
Ltac v2_fields html :=
  unfold ReadNovelFullV2.details_of_page;
  eapply ends_quiet_bind;
    [apply V2Orch.v2_field_ensures; pat | silence | intros ? _];
  eapply ends_quiet_bind;
    [apply V2Orch.v2_field_ensures; pat | silence | intros ? _];
  eapply ends_quiet_bind with (Q := fun _ => True);
    [ destruct (ReadNovelFullV2.extractFirst html ReadNovelFullV2.cover_re)
        as [caps0|] eqn:Ecover;
      [ destruct (defined_nth _ _ 0
                    (V2Orch.v2_extractFirst_defined html
                       ReadNovelFullV2.cover_re _ eq_refl Ecover))
          as [v Hv]; [pat|];
        eapply ensures_receiver_bind; [exact Hv|]; now apply ensures_ret
      | now apply ensures_ret ]
    | silence | intros ? _ ];
  cbv zeta;
  eapply ends_quiet_bind with (Q := fun _ => True);
    [ destruct (ReadNovelFullV2.extractFirst html ReadNovelFullV2.genreList_re)
        as [caps0|];
      [ eapply ensures_bind; [apply V2Orch.v2_extractAll_ensures; reflexivity|];
        intros l Hl; now apply V2Orch.v2_genre_items_ensures
      | now apply ensures_ret ]
    | silence | intros ? _ ];
  eapply ends_quiet_bind;
    [apply V2Orch.v2_field_ensures; pat | silence | intros ? _].

(** X9.  The chapter list of ReadFullNovelV2.js is a dependent request:
    once the numeric id is read off the page of the book, a second
    request goes to the chapter archive, with the page as referer.  A
    response that is not ok only empties the chapter list, the record
    is still returned; a request that fails fails the operation. *)
Theorem X9_chapter_list_is_a_dependent_request :
  forall fetch id r html caps w,
    fetch (GET (V2Urls.bookUrl id)) = Ret r -> ok r = true ->
    text r = Ret html ->
    novelIdMatch html = Some caps ->
    let rq := chaptersRequest id (nth 0 caps None) in
    (forall r2, fetch rq = Ret r2 -> ok r2 = false ->
       (exists d, fst (ReadNovelFullV2.getBookDetails fetch id w) = Ret d
                  /\ bd_id d = id /\ bd_chapters d = [])
       /\ requests (snd (ReadNovelFullV2.getBookDetails fetch id w))
          = requests w ++ [GET (V2Urls.bookUrl id); rq])
    /\ (forall e, fetch rq = Throw e ->
          fst (ReadNovelFullV2.getBookDetails fetch id w)
          = Throw (details_failure id e)
          /\ requests (snd (ReadNovelFullV2.getBookDetails fetch id w))
             = requests w ++ [GET (V2Urls.bookUrl id); rq]).
Proof.
  intros fetch id r html caps w Hr Hok Ht Hm rq. unfold novelIdMatch in Hm.
  split.
  - intros r2 Hr2 Hok2.
    assert (H : ends (ReadNovelFullV2.getBookDetails fetch id)
                  [GET (V2Urls.bookUrl id); rq]
                  (fun o => exists o0,
                     (exists d, o0 = Ret d /\ bd_id d = id
                                /\ bd_chapters d = [])
                     /\ o = wrapped (details_failure id) o0)).
    { unfold ReadNovelFullV2.getBookDetails. cbv zeta.
      apply ends_wrapped. fold (V2Urls.bookUrl id).
      eapply ends_fetch_bind; [exact Hr|]. rewrite Hok. cbn [negb].
      apply ends_quiet_bind with (Q := fun _ => True);
        [now apply ensures_ret|silence|intros _ _].
      eapply ends_text_bind; [exact Ht|].
      v2_fields html. rewrite Hm.
      eapply ends_bind_last
        with (Pc := fun o => o = Ret (@nil ChapterRef)).
      - apply ends_write_bind. fold rq.
        eapply ends_fetch_bind; [exact Hr2|]. rewrite Hok2. cbn [negb].
        apply ends_write_bind. now apply ends_ret.
      - intros ch Hch. injection Hch as ->. apply ends_ret. eauto.
      - discriminate.
      - discriminate. }
    destruct (H w) as [Hreq (o0 & (d & -> & Hid & Hch) & Ho)].
    split; [|exact Hreq]. exists d. auto.
  - intros e He.
    assert (H : ends (ReadNovelFullV2.getBookDetails fetch id)
                  [GET (V2Urls.bookUrl id); rq]
                  (fun o => exists o0,
                     o0 = Throw e /\ o = wrapped (details_failure id) o0)).
    { unfold ReadNovelFullV2.getBookDetails. cbv zeta.
      apply ends_wrapped. fold (V2Urls.bookUrl id).
      eapply ends_fetch_bind; [exact Hr|]. rewrite Hok. cbn [negb].
      apply ends_quiet_bind with (Q := fun _ => True);
        [now apply ensures_ret|silence|intros _ _].
      eapply ends_text_bind; [exact Ht|].
      v2_fields html. rewrite Hm.
      eapply ends_bind_last with (Pc := fun o => o = Throw e).
      - apply ends_write_bind. fold rq.
        eapply ends_fetch_fails; [exact He|reflexivity].
      - discriminate.
      - intros e' He'. now injection He' as ->.
      - discriminate. }
    destruct (H w) as [Hreq (o0 & -> & Ho)]. split; assumption.
Qed.

Lemma X9_chapter_list_is_a_dependent_request_witness :
  novelIdMatch numbered_page = Some [Some (js "42")]
  /\ archive_down numbered_page (chaptersRequest (js "x") (Some (js "42")))
     = Ret (mkResponse false 500 (js "Internal Server Error")
              (js "https://readnovelfull.com/ajax/chapter-archive?novelId=42")
              (Ret []))
  /\ exists d,
       fst (ReadNovelFullV2.getBookDetails (archive_down numbered_page)
              (js "x") start) = Ret d
       /\ bd_chapters d = [].
Proof.
  assert (Hm : novelIdMatch numbered_page = Some [Some (js "42")])
    by reflexivity.
  assert (Hr2 : archive_down numbered_page
                  (chaptersRequest (js "x") (Some (js "42")))
                = Ret (mkResponse false 500 (js "Internal Server Error")
                         (js "https://readnovelfull.com/ajax/chapter-archive?novelId=42")
                         (Ret []))) by reflexivity.
  split; [exact Hm|]. split; [exact Hr2|].
  destruct (X9_chapter_list_is_a_dependent_request
              (archive_down numbered_page) (js "x")
              (mkResponse true 200 (js "OK") (V2Urls.bookUrl (js "x"))
                 (Ret numbered_page))
              numbered_page [Some (js "42")] start
              eq_refl eq_refl eq_refl Hm) as [H _].
  destruct (H _ Hr2 eq_refl) as [(d & E & _ & Hc) _].
  exists d. split; [exact E|exact Hc].
Defined.

(** ** Search as a whole *)

Lemma no_diverge_text r : text r <> Diverge -> no_diverge (await_text r).
Proof. intros H w. exact H. Qed.

Lemma no_diverge_exec_loop re html :
  advancing re = true ->
  no_diverge (run_loop (exec_loop (length html + 2) html re 0 [])).
Proof.
  intros Ha w.
  destruct (exec_loop_advancing re html Ha (length html + 2) 0 [])
    as (l & El & _); try lia.
  unfold run_loop. rewrite El. discriminate.
Qed.

Lemma no_diverge_run_some {A} (a : A) : no_diverge (run_loop (Some a)).
Proof. intros w. discriminate. Qed.

Ltac settle :=
  repeat first
    [ exact (no_diverge_ret _) | exact (no_diverge_throw _)
    | exact (no_diverge_run_some _)
    | exact (no_diverge_write _ _) | exact (no_diverge_receiver _ _)
    | apply no_diverge_text; assumption
    | apply no_diverge_exec_loop; reflexivity
    | match goal with
      | |- no_diverge (bind _ _) => apply no_diverge_bind; [|intros ?]
      | |- no_diverge (try_catch _ _) => apply no_diverge_try; [|intros ?]
      | |- no_diverge (for_of _ _ _) => apply no_diverge_for_of; intros ? ?
      | |- no_diverge (run_loop (if ?b then _ else _)) => destruct b
      | |- no_diverge (run_loop (match ?x with _ => _ end)) => destruct x
      | |- no_diverge (match ?x with _ => _ end) => destruct x
      | |- no_diverge (if ?b then _ else _) => destruct b
      end
    | open_helpers ].

(** An operation that logs, issues a request, goes on without another,
    and returns the empty list when anything fails. *)
Lemma caught_search {A} l fetch rq (body : response -> M (list A)) label w :
  fetch rq <> Diverge ->
  (forall r, fetch rq = Ret r -> silent (body r) /\ no_diverge (body r)) ->
  (exists rs,
      fst ((console_log l ;;;
            try_catch (r <- await_fetch fetch rq ;; body r)
              (fun error =>
                 console_error [AStr label; AError error] ;;; ret [])) w)
      = Ret rs)
  /\ requests
       (snd ((console_log l ;;;
              try_catch (r <- await_fetch fetch rq ;; body r)
                (fun error =>
                   console_error [AStr label; AError error] ;;; ret [])) w))
     = requests w ++ [rq].
Proof.
  intros Hf Hb.
  unfold bind, console_log, console_error, console_write, try_catch,
    await_fetch, ret. cbn.
  destruct (fetch rq) as [r|e|] eqn:Er; cbn; [|eauto|congruence].
  destruct (Hb r eq_refl) as [Hs Hd].
  specialize (Hs (mkWorld (console w ++ [mkLog LLog l]) (requests w ++ [rq]))).
  specialize (Hd (mkWorld (console w ++ [mkLog LLog l]) (requests w ++ [rq]))).
  destruct (body r _) as [[a|e|] w1]; cbn in *; [eauto|eauto|congruence].
Qed.

(** X10.  When the transport settles, [search] settles with a list,
    after the one request to the search URL and no other: whatever the
    response and the page, nothing is raised and the matching loop
    ends, in the four pattern-based modules. *)
Theorem X10_search_settles_after_one_request :
  forall a fetch query rq w,
    In a all_adapters ->
    sa_searchRequest a query = Some rq ->
    fetch rq <> Diverge ->
    (forall r, fetch rq = Ret r -> text r <> Diverge) ->
    (exists rs, fst (sa_search a fetch query w) = Ret rs)
    /\ requests (snd (sa_search a fetch query w)) = requests w ++ [rq].
Proof.
  intros a fetch query rq w Ha Hrq Hf Ht.
  destruct Ha as [<-|[<-|[<-|[<-|[]]]]];
    cbn [sa_searchRequest sa_search readNovelFullV2 readwn mangapill
         mangapillV1] in *.
  - unfold ReadNovelFullV2.search.
    destruct (encodeURIComponent query) as [q|]; [|discriminate].
    injection Hrq as <-. cbv zeta. apply caught_search; [exact Hf|].
    intros r Hr. specialize (Ht r Hr).
    unfold ReadNovelFullV2.extractAll. split; [silence|settle].
  - unfold ReadWN.search.
    destruct (encodeURIComponent _) as [q|]; [|discriminate].
    injection Hrq as <-. cbv zeta. apply caught_search; [exact Hf|].
    intros r Hr. specialize (Ht r Hr).
    unfold ReadWN.extractAll. split; [silence|settle].
  - unfold MangaPill.search.
    destruct (encodeURIComponent query) as [q|]; [|discriminate].
    injection Hrq as <-. cbv zeta. apply caught_search; [exact Hf|].
    intros r Hr. specialize (Ht r Hr).
    unfold MangaPill.extractAll. split; [silence|settle].
  - unfold MangaPillV1.search.
    destruct (encodeURIComponent query) as [q|]; [|discriminate].
    injection Hrq as <-. cbv zeta. apply caught_search; [exact Hf|].
    intros r Hr. specialize (Ht r Hr).
    unfold MangaPillV1.extractAll. split; [silence|settle].
Qed.

Lemma X10_search_settles_after_one_request_witness :
  In readwn all_adapters
  /\ sa_searchRequest readwn (js "martial peak")
     = Some (ReadWNUrls.searchRequest (js "martial-peak"))
  /\ (exists rs,
         fst (ReadWN.search (serving untitled_page) (js "martial peak") start)
         = Ret rs)
  /\ requests (snd (ReadWN.search (serving untitled_page)
                      (js "martial peak") start))
     = [ReadWNUrls.searchRequest (js "martial-peak")].
Proof.
  assert (Ha : In readwn all_adapters) by (right; left; reflexivity).
  assert (Hq : sa_searchRequest readwn (js "martial peak")
               = Some (ReadWNUrls.searchRequest (js "martial-peak")))
    by reflexivity.
  split; [exact Ha|]. split; [exact Hq|].
  apply (X10_search_settles_after_one_request readwn (serving untitled_page)
           (js "martial peak") _ start Ha Hq).
  - discriminate.
  - intros r Hr. injection Hr as <-. discriminate.
Defined.

(** ** The record of a book, from any page *)

Lemma ends_of_ensures {A} (c : M A) (Q : A -> Prop) :
  ensures c Q -> silent c ->
  ends c [] (fun o => exists a, o = Ret a /\ Q a).
Proof.
  intros Hc Hs w. destruct (Hc w) as (a & w1 & E & Ha). specialize (Hs w).
  rewrite E in *. cbn [fst snd] in *. rewrite Hs, app_nil_r. eauto.
Qed.

(** *** MangaPill (src/unnamed/part_001) *)

Lemma chapter_items_exact ms :
  Forall (fun mt => defined (groups mt) 2) ms ->
  forall acc w,
    for_of ms MangaPill.chapter_item acc w
    = (Ret (acc ++ map (chapter_of MangaPill.decodeEntities) ms), w).
Proof.
  induction ms as [|mt ms IH]; intros Hd acc w; cbn [for_of map].
  - now rewrite app_nil_r.
  - inversion Hd as [|? ? Hmt Hms]; subst.
    destruct (defined_nth _ _ 1 Hmt) as [v Hv]; [lia|].
    unfold bind at 1. unfold MangaPill.chapter_item at 1. cbv zeta.
    cbn [grp]. rewrite Hv. unfold bind, receiver, ret.
    rewrite (IH Hms). rewrite <- app_assoc. unfold chapter_of.
    cbn [grp]. rewrite Hv. reflexivity.
Qed.

Lemma extractFirst_defined html r caps :
  all_defined r = true ->
  MangaPill.extractFirst html r = Some caps -> defined caps (ngroups r).
Proof.
  unfold MangaPill.extractFirst, string_match. intros Hd H.
  destruct (search_from r html 0) as [mt|] eqn:E; [|discriminate].
  injection H as <-. eapply search_from_defined; eauto.
Qed.

Lemma field_returns html r d :
  all_defined r = true -> (0 < ngroups r)%nat ->
  ensures (MangaPill.field (MangaPill.extractFirst html r) d)
          (fun t => MangaPill.extractFirst html r = None -> t = d).
Proof.
  intros Hd Hn. destruct (MangaPill.extractFirst html r) as [caps|] eqn:E; simpl.
  - destruct (defined_nth _ _ 0 (extractFirst_defined _ _ _ Hd E) Hn)
      as [v Hv].
    eapply ensures_receiver_bind; [exact Hv|].
    apply ensures_ret. discriminate.
  - apply ensures_ret. reflexivity.
Qed.

Lemma field_chain_returns html r1 r2 d :
  all_defined r1 = true -> (0 < ngroups r1)%nat ->
  all_defined r2 = true -> (0 < ngroups r2)%nat ->
  ensures (MangaPill.field (MangaPill.nullish (MangaPill.extractFirst html r1)
                                    (MangaPill.extractFirst html r2)) d)
          (fun _ => True).
Proof.
  intros Hd1 Hn1 Hd2 Hn2.
  destruct (MangaPill.extractFirst html r1) as [caps|] eqn:E1; simpl.
  - destruct (defined_nth _ _ 0 (extractFirst_defined _ _ _ Hd1 E1) Hn1)
      as [v Hv].
    eapply ensures_receiver_bind; [exact Hv|]. now apply ensures_ret.
  - destruct (MangaPill.extractFirst html r2) as [caps|] eqn:E2; simpl.
    + destruct (defined_nth _ _ 0 (extractFirst_defined _ _ _ Hd2 E2) Hn2)
        as [v Hv].
      eapply ensures_receiver_bind; [exact Hv|]. now apply ensures_ret.
    + now apply ensures_ret.
Qed.

Lemma genre_items_return l :
  Forall (fun mt => defined (groups mt) 1) l ->
  ensures (for_of l MangaPill.genre_item []) (fun _ => True).
Proof.
  intros Hl. apply ensures_for_of; auto.
  intros acc mt Hin _. rewrite Forall_forall in Hl.
  destruct (defined_nth _ _ 0 (Hl mt Hin)) as [v Hv]; [lia|].
  unfold MangaPill.genre_item. eapply ensures_receiver_bind; [exact Hv|].
  now apply ensures_ret.
Qed.

(** The page of a manga always yields a record, whose chapters are
    those of the listing in reverse. *)
Lemma details_in_reading_order id html :
  ensures (MangaPill.details_of_page id html)
    (fun d => bd_id d = id
              /\ reading_order MangaPill.decodeEntities
                   (string_match MangaPill.chapterList_re html)
                   (fun inner => MangaPill.extractAll inner MangaPill.chapterRegex)
                   (bd_chapters d)).
Proof.
  unfold MangaPill.details_of_page.
  eapply ensures_bind; [apply field_returns; pat|]. intros title _.
  cbv zeta.
  eapply ensures_bind; [apply field_returns; pat|]. intros description _.
  eapply ensures_bind; [apply field_chain_returns; pat|].
  intros author _.
  eapply ensures_bind; [apply field_returns; pat|]. intros bookStatus _.
  eapply ensures_bind; [apply field_returns; pat|]. intros type _.
  eapply ensures_bind; [apply exec_loop_ensures; reflexivity|].
  intros gl Hgl.
  eapply ensures_bind; [apply genre_items_return; exact Hgl|].
  intros genres _.
  eapply ensures_bind
    with (Q := reading_order MangaPill.decodeEntities
                 (string_match MangaPill.chapterList_re html)
                 (fun inner => MangaPill.extractAll inner MangaPill.chapterRegex)).
  { unfold reading_order.
    destruct (string_match MangaPill.chapterList_re html) as [lm|];
      [|now apply ensures_ret].
    destruct (grp lm 1) as [[|c0 c]|]; try now apply ensures_ret.
    intros w.
    destruct (exec_loop_ensures MangaPill.chapterRegex (c0 :: c) eq_refl eq_refl w)
      as (ms & w1 & E & Hms).
    unfold run_loop in E. unfold MangaPill.extractAll.
    destruct (exec_loop _ (c0 :: c) MangaPill.chapterRegex 0 []) as [ms'|] eqn:El;
      [|discriminate].
    injection E as <- <-.
    exists (rev (map (chapter_of MangaPill.decodeEntities) ms')), w.
    split; [|eauto].
    unfold bind, run_loop.
    rewrite chapter_items_exact by exact Hms. reflexivity. }
  intros chapters Hch. apply ensures_ret. cbn. auto.
Qed.

Lemma getBookDetails_in_reading_order fetch id r html :
  fetch (MangaPillUrls.pageRequest id) = Ret r -> ok r = true ->
  text r = Ret html ->
  ends (MangaPill.getBookDetails fetch id) [MangaPillUrls.pageRequest id]
    (fun o => exists d,
       o = Ret d /\ bd_id d = id
       /\ reading_order MangaPill.decodeEntities
            (string_match MangaPill.chapterList_re html)
            (fun inner => MangaPill.extractAll inner MangaPill.chapterRegex)
            (bd_chapters d)).
Proof.
  intros Hr Hok Ht.
  eapply ends_weaken;
    [|unfold MangaPill.getBookDetails; cbv zeta; apply ends_wrapped;
      change (mkRequest (MangaPill.baseURL ++ id) (Some (js "GET")) None
                MangaPill.referer)
        with (MangaPillUrls.pageRequest id);
      eapply ends_fetch_bind; [exact Hr|]; rewrite Hok; cbn [negb];
      apply ends_quiet_bind with (Q := fun _ => True);
        [now apply ensures_ret|silence|intros _ _];
      eapply ends_text_bind; [exact Ht|];
      apply ends_of_ensures;
        [apply details_in_reading_order|silence]].
  cbv beta. intros o (o0 & (d & -> & H) & ->). exists d. auto.
Qed.

(** *** MangaPill, first revision (src/unnamed/part_002) *)

Lemma chapter_items_exact_v1 ms :
  Forall (fun mt => defined (groups mt) 2) ms ->
  forall acc w,
    for_of ms MangaPillV1.chapter_item acc w
    = (Ret (acc ++ map (chapter_of MangaPillV1.decodeEntities) ms), w).
Proof.
  induction ms as [|mt ms IH]; intros Hd acc w; cbn [for_of map].
  - now rewrite app_nil_r.
  - inversion Hd as [|? ? Hmt Hms]; subst.
    destruct (defined_nth _ _ 1 Hmt) as [v Hv]; [lia|].
    unfold bind at 1. unfold MangaPillV1.chapter_item at 1. cbv zeta.
    cbn [grp]. rewrite Hv. unfold bind, receiver, ret.
    rewrite (IH Hms). rewrite <- app_assoc. unfold chapter_of.
    cbn [grp]. rewrite Hv. reflexivity.
Qed.

Lemma extractFirst_defined_v1 html r caps :
  all_defined r = true ->
  MangaPillV1.extractFirst html r = Some caps -> defined caps (ngroups r).
Proof.
  unfold MangaPillV1.extractFirst, string_match. intros Hd H.
  destruct (search_from r html 0) as [mt|] eqn:E; [|discriminate].
  injection H as <-. eapply search_from_defined; eauto.
Qed.

Lemma field_returns_v1 html r d :
  all_defined r = true -> (0 < ngroups r)%nat ->
  ensures (MangaPillV1.field (MangaPillV1.extractFirst html r) d)
          (fun t => MangaPillV1.extractFirst html r = None -> t = d).
Proof.
  intros Hd Hn. destruct (MangaPillV1.extractFirst html r) as [caps|] eqn:E; simpl.
  - destruct (defined_nth _ _ 0 (extractFirst_defined_v1 _ _ _ Hd E) Hn)
      as [v Hv].
    eapply ensures_receiver_bind; [exact Hv|].
    apply ensures_ret. discriminate.
  - apply ensures_ret. reflexivity.
Qed.

Lemma field_chain_returns_v1 html r1 r2 d :
  all_defined r1 = true -> (0 < ngroups r1)%nat ->
  all_defined r2 = true -> (0 < ngroups r2)%nat ->
  ensures (MangaPillV1.field (MangaPillV1.nullish (MangaPillV1.extractFirst html r1)
                                    (MangaPillV1.extractFirst html r2)) d)
          (fun _ => True).
Proof.
  intros Hd1 Hn1 Hd2 Hn2.
  destruct (MangaPillV1.extractFirst html r1) as [caps|] eqn:E1; simpl.
  - destruct (defined_nth _ _ 0 (extractFirst_defined_v1 _ _ _ Hd1 E1) Hn1)
      as [v Hv].
    eapply ensures_receiver_bind; [exact Hv|]. now apply ensures_ret.
  - destruct (MangaPillV1.extractFirst html r2) as [caps|] eqn:E2; simpl.
    + destruct (defined_nth _ _ 0 (extractFirst_defined_v1 _ _ _ Hd2 E2) Hn2)
        as [v Hv].
      eapply ensures_receiver_bind; [exact Hv|]. now apply ensures_ret.
    + now apply ensures_ret.
Qed.

Lemma genre_items_return_v1 l :
  Forall (fun mt => defined (groups mt) 1) l ->
  ensures (for_of l MangaPillV1.genre_item []) (fun _ => True).
Proof.
  intros Hl. apply ensures_for_of; auto.
  intros acc mt Hin _. rewrite Forall_forall in Hl.
  destruct (defined_nth _ _ 0 (Hl mt Hin)) as [v Hv]; [lia|].
  unfold MangaPillV1.genre_item. eapply ensures_receiver_bind; [exact Hv|].
  now apply ensures_ret.
Qed.

(** The page of a manga always yields a record, whose chapters are
    those of the listing in reverse. *)
Lemma details_in_reading_order_v1 id html :
  ensures (MangaPillV1.details_of_page id html)
    (fun d => bd_id d = id
              /\ reading_order MangaPillV1.decodeEntities
                   (string_match MangaPillV1.chapterList_re html)
                   (fun inner => MangaPillV1.extractAll inner MangaPillV1.chapterRegex)
                   (bd_chapters d)).
Proof.
  unfold MangaPillV1.details_of_page.
  eapply ensures_bind; [apply field_returns_v1; pat|]. intros title _.
  cbv zeta.
  eapply ensures_bind; [apply field_returns_v1; pat|]. intros description _.
  eapply ensures_bind; [apply field_chain_returns_v1; pat|].
  intros author _.
  eapply ensures_bind; [apply field_returns_v1; pat|]. intros bookStatus _.
  eapply ensures_bind; [apply field_returns_v1; pat|]. intros type _.
  eapply ensures_bind; [apply exec_loop_ensures; reflexivity|].
  intros gl Hgl.
  eapply ensures_bind; [apply genre_items_return_v1; exact Hgl|].
  intros genres _.
  eapply ensures_bind
    with (Q := reading_order MangaPillV1.decodeEntities
                 (string_match MangaPillV1.chapterList_re html)
                 (fun inner => MangaPillV1.extractAll inner MangaPillV1.chapterRegex)).
  { unfold reading_order.
    destruct (string_match MangaPillV1.chapterList_re html) as [lm|];
      [|now apply ensures_ret].
    destruct (grp lm 1) as [[|c0 c]|]; try now apply ensures_ret.
    intros w.
    destruct (exec_loop_ensures MangaPillV1.chapterRegex (c0 :: c) eq_refl eq_refl w)
      as (ms & w1 & E & Hms).
    unfold run_loop in E. unfold MangaPillV1.extractAll.
    destruct (exec_loop _ (c0 :: c) MangaPillV1.chapterRegex 0 []) as [ms'|] eqn:El;
      [|discriminate].
    injection E as <- <-.
    exists (rev (map (chapter_of MangaPillV1.decodeEntities) ms')), w.
    split; [|eauto].
    unfold bind, run_loop.
    rewrite chapter_items_exact_v1 by exact Hms. reflexivity. }
  intros chapters Hch. apply ensures_ret. cbn. auto.
Qed.

Lemma getBookDetails_in_reading_order_v1 fetch id r html :
  fetch (MangaPillUrls.pageRequest id) = Ret r -> ok r = true ->
  text r = Ret html ->
  ends (MangaPillV1.getBookDetails fetch id) [MangaPillUrls.pageRequest id]
    (fun o => exists d,
       o = Ret d /\ bd_id d = id
       /\ reading_order MangaPillV1.decodeEntities
            (string_match MangaPillV1.chapterList_re html)
            (fun inner => MangaPillV1.extractAll inner MangaPillV1.chapterRegex)
            (bd_chapters d)).
Proof.
  intros Hr Hok Ht.
  eapply ends_weaken;
    [|unfold MangaPillV1.getBookDetails; cbv zeta; apply ends_wrapped;
      change (mkRequest (MangaPillV1.baseURL ++ id) (Some (js "GET")) None
                MangaPillV1.referer)
        with (MangaPillUrls.pageRequest id);
      eapply ends_fetch_bind; [exact Hr|]; rewrite Hok; cbn [negb];
      apply ends_quiet_bind with (Q := fun _ => True);
        [now apply ensures_ret|silence|intros _ _];
      eapply ends_text_bind; [exact Ht|];
      apply ends_of_ensures;
        [apply details_in_reading_order_v1|silence]].
  cbv beta. intros o (o0 & (d & -> & H) & ->). exists d. auto.
Qed.

(** *** ReadNovelFull on readwn.com (src/unnamed/part_000) *)

Lemma kept_chapters_exact ms :
  Forall (fun mt => defined (groups mt) 2) ms ->
  forall acc w,
    for_of ms ReadWN.chapter_item acc w
    = (Ret (acc ++ flat_map kept_chapter ms), w).
Proof.
  induction ms as [|mt ms IH]; intros Hd acc w; cbn [for_of flat_map].
  - now rewrite app_nil_r.
  - inversion Hd as [|? ? Hmt Hms]; subst.
    destruct (defined_nth _ _ 0 Hmt) as [p Hp]; [lia|].
    destruct (defined_nth _ _ 1 Hmt) as [v Hv]; [lia|].
    unfold bind at 1. unfold ReadWN.chapter_item at 1. cbv zeta.
    unfold kept_chapter at 1. cbn [grp]. rewrite Hp, Hv. cbn [text_of].
    unfold bind, receiver, ret. cbv zeta.
    destruct (nonempty (last_segment p []) && nonempty _);
      rewrite (IH Hms); [rewrite <- app_assoc|]; reflexivity.
Qed.

(** The page of a novel always yields a record, whose chapters are
    those of the listing in the order of the page. *)
Lemma details_in_page_order id html :
  ensures (ReadWN.details_of_page id html)
    (fun d => bd_id d = id
              /\ page_order (ReadWN.extractFirst html ReadWN.chapterList_re)
                            (bd_chapters d)).
Proof.
  unfold ReadWN.details_of_page.
  eapply ensures_bind; [apply ReadWNOrch.wn_field_ensures; pat|].
  intros title _.
  eapply ensures_bind; [apply ReadWNOrch.wn_field_ensures; pat|].
  intros author _.
  eapply ensures_bind with (Q := fun _ => True).
  { destruct (ReadWN.extractFirst html ReadWN.cover_re) as [caps|] eqn:E.
    - destruct (defined_nth _ _ 0
                  (ReadWNOrch.wn_extractFirst_defined html ReadWN.cover_re _
                     eq_refl E)) as [v Hv]; [pat|].
      eapply ensures_receiver_bind; [exact Hv|]. now apply ensures_ret.
    - now apply ensures_ret. }
  intros coverUrl _. cbv zeta.
  eapply ensures_bind with (Q := fun _ => True).
  { destruct (ReadWN.extractFirst html ReadWN.genreList_re) as [caps|] eqn:E.
    - eapply ensures_bind;
        [apply ReadWNOrch.extractAll_of_ensures; reflexivity|].
      intros l Hl. now apply ReadWNOrch.wn_genre_items_ensures.
    - now apply ensures_ret. }
  intros genres _.
  eapply ensures_bind; [apply ReadWNOrch.wn_field_ensures; pat|].
  intros bookStatus _.
  eapply ensures_bind
    with (Q := page_order (ReadWN.extractFirst html ReadWN.chapterList_re)).
  { unfold page_order.
    destruct (ReadWN.extractFirst html ReadWN.chapterList_re) as [caps|].
    - intros w.
      destruct (ReadWNOrch.extractAll_of_ensures (nth 0 caps None)
                  ReadWN.chapterRegex eq_refl eq_refl w)
        as (ms & w1 & E & Hms).
      unfold run_loop in E.
      destruct (ReadWN.extractAll_of (nth 0 caps None) ReadWN.chapterRegex)
        as [ms'|] eqn:El; [|discriminate].
      injection E as <- <-.
      eexists (flat_map kept_chapter ms'), _. split; [|eauto].
      unfold bind, run_loop.
      rewrite kept_chapters_exact by exact Hms. reflexivity.
    - apply ensures_write_bind. now apply ensures_ret. }
  intros chapters Hch. apply ensures_ret. cbn. auto.
Qed.

(** X11.  Any page that can be read yields a record: when the response
    to the one request of [getBookDetails] is ok, the operation
    returns, whatever the page holds, a record with the identifier it
    was given.  The chapters of a MangaPill book are those of the
    listing of the page last first, in both revisions; those of a
    readwn book are in the order of the page, the entries without an
    identifier or a title left out. *)
Theorem X11_any_page_yields_details_and_chapter_order :
  forall fetch id r html w,
    ok r = true -> text r = Ret html ->
    (fetch (MangaPillUrls.pageRequest id) = Ret r ->
     (exists d,
         fst (MangaPill.getBookDetails fetch id w) = Ret d /\ bd_id d = id
         /\ reading_order MangaPill.decodeEntities
              (string_match MangaPill.chapterList_re html)
              (fun inner => MangaPill.extractAll inner MangaPill.chapterRegex)
              (bd_chapters d))
     /\ requests (snd (MangaPill.getBookDetails fetch id w))
        = requests w ++ [MangaPillUrls.pageRequest id])
    /\ (fetch (MangaPillUrls.pageRequest id) = Ret r ->
        (exists d,
            fst (MangaPillV1.getBookDetails fetch id w) = Ret d
            /\ bd_id d = id
            /\ reading_order MangaPillV1.decodeEntities
                 (string_match MangaPillV1.chapterList_re html)
                 (fun inner =>
                    MangaPillV1.extractAll inner MangaPillV1.chapterRegex)
                 (bd_chapters d))
        /\ requests (snd (MangaPillV1.getBookDetails fetch id w))
           = requests w ++ [MangaPillUrls.pageRequest id])
    /\ (fetch (GET (ReadWNUrls.bookUrl id)) = Ret r ->
        (exists d,
            fst (ReadWN.getBookDetails fetch id w) = Ret d /\ bd_id d = id
            /\ page_order (ReadWN.extractFirst html ReadWN.chapterList_re)
                          (bd_chapters d))
        /\ requests (snd (ReadWN.getBookDetails fetch id w))
           = requests w ++ [GET (ReadWNUrls.bookUrl id)]).
Proof.
  intros fetch id r html w Hok Ht. split; [|split].
  - intros Hr.
    destruct (getBookDetails_in_reading_order fetch id r html Hr Hok Ht w)
      as [Hreq H].
    split; [exact H|exact Hreq].
  - intros Hr.
    destruct (getBookDetails_in_reading_order_v1 fetch id r html Hr Hok Ht w)
      as [Hreq H].
    split; [exact H|exact Hreq].
  - intros Hr.
    assert (H : ends (ReadWN.getBookDetails fetch id)
                  [GET (ReadWNUrls.bookUrl id)]
                  (fun o => exists o0,
                     (exists d, o0 = Ret d
                        /\ bd_id d = id
                        /\ page_order
                             (ReadWN.extractFirst html ReadWN.chapterList_re)
                             (bd_chapters d))
                     /\ o = wrapped (details_failure id) o0)).
    { unfold ReadWN.getBookDetails. cbv zeta. apply ends_wrapped.
      fold (ReadWNUrls.bookUrl id).
      eapply ends_fetch_bind; [exact Hr|]. rewrite Hok. cbn [negb].
      apply ends_quiet_bind with (Q := fun _ => True);
        [now apply ensures_ret|silence|intros _ _].
      eapply ends_text_bind; [exact Ht|].
      apply ends_of_ensures; [apply details_in_page_order|silence]. }
    destruct (H w) as [Hreq (o0 & (d & -> & Hd) & Ho)].
    split; [|exact Hreq]. exists d. auto.
Qed.

Lemma X11_any_page_yields_details_and_chapter_order_witness :
  serving manga_page (MangaPillUrls.pageRequest (js "/manga/1/one-piece"))
  = Ret (mkResponse true 200 (js "OK")
           (js "https://mangapill.com/manga/1/one-piece") (Ret manga_page))
  /\ exists d,
       fst (MangaPill.getBookDetails (serving manga_page)
              (js "/manga/1/one-piece") start) = Ret d
       /\ bd_id d = js "/manga/1/one-piece".
Proof.
  assert (Hr : serving manga_page
                 (MangaPillUrls.pageRequest (js "/manga/1/one-piece"))
               = Ret (mkResponse true 200 (js "OK")
                        (js "https://mangapill.com/manga/1/one-piece")
                        (Ret manga_page))) by reflexivity.
  split; [exact Hr|].
  destruct (X11_any_page_yields_details_and_chapter_order
              (serving manga_page) (js "/manga/1/one-piece")
              (mkResponse true 200 (js "OK")
                 (js "https://mangapill.com/manga/1/one-piece")
                 (Ret manga_page))
              manga_page start eq_refl eq_refl) as [H _].
  destruct (H Hr) as [(d & E & Hid & _) _].
  exists d. split; [exact E|exact Hid].
Defined.

(** ** What the operations return *)

Lemma pages_sound id html :
  sound (MangaPill.pages_of_page id html)
        (fun pages => pages <> [] /\ Forall page_url pages).
Proof.
  unfold MangaPill.pages_of_page.
  apply sound_bind_any; intros ms. apply sound_bind_any; intros _.
  eapply sound_bind with (Q := Forall page_url).
  { apply sound_for_of; [|constructor]. intros acc mt Hacc.
    unfold MangaPill.page_item.
    destruct (grp mt 1) as [[|u0 u]|]; try now apply sound_ret.
    destruct (includes (js "mangapill") (u0 :: u)) eqn:Ei;
      [|now apply sound_ret].
    apply sound_ret. apply Forall_app. split; [exact Hacc|].
    repeat constructor; [discriminate|exact Ei]. }
  intros pages Hp.
  eapply sound_bind with (Q := Forall page_url).
  { destruct (length pages =? 0)%nat; [|now apply sound_ret].
    apply sound_bind_any; intros _. apply sound_bind_any; intros fs.
    apply sound_bind_any; intros _.
    apply sound_for_of; [|exact Hp]. intros acc mt Hacc.
    unfold MangaPill.fallback_page_item.
    destruct (grp mt 1) as [[|u0 u]|]; try now apply sound_ret.
    destruct (includes (js "mangapill") (u0 :: u)) eqn:Ei;
      [|now apply sound_ret].
    cbn [andb]. destruct (regex_test MangaPill.chapters_path_re (u0 :: u)); [|now apply sound_ret].
    apply sound_ret. apply Forall_app. split; [exact Hacc|].
    repeat constructor; [discriminate|exact Ei]. }
  intros pages' Hp'.
  destruct pages' as [|p ps]; cbn [length Nat.eqb].
  - apply sound_bind_any; intros _. apply sound_throw.
  - apply sound_bind_any; intros _. apply sound_ret.
    split; [discriminate|exact Hp'].
Qed.

Lemma getContent_sound fetch id :
  sound (MangaPill.getContent fetch id)
        (fun pages => pages <> [] /\ Forall page_url pages).
Proof.
  unfold MangaPill.getContent. apply sound_bind_any; intros _.
  apply sound_try.
  - apply sound_bind_any; intros r. apply sound_bind_any; intros _.
    apply sound_bind_any; intros html. apply pages_sound.
  - intros e. apply sound_bind_any; intros _. apply sound_throw.
Qed.

Lemma pages_sound_v1 id html :
  sound (MangaPillV1.pages_of_page id html)
        (fun pages => pages <> [] /\ Forall page_url pages).
Proof.
  unfold MangaPillV1.pages_of_page.
  apply sound_bind_any; intros ms. apply sound_bind_any; intros _.
  eapply sound_bind with (Q := Forall page_url).
  { apply sound_for_of; [|constructor]. intros acc mt Hacc.
    unfold MangaPillV1.page_item.
    destruct (grp mt 1) as [[|u0 u]|]; try now apply sound_ret.
    destruct (includes (js "mangapill") (u0 :: u)) eqn:Ei;
      [|now apply sound_ret].
    apply sound_ret. apply Forall_app. split; [exact Hacc|].
    repeat constructor; [discriminate|exact Ei]. }
  intros pages Hp.
  eapply sound_bind with (Q := Forall page_url).
  { destruct (length pages =? 0)%nat; [|now apply sound_ret].
    apply sound_bind_any; intros _. apply sound_bind_any; intros fs.
    apply sound_bind_any; intros _.
    apply sound_for_of; [|exact Hp]. intros acc mt Hacc.
    unfold MangaPillV1.fallback_page_item.
    destruct (grp mt 1) as [[|u0 u]|]; try now apply sound_ret.
    destruct (includes (js "mangapill") (u0 :: u)) eqn:Ei;
      [|now apply sound_ret].
    cbn [andb]. destruct (includes (js "/chapters/") (u0 :: u)); [|now apply sound_ret].
    apply sound_ret. apply Forall_app. split; [exact Hacc|].
    repeat constructor; [discriminate|exact Ei]. }
  intros pages' Hp'.
  destruct pages' as [|p ps]; cbn [length Nat.eqb].
  - apply sound_bind_any; intros _. apply sound_throw.
  - apply sound_bind_any; intros _. apply sound_ret.
    split; [discriminate|exact Hp'].
Qed.

Lemma getContent_sound_v1 fetch id :
  sound (MangaPillV1.getContent fetch id)
        (fun pages => pages <> [] /\ Forall page_url pages).
Proof.
  unfold MangaPillV1.getContent. apply sound_bind_any; intros _.
  apply sound_try.
  - apply sound_bind_any; intros r. apply sound_bind_any; intros _.
    apply sound_bind_any; intros html. apply pages_sound_v1.
  - intros e. apply sound_bind_any; intros _. apply sound_throw.
Qed.

(** X12.  [getContent] of MangaPill never returns an empty chapter:
    the list of pages it returns is not empty, and every page is a
    non-empty string that contains [mangapill], in both revisions. *)
Theorem X12_pages_are_never_empty :
  forall fetch id w pages w',
    (MangaPill.getContent fetch id w = (Ret pages, w') ->
     pages <> [] /\ Forall page_url pages)
    /\ (MangaPillV1.getContent fetch id w = (Ret pages, w') ->
        pages <> [] /\ Forall page_url pages).
Proof.
  intros fetch id w pages w'. split; intros H.
  - eapply (getContent_sound fetch id); exact H.
  - eapply (getContent_sound_v1 fetch id); exact H.
Qed.

Lemma X12_pages_are_never_empty_witness :
  exists pages w',
    MangaPill.getContent (serving images_page) (js "/chapters/1-1/x") start
    = (Ret pages, w')
    /\ pages <> [] /\ Forall page_url pages.
Proof.
  destruct (MangaPill.getContent (serving images_page)
              (js "/chapters/1-1/x") start) as [o w'] eqn:E.
  destruct o as [pages| |]; try (vm_compute in E; discriminate).
  exists pages, w'. split; [reflexivity|].
  destruct (X12_pages_are_never_empty (serving images_page)
              (js "/chapters/1-1/x") start pages w') as [H _].
  exact (H E).
Defined.

(** ** The shape of search results *)

Lemma last_segment_cons c s acc :
  last_segment (c :: s) acc
  = if c =? 47 then last_segment s [] else last_segment s (c :: acc).
Proof. reflexivity. Qed.

Lemma last_segment_spec : forall s acc,
  ~ In 47 acc ->
  last_segment_of (last_segment s acc) (rev acc ++ s).
Proof.
  induction s as [|c s IH]; intros acc Hacc;
    [change (last_segment [] acc) with (rev acc)|rewrite last_segment_cons].
  - split; [now rewrite <- in_rev|]. exists []. rewrite app_nil_r. auto.
  - destruct (c =? 47) eqn:Ec.
    + apply Z.eqb_eq in Ec. subst c.
      destruct (IH [] (fun H => H)) as (Hno & pre & Hs & Hpre).
      split; [exact Hno|]. cbn [rev app] in Hs.
      exists (rev acc ++ 47 :: pre). split.
      * rewrite <- app_assoc. cbn [app]. now rewrite <- Hs.
      * right. destruct Hpre as [->|(pre' & ->)].
        -- exists (rev acc). reflexivity.
        -- exists (rev acc ++ 47 :: pre'). now rewrite <- app_assoc.
    + apply Z.eqb_neq in Ec.
      destruct (IH (c :: acc)) as (Hno & pre & Hs & Hpre).
      { intros [->|H]; [congruence|auto]. }
      split; [exact Hno|]. exists pre. split; [|exact Hpre].
      rewrite <- Hs. cbn [rev]. now rewrite <- app_assoc.
Qed.

Lemma or_else_nonempty a b : nonempty b = true -> nonempty (or_else a b) = true.
Proof. destruct a; [auto|reflexivity]. Qed.

Lemma v2_search_filled fetch query :
  sound (ReadNovelFullV2.search fetch query) (Forall filled).
Proof.
  unfold ReadNovelFullV2.search.
  destruct (encodeURIComponent query); [|apply sound_throw].
  apply sound_bind_any; intros _. apply sound_try.
  - apply sound_bind_any; intros r. destruct (negb (ok r)).
    + apply sound_bind_any; intros _. apply sound_ret. constructor.
    + apply sound_bind_any; intros html. apply sound_bind_any; intros l.
      apply sound_bind_any; intros _.
      eapply sound_bind with (Q := Forall filled).
      * apply sound_for_of; [|constructor]. intros acc mt Hacc.
        unfold ReadNovelFullV2.search_item. cbv zeta.
        apply sound_bind_any; intros cover.
        apply sound_bind_any; intros t. apply sound_bind_any; intros a.
        destruct (grp mt 1) as [[|i0 i]|]; try now apply sound_ret.
        destruct (nonempty (ReadNovelFullV2.decodeEntities (trim t))) eqn:Et;
          [|now apply sound_ret].
        apply sound_ret. apply Forall_app. split; [exact Hacc|].
        repeat constructor; cbn [sr_id sr_title sr_author sr_description
                                 sr_coverUrl nonempty]; auto.
        -- now apply or_else_nonempty.
        -- now apply or_else_nonempty.
        -- eexists. split; [reflexivity|].
           destruct (startsWith (js "http") cover) eqn:Ec.
           ++ destruct cover; [discriminate|exact Ec].
           ++ reflexivity.
      * intros rs Hrs. apply sound_bind_any; intros _. now apply sound_ret.
  - intros e. apply sound_bind_any; intros _. apply sound_ret. constructor.
Qed.

Lemma readwn_search_slugged fetch query :
  sound (ReadWN.search fetch query) (Forall slugged).
Proof.
  unfold ReadWN.search.
  destruct (encodeURIComponent _); [|apply sound_throw].
  apply sound_bind_any; intros _. apply sound_try.
  - apply sound_bind_any; intros r. destruct (negb (ok r)).
    + apply sound_bind_any; intros _. apply sound_ret. constructor.
    + apply sound_bind_any; intros html. apply sound_bind_any; intros l.
      apply sound_bind_any; intros _.
      eapply sound_bind with (Q := Forall slugged).
      * apply sound_for_of; [|constructor]. intros acc mt Hacc.
        unfold ReadWN.search_item. cbv zeta.
        apply sound_bind_any; intros path.
        apply sound_bind_any; intros cover.
        apply sound_bind_any; intros t.
        destruct (nonempty (last_segment path [])) eqn:Ei;
          [|now apply sound_ret].
        destruct (nonempty (ReadWN.decodeEntities (trim t))) eqn:Et;
          [|now apply sound_ret].
        apply sound_ret. apply Forall_app. split; [exact Hacc|].
        repeat constructor; cbn [sr_id sr_title sr_author sr_path]; auto.
        exists path. split; [reflexivity|].
        apply (last_segment_spec path []). intros [].
      * intros rs Hrs. apply sound_bind_any; intros _. now apply sound_ret.
  - intros e. apply sound_bind_any; intros _. apply sound_ret. constructor.
Qed.

Lemma search_bare fetch query :
  sound (MangaPill.search fetch query) (Forall bare).
Proof.
  unfold MangaPill.search.
  destruct (encodeURIComponent _); [|apply sound_throw].
  apply sound_bind_any; intros _. apply sound_try.
  - apply sound_bind_any; intros r. destruct (negb (ok r)).
    + apply sound_bind_any; intros _. apply sound_ret. constructor.
    + apply sound_bind_any; intros html. apply sound_bind_any; intros l.
      apply sound_bind_any; intros _.
      eapply sound_bind with (Q := Forall bare).
      * apply sound_for_of; [|constructor]. intros acc mt Hacc.
        unfold MangaPill.search_item.
        destruct (grp mt 1) as [[|i0 i]|]; try now apply sound_ret.
        destruct (startsWith (js "/manga/") (i0 :: i)) eqn:Es;
          [|now apply sound_ret].
        cbv zeta. apply sound_bind_any; intros t. apply sound_ret.
        apply Forall_app. split; [exact Hacc|].
        repeat constructor. exact Es.
      * intros rs Hrs. apply sound_bind_any; intros _. now apply sound_ret.
  - intros e. apply sound_bind_any; intros _. apply sound_ret. constructor.
Qed.

Lemma search_bare_v1 fetch query :
  sound (MangaPillV1.search fetch query) (Forall bare).
Proof.
  unfold MangaPillV1.search.
  destruct (encodeURIComponent _); [|apply sound_throw].
  apply sound_bind_any; intros _. apply sound_try.
  - apply sound_bind_any; intros r. destruct (negb (ok r)).
    + apply sound_bind_any; intros _. apply sound_ret. constructor.
    + apply sound_bind_any; intros html. apply sound_bind_any; intros l.
      apply sound_bind_any; intros _.
      eapply sound_bind with (Q := Forall bare).
      * apply sound_for_of; [|constructor]. intros acc mt Hacc.
        unfold MangaPillV1.search_item.
        destruct (grp mt 1) as [[|i0 i]|]; try now apply sound_ret.
        destruct (startsWith (js "/manga/") (i0 :: i)) eqn:Es;
          [|now apply sound_ret].
        cbv zeta. apply sound_bind_any; intros t. apply sound_ret.
        apply Forall_app. split; [exact Hacc|].
        repeat constructor. exact Es.
      * intros rs Hrs. apply sound_bind_any; intros _. now apply sound_ret.
  - intros e. apply sound_bind_any; intros _. apply sound_ret. constructor.
Qed.

(** X13.  The shape of what [search] returns.  A result of
    ReadFullNovelV2.js has every field filled, by the page or by the
    default; a result of the readwn module has a title, no author, and
    for identifier the last segment of the path it matched, without a
    slash; a result of MangaPill has a path under [/manga/] for
    identifier, no author and no description. *)
Theorem X13_shape_of_search_results :
  forall fetch query w rs w',
    (ReadNovelFullV2.search fetch query w = (Ret rs, w') -> Forall filled rs)
    /\ (ReadWN.search fetch query w = (Ret rs, w') -> Forall slugged rs)
    /\ (MangaPill.search fetch query w = (Ret rs, w') -> Forall bare rs)
    /\ (MangaPillV1.search fetch query w = (Ret rs, w') -> Forall bare rs).
Proof.
  intros fetch query w rs w'. repeat split; intros H.
  - eapply (v2_search_filled fetch query); exact H.
  - eapply (readwn_search_slugged fetch query); exact H.
  - eapply (search_bare fetch query); exact H.
  - eapply (search_bare_v1 fetch query); exact H.
Qed.

Lemma X13_shape_of_search_results_witness :
  ReadNovelFullV2.search (serving novel_results) (js "martial") start
  = (Ret [novel_hit], novel_world)
  /\ Forall filled [novel_hit].
Proof.
  assert (Hs : ReadNovelFullV2.search (serving novel_results) (js "martial")
                 start = (Ret [novel_hit], novel_world))
    by (vm_compute; reflexivity).
  split; [exact Hs|].
  destruct (X13_shape_of_search_results (serving novel_results)
              (js "martial") start [novel_hit] novel_world) as [H _].
  exact (H Hs).
Defined.

(** ** Chapter content that is missing or empty *)

Lemma v2_content_missing id html :
  first_capture (ReadNovelFullV2.extractFirst html ReadNovelFullV2.content_re)
  = None ->
  ends (ReadNovelFullV2.content_of_page id html) []
       (fun o => o = Throw container_missing).
Proof.
  intros Hn. unfold ReadNovelFullV2.content_of_page. cbv zeta.
  destruct (ReadNovelFullV2.extractFirst html ReadNovelFullV2.content_re)
    as [[|[[|c0 c]|] caps]|]; cbn in Hn; try discriminate;
    apply ends_write_bind; now apply ends_throw.
Qed.

Lemma v2_content_empty id html c :
  first_capture (ReadNovelFullV2.extractFirst html ReadNovelFullV2.content_re)
  = Some c ->
  ReadNovelFullV2.cleanHtmlText c = [] ->
  ends (ReadNovelFullV2.content_of_page id html) []
       (fun o => o = Throw content_empty).
Proof.
  intros Hc He. unfold ReadNovelFullV2.content_of_page.
  apply ReadWNOrch.first_capture_some in Hc as (c0 & c' & caps & -> & ->).
  cbv zeta. rewrite He. cbn [nonempty negb].
  apply ends_write_bind. now apply ends_throw.
Qed.

Lemma v2_getContent_ends fetch id r html e :
  fetch (GET (V2Urls.bookUrl id)) = Ret r -> ok r = true ->
  text r = Ret html ->
  ends (ReadNovelFullV2.content_of_page id html) [] (fun o => o = Throw e) ->
  forall w,
    fst (ReadNovelFullV2.getContent fetch id w)
    = Throw (content_failure id e)
    /\ requests (snd (ReadNovelFullV2.getContent fetch id w))
       = requests w ++ [GET (V2Urls.bookUrl id)].
Proof.
  intros Hr Hok Ht Hc w.
  assert (H : ends (ReadNovelFullV2.getContent fetch id)
                [GET (V2Urls.bookUrl id)]
                (fun o => exists o0,
                   o0 = Throw e /\ o = wrapped (content_failure id) o0)).
  { unfold ReadNovelFullV2.getContent. cbv zeta. apply ends_wrapped.
    fold (V2Urls.bookUrl id).
    eapply ends_fetch_bind; [exact Hr|]. rewrite Hok. cbn [negb].
    apply ends_quiet_bind with (Q := fun r' => r' = r);
      [now apply ensures_ret|silence|intros ? ->].
    eapply ends_text_bind; [exact Ht|]. exact Hc. }
  destruct (H w) as [Hreq (o0 & -> & ->)]. split; [reflexivity|exact Hreq].
Qed.

Lemma readwn_content_missing url html :
  first_capture (ReadWN.extractFirst html ReadWN.content_re) = None ->
  first_capture (ReadWN.extractFirst html ReadWN.content_fallback_re) = None ->
  ends (ReadWN.content_of_page url html) []
       (fun o => o = Throw containers_missing).
Proof.
  intros H1 H2. unfold ReadWN.content_of_page. cbv zeta.
  eapply ends_bind_last with (Pc := fun o => o = Throw containers_missing).
  - destruct (ReadWN.extractFirst html ReadWN.content_re)
      as [[|[[|c0 c]|] caps]|]; cbn in H1; try discriminate;
      apply ends_write_bind;
      destruct (ReadWN.extractFirst html ReadWN.content_fallback_re)
        as [[|[[|d0 d]|] caps']|]; cbn in H2; try discriminate;
      now apply ends_throw.
  - discriminate.
  - auto.
  - discriminate.
Qed.

Lemma readwn_content_empty url html c :
  first_capture (ReadWN.extractFirst html ReadWN.content_re) = Some c ->
  ReadWN.cleanHtmlText c = [] ->
  ends (ReadWN.content_of_page url html) []
       (fun o => o = Throw content_empty).
Proof.
  intros Hc He. unfold ReadWN.content_of_page. cbv zeta.
  apply ReadWNOrch.first_capture_some in Hc as (c0 & c' & caps & -> & ->).
  eapply ends_bind_last with (Pc := fun o => o = Ret (c0 :: c')).
  - now apply ends_ret.
  - intros a Ha. injection Ha as ->. rewrite He. cbn [nonempty negb].
    apply ends_write_bind. now apply ends_throw.
  - discriminate.
  - discriminate.
Qed.

Lemma readwn_getContent_ends fetch id b r html e :
  bd_id b <> [] ->
  fetch (GET (ReadWNUrls.chapterUrl (bd_id b) id)) = Ret r -> ok r = true ->
  text r = Ret html ->
  ends (ReadWN.content_of_page (ReadWNUrls.chapterUrl (bd_id b) id) html) []
       (fun o => o = Throw e) ->
  forall w,
    fst (ReadWN.getContent fetch id (Some b) w)
    = Throw (chapter_failure id e)
    /\ requests (snd (ReadWN.getContent fetch id (Some b) w))
       = requests w ++ [GET (ReadWNUrls.chapterUrl (bd_id b) id)].
Proof.
  intros Hb Hr Hok Ht Hc w.
  assert (En : nonempty (bd_id b) = true)
    by (destruct (bd_id b); [congruence|reflexivity]).
  assert (H : ends (ReadWN.getContent fetch id (Some b))
                [GET (ReadWNUrls.chapterUrl (bd_id b) id)]
                (fun o => exists o0,
                   o0 = Throw e /\ o = wrapped (chapter_failure id) o0)).
  { unfold ReadWN.getContent. rewrite En. cbn [negb]. cbv zeta.
    apply ends_wrapped. fold (ReadWNUrls.chapterUrl (bd_id b) id).
    eapply ends_fetch_bind; [exact Hr|]. rewrite Hok. cbn [negb].
    apply ends_quiet_bind with (Q := fun _ => True);
      [now apply ensures_ret|silence|intros _ _].
    eapply ends_text_bind; [exact Ht|]. exact Hc. }
  destruct (H w) as [Hreq (o0 & -> & ->)]. split; [reflexivity|exact Hreq].
Qed.

(** X14.  Chapter content is mandatory.  When no container captures a
    non-empty text, [getContent] raises the wrapped error that says so;
    when the first container that does so cleans to the empty string,
    it raises the wrapped error that says the content is empty, and
    the readwn module does not turn to its second container then. *)
Theorem X14_missing_or_empty_content_is_raised :
  forall fetch id r html w,
    ok r = true -> text r = Ret html ->
    (fetch (GET (V2Urls.bookUrl id)) = Ret r ->
     (first_capture
        (ReadNovelFullV2.extractFirst html ReadNovelFullV2.content_re) = None ->
      fst (ReadNovelFullV2.getContent fetch id w)
      = Throw (content_failure id container_missing))
     /\ (forall c,
           first_capture
             (ReadNovelFullV2.extractFirst html ReadNovelFullV2.content_re)
           = Some c ->
           ReadNovelFullV2.cleanHtmlText c = [] ->
           fst (ReadNovelFullV2.getContent fetch id w)
           = Throw (content_failure id content_empty)))
    /\ (forall b,
          bd_id b <> [] ->
          fetch (GET (ReadWNUrls.chapterUrl (bd_id b) id)) = Ret r ->
          (first_capture (ReadWN.extractFirst html ReadWN.content_re) = None ->
           first_capture (ReadWN.extractFirst html ReadWN.content_fallback_re)
           = None ->
           fst (ReadWN.getContent fetch id (Some b) w)
           = Throw (chapter_failure id containers_missing))
          /\ (forall c,
                first_capture (ReadWN.extractFirst html ReadWN.content_re)
                = Some c ->
                ReadWN.cleanHtmlText c = [] ->
                fst (ReadWN.getContent fetch id (Some b) w)
                = Throw (chapter_failure id content_empty))).
Proof.
  intros fetch id r html w Hok Ht. split.
  - intros Hr. split.
    + intros Hn.
      apply (v2_getContent_ends fetch id r html _ Hr Hok Ht
               (v2_content_missing id html Hn) w).
    + intros c Hc He.
      apply (v2_getContent_ends fetch id r html _ Hr Hok Ht
               (v2_content_empty id html c Hc He) w).
  - intros b Hb Hr. split.
    + intros H1 H2.
      apply (readwn_getContent_ends fetch id b r html _ Hb Hr Hok Ht
               (readwn_content_missing _ html H1 H2) w).
    + intros c Hc He.
      apply (readwn_getContent_ends fetch id b r html _ Hb Hr Hok Ht
               (readwn_content_empty _ html c Hc He) w).
Qed.

Lemma X14_missing_or_empty_content_is_raised_witness :
  first_capture
    (ReadNovelFullV2.extractFirst empty_chapter_page
       ReadNovelFullV2.content_re) = Some (js "<p> </p><br>")
  /\ ReadNovelFullV2.cleanHtmlText (js "<p> </p><br>") = []
  /\ fst (ReadNovelFullV2.getContent (serving empty_chapter_page)
            (js "x/chapter-1") start)
     = Throw (content_failure (js "x/chapter-1") content_empty).
Proof.
  assert (Hc : first_capture
                 (ReadNovelFullV2.extractFirst empty_chapter_page
                    ReadNovelFullV2.content_re) = Some (js "<p> </p><br>"))
    by reflexivity.
  assert (He : ReadNovelFullV2.cleanHtmlText (js "<p> </p><br>") = [])
    by reflexivity.
  split; [exact Hc|]. split; [exact He|].
  destruct (X14_missing_or_empty_content_is_raised
              (serving empty_chapter_page) (js "x/chapter-1")
              (mkResponse true 200 (js "OK") (V2Urls.bookUrl (js "x/chapter-1"))
                 (Ret empty_chapter_page))
              empty_chapter_page start eq_refl eq_refl) as [H _].
  destruct (H eq_refl) as [_ H2]. exact (H2 _ Hc He).
Defined.

(** ** The functions that read the page through a DOM *)

Arguments ReadNovelFullDom.BASE_URL : simpl never.

Section DomFacts.

Variable dom : Dom.

Lemma dom_search_caught query fetch w :
forall e, fst (ReadNovelFullDom.search dom query fetch w) <> Throw e.
Proof.
unfold ReadNovelFullDom.search. apply try_catch_quiet.
intros e w'. eexists _, _. reflexivity.
Qed.

Lemma dom_chapters_caught id fetch w :
forall e, fst (ReadNovelFullDom.getChapterList dom id fetch w) <> Throw e.
Proof.
unfold ReadNovelFullDom.getChapterList. apply try_catch_quiet.
intros e w'. eexists _, _. reflexivity.
Qed.

Lemma id_of_link_spec link :
ReadNovelFullDom.id_of_link link = []
\/ (~ In 47 (ReadNovelFullDom.id_of_link link)
    /\ exists l, link = Some l
                 /\ last_segment_of (ReadNovelFullDom.id_of_link link) l).
Proof.
unfold ReadNovelFullDom.id_of_link. destruct link as [[|c l]|]; auto.
right. destruct (last_segment_spec (c :: l) [] (fun H => H)) as [Hno Hp].
split; [exact Hno|]. exists (c :: l). split; [reflexivity|].
split; assumption.
Qed.

Lemma chapter_elements_addressable els : forall acc,
Forall addressable acc ->
Forall addressable
  (fold_left (ReadNovelFullDom.chapter_element dom) els acc).
Proof.
induction els as [|el els IH]; intros acc Hacc; cbn [fold_left];
  [exact Hacc|].
apply IH. unfold ReadNovelFullDom.chapter_element. cbv zeta.
destruct (nonempty (ReadNovelFullDom.id_of_link _)) eqn:En; [|exact Hacc].
apply Forall_app. split; [exact Hacc|]. repeat constructor.
eexists. split; [reflexivity|].
destruct (id_of_link_spec (getAttribute dom el (js "href")))
  as [E|[Hno _]].
- rewrite E in En. discriminate.
- split; [|exact Hno]. intros E. rewrite E in En. discriminate.
Qed.

Lemma dom_chapters_sound id fetch :
sound (ReadNovelFullDom.getChapterList dom id fetch) (Forall addressable).
Proof.
unfold ReadNovelFullDom.getChapterList. apply sound_try.
- cbv zeta. apply sound_bind_any; intros r.
  apply sound_bind_any; intros html. apply sound_ret.
  apply chapter_elements_addressable. constructor.
- intros e. apply sound_bind_any; intros _. apply sound_ret. constructor.
Qed.

End DomFacts.

(** X15.  The DOM [search] and [getChapterList] never raise, for any
    query, identifier, transport or document: the URL is built inside
    the [try], so even a query that cannot be encoded gives the empty
    list after a line on [console.error], with no request.  Every
    chapter [getChapterList] returns has an identifier that is not
    empty and holds no slash. *)
Theorem X15_dom_lists_never_raise :
  forall dom fetch w,
    (forall query e,
        fst (ReadNovelFullDom.search dom query fetch w) <> Throw e)
    /\ (forall query,
          encodeURIComponent query = None ->
          fst (ReadNovelFullDom.search dom query fetch w) = Ret []
          /\ requests (snd (ReadNovelFullDom.search dom query fetch w))
             = requests w
          /\ failure_logged (js "Search error:")
               (URIError (js "URI malformed"))
               (snd (ReadNovelFullDom.search dom query fetch w)))
    /\ (forall id e,
          fst (ReadNovelFullDom.getChapterList dom id fetch w) <> Throw e)
    /\ (forall id chapters w',
          ReadNovelFullDom.getChapterList dom id fetch w = (Ret chapters, w') ->
          Forall addressable chapters).
Proof.
  intros dom fetch w. split; [|split; [|split]].
  - intros query e. apply dom_search_caught.
  - intros query Hq. unfold ReadNovelFullDom.search, try_catch. rewrite Hq.
    cbn. repeat split. exists (console w). reflexivity.
  - intros id e. apply dom_chapters_caught.
  - intros id chapters w' H. eapply (dom_chapters_sound dom id fetch); exact H.
Qed.

Lemma X15_dom_lists_never_raise_witness :
  encodeURIComponent [55357] = None
  /\ fst (ReadNovelFullDom.search blank_dom [55357] offline start) = Ret []
  /\ fst (ReadNovelFullV2.search offline [55357] start)
     = Throw (URIError (js "URI malformed")).
Proof.
  assert (Hq : encodeURIComponent [55357] = None) by reflexivity.
  split; [exact Hq|].
  destruct (X15_dom_lists_never_raise blank_dom offline start)
    as (_ & H & _).
  destruct (H [55357] Hq) as (E & _). split; [exact E|reflexivity].
Defined.

(** X16.  The DOM [getBookDetails] treats the title as required: on a
    page without a [.title] element it raises, where the pattern-based
    modules return a default title.  Whatever the cause, the exception
    is the same [Error], with the message [Failed to fetch book
    details]; the cause is only written to [console.error].  With a
    title element the record is returned, and the status of the
    response is never consulted. *)
Theorem X16_dom_details_require_a_title :
  forall dom id fetch w,
    (forall e,
        fst (ReadNovelFullDom.getBookDetails dom id fetch w) = Throw e ->
        e = dom_details_failure)
    /\ (forall r html,
          fetch (GET (domUrl id)) = Ret r ->
          text r = Ret html ->
          querySelector dom (parseFromString dom html) (js ".title") = None ->
          fst (ReadNovelFullDom.getBookDetails dom id fetch w)
          = Throw dom_details_failure
          /\ failure_logged (js "Get book details error:")
               (Error (js "Book not found"))
               (snd (ReadNovelFullDom.getBookDetails dom id fetch w)))
    /\ (forall r html te,
          fetch (GET (domUrl id)) = Ret r ->
          text r = Ret html ->
          querySelector dom (parseFromString dom html) (js ".title")
          = Some te ->
          exists d,
            fst (ReadNovelFullDom.getBookDetails dom id fetch w) = Ret d
            /\ bs_id d = id
            /\ bs_title d = trim (textContent dom te)).
Proof.
  intros dom id fetch w. split; [|split].
  - intros e. unfold ReadNovelFullDom.getBookDetails, try_catch.
    match goal with
    | |- fst (match ?c with _ => _ end) = _ -> _ =>
      destruct c as [[d|e0|] w1]
    end; cbn; intros H; try discriminate.
    now injection H as <-.
  - intros r html Hr Ht Hq.
    unfold ReadNovelFullDom.getBookDetails, try_catch, bind, await_fetch,
      await_text. cbn. fold (domUrl id). rewrite Hr, Ht, Hq.
    cbn. split; [reflexivity|]. eexists. reflexivity.
  - intros r html te Hr Ht Hq.
    unfold ReadNovelFullDom.getBookDetails, try_catch, bind, await_fetch,
      await_text. cbn. fold (domUrl id). rewrite Hr, Ht, Hq.
    cbn. eexists. repeat split.
Qed.

Lemma X16_dom_details_require_a_title_witness :
  querySelector blank_dom (parseFromString blank_dom untitled_page)
    (js ".title") = None
  /\ fst (ReadNovelFullDom.getBookDetails blank_dom (js "x")
            (serving untitled_page) start)
     = Throw dom_details_failure.
Proof.
  split; [reflexivity|].
  destruct (X16_dom_details_require_a_title blank_dom (js "x")
              (serving untitled_page) start) as (_ & H & _).
  destruct (H (mkResponse true 200 (js "OK") (domUrl (js "x"))
                 (Ret untitled_page))
              untitled_page eq_refl eq_refl eq_refl) as [E _].
  exact E.
Defined.

(** ** The clean up of the DOM [getContent] *)

Lemma suffix_of_in (rest s : jsstring) x :
  suffix_of rest s -> In x rest -> In x s.
Proof. intros [p ->] H. apply in_or_app. now right. Qed.

Lemma replace_loop_in re by_ x : forall fuel s i,
  In x (replace_loop fuel re (fun _ => by_) s i) -> In x s \/ In x by_.
Proof.
  induction fuel as [|fuel IH]; intros s i; cbn [replace_loop]; [auto|].
  destruct (match_here re s) as [[rest caps]|] eqn:E.
  - destruct (match_here_inv _ _ _ _ E) as [Hsuf _].
    destruct (length rest <? length s)%nat.
    + intros H. apply in_app_or in H as [H|H]; [auto|].
      destruct (IH _ _ H) as [H'|H']; [|auto].
      left. eapply suffix_of_in; eauto.
    + intros H. apply in_app_or in H as [H|H]; [auto|].
      destruct s as [|c s]; [destruct H|].
      destruct H as [<-|H]; [left; now left|].
      destruct (IH _ _ H) as [H'|H']; [left; now right|auto].
  - destruct s as [|c s]; [intros []|].
    intros [<-|H]; [left; now left|].
    destruct (IH _ _ H) as [H'|H']; [left; now right|auto].
Qed.

Lemma replace_first_in re by_ x : forall s i,
  In x (replace_first re (fun _ => by_) s i) -> In x s \/ In x by_.
Proof.
  induction s as [|c s IH]; intros i; cbn [replace_first].
  - destruct (match_here re []) as [[rest caps]|] eqn:E; [|intros []].
    destruct (match_here_inv _ _ _ _ E) as [Hsuf _].
    intros H. apply in_app_or in H as [H|H]; [auto|].
    left. eapply suffix_of_in; eauto.
  - destruct (match_here re (c :: s)) as [[rest caps]|] eqn:E.
    + destruct (match_here_inv _ _ _ _ E) as [Hsuf _].
      intros H. apply in_app_or in H as [H|H]; [auto|].
      left. eapply suffix_of_in; eauto.
    + intros [<-|H]; [left; now left|].
      destruct (IH _ H) as [H'|H']; [left; now right|auto].
Qed.

(** A replacement adds no character that is neither in the text nor in
    the replacement string. *)
Lemma replace_str_in re by_ s x :
  In x (replace_str re by_ s) -> In x s \/ In x by_.
Proof.
  unfold replace_str, replace. destruct (global (rflags re)).
  - apply replace_loop_in.
  - apply replace_first_in.
Qed.

Lemma stripped_no_amp s :
  (forall x, In x s -> x <> 38) ->
  forall x,
    In x (replace_str ReadNovelFullDom.tag_re []
            (replace_str ReadNovelFullDom.br_re [nl] s)) -> x <> 38.
Proof.
  intros Hs x H. apply replace_str_in in H as [H|[]].
  apply replace_str_in in H as [H|[<-|[]]]; [auto|discriminate].
Qed.

Lemma clean_content_without_amp s :
  (forall x, In x s -> x <> 38) ->
  ReadNovelFullDom.clean_content s = ReadNovelFullV2.cleanHtmlText s.
Proof.
  intros Hs. destruct s as [|c s]; [reflexivity|].
  unfold ReadNovelFullDom.clean_content, ReadNovelFullV2.cleanHtmlText.
  cbn [nonempty negb].
  change ReadNovelFullV2.tag_re with ReadNovelFullDom.tag_re.
  change ReadNovelFullV2.br_re with ReadNovelFullDom.br_re.
  pose proof (stripped_no_amp (c :: s) Hs) as Hno.
  unfold replace_str at 1. rewrite amp_pattern_plain; [|begins|exact Hno].
  rewrite V2_decode_no_amp; [reflexivity|].
  intros x Hx. apply Hno. eapply piece_of_in; [apply trim_piece|exact Hx].
Qed.

(** X17.  The DOM [getContent] returns the content element's
    [innerHTML] cleaned by its own chain, which ends with [trim], and
    raises its one error when there is no such element.  On every
    fragment without [&] that chain agrees with [cleanHtmlText] of the
    module above it in the file. *)
Theorem X17_dom_content_clean_up :
  (forall s, trimmed (ReadNovelFullDom.clean_content s))
  /\ (forall s, (forall x, In x s -> x <> 38) ->
        ReadNovelFullDom.clean_content s = ReadNovelFullV2.cleanHtmlText s)
  /\ (forall dom id fetch w r html,
        fetch (GET (domUrl id)) = Ret r -> text r = Ret html ->
        match querySelector dom (parseFromString dom html)
                (js "#chr-content") with
        | Some ce =>
          fst (ReadNovelFullDom.getContent dom id fetch w)
          = Ret (ReadNovelFullDom.clean_content (innerHTML dom ce))
        | None =>
          fst (ReadNovelFullDom.getContent dom id fetch w)
          = Throw dom_content_failure
        end).
Proof.
  split; [|split].
  - intros s. apply trim_trimmed.
  - apply clean_content_without_amp.
  - intros dom id fetch w r html Hr Ht.
    unfold ReadNovelFullDom.getContent, try_catch, bind, await_fetch,
      await_text. cbn. fold (domUrl id). rewrite Hr, Ht.
    destruct (querySelector dom _ _); reflexivity.
Qed.

Lemma X17_dom_content_clean_up_witness :
  (forall x, In x (js "a<br/>b <i>c</i> ") -> x <> 38)
  /\ ReadNovelFullDom.clean_content (js "a<br/>b <i>c</i> ")
     = ReadNovelFullV2.cleanHtmlText (js "a<br/>b <i>c</i> ")
  /\ fst (ReadNovelFullDom.getContent link_dom (js "a/chapter-1")
            (serving (js "a<br/>b <i>c</i> ")) start)
     = Ret (ReadNovelFullDom.clean_content (js "a<br/>b <i>c</i> ")).
Proof.
  assert (Hs : forall x, In x (js "a<br/>b <i>c</i> ") -> x <> 38).
  { intros x Hx. vm_compute in Hx.
    repeat (destruct Hx as [<-|Hx]; [discriminate|]). destruct Hx. }
  split; [exact Hs|].
  destruct X17_dom_content_clean_up as (_ & Hc & Hg).
  split; [exact (Hc _ Hs)|].
  exact (Hg link_dom (js "a/chapter-1") (serving (js "a<br/>b <i>c</i> "))
           start
           (mkResponse true 200 (js "OK") (domUrl (js "a/chapter-1"))
              (Ret (js "a<br/>b <i>c</i> ")))
           (js "a<br/>b <i>c</i> ") eq_refl eq_refl).
Defined.

(** ** Cleaning twice *)

Lemma canon_eq_plain fl x c :
  (c < 97 \/ 122 < c) -> (c < 65 \/ 90 < c) ->
  (canon fl x =? canon fl c) = true -> x = c.
Proof.
  intros H1 H2 H. destruct (Z.eq_dec x c) as [|Hn]; [assumption|].
  rewrite canon_neq in H by assumption. discriminate.
Qed.

(** A match of a pattern that ends with the character [c] ends with
    [c]. *)
Lemma m_last fl c :
  (c < 97 \/ 122 < c) -> (c < 65 \/ 90 < c) ->
  forall r, last_char r = Some c ->
  forall s caps (k : cont) res,
    m fl r s caps k = Some res ->
    exists pre s' caps', k s' caps' = Some res /\ s = pre ++ c :: s'.
Proof.
  intros H1 H2. induction r; intros Hl s caps k res Hm; cbn in Hl;
    try discriminate.
  - injection Hl as ->. cbn [m] in Hm. destruct s as [|x s]; [discriminate|].
    destruct (canon fl x =? canon fl c) eqn:E; [|discriminate].
    apply canon_eq_plain in E; auto. subst x.
    exists [], s, caps. auto.
  - cbn [m] in Hm. apply m_inv in Hm.
    destruct Hm as (s1 & caps1 & Hk & [p ->] & _).
    destruct (IHr2 Hl _ _ _ _ Hk) as (pre & s' & caps' & Hk' & ->).
    exists (p ++ pre), s', caps'. split; [exact Hk'|].
    now rewrite <- app_assoc.
  - cbn [m] in Hm.
    destruct (IHr Hl _ _ _ _ Hm) as (pre & s' & caps' & Hk' & ->).
    eexists pre, s', _. split; [exact Hk'|reflexivity].
Qed.

Lemma tag_pattern_match re s rest caps :
  tag_pattern re -> match_here re s = Some (rest, caps) ->
  exists mid, s = 60 :: mid ++ 62 :: rest.
Proof.
  intros [[r' Hb] Hl] Hm.
  assert (Hmin : (0 < minlen (ast re))%nat) by (rewrite Hb; cbn; lia).
  destruct s as [|x s]; [now apply match_here_nil in Hm|].
  pose proof (match_here_starts _ _ _ _ Hmin Hm) as Hs.
  rewrite Hb in Hs. cbn in Hs. apply canon_eq_plain in Hs; try lia. subst x.
  unfold match_here in Hm.
  apply (m_last _ 62) in Hm; try lia; [|exact Hl].
  destruct Hm as (pre & s' & caps' & Hk & Hs). injection Hk as -> _.
  destruct pre as [|p pre]; [discriminate|]. injection Hs as _ ->.
  now exists pre.
Qed.

Lemma tagless_skipn s j : tagless s -> tagless (skipn j s).
Proof.
  intros Hs a b H. apply (Hs (firstn j s ++ a) b).
  rewrite <- app_assoc, <- H. symmetry. apply firstn_skipn.
Qed.

(** A pattern for a tag finds nothing in a text without tags. *)
Lemma tag_pattern_no_match re s :
  tag_pattern re -> tagless s ->
  forall j, match_here re (skipn j s) = None.
Proof.
  intros Hre Hs j. destruct (match_here re (skipn j s)) as [[rest caps]|] eqn:E;
    [|reflexivity].
  exfalso. destruct (tag_pattern_match _ _ _ _ Hre E) as [mid Hm].
  apply (tagless_skipn s j Hs [] (mid ++ 62 :: rest) Hm).
  apply in_or_app. right. now left.
Qed.

Lemma tagless_unchanged re by_ s :
  tag_pattern re -> tagless s -> replace_str re by_ s = s.
Proof.
  intros Hre Hs. apply replace_unchanged. now apply tag_pattern_no_match.
Qed.

Lemma tagless_piece u s : piece_of u s -> tagless s -> tagless u.
Proof.
  intros (p & q & ->) Hs a b ->. intros Hin.
  apply (Hs (p ++ a) (b ++ q)).
  - now rewrite <- !app_assoc.
  - apply in_or_app. now left.
Qed.

Lemma tagless_stripped s : tagless (strip_tags false s).
Proof. intros a b H. eapply strip_tags_no_tag; eauto. Qed.

Lemma has_tag_seen : forall s, has_tag true s = existsb (Z.eqb 62) s.
Proof.
  induction s as [|c s IH]; [reflexivity|]. cbn [has_tag existsb orb andb].
  rewrite IH. rewrite (Z.eqb_sym 62 c). now destruct (c =? 62).
Qed.

Lemma has_tag_tagless : forall s, tagless s <-> has_tag false s = false.
Proof.
  induction s as [|c s IH].
  - split; [reflexivity|]. intros _ a b H. destruct a; discriminate.
  - cbn [has_tag andb orb]. split.
    + intros Hs. destruct (c =? 60) eqn:Ec.
      * apply Z.eqb_eq in Ec. subst c. rewrite has_tag_seen.
        destruct (existsb (Z.eqb 62) s) eqn:Ex; [|reflexivity].
        exfalso. apply existsb_exists in Ex as (x & Hx & Ex).
        apply Z.eqb_eq in Ex. subst x. exact (Hs [] s eq_refl Hx).
      * apply IH. intros a b ->. apply (Hs (c :: a) b). reflexivity.
    + intros H a b Hs. destruct a as [|a0 a].
      * injection Hs as -> ->. cbn [Z.eqb Pos.eqb] in H.
        rewrite has_tag_seen in H. intros Hin.
        assert (existsb (Z.eqb 62) b = true); [|congruence].
        apply existsb_exists. exists 62. split; [exact Hin|reflexivity].
      * injection Hs as -> ->. destruct (a0 =? 60).
        -- rewrite has_tag_seen in H. intros Hin.
           assert (existsb (Z.eqb 62) (a ++ 60 :: b) = true); [|congruence].
           apply existsb_exists. exists 62. split; [|reflexivity].
           apply in_or_app. right. now right.
        -- eapply IH; eauto.
Qed.

Lemma has_tag_newlines seen k s :
  has_tag seen (repeat nl k ++ s) = has_tag seen s.
Proof.
  induction k as [|k IH]; [reflexivity|]. cbn [repeat app has_tag].
  change (nl =? 62) with false. change (nl =? 60) with false.
  now rewrite andb_false_r, orb_false_r.
Qed.

Lemma has_tag_collapse : forall s run seen,
  has_tag seen (collapse_run run s) = has_tag seen s.
Proof.
  induction s as [|c s IH]; intros run seen; cbn [collapse_run].
  - rewrite <- (app_nil_r (repeat nl _)). apply has_tag_newlines.
  - destruct (c =? nl) eqn:Ec.
    + apply Z.eqb_eq in Ec. subst c. rewrite IH. cbn [has_tag].
      change (nl =? 62) with false. change (nl =? 60) with false.
      now rewrite andb_false_r, orb_false_r.
    + rewrite has_tag_newlines. cbn [has_tag]. now rewrite IH.
Qed.

Lemma tagless_collapse s : tagless s -> tagless (collapse s).
Proof.
  rewrite !has_tag_tagless. unfold collapse. now rewrite has_tag_collapse.
Qed.

Lemma strip_tags_tagless : forall s, tagless s -> strip_tags false s = s.
Proof.
  induction s as [|c s IH]; intros Hs; [reflexivity|]. cbn [strip_tags].
  destruct ((c =? 60) && existsb (Z.eqb 62) s) eqn:E.
  - exfalso. apply andb_prop in E as [Ec Ex]. apply Z.eqb_eq in Ec. subst c.
    apply existsb_exists in Ex as (x & Hx & Ex). apply Z.eqb_eq in Ex. subst x.
    exact (Hs [] s eq_refl Hx).
  - f_equal. apply IH. intros a b ->. apply (Hs (c :: a) b). reflexivity.
Qed.

Ltac tag_pat := split; [begins|reflexivity].

Lemma no_amp_replace re by_ s :
  (forall x, In x by_ -> x <> 38) -> (forall x, In x s -> x <> 38) ->
  forall x, In x (replace_str re by_ s) -> x <> 38.
Proof.
  intros Hb Hs x H. apply replace_str_in in H as [H|H]; auto.
Qed.

Lemma nl_no_amp k : forall x, In x (repeat nl k) -> x <> 38.
Proof. intros x H. apply repeat_spec in H. subst x. discriminate. Qed.

Lemma V2_clean_without_amp s :
  (forall x, In x s -> x <> 38) ->
  ReadNovelFullV2.cleanHtmlText s
  = trim (strip_tags false (replace_str ReadNovelFullV2.br_re [nl] s)).
Proof.
  intros Hs. unfold ReadNovelFullV2.cleanHtmlText.
  destruct s as [|c s]; [reflexivity|]. cbn [nonempty negb].
  change ReadNovelFullV2.tag_re with ReadWN.tag_re. rewrite strip_tags_regex.
  apply V2_decode_no_amp. intros x Hx.
  apply (piece_of_in _ _ _ (trim_piece _)) in Hx.
  apply strip_tags_in in Hx.
  revert x Hx. apply no_amp_replace; [apply (nl_no_amp 1)|exact Hs].
Qed.

Lemma V2_clean_tagless t :
  tagless t -> trimmed t -> (forall x, In x t -> x <> 38) ->
  ReadNovelFullV2.cleanHtmlText t = t.
Proof.
  intros Ht Htr Hno. rewrite V2_clean_without_amp by exact Hno.
  rewrite tagless_unchanged by (tag_pat || exact Ht).
  rewrite strip_tags_tagless by exact Ht. now apply trim_fix.
Qed.

Lemma ReadWN_clean_tagless t :
  tagless t -> trimmed t -> runs_ok t -> (forall x, In x t -> x <> 38) ->
  ReadWN.cleanHtmlText t = t.
Proof.
  intros Ht Htr Hr Hno. rewrite ReadWN_clean_stages.
  rewrite (tagless_unchanged ReadWN.script_re) by (tag_pat || exact Ht).
  rewrite (tagless_unchanged ReadWN.style_re) by (tag_pat || exact Ht).
  rewrite (tagless_unchanged ReadWN.p_re) by (tag_pat || exact Ht).
  rewrite (tagless_unchanged ReadWN.br_re) by (tag_pat || exact Ht).
  rewrite (tagless_unchanged ReadWN.tag_re) by (tag_pat || exact Ht).
  rewrite ReadWN_decode_no_amp by exact Hno.
  rewrite runs_ok_fix by exact Hr. now apply trim_fix.
Qed.

(** X18.  Cleaning twice is cleaning once on every fragment without
    [&], whatever tags it holds: what the first cleaning returns has no
    tag left, so the second finds nothing to do.  This holds for the
    cleaner of ReadFullNovelV2.js and for that of the readwn module. *)
Theorem X18_cleaning_is_idempotent_without_references :
  forall s,
    (forall x, In x s -> x <> 38) ->
    ReadNovelFullV2.cleanHtmlText (ReadNovelFullV2.cleanHtmlText s)
    = ReadNovelFullV2.cleanHtmlText s
    /\ ReadWN.cleanHtmlText (ReadWN.cleanHtmlText s) = ReadWN.cleanHtmlText s
    /\ tagless (ReadNovelFullV2.cleanHtmlText s)
    /\ tagless (ReadWN.cleanHtmlText s).
Proof.
  intros s Hs.
  assert (Hv : tagless (ReadNovelFullV2.cleanHtmlText s)).
  { rewrite V2_clean_without_amp by exact Hs.
    eapply tagless_piece; [apply trim_piece|apply tagless_stripped]. }
  assert (Hv' : forall x, In x (ReadNovelFullV2.cleanHtmlText s) -> x <> 38).
  { rewrite V2_clean_without_amp by exact Hs. intros x Hx.
    apply (piece_of_in _ _ _ (trim_piece _)) in Hx.
    apply strip_tags_in in Hx. revert x Hx.
    apply no_amp_replace; [apply (nl_no_amp 1)|exact Hs]. }
  assert (Hu : forall x,
             In x (replace_str ReadWN.tag_re []
                     (replace_str ReadWN.br_re [nl]
                        (replace_str ReadWN.p_re [nl; nl]
                           (replace_str ReadWN.style_re []
                              (replace_str ReadWN.script_re [] s))))) ->
             x <> 38).
  { apply no_amp_replace; [intros x []|].
    apply no_amp_replace; [apply (nl_no_amp 1)|].
    apply no_amp_replace; [apply (nl_no_amp 2)|].
    apply no_amp_replace; [intros x []|].
    apply no_amp_replace; [intros x []|exact Hs]. }
  assert (Hw : tagless (ReadWN.cleanHtmlText s)).
  { rewrite ReadWN_clean_stages. rewrite ReadWN_decode_no_amp by exact Hu.
    eapply tagless_piece; [apply trim_piece|]. apply tagless_collapse.
    rewrite strip_tags_regex. apply tagless_stripped. }
  assert (Hw' : forall x, In x (ReadWN.cleanHtmlText s) -> x <> 38).
  { rewrite ReadWN_clean_stages. rewrite ReadWN_decode_no_amp by exact Hu.
    intros x Hx. apply (piece_of_in _ _ _ (trim_piece _)) in Hx.
    apply collapse_run_in in Hx as [Hx| ->]; [now apply Hu|discriminate]. }
  split; [|split; [|split]]; try assumption.
  - apply V2_clean_tagless; try assumption.
    rewrite V2_clean_without_amp by exact Hs. apply trim_trimmed.
  - apply ReadWN_clean_tagless; try assumption.
    + apply ReadWN_clean_trimmed.
    + apply ReadWN_clean_runs.
Qed.

Lemma X18_cleaning_is_idempotent_without_references_witness :
  (forall x, In x (js " <p>a <b>b</b></p><br> ") -> x <> 38)
  /\ ReadWN.cleanHtmlText (ReadWN.cleanHtmlText (js " <p>a <b>b</b></p><br> "))
     = ReadWN.cleanHtmlText (js " <p>a <b>b</b></p><br> ").
Proof.
  assert (Hs : forall x, In x (js " <p>a <b>b</b></p><br> ") -> x <> 38).
  { intros x Hx. vm_compute in Hx.
    repeat (destruct Hx as [<-|Hx]; [discriminate|]). destruct Hx. }
  split; [exact Hs|].
  destruct (X18_cleaning_is_idempotent_without_references _ Hs)
    as (_ & H & _).
  exact H.
Defined.

(** * Patterns and the texts they read *)

(** ** Replacement as a rewriting of the text *)

Lemma rewrite_items_skip item : forall s n,
  (n <= length s)%nat ->
  rewrite_items item n s = rewrite_items item 0 (skipn n s).
Proof.
  induction s as [|x s IH]; intros [|n] Hn; try reflexivity.
  cbn [rewrite_items skipn]. apply IH. simpl in Hn. lia.
Qed.

Lemma replace_loop_reads re f item :
  read_by re f item ->
  forall fuel s i,
    (length s < fuel)%nat ->
    replace_loop fuel re f s i = rewrite_items item 0 s.
Proof.
  intros Hr. induction fuel as [|fuel IH]; intros s i Hf; [lia|].
  cbn [replace_loop]. specialize (Hr i s).
  destruct (match_here re s) as [[rest caps]|].
  - destruct Hr as (n & Hitem & -> & Hn).
    destruct s as [|x s]; [simpl in Hn; lia|].
    assert (Hl : (length (skipn (S n) (x :: s)) < length (x :: s))%nat)
      by (rewrite length_skipn; simpl; lia).
    apply Nat.ltb_lt in Hl as Hl'. rewrite Hl'.
    rewrite IH by (simpl in *; lia).
    cbn [rewrite_items]. rewrite Hitem. cbn [skipn].
    rewrite (rewrite_items_skip item s n) by (simpl in Hn; lia).
    reflexivity.
  - destruct s as [|x s]; [reflexivity|].
    cbn [rewrite_items]. rewrite Hr. f_equal. apply IH. simpl in Hf. lia.
Qed.

Lemma replace_reads re f item s :
  global (rflags re) = true -> read_by re f item ->
  replace re f s = rewrite_items item 0 s.
Proof.
  intros Hg Hr. unfold replace. rewrite Hg.
  apply replace_loop_reads; [exact Hr|lia].
Qed.

(** ** Letters, words and prefixes *)

Lemma canon_eqb fl x c :
  (canon fl x =? canon fl c)
  = (if ignoreCase fl then upper x =? upper c else x =? c).
Proof. unfold canon, upper. destruct (ignoreCase fl); reflexivity. Qed.

(** A character that is not a letter is matched by itself only. *)
Lemma upper_other x c :
  (c < 65 \/ 90 < c < 97 \/ 122 < c) -> (upper x =? c) = (x =? c).
Proof.
  intros Hc. unfold upper.
  destruct (Z.leb_spec 97 x); destruct (Z.leb_spec x 122); cbn [andb];
    try reflexivity.
  destruct (Z.eqb_spec (x - 32) c); destruct (Z.eqb_spec x c); lia.
Qed.

Lemma upper_idem c : (c < 97 \/ 122 < c) -> upper c = c.
Proof.
  intros Hc. unfold upper.
  destruct (Z.leb_spec 97 c); destruct (Z.leb_spec c 122); cbn [andb]; lia.
Qed.

Lemma begins_text_app fold a : forall b s,
  begins_text fold (a ++ b) s
  = begins_text fold a s && begins_text fold b (skipn (length a) s).
Proof.
  induction a as [|c a IH]; intros b s; [reflexivity|].
  destruct s as [|x s]; [reflexivity|].
  cbn [app begins_text length skipn]. rewrite IH. now rewrite andb_assoc.
Qed.

Lemma begins_text_length fold w : forall s,
  begins_text fold w s = true -> (length w <= length s)%nat.
Proof.
  induction w as [|c w IH]; intros s H; [simpl; lia|].
  destruct s as [|x s]; [discriminate|]. cbn [begins_text] in H.
  apply andb_prop in H as [_ H]. apply IH in H. simpl. lia.
Qed.

Lemma begins_text_nil fold s : begins_text fold [] s = true.
Proof. reflexivity. Qed.

(** A run of literal characters at the head of a pattern. *)
Lemma m_chars fl w r : forall s caps k,
  m fl (fold_right (fun c r' => Seq (Char c) r') r w) s caps k
  = if begins_text (ignoreCase fl) w s
    then m fl r (skipn (length w) s) caps k else None.
Proof.
  induction w as [|c w IH]; intros s caps k; [reflexivity|].
  cbn [fold_right m]. destruct s as [|x s]; [reflexivity|].
  cbn [begins_text length skipn]. rewrite canon_eqb.
  destruct (if ignoreCase fl then upper x =? upper c else x =? c);
    [apply IH|reflexivity].
Qed.

Lemma m_char fl c s caps k :
  m fl (Char c) s caps k
  = if begins_text (ignoreCase fl) [c] s then k (skipn 1 s) caps else None.
Proof.
  destruct s as [|x s]; [reflexivity|].
  cbn [m begins_text skipn]. rewrite canon_eqb, andb_true_r. reflexivity.
Qed.

(** An optional character. *)
Lemma m_optional fl c s caps k :
  m fl (Quant false 0 (Some 1%nat) (Char c)) s caps k
  = orelse (if begins_text (ignoreCase fl) [c] s
            then k (skipn 1 s) caps else None)
           (fun _ => k s caps).
Proof.
  cbn [m groups_of]. rewrite Nat.add_1_r. cbn [Nat.add repeat_matcher].
  cbn [Nat.ltb Nat.leb reset_caps fold_left].
  destruct s as [|x s]; [reflexivity|].
  cbn [m begins_text skipn]. rewrite canon_eqb, andb_true_r.
  destruct (if ignoreCase fl then upper x =? upper c else x =? c);
    [|reflexivity].
  cbn [Nat.eqb andb length].
  replace (length s =? S (length s))%nat with false
    by (symmetry; apply Nat.eqb_neq; lia).
  cbn [repeat_matcher option_map pred]. reflexivity.
Qed.

(** ** Lazy repetition of any character *)

Section Lazy.

Variable mr : jsstring -> captures -> cont -> mresult.
Hypothesis mr_spec : forall s caps k,
  mr s caps k = match s with
                | _ :: s' => k s' caps
                | [] => None
                end.

(** Followed by a word, the repetition stops at the first place where
    the word is found. *)
Lemma lazy_any (k : cont) w (g : captures -> captures) :
  (forall s caps,
      k s caps = if begins_text true w s
                 then Some (skipn (length w) s, g caps) else None) ->
  forall s fuel caps,
    (length s < fuel)%nat ->
    repeat_matcher mr [] true k fuel 0 None s caps
    = match through_word w s with
      | Some n => Some (skipn n s, g caps)
      | None => None
      end.
Proof.
  intros Hk. induction s as [|x s IH]; intros fuel caps Hf;
    (destruct fuel as [|fuel]; [simpl in Hf; lia|]);
    cbn [repeat_matcher Nat.ltb Nat.leb reset_caps fold_left];
    rewrite mr_spec; unfold orelse; rewrite Hk.
  - cbn [through_word]. destruct (begins_text true w []); reflexivity.
  - cbn [through_word].
    destruct (begins_text true w (x :: s)); [reflexivity|].
    cbn [Nat.eqb andb length].
    replace (length s =? S (length s))%nat with false
      by (symmetry; apply Nat.eqb_neq; lia).
    cbn [pred option_map]. rewrite IH by (simpl in Hf; lia).
    destruct (through_word w s); reflexivity.
Qed.

End Lazy.

(** ** Up to the first [>] *)

Lemma through_gt_spec : forall t,
  match through_gt t with
  | Some n =>
    exists k, n = S k /\ (S k <= length t)%nat
              /\ drop_while not_gt t = 62 :: skipn (S k) t
              /\ length (take_while not_gt t) = k
  | None => drop_while not_gt t = []
  end.
Proof.
  induction t as [|c t IH]; [reflexivity|].
  cbn [through_gt drop_while take_while].
  assert (Hn : not_gt c = negb (c =? 62)) by reflexivity. rewrite Hn.
  destruct (Z.eqb_spec c 62) as [->|Hc]; cbn [negb].
  - exists 0%nat. repeat split; simpl; lia.
  - destruct (through_gt t) as [n|]; cbn [option_map]; [|exact IH].
    destruct IH as (k & -> & Hk & Hd & Hl). exists (S k).
    repeat split; simpl; try lia. exact Hd.
Qed.

Lemma class_not_gt fl x : class_matches fl true [CChar 62] x = not_gt x.
Proof.
  unfold class_matches, not_gt. cbn [existsb item_matches xorb].
  rewrite orb_false_r, canon_eqb.
  replace (upper 62) with 62 by reflexivity.
  rewrite (Z.eqb_sym 62 (upper x)), (Z.eqb_sym 62 x).
  rewrite upper_other by lia. now destruct (ignoreCase fl).
Qed.

Lemma begins_one fold c x s :
  (c < 65 \/ 90 < c < 97 \/ 122 < c) ->
  begins_text fold [c] (x :: s) = (x =? c).
Proof.
  intros Hc. cbn [begins_text]. rewrite andb_true_r.
  destruct fold; [|reflexivity].
  rewrite (upper_idem c) by lia. apply upper_other. lia.
Qed.

(** The rest of a tag: what is not [>], then [>]. *)
Lemma m_through_gt fl t caps (k : cont) :
  m fl (Quant false 0 None (Class true [CChar 62])) t caps
    (fun s' caps' => m fl (Char 62) s' caps' k)
  = match through_gt t with
    | Some n => k (skipn n t) caps
    | None => None
    end.
Proof.
  cbn [m groups_of]. rewrite greedy_all with (p := not_gt).
  - cbn [Nat.leb]. pose proof (through_gt_spec t) as H.
    destruct (through_gt t) as [n|].
    + destruct H as (j & -> & _ & Hd & _). rewrite Hd.
      now rewrite Z.eqb_refl.
    + now rewrite H.
  - intros s caps0 k0. destruct s as [|x s]; [reflexivity|].
    cbn [m]. now rewrite class_not_gt.
  - intros x s caps0 Hx. rewrite canon_eqb.
    replace (upper 62) with 62 by reflexivity. rewrite upper_other by lia.
    unfold not_gt in Hx. apply negb_true_iff in Hx. rewrite Hx.
    now destruct (ignoreCase fl).
  - pose proof (take_while_length not_gt t). lia.
Qed.

Lemma skipn_one_more (n : nat) (s : jsstring) :
  skipn 1 (skipn n s) = skipn (S n) s.
Proof. rewrite skipn_skipn. reflexivity. Qed.

Lemma slash_not_p t :
  begins_text true [47] t = true -> begins_text true [112] t = false.
Proof.
  destruct t as [|x t]; [discriminate|]. cbn [begins_text].
  rewrite !andb_true_r. replace (upper 47) with 47 by reflexivity.
  replace (upper 112) with 80 by reflexivity.
  intros H. apply Z.eqb_eq in H. rewrite H. reflexivity.
Qed.

Lemma m_seq fl r1 r2 s caps k :
  m fl (Seq r1 r2) s caps k
  = m fl r1 s caps (fun s' caps' => m fl r2 s' caps' k).
Proof. reflexivity. Qed.

(** ** The patterns of the cleaner *)

Lemma p_re_reads by_ :
  read_by ReadWN.p_re (fun _ => by_)
    (fun s => option_map (fun n => (by_, n)) (paragraph_tag s)).
Proof.
  intros i s. unfold match_here, paragraph_tag.
  cbn [ReadWN.p_re ast ngroups rflags repeat].
  rewrite m_seq, m_char. cbn [ignoreCase].
  change (js "</p") with ([60] ++ [47] ++ [112]).
  change (js "<p") with ([60] ++ [112]).
  rewrite !begins_text_app. cbn [length].
  destruct (begins_text true [60] s) eqn:B1; cbn [andb]; [|reflexivity].
  rewrite m_seq, m_optional. cbn [ignoreCase].
  rewrite !m_seq, !m_char. cbn [ignoreCase].
  rewrite !m_seq, !skipn_one_more, !m_through_gt.
  apply begins_text_length in B1. cbn [length] in B1.
  destruct (begins_text true [47] (skipn 1 s)) eqn:B2; cbn [andb orelse].
  - rewrite (slash_not_p _ B2).
    apply begins_text_length in B2. rewrite length_skipn in B2.
    cbn [length] in B2.
    destruct (begins_text true [112] (skipn 2 s)) eqn:B3; [|reflexivity].
    apply begins_text_length in B3. rewrite length_skipn in B3.
    cbn [length] in B3.
    pose proof (through_gt_spec (skipn 3 s)) as H.
    destruct (through_gt (skipn 3 s)) as [n|]; [|reflexivity].
    destruct H as (j & -> & Hj & _). rewrite length_skipn in Hj.
    cbn [option_map]. exists (3 + j)%nat.
    rewrite skipn_skipn. repeat split; try lia.
    f_equal. lia.
  - destruct (begins_text true [112] (skipn 1 s)) eqn:B3; [|reflexivity].
    apply begins_text_length in B3. rewrite length_skipn in B3.
    cbn [length] in B3.
    pose proof (through_gt_spec (skipn 2 s)) as H.
    destruct (through_gt (skipn 2 s)) as [n|]; [|reflexivity].
    destruct H as (j & -> & Hj & _). rewrite length_skipn in Hj.
    cbn [option_map]. exists (2 + j)%nat.
    rewrite skipn_skipn. repeat split; try lia.
    f_equal. lia.
Qed.

Lemma drop_while_skipn p : forall t,
  drop_while p t = skipn (length (take_while p t)) t.
Proof.
  induction t as [|x t IH]; [reflexivity|].
  cbn [drop_while take_while]. destruct (p x); [exact IH|reflexivity].
Qed.

Lemma class_space fl x : class_matches fl false [CSpace false] x = is_space x.
Proof.
  unfold class_matches. cbn [existsb item_matches xorb].
  now rewrite orb_false_r.
Qed.

Lemma space_not_mark x : is_space x = true -> x <> 47 /\ x <> 62.
Proof.
  intros H. split; intros ->; vm_compute in H; discriminate.
Qed.

Lemma m_spaces fl t caps (k : cont) :
  (forall x s caps0, is_space x = true -> k (x :: s) caps0 = None) ->
  m fl (Quant false 0 None (Class false [CSpace false])) t caps k
  = k (drop_while is_space t) caps.
Proof.
  intros Hk. cbn [m groups_of]. rewrite greedy_all with (p := is_space).
  - reflexivity.
  - intros s0 caps0 k0. destruct s0 as [|x s0]; [reflexivity|].
    cbn [m]. now rewrite class_space.
  - exact Hk.
  - pose proof (take_while_length is_space t). lia.
Qed.

Lemma br_re_reads by_ :
  read_by ReadWN.br_re (fun _ => by_)
    (fun s => option_map (fun n => (by_, n)) (br_tag s)).
Proof.
  intros i s. unfold match_here, br_tag.
  cbn [ReadWN.br_re ast ngroups rflags repeat].
  change (Seq (Char 60) (Seq (Char 98) (Seq (Char 114) ?r)))
    with (fold_right (fun c r' => Seq (Char c) r') r (js "<br")).
  rewrite m_chars. cbn [ignoreCase].
  destruct (begins_text true (js "<br") s) eqn:B1; [|reflexivity].
  apply begins_text_length in B1. change (length (js "<br")) with 3%nat in *.
  change (js ">") with [62]. change (js "/>") with ([47] ++ [62]).
  rewrite m_seq, m_spaces.
  2: { intros x s0 caps0 Hx. apply space_not_mark in Hx as [H47 H62].
       rewrite m_seq, m_optional, !m_char. cbn [ignoreCase].
       rewrite !begins_one by lia.
       apply Z.eqb_neq in H47, H62. now rewrite H47, H62. }
  rewrite m_seq, m_optional, !m_char. cbn [ignoreCase].
  rewrite (drop_while_skipn is_space (skipn 3 s)).
  set (blank := length (take_while is_space (skipn 3 s))).
  rewrite !skipn_skipn. rewrite begins_text_app. cbn [length].
  rewrite !skipn_skipn.
  assert (Hlen : forall j, length (skipn j s) = (length s - j)%nat)
    by (intros j; apply length_skipn).
  destruct (begins_text true [47] (skipn (blank + 3) s)) eqn:B47.
  - assert (N62 : begins_text true [62] (skipn (blank + 3) s) = false
                  /\ begins_text false [62] (skipn (blank + 3) s) = false
                  /\ begins_text false [47] (skipn (blank + 3) s) = true).
    { destruct (skipn (blank + 3) s) as [|x d]; [discriminate|].
      rewrite !begins_one in * by lia. apply Z.eqb_eq in B47. now subst x. }
    destruct N62 as (N1 & N2 & N3). rewrite N1, N2, N3. cbn [andb].
    apply begins_text_length in B47. rewrite Hlen in B47. cbn [length] in B47.
    assert (E62 : begins_text true [62] (skipn (1 + (blank + 3)) s)
                  = begins_text false [62] (skipn (1 + (blank + 3)) s)).
    { destruct (skipn (1 + (blank + 3)) s) as [|x d]; [reflexivity|].
      now rewrite !begins_one by lia. }
    rewrite E62.
    destruct (begins_text false [62] (skipn (1 + (blank + 3)) s)) eqn:B62;
      cbn [orelse option_map]; [|reflexivity].
    apply begins_text_length in B62. rewrite Hlen in B62. cbn [length] in B62.
    exists (4 + blank)%nat. repeat split; try lia. f_equal. lia.
  - cbn [orelse].
    assert (E62 : begins_text true [62] (skipn (blank + 3) s)
                  = begins_text false [62] (skipn (blank + 3) s)).
    { destruct (skipn (blank + 3) s) as [|x d]; [reflexivity|].
      now rewrite !begins_one by lia. }
    assert (E47 : begins_text false [47] (skipn (blank + 3) s) = false).
    { destruct (skipn (blank + 3) s) as [|x d]; [reflexivity|].
      now rewrite !begins_one in * by lia. }
    rewrite E62, E47. cbn [andb].
    destruct (begins_text false [62] (skipn (blank + 3) s)) eqn:B62;
      cbn [option_map]; [|reflexivity].
    apply begins_text_length in B62. rewrite Hlen in B62. cbn [length] in B62.
    exists (3 + blank)%nat. repeat split; try lia. f_equal. lia.
Qed.

Lemma m_through_gt_then fl r t caps (k : cont) :
  m fl (Quant false 0 None (Class true [CChar 62])) t caps
    (fun s' caps' => m fl (Seq (Char 62) r) s' caps' k)
  = match through_gt t with
    | Some n => m fl r (skipn n t) caps k
    | None => None
    end.
Proof. exact (m_through_gt fl t caps (fun s' c' => m fl r s' c' k)). Qed.

Lemma through_word_le w : forall t n,
  through_word w t = Some n -> (n <= length t)%nat.
Proof.
  induction t as [|x t IH]; intros n H; cbn [through_word] in H.
  - destruct (begins_text true w []) eqn:B; [|discriminate].
    injection H as <-. now apply begins_text_length in B.
  - destruct (begins_text true w (x :: t)) eqn:B.
    + injection H as <-. now apply begins_text_length in B.
    + destruct (through_word w t) as [j|]; [|discriminate].
      injection H as <-. specialize (IH j eq_refl). simpl. lia.
Qed.

Lemma m_lazy_dot fl t caps (k : cont) w (g : captures -> captures) :
  dotAll fl = true ->
  (forall s caps0,
      k s caps0 = if begins_text true w s
                  then Some (skipn (length w) s, g caps0) else None) ->
  m fl (Quant true 0 None Dot) t caps k
  = match through_word w t with
    | Some n => Some (skipn n t, g caps)
    | None => None
    end.
Proof.
  intros Hd Hk. cbn [m groups_of]. apply (lazy_any (m fl Dot)).
  - intros s caps0 k0. destruct s as [|x s]; [reflexivity|].
    cbn [m]. now rewrite Hd.
  - exact Hk.
  - lia.
Qed.

(** A block: the opening tag, its content, the first closing tag. *)
Lemma element_reads re name by_ :
  ast re
  = fold_right (fun c r' => Seq (Char c) r')
      (Seq (Quant false 0 None (Class true [CChar 62]))
         (Seq (Char 62)
            (Seq (Quant true 0 None Dot)
               (fold_right (fun c r' => Seq (Char c) r') (Char 62)
                  (60 :: 47 :: name)))))
      (60 :: name) ->
  ngroups re = 0%nat -> rflags re = mkFlags true true true ->
  read_by re (fun _ => by_)
    (fun s => option_map (fun n => (by_, n)) (element name s)).
Proof.
  intros Hast Hn Hfl i s. unfold match_here, element.
  rewrite Hast, Hn, Hfl. cbn [repeat]. rewrite m_chars. cbn [ignoreCase].
  destruct (begins_text true (60 :: name) s) eqn:B1; [|reflexivity].
  apply begins_text_length in B1. cbn [length] in *.
  set (after := skipn (S (length name)) s).
  assert (Hafter : length after = (length s - S (length name))%nat)
    by apply length_skipn.
  rewrite m_seq, m_through_gt_then.
  pose proof (through_gt_spec after) as Hg.
  destruct (through_gt after) as [n1|]; [|reflexivity].
  destruct Hg as (j & -> & Hj & _).
  rewrite m_seq.
  rewrite (m_lazy_dot _ _ _ _ ((60 :: 47 :: name) ++ [62]) (fun c => c));
    [|reflexivity|].
  2: { intros s0 caps0. rewrite m_chars. cbn [ignoreCase].
       rewrite begins_text_app, m_char. cbn [ignoreCase].
       rewrite length_app, skipn_skipn. cbn [length].
       destruct (begins_text true (60 :: 47 :: name) s0); [|reflexivity].
       cbn [andb length].
       rewrite (Nat.add_comm (S (S (length name))) 1).
       destruct (begins_text true [62] _); reflexivity. }
  change ((60 :: 47 :: name) ++ [62]) with (60 :: 47 :: name ++ [62]).
  destruct (through_word (60 :: 47 :: name ++ [62]) (skipn (S j) after))
    as [n2|] eqn:Ew; [|reflexivity].
  apply through_word_le in Ew. rewrite length_skipn in Ew.
  cbn [option_map]. exists (length name + S j + n2)%nat.
  unfold after. rewrite !skipn_skipn. repeat split; try lia.
  f_equal. lia.
Qed.

Lemma script_re_reads :
  read_by ReadWN.script_re (fun _ => [])
    (fun s => option_map (fun n => ([], n)) (element (js "script") s)).
Proof. apply element_reads; reflexivity. Qed.

Lemma style_re_reads :
  read_by ReadWN.style_re (fun _ => [])
    (fun s => option_map (fun n => ([], n)) (element (js "style") s)).
Proof. apply element_reads; reflexivity. Qed.

(** Each replacement of the cleaner is the stage of the pipeline. *)
Lemma cleaner_stages s :
  replace_str ReadWN.script_re [] s = remove_script s
  /\ replace_str ReadWN.style_re [] s = remove_style s
  /\ replace_str ReadWN.p_re [nl; nl] s = paragraph_breaks s
  /\ replace_str ReadWN.br_re [nl] s = line_breaks s.
Proof.
  unfold replace_str, remove_script, remove_style, paragraph_breaks,
    line_breaks, cut.
  repeat split; apply replace_reads; try reflexivity.
  - apply script_re_reads.
  - apply style_re_reads.
  - apply p_re_reads.
  - apply br_re_reads.
Qed.

(** ** The patterns of the decoder *)

Lemma begins_text_fold w : forall s,
  Forall (fun c => c < 65 \/ 90 < c < 97 \/ 122 < c) w ->
  begins_text true w s = begins_text false w s.
Proof.
  induction w as [|c w IH]; intros s Hw; [reflexivity|].
  inversion Hw as [|? ? Hc Hw']; subst.
  destruct s as [|x s]; [reflexivity|]. cbn [begins_text].
  rewrite (upper_idem c) by lia. rewrite upper_other by lia.
  now rewrite IH.
Qed.

Lemma firstn_take_while p (t : jsstring) :
  firstn (length t - length (drop_while p t)) t = take_while p t.
Proof.
  pose proof (firstn_suffix (take_while p t) (drop_while p t)) as H.
  now rewrite take_drop_while in H.
Qed.

(** A numeral, captured, and the [;] after it. *)
Lemma m_numeral fl items digit t :
  (forall x, class_matches fl false items x = digit x) ->
  (forall x, digit x = true -> x <> 59) ->
  m fl (Seq (Group 0 (Quant false 1 None (Class false items))) (Char 59))
    t [None] (fun s' caps => Some (s', caps))
  = if nonempty (take_while digit t)
       && begins_text false [59] (drop_while digit t)
    then Some (skipn 1 (drop_while digit t), [Some (take_while digit t)])
    else None.
Proof.
  intros Hclass Hdigit. cbn [m groups_of].
  rewrite greedy_all with (p := digit).
  - rewrite firstn_take_while.
    destruct (take_while digit t) as [|d ds] eqn:Et;
      cbn [length Nat.leb nonempty negb andb]; [reflexivity|].
    destruct (drop_while digit t) as [|x rest]; [reflexivity|].
    rewrite canon_eqb, begins_one by lia.
    replace (upper 59) with 59 by reflexivity. rewrite upper_other by lia.
    cbn [reset_caps fold_left set_cap skipn].
    destruct (ignoreCase fl); destruct (x =? 59); reflexivity.
  - intros s0 caps0 k0. destruct s0 as [|x s0]; [reflexivity|].
    now rewrite Hclass.
  - intros x s0 caps0 Hx. apply Hdigit in Hx. rewrite canon_eqb.
    replace (upper 59) with 59 by reflexivity. rewrite upper_other by lia.
    apply Z.eqb_neq in Hx. rewrite Hx. now destruct (ignoreCase fl).
  - pose proof (take_while_length digit t). lia.
Qed.

Lemma numeral_at_length digit radix t c n :
  numeral_at digit radix t = Some (c, n) ->
  c = fromCharCode (parseInt (take_while digit t) radix)
  /\ n = S (length (take_while digit t))
  /\ (n <= length t)%nat
  /\ nonempty (take_while digit t)
     && begins_text false [59] (drop_while digit t) = true.
Proof.
  unfold numeral_at. change (js ";") with [59].
  destruct (nonempty (take_while digit t)
            && begins_text false [59] (drop_while digit t)) eqn:E;
    [|discriminate].
  intros H. injection H as <- <-. repeat split.
  apply andb_prop in E as [_ E]. apply begins_text_length in E.
  pose proof (f_equal (@length Z) (take_drop_while digit t)) as Hl.
  rewrite length_app in Hl. cbn [length] in E. lia.
Qed.

Lemma decimal_re_reads :
  read_by ReadWN.decimal_re (fun mt => char_of_numeral 10 (grp mt 1))
    decimal_reference.
Proof.
  intros i s. unfold match_here, decimal_reference.
  cbn [ReadWN.decimal_re ast ngroups rflags repeat].
  change (Seq (Char 38) (Seq (Char 35) ?r))
    with (fold_right (fun c r' => Seq (Char c) r') r (js "&#")).
  rewrite m_chars. cbn [ignoreCase].
  rewrite begins_text_fold by (repeat constructor; lia).
  destruct (begins_text false (js "&#") s) eqn:B1; [|reflexivity].
  apply begins_text_length in B1. change (length (js "&#")) with 2%nat in *.
  rewrite (m_numeral _ _ is_dec);
    [|apply digit_class|intros x Hx; unfold is_dec in Hx; lia].
  destruct (numeral_at is_dec 10 (skipn 2 s)) as [[c n]|] eqn:En.
  - apply numeral_at_length in En as (-> & -> & Hn & Hb). rewrite Hb.
    rewrite length_skipn in Hn.
    exists (S (S (length (take_while is_dec (skipn 2 s))))).
    rewrite drop_while_skipn, !skipn_skipn. repeat split; try lia.
    f_equal. lia.
  - unfold numeral_at in En. change (js ";") with [59] in En.
    destruct (nonempty _ && _); [discriminate|reflexivity].
Qed.

Lemma hex_re_reads :
  read_by ReadWN.hex_re (fun mt => char_of_numeral 16 (grp mt 1))
    hex_reference.
Proof.
  intros i s. unfold match_here, hex_reference.
  cbn [ReadWN.hex_re ast ngroups rflags repeat].
  change (Seq (Char 38) (Seq (Char 35) (Seq (Char 120) ?r)))
    with (fold_right (fun c r' => Seq (Char c) r') r (js "&#x")).
  rewrite m_chars. cbn [ignoreCase].
  destruct (begins_text true (js "&#x") s) eqn:B1; [|reflexivity].
  apply begins_text_length in B1. change (length (js "&#x")) with 3%nat in *.
  rewrite (m_numeral _ _ is_hex);
    [|apply hex_class|intros x Hx; unfold is_hex in Hx; lia].
  destruct (numeral_at is_hex 16 (skipn 3 s)) as [[c n]|] eqn:En.
  - apply numeral_at_length in En as (-> & -> & Hn & Hb). rewrite Hb.
    rewrite length_skipn in Hn.
    exists (S (S (S (length (take_while is_hex (skipn 3 s)))))).
    rewrite drop_while_skipn, !skipn_skipn. repeat split; try lia.
    f_equal. lia.
  - unfold numeral_at in En. change (js ";") with [59] in En.
    destruct (nonempty _ && _); [discriminate|reflexivity].
Qed.

Lemma m_group fl idx r s caps k :
  m fl (Group idx r) s caps k
  = m fl r s caps (fun s' caps' =>
      k s' (set_cap idx (Some (firstn (length s - length s') s)) caps')).
Proof. reflexivity. Qed.

Lemma startsWith_begins w : forall s,
  startsWith w s = begins_text false w s.
Proof.
  induction w as [|c w IH]; intros s; [apply startsWith_nil|].
  destruct s as [|x s]; [reflexivity|].
  rewrite startsWith_cons. cbn [begins_text]. now rewrite IH, Z.eqb_sym.
Qed.

(** The alternatives of the pattern of names are tried in the order of
    the table, and the first name that is followed by [;] is taken. *)
Lemma try_words_entry fl (table : list (jsstring * Z)) t :
  ignoreCase fl = false ->
  try_words
    (fun s' caps' =>
       m fl (Char 59) s'
         (set_cap 0 (Some (firstn (length t - length s') t)) caps')
         (fun s'' caps'' => Some (s'', caps'')))
    (map fst table) t [None]
  = match named_entry table t with
    | Some (n, _) => Some (skipn (S (length n)) t, [Some n])
    | None => None
    end.
Proof.
  intros Hi. induction table as [|[n c] table IH]; [reflexivity|].
  cbn [map fst try_words named_entry].
  rewrite begins_text_app, startsWith_begins.
  destruct (begins_text false n t) eqn:Bn; cbn [andb orelse];
    [|exact IH].
  rewrite m_char, Hi.
  destruct (begins_text false [59] (skipn (length n) t)) eqn:Bs;
    cbn [orelse]; [|exact IH].
  rewrite <- startsWith_begins in Bn.
  destruct (startsWith_firstn _ _ Bn) as [Hf Hl].
  rewrite length_skipn.
  replace (length t - (length t - length n))%nat with (length n) by lia.
  rewrite Hf, skipn_one_more. reflexivity.
Qed.

Lemma named_entry_length table : forall t n c,
  named_entry table t = Some (n, c) -> (S (length n) <= length t)%nat.
Proof.
  induction table as [|[k v] table IH]; intros t n c H; [discriminate|].
  cbn [named_entry] in H.
  destruct (begins_text false (k ++ [59]) t) eqn:B; [|eauto].
  injection H as <- <-. apply begins_text_length in B.
  rewrite length_app in B. cbn [length] in B. lia.
Qed.

(** The replacement of a name is its character: the table of a module
    holds the names and characters of [table]. *)
Lemma named_lookup (table : list (jsstring * Z)) codes :
  codes = map (fun nc => (fst nc, [snd nc])) table ->
  forall t n c,
    named_entry table t = Some (n, c) -> lookup codes (Some n) = [c].
Proof.
  intros -> t. induction table as [|[k v] table IH]; intros n c H;
    [discriminate|].
  cbn [named_entry] in H. cbn [map lookup fst snd].
  destruct (begins_text false (k ++ [59]) t) eqn:B.
  - injection H as <- <-. now rewrite str_eqb_refl.
  - destruct (str_eqb k n) eqn:E; [|now apply IH].
    exfalso. assert (k = n) as ->.
    { clear -E. revert n E. induction k as [|a k IHk]; intros [|b n] E;
        try discriminate; [reflexivity|].
      cbn [str_eqb] in E. apply andb_prop in E as [E1 E2].
      apply Z.eqb_eq in E1. subst b. f_equal. now apply IHk. }
    clear IH E. induction table as [|[k' v'] table IH]; [discriminate|].
    cbn [named_entry] in H.
    destruct (begins_text false (k' ++ [59]) t) eqn:B'; [|now apply IH].
    injection H as -> _. congruence.
Qed.

Lemma names_reads re (table : list (jsstring * Z)) codes :
  ast re = names_pattern (map fst table) -> ngroups re = 1%nat ->
  ignoreCase (rflags re) = false ->
  table <> [] -> Forall (fun w => w <> []) (map fst table) ->
  codes = map (fun nc => (fst nc, [snd nc])) table ->
  read_by re (fun mt => lookup codes (grp mt 1)) (named_reference table).
Proof.
  intros Hast Hn Hi Hne Hws Hcodes i s. unfold match_here, named_reference.
  rewrite Hast, Hn. cbn [repeat]. unfold names_pattern.
  change (js "&") with [38].
  rewrite m_seq, m_char, Hi.
  destruct (begins_text false [38] s) eqn:B1; [|reflexivity].
  apply begins_text_length in B1. cbn [length] in B1.
  rewrite m_seq, m_group.
  rewrite m_alt_words; [|exact Hi| |exact Hws].
  2: { destruct table; [congruence|discriminate]. }
  rewrite try_words_entry by exact Hi.
  destruct (named_entry table (skipn 1 s)) as [[n c]|] eqn:En;
    [|reflexivity].
  exists (S (length n)). cbn [grp mk_match groups nth].
  rewrite (named_lookup table codes Hcodes _ _ _ En).
  apply named_entry_length in En. rewrite length_skipn in En.
  rewrite skipn_skipn. repeat split; try lia.
  - do 3 f_equal. lia.
  - f_equal. lia.
Qed.

Ltac names_table :=
  apply names_reads;
  first [reflexivity | discriminate | repeat constructor; discriminate].

Lemma named_re_reads :
  read_by ReadWN.translate_re (fun mt => lookup ReadWN.translate (grp mt 1))
    (named_reference named_characters).
Proof. names_table. Qed.

(** The decoder of the readwn module, pass by pass and as a whole. *)
Lemma ReadWN_passes s :
  ReadWN.named_pass s = decode_named named_characters s
  /\ ReadWN.decimal_pass s = decode_decimal s
  /\ ReadWN.hex_pass s = decode_hex s.
Proof.
  unfold ReadWN.named_pass, ReadWN.decimal_pass, ReadWN.hex_pass,
    decode_named, decode_decimal, decode_hex.
  repeat split; apply replace_reads; try reflexivity.
  - apply named_re_reads.
  - apply decimal_re_reads.
  - apply hex_re_reads.
Qed.

Lemma ReadWN_decode_reads s : ReadWN.decodeEntities s = decode_references s.
Proof.
  unfold ReadWN.decodeEntities, decode_references.
  destruct s as [|x s]; [reflexivity|]. cbn [nonempty negb]. cbv zeta.
  destruct (ReadWN_passes (x :: s)) as (-> & _ & _).
  destruct (ReadWN_passes (decode_named named_characters (x :: s)))
    as (_ & -> & _).
  destruct (ReadWN_passes
              (decode_decimal (decode_named named_characters (x :: s))))
    as (_ & _ & ->).
  reflexivity.
Qed.

(** The cleaner of the readwn module is the pipeline. *)
Lemma ReadWN_clean_reads html : ReadWN.cleanHtmlText html = clean_pipeline html.
Proof.
  rewrite ReadWN_clean_stages. unfold clean_pipeline.
  destruct (cleaner_stages html) as (-> & _ & _ & _).
  destruct (cleaner_stages (remove_script html)) as (_ & -> & _ & _).
  destruct (cleaner_stages (remove_style (remove_script html)))
    as (_ & _ & -> & _).
  destruct (cleaner_stages
              (paragraph_breaks (remove_style (remove_script html))))
    as (_ & _ & _ & ->).
  now rewrite strip_tags_regex, ReadWN_decode_reads.
Qed.

(** The other decoders: five names, and no hexadecimal pass in the
    first revision of MangaPill. *)
Lemma V2_decode_reads s :
  ReadNovelFullV2.decodeEntities s
  = decode_hex (decode_decimal (decode_named named_without_apos s)).
Proof.
  unfold ReadNovelFullV2.decodeEntities.
  destruct s as [|x s]; [reflexivity|]. cbn [nonempty negb]. cbv zeta.
  unfold decode_hex, decode_decimal, decode_named.
  rewrite (replace_reads ReadNovelFullV2.translate_re _
             (named_reference named_without_apos))
    by (reflexivity || names_table).
  change ReadNovelFullV2.decimal_re with ReadWN.decimal_re.
  change ReadNovelFullV2.hex_re with ReadWN.hex_re.
  rewrite (replace_reads ReadWN.decimal_re _ decimal_reference)
    by (reflexivity || apply decimal_re_reads).
  now rewrite (replace_reads ReadWN.hex_re _ hex_reference)
    by (reflexivity || apply hex_re_reads).
Qed.

Lemma MangaPill_decode_reads s :
  MangaPill.decodeEntities s
  = decode_hex (decode_decimal (decode_named named_without_apos s)).
Proof.
  unfold MangaPill.decodeEntities.
  destruct s as [|x s]; [reflexivity|]. cbn [nonempty negb]. cbv zeta.
  unfold decode_hex, decode_decimal, decode_named.
  rewrite (replace_reads MangaPill.translate_re _
             (named_reference named_without_apos))
    by (reflexivity || names_table).
  change MangaPill.decimal_re with ReadWN.decimal_re.
  change MangaPill.hex_re with ReadWN.hex_re.
  rewrite (replace_reads ReadWN.decimal_re _ decimal_reference)
    by (reflexivity || apply decimal_re_reads).
  now rewrite (replace_reads ReadWN.hex_re _ hex_reference)
    by (reflexivity || apply hex_re_reads).
Qed.

Lemma MangaPillV1_decode_reads s :
  MangaPillV1.decodeEntities s
  = decode_decimal (decode_named named_without_apos s).
Proof.
  unfold MangaPillV1.decodeEntities, decode_decimal, decode_named.
  rewrite (replace_reads MangaPillV1.translate_re _
             (named_reference named_without_apos))
    by (reflexivity || names_table).
  change MangaPillV1.decimal_re with ReadWN.decimal_re.
  now rewrite (replace_reads ReadWN.decimal_re _ decimal_reference)
    by (reflexivity || apply decimal_re_reads).
Qed.

(** The cleaner of ReadFullNovelV2.js: line breaks, tags, trimming, and
    then the decoder. *)
Lemma V2_clean_reads html :
  ReadNovelFullV2.cleanHtmlText html
  = if nonempty html
    then decode_hex (decode_decimal (decode_named named_without_apos
           (trim (strip_tags false (line_breaks html)))))
    else [].
Proof.
  unfold ReadNovelFullV2.cleanHtmlText.
  destruct html as [|c html]; [reflexivity|]. cbn [nonempty negb].
  change ReadNovelFullV2.tag_re with ReadWN.tag_re.
  change ReadNovelFullV2.br_re with ReadWN.br_re.
  destruct (cleaner_stages (c :: html)) as (_ & _ & _ & ->).
  now rewrite strip_tags_regex, V2_decode_reads.
Qed.

(** * The decoder and the cleaner, on every text *)

(** ** Rewriting a text piece by piece *)

Lemma rewrite_plain item t : forall rest,
  (forall x u, x <> 38 -> item (x :: u) = None) ->
  (forall x, In x t -> x <> 38) ->
  rewrite_items item 0 (t ++ rest) = t ++ rewrite_items item 0 rest.
Proof.
  intros rest Hitem. induction t as [|x t IH]; intros Ht; [reflexivity|].
  cbn [app rewrite_items]. rewrite Hitem by (apply Ht; now left).
  f_equal. apply IH. intros y Hy. apply Ht. now right.
Qed.

Lemma rewrite_kept item x t rest :
  (forall y u, y <> 38 -> item (y :: u) = None) ->
  item (x :: t ++ rest) = None ->
  (forall y, In y t -> y <> 38) ->
  rewrite_items item 0 ((x :: t) ++ rest)
  = (x :: t) ++ rewrite_items item 0 rest.
Proof.
  intros Hitem Hx Ht. cbn [app rewrite_items]. rewrite Hx. f_equal.
  now apply rewrite_plain.
Qed.

Lemma rewrite_taken item r rest c :
  r <> [] -> item (r ++ rest) = Some (c, length r) ->
  rewrite_items item 0 (r ++ rest) = c ++ rewrite_items item 0 rest.
Proof.
  intros Hr H. destruct r as [|x r]; [congruence|].
  cbn [app rewrite_items length] in *. rewrite H. f_equal.
  rewrite rewrite_items_skip by (rewrite length_app; lia).
  rewrite skipn_app, skipn_all, Nat.sub_diag. reflexivity.
Qed.

Lemma rewrite_pieces item (f g : piece -> jsstring) ps :
  (forall p rest, In p ps ->
     rewrite_items item 0 (f p ++ rest) = g p ++ rewrite_items item 0 rest) ->
  rewrite_items item 0 (flat_map f ps) = flat_map g ps.
Proof.
  induction ps as [|p ps IH]; intros H; [reflexivity|].
  cbn [flat_map]. rewrite H by now left. f_equal.
  apply IH. intros q rest Hq. apply H. now right.
Qed.

(** ** Where a reference can begin *)

Lemma named_needs_amp table x u :
  x <> 38 -> named_reference table (x :: u) = None.
Proof.
  intros Hx. unfold named_reference. change (js "&") with [38].
  rewrite begins_one by lia. apply Z.eqb_neq in Hx. now rewrite Hx.
Qed.

Lemma decimal_needs_amp x u : x <> 38 -> decimal_reference (x :: u) = None.
Proof.
  intros Hx. unfold decimal_reference. change (js "&#") with ([38] ++ [35]).
  rewrite begins_text_app, begins_one by lia.
  apply Z.eqb_neq in Hx. now rewrite Hx.
Qed.

Lemma hex_needs_amp x u : x <> 38 -> hex_reference (x :: u) = None.
Proof.
  intros Hx. unfold hex_reference.
  change (js "&#x") with ([38] ++ [35; 120]).
  rewrite begins_text_app, begins_one by lia.
  apply Z.eqb_neq in Hx. now rewrite Hx.
Qed.

Lemma decimal_reference_at ds rest :
  ds <> [] -> forallb is_dec ds = true ->
  decimal_reference (written (Decimal ds) ++ rest)
  = Some (fromCharCode (parseInt ds 10), length (written (Decimal ds))).
Proof.
  intros Hne Hd. cbn [written].
  change ((js "&#" ++ ds ++ js ";") ++ rest)
    with (38 :: 35 :: (ds ++ [59]) ++ rest).
  rewrite <- app_assoc. cbn [app].
  unfold decimal_reference, numeral_at.
  change (js "&#") with [38; 35]. change (js ";") with [59].
  cbn [begins_text skipn andb Z.eqb Pos.eqb].
  rewrite take_while_app, drop_while_app by auto.
  destruct ds as [|d ds]; [congruence|].
  cbn [nonempty negb andb begins_text Z.eqb Pos.eqb].
  do 2 f_equal. cbn [length app]. rewrite length_app. cbn [length]. lia.
Qed.

Lemma hex_reference_at hs rest :
  hs <> [] -> forallb is_hex hs = true ->
  hex_reference (written (Hexadecimal hs) ++ rest)
  = Some (fromCharCode (parseInt hs 16), length (written (Hexadecimal hs))).
Proof.
  intros Hne Hd. cbn [written].
  change ((js "&#x" ++ hs ++ js ";") ++ rest)
    with (38 :: 35 :: 120 :: (hs ++ [59]) ++ rest).
  rewrite <- app_assoc. cbn [app].
  unfold hex_reference, numeral_at.
  change (begins_text true (js "&#x") (38 :: 35 :: 120 :: hs ++ 59 :: rest))
    with true. cbn iota. cbn [skipn].
  change (js "&#x") with [38; 35; 120]. change (js ";") with [59].
  rewrite take_while_app, drop_while_app by auto.
  destruct hs as [|d hs]; [congruence|].
  cbn [nonempty negb andb begins_text Z.eqb Pos.eqb].
  do 2 f_equal. cbn [length app]. rewrite length_app. cbn [length]. lia.
Qed.

Lemma reference_body x body :
  (forall y, In y body -> y <> 38) -> x <> 38 ->
  forall y, In y (x :: body) -> y <> 38.
Proof. intros Hb Hx y [<-|Hy]; auto. Qed.

Lemma digits_body (p : Z -> bool) ds :
  (forall y, p y = true -> y <> 38) -> forallb p ds = true ->
  forall y, In y (ds ++ [59]) -> y <> 38.
Proof. intros Hp Hd y Hy. eapply reference_no_amp; eauto. Qed.

(** ** The passes, piece by piece *)

Lemma named_pass_pieces table ps :
  (forall u, named_reference table (38 :: 35 :: u) = None) ->
  Forall well_written ps ->
  decode_named table (flat_map written ps) = flat_map written ps.
Proof.
  intros Hhash Hps. unfold decode_named. apply rewrite_pieces.
  intros p rest Hin. rewrite Forall_forall in Hps. specialize (Hps p Hin).
  destruct p as [t|ds|hs]; cbn [written well_written] in *.
  - apply rewrite_plain; [apply named_needs_amp|exact Hps].
  - destruct Hps as (_ & Hd & _).
    change (js "&#" ++ ds ++ js ";") with (38 :: 35 :: ds ++ [59]).
    apply rewrite_kept; [apply named_needs_amp|apply Hhash|].
    apply reference_body; [|discriminate].
    apply (digits_body is_dec); [apply is_dec_no_amp|exact Hd].
  - destruct Hps as (_ & Hd & _).
    change (js "&#x" ++ hs ++ js ";") with (38 :: 35 :: 120 :: hs ++ [59]).
    apply rewrite_kept; [apply named_needs_amp|apply Hhash|].
    apply reference_body; [|discriminate].
    apply reference_body; [|discriminate].
    apply (digits_body is_hex); [apply is_hex_no_amp|exact Hd].
Qed.

Lemma decimal_pass_pieces ps :
  Forall well_written ps ->
  decode_decimal (flat_map written ps) = flat_map (decoded false) ps.
Proof.
  intros Hps. unfold decode_decimal. apply rewrite_pieces.
  intros p rest Hin. rewrite Forall_forall in Hps. specialize (Hps p Hin).
  destruct p as [t|ds|hs]; cbn [well_written decoded] in *.
  - apply rewrite_plain; [apply decimal_needs_amp|exact Hps].
  - destruct Hps as (Hne & Hd & Hv & _).
    unfold unit_of. rewrite <- (parseInt_exact ds 10 Hv).
    apply rewrite_taken; [discriminate|now apply decimal_reference_at].
  - destruct Hps as (_ & Hd & _). cbn [written].
    change (js "&#x" ++ hs ++ js ";") with (38 :: 35 :: 120 :: hs ++ [59]).
    apply rewrite_kept; [apply decimal_needs_amp|reflexivity|].
    apply reference_body; [|discriminate].
    apply reference_body; [|discriminate].
    apply (digits_body is_hex); [apply is_hex_no_amp|exact Hd].
Qed.

Lemma hex_pass_pieces ps :
  Forall well_written ps ->
  decode_hex (flat_map (decoded false) ps) = flat_map (decoded true) ps.
Proof.
  intros Hps. unfold decode_hex. apply rewrite_pieces.
  intros p rest Hin. rewrite Forall_forall in Hps. specialize (Hps p Hin).
  destruct p as [t|ds|hs]; cbn [well_written decoded] in *.
  - apply rewrite_plain; [apply hex_needs_amp|exact Hps].
  - destruct Hps as (_ & _ & _ & Hu).
    apply rewrite_plain; [apply hex_needs_amp|].
    intros y [<-|[]]. exact Hu.
  - destruct Hps as (Hne & Hd & Hv).
    unfold unit_of. rewrite <- (parseInt_exact hs 16 Hv).
    apply rewrite_taken; [discriminate|now apply hex_reference_at].
Qed.

Lemma decoders_on_pieces ps :
  Forall well_written ps ->
  ReadNovelFullV2.decodeEntities (flat_map written ps)
  = flat_map (decoded true) ps
  /\ ReadWN.decodeEntities (flat_map written ps) = flat_map (decoded true) ps
  /\ MangaPill.decodeEntities (flat_map written ps)
     = flat_map (decoded true) ps
  /\ MangaPillV1.decodeEntities (flat_map written ps)
     = flat_map (decoded false) ps.
Proof.
  intros Hps.
  rewrite V2_decode_reads, ReadWN_decode_reads, MangaPill_decode_reads,
    MangaPillV1_decode_reads.
  unfold decode_references.
  rewrite !named_pass_pieces by (assumption || intros; reflexivity).
  rewrite !decimal_pass_pieces, !hex_pass_pieces by assumption.
  repeat split.
Qed.

(** ** A named reference inside a text *)

Lemma rewrite_without_amp item t :
  (forall x u, x <> 38 -> item (x :: u) = None) ->
  (forall x, In x t -> x <> 38) ->
  rewrite_items item 0 t = t.
Proof.
  intros Hitem Ht. rewrite <- (app_nil_r t) at 1.
  rewrite rewrite_plain by assumption. cbn [rewrite_items].
  apply app_nil_r.
Qed.

Lemma named_in_text a b n c :
  In (n, c) named_characters -> c <> 38 ->
  (forall x, In x a -> x <> 38) -> (forall x, In x b -> x <> 38) ->
  ReadWN.decodeEntities (a ++ js "&" ++ n ++ js ";" ++ b) = a ++ [c] ++ b.
Proof.
  intros Hin Hc Ha Hb. rewrite ReadWN_decode_reads. unfold decode_references.
  assert (Hno : forall x, In x (a ++ [c] ++ b) -> x <> 38).
  { intros x Hx. apply in_app_or in Hx. destruct Hx as [Hx|[<-|Hx]]; auto. }
  assert (E : decode_named named_characters (a ++ js "&" ++ n ++ js ";" ++ b)
              = a ++ [c] ++ b).
  { unfold decode_named.
    rewrite rewrite_plain by (apply named_needs_amp || exact Ha).
    f_equal.
    replace (js "&" ++ n ++ js ";" ++ b)
      with ((js "&" ++ n ++ js ";") ++ b)
      by (now rewrite <- !app_assoc).
    rewrite (rewrite_taken _ (js "&" ++ n ++ js ";") b [c]).
    - f_equal. apply rewrite_without_amp; [apply named_needs_amp|exact Hb].
    - discriminate.
    - destruct Hin as [E|[E|[E|[E|[E|[E|[]]]]]]]; injection E as <- <-;
        reflexivity. }
  rewrite E. unfold decode_decimal, decode_hex.
  rewrite (rewrite_without_amp decimal_reference)
    by (apply decimal_needs_amp || exact Hno).
  apply rewrite_without_amp; [apply hex_needs_amp|exact Hno].
Qed.

(** C2 (as amended).  The cleaner of the readwn module is the pipeline
    of the specification, each stage read off the text: the blocks
    [<script ...>] to the first [</script>] and [<style ...>] to the
    first [</style>] removed, every tag that begins with [<p] or [</p]
    turned into two line breaks, [<br>] and [<br/>] into one, the
    remaining tags stripped, the references decoded, the runs of three
    or more line breaks collapsed to two, and the result trimmed.  The
    cleaner of ReadFullNovelV2.js only turns [<br>] into a line break,
    strips the tags, trims, and then decodes.  The stages go by the
    letters, not by the markup: [<pre>] counts as a paragraph tag, a
    closing tag written [</script >] closes nothing, and [<br/ >] is
    stripped without a line break. *)
Theorem C2_cleaner_pipeline :
  forall html,
    ReadWN.cleanHtmlText html = clean_pipeline html
    /\ trimmed (ReadWN.cleanHtmlText html)
    /\ runs_ok (ReadWN.cleanHtmlText html)
    /\ ReadNovelFullV2.cleanHtmlText html
       = (if nonempty html
          then decode_hex (decode_decimal (decode_named named_without_apos
                 (trim (strip_tags false (line_breaks html)))))
          else [])
    /\ ReadWN.cleanHtmlText (js "a<pre>b</pre>c")
       = js "a" ++ [nl; nl] ++ js "b" ++ [nl; nl] ++ js "c"
    /\ ReadWN.cleanHtmlText (js "a<script>x</script >b") = js "axb"
    /\ ReadWN.cleanHtmlText (js "a<br/ >b<br clear=all>c") = js "abc".
Proof.
  intros html. split; [apply ReadWN_clean_reads|].
  split; [apply ReadWN_clean_trimmed|].
  split; [apply ReadWN_clean_runs|].
  split; [apply V2_clean_reads|].
  repeat split; vm_compute; reflexivity.
Qed.

(** C2, as stated, fails on the cleaner of ReadFullNovelV2.js: it keeps
    the content of a script block, which the pipeline discards. *)
Lemma C2_v2_cleaner_keeps_script_content :
  ReadNovelFullV2.cleanHtmlText (js "<script>x</script>") = js "x"
  /\ clean_pipeline (js "<script>x</script>") = []
  /\ ReadNovelFullV2.cleanHtmlText (js "<script>x</script>")
     <> clean_pipeline (js "<script>x</script>").
Proof. vm_compute. repeat split. discriminate. Qed.

(** C4 (as amended).  The decoder of the readwn module is, on every
    text, three passes in this order, each over the whole output of
    the pass before it: the six named references, the decimal
    references, the hexadecimal ones.  A named reference of the table
    is replaced by its character, a numeric reference whose value is
    below 65536 by the character with that code, and a text without
    [&], or an unknown named reference, is returned as it is; so are
    the stretches without [&] around a named reference and between
    numeric references, the references decoded where they stand.  The
    passes are not independent: [&amp;#65;] gives [A].  The decoders
    of ReadFullNovelV2.js and of MangaPill are the same passes with
    five names, [&apos;] left out, and the first revision of MangaPill
    has the first two passes only. *)
Theorem C4_entity_decoder :
  (forall s, ReadWN.decodeEntities s = decode_references s)
  /\ (forall s,
        ReadNovelFullV2.decodeEntities s
        = decode_hex (decode_decimal (decode_named named_without_apos s)))
  /\ (forall s,
        MangaPill.decodeEntities s
        = decode_hex (decode_decimal (decode_named named_without_apos s)))
  /\ (forall s,
        MangaPillV1.decodeEntities s
        = decode_decimal (decode_named named_without_apos s))
  /\ known_names
     = [js "nbsp"; js "amp"; js "quot"; js "lt"; js "gt"; js "apos"]
  /\ (forall n c, In (n, c) ReadWN.translate ->
        ReadWN.decodeEntities (js "&" ++ n ++ js ";") = c)
  /\ (forall ds, ds <> [] -> forallb is_dec ds = true ->
        numeral_value 10 ds < 65536 ->
        ReadWN.decodeEntities (js "&#" ++ ds ++ js ";")
        = [numeral_value 10 ds])
  /\ (forall hs, hs <> [] -> forallb is_hex hs = true ->
        numeral_value 16 hs < 65536 ->
        ReadWN.decodeEntities (js "&#x" ++ hs ++ js ";")
        = [numeral_value 16 hs])
  /\ (forall name, forallb is_word name = true -> ~ In name known_names ->
        ReadWN.decodeEntities (js "&" ++ name ++ js ";")
        = js "&" ++ name ++ js ";")
  /\ (forall s, (forall x, In x s -> x <> 38) -> ReadWN.decodeEntities s = s)
  /\ ReadWN.decodeEntities (js "&amp;#65;") = js "A"
  /\ (forall a b n c,
        In (n, c) named_characters -> c <> 38 ->
        (forall x, In x a -> x <> 38) -> (forall x, In x b -> x <> 38) ->
        ReadWN.decodeEntities (a ++ js "&" ++ n ++ js ";" ++ b)
        = a ++ [c] ++ b)
  /\ (forall ps,
        Forall well_written ps ->
        ReadWN.decodeEntities (flat_map written ps)
        = flat_map (decoded true) ps).
Proof.
  split; [exact ReadWN_decode_reads|].
  split; [exact V2_decode_reads|].
  split; [exact MangaPill_decode_reads|].
  split; [exact MangaPillV1_decode_reads|].
  split; [reflexivity|].
  split; [exact ReadWN_decode_named|].
  split.
  { intros ds Hne Hd Hv. rewrite ReadWN_decode_decimal, parseInt_exact by (auto; lia).
    rewrite Z.mod_small; [reflexivity|]. split; [|exact Hv].
    apply numeral_value_nonneg. lia. }
  split.
  { intros hs Hne Hd Hv. rewrite ReadWN_decode_hex, parseInt_exact by (auto; lia).
    rewrite Z.mod_small; [reflexivity|]. split; [|exact Hv].
    apply numeral_value_nonneg. lia. }
  split; [exact ReadWN_decode_unknown|].
  split; [exact ReadWN_decode_no_amp|].
  split; [vm_compute; reflexivity|].
  split; [exact named_in_text|].
  intros ps Hps. now destruct (decoders_on_pieces ps Hps) as (_ & H & _).
Qed.

Lemma C4_entity_decoder_witness :
  js "8364" <> [] /\ forallb is_dec (js "8364") = true
  /\ numeral_value 10 (js "8364") < 65536
  /\ ReadWN.decodeEntities (js "&#" ++ js "8364" ++ js ";") = [8364]
  /\ ReadWN.decodeEntities (js "caf&#233; &amp; th&#xe9;")
     = decode_references (js "caf&#233; &amp; th&#xe9;").
Proof.
  assert (H1 : js "8364" <> []) by discriminate.
  assert (H2 : forallb is_dec (js "8364") = true) by reflexivity.
  assert (H3 : numeral_value 10 (js "8364") < 65536) by reflexivity.
  split; [exact H1|]. split; [exact H2|]. split; [exact H3|].
  destruct C4_entity_decoder as (Hall & _ & _ & _ & _ & _ & Hd & _).
  split; [exact (Hd (js "8364") H1 H2 H3)|apply Hall].
Defined.

(** C4, as stated, fails on the other decoders: the first MangaPill
    module has no hexadecimal pass, and the decoders of
    ReadFullNovelV2.js and of MangaPill do not know [&apos;]. *)
Lemma C4_decoders_without_hex_or_apos :
  MangaPillV1.decodeEntities (js "&#x41;") = js "&#x41;"
  /\ MangaPillV1.decodeEntities (js "&#x41;") <> js "A"
  /\ ReadNovelFullV2.decodeEntities (js "&apos;") = js "&apos;"
  /\ ReadNovelFullV2.decodeEntities (js "&apos;") <> js "'"
  /\ MangaPill.decodeEntities (js "&apos;") = js "&apos;".
Proof. vm_compute. repeat split; discriminate. Qed.

(** X2.  In a text made of stretches without [&] and of numeric
    references, every reference becomes one UTF-16 code unit, the
    value of its numeral modulo 65536, and the stretches are kept: a
    code point above U+FFFF is cut to its low sixteen bits, not
    written as a surrogate pair.  The first revision of MangaPill
    decodes the decimal form only and keeps a hexadecimal reference as
    it is written.  A reference that is the whole text is decoded in
    the same way, whatever its value. *)
Theorem X2_numeric_reference_is_one_code_unit :
  (forall ps,
      Forall well_written ps ->
      ReadNovelFullV2.decodeEntities (flat_map written ps)
      = flat_map (decoded true) ps
      /\ ReadWN.decodeEntities (flat_map written ps)
         = flat_map (decoded true) ps
      /\ MangaPill.decodeEntities (flat_map written ps)
         = flat_map (decoded true) ps
      /\ MangaPillV1.decodeEntities (flat_map written ps)
         = flat_map (decoded false) ps)
  /\ (forall ds,
      ds <> [] -> forallb is_dec ds = true -> numeral_value 10 ds < 2 ^ 53 ->
      let r := js "&#" ++ ds ++ js ";" in
      let c := [numeral_value 10 ds mod 65536] in
      ReadNovelFullV2.decodeEntities r = c
      /\ ReadWN.decodeEntities r = c
      /\ MangaPill.decodeEntities r = c
      /\ MangaPillV1.decodeEntities r = c)
  /\ (forall hs,
        hs <> [] -> forallb is_hex hs = true -> numeral_value 16 hs < 2 ^ 53 ->
        let r := js "&#x" ++ hs ++ js ";" in
        let c := [numeral_value 16 hs mod 65536] in
        ReadNovelFullV2.decodeEntities r = c
        /\ ReadWN.decodeEntities r = c
        /\ MangaPill.decodeEntities r = c
        /\ MangaPillV1.decodeEntities r = r).
Proof.
  split; [exact decoders_on_pieces|]. split.
  - intros ds Hne Hd Hv r c. subst r c.
    change (js "&#" ++ ds ++ js ";") with (38 :: 35 :: ds ++ [59]).
    rewrite <- (parseInt_exact ds 10 Hv).
    unfold ReadNovelFullV2.decodeEntities, ReadWN.decodeEntities,
      ReadWN.hex_pass, ReadWN.decimal_pass, ReadWN.named_pass,
      MangaPill.decodeEntities, MangaPillV1.decodeEntities.
    cbn [nonempty negb].
    change ReadNovelFullV2.decimal_re with ReadWN.decimal_re.
    change MangaPill.decimal_re with ReadWN.decimal_re.
    change MangaPillV1.decimal_re with ReadWN.decimal_re.
    change ReadNovelFullV2.hex_re with ReadWN.hex_re.
    change MangaPill.hex_re with ReadWN.hex_re.
    rewrite !decimal_passes by (names_head || assumption).
    rewrite hex_pass_after_decimal. auto.
  - intros hs Hne Hd Hv r c. subst r c.
    change (js "&#x" ++ hs ++ js ";") with (38 :: 35 :: 120 :: hs ++ [59]).
    rewrite <- (parseInt_exact hs 16 Hv).
    unfold ReadNovelFullV2.decodeEntities, ReadWN.decodeEntities,
      ReadWN.hex_pass, ReadWN.decimal_pass, ReadWN.named_pass,
      MangaPill.decodeEntities, MangaPillV1.decodeEntities.
    cbn [nonempty negb].
    change ReadNovelFullV2.decimal_re with ReadWN.decimal_re.
    change MangaPill.decimal_re with ReadWN.decimal_re.
    change MangaPillV1.decimal_re with ReadWN.decimal_re.
    change ReadNovelFullV2.hex_re with ReadWN.hex_re.
    change MangaPill.hex_re with ReadWN.hex_re.
    rewrite !hex_passes by (names_head || assumption).
    rewrite hex_kept_without_pass by (names_head || assumption). auto.
Qed.

Lemma X2_numeric_reference_is_one_code_unit_witness :
  Forall well_written
    [Plain (js "caf"); Decimal (js "233"); Plain (js " <b> ");
     Hexadecimal (js "1F600"); Plain (js ";")]
  /\ ReadWN.decodeEntities (js "caf&#233; <b> &#x1F600;;")
     = js "caf" ++ [233] ++ js " <b> " ++ [62976] ++ js ";"
  /\ MangaPillV1.decodeEntities (js "caf&#233; <b> &#x1F600;;")
     = js "caf" ++ [233] ++ js " <b> &#x1F600;;".
Proof.
  assert (Hps : Forall well_written
                  [Plain (js "caf"); Decimal (js "233"); Plain (js " <b> ");
                   Hexadecimal (js "1F600"); Plain (js ";")]).
  { repeat constructor; try discriminate; try reflexivity;
      intros x Hx; vm_compute in Hx;
      repeat (destruct Hx as [<-|Hx]; [discriminate|]); destruct Hx. }
  split; [exact Hps|].
  destruct X2_numeric_reference_is_one_code_unit as [H _].
  destruct (H _ Hps) as (_ & Hw & _ & Hv).
  split; [exact Hw|exact Hv].
Defined.

(** * Search results and the pages they come from *)

(** ** Prefixing the origin and resolving a reference *)








Lemma prefixed_nonempty origin ref :
  origin <> [] ->
  or_else (if startsWith (js "http") ref then ref else origin ++ ref)
          placeholder
  = (if startsWith (js "http") ref then ref else origin ++ ref).
Proof.
  intros Ho. destruct (startsWith (js "http") ref) eqn:E.
  - destruct ref; [discriminate|reflexivity].
  - destruct origin; [congruence|reflexivity].
Qed.

(** ** The results of a page, block by block *)

Lemma matches_defined re html ms :
  advancing re = true -> all_defined re = true ->
  exec_loop (length html + 2) html re 0 [] = Some ms ->
  Forall (fun mt => defined (groups mt) (ngroups re)) ms.
Proof.
  intros Ha Hd E.
  destruct (exec_loop_ensures re html Ha Hd start) as (l & w & El & Hl).
  rewrite E in El. injection El as <- _. exact Hl.
Qed.

(** ReadFullNovelV2.js: a result has the link of its block for
    identifier and the image of its block, prefixed, for cover; a
    block whose title is blank gives no result. *)
Lemma V2_items ms :
  Forall (fun mt => defined (groups mt) 5) ms ->
  forall acc w, exists rs,
    for_of ms ReadNovelFullV2.search_item acc w = (Ret (acc ++ rs), w)
    /\ Forall (fun res => exists mt src,
                 In mt ms /\ grp mt 1 = Some (sr_id res)
                 /\ grp mt 2 = Some src
                 /\ sr_coverUrl res
                    = Some (if startsWith (js "http") src then src
                            else ReadNovelFullV2.BASE_URL ++ src)) rs
    /\ ((forall mt i t, In mt ms -> grp mt 1 = Some i -> grp mt 3 = Some t ->
           i = [] \/ ReadNovelFullV2.decodeEntities (trim t) = []) ->
        rs = []).
Proof.
  induction ms as [|mt ms IH]; intros Hd acc w; cbn [for_of].
  - exists []. rewrite app_nil_r. repeat split; constructor.
  - inversion Hd as [|? ? Hmt Hms]; subst.
    destruct (defined_nth _ _ 0 Hmt) as [v1 H1]; [lia|].
    destruct (defined_nth _ _ 1 Hmt) as [v2 H2]; [lia|].
    destruct (defined_nth _ _ 2 Hmt) as [v3 H3]; [lia|].
    destruct (defined_nth _ _ 3 Hmt) as [v4 H4]; [lia|].
    unfold bind at 1. unfold ReadNovelFullV2.search_item at 1. cbv zeta.
    cbn [grp]. rewrite H1, H2, H3, H4. unfold bind, receiver, ret.
    assert (Hrest : forall acc', exists rs,
               for_of ms ReadNovelFullV2.search_item acc' w
               = (Ret (acc' ++ rs), w)
               /\ Forall (fun res => exists mt0 src,
                            In mt0 (mt :: ms) /\ grp mt0 1 = Some (sr_id res)
                            /\ grp mt0 2 = Some src
                            /\ sr_coverUrl res
                               = Some (if startsWith (js "http") src then src
                                       else ReadNovelFullV2.BASE_URL ++ src))
                         rs
               /\ ((forall mt0 i t, In mt0 (mt :: ms) ->
                      grp mt0 1 = Some i -> grp mt0 3 = Some t ->
                      i = [] \/ ReadNovelFullV2.decodeEntities (trim t) = []) ->
                   rs = [])).
    { intros acc'. destruct (IH Hms acc' w) as (rs & E & HF & HB).
      exists rs. split; [exact E|]. split.
      - eapply Forall_impl; [|exact HF].
        intros res (mt0 & src & Hin & Hres). exists mt0, src.
        split; [now right|exact Hres].
      - intros Hb. apply HB. intros mt0 i t Hin. apply Hb. now right. }
    destruct v1 as [|i0 i]; [apply Hrest|].
    destruct (nonempty (ReadNovelFullV2.decodeEntities (trim v3))) eqn:Et;
      [|apply Hrest].
    destruct (Hrest (acc ++
                [mkSearchResult (i0 :: i)
                   (ReadNovelFullV2.decodeEntities (trim v3))
                   (or_else (ReadNovelFullV2.decodeEntities (trim v4))
                            (js "Unknown Author"))
                   (Some (or_else
                            (if startsWith (js "http") v2 then v2
                             else ReadNovelFullV2.BASE_URL ++ v2)
                            placeholder))
                   (or_else (guarded ReadNovelFullV2.cleanHtmlText
                               (nth 4 (groups mt) None))
                            (js "No description available."))
                   None]))
      as (rs & E & HF & HB).
    eexists (_ :: rs). rewrite E, <- app_assoc. split; [reflexivity|]. split.
    + constructor; [|exact HF]. exists mt, v2. cbn [sr_id sr_coverUrl grp].
      rewrite prefixed_nonempty by discriminate.
      repeat split; try assumption. now left.
    + intros Hb. exfalso.
      destruct (Hb mt (i0 :: i) v3 (or_introl eq_refl) H1 H3) as [Hi|Ht];
        [discriminate|rewrite Ht in Et; discriminate].
Qed.

(** The readwn module: the identifier is the last segment of the link
    of the block; a block whose identifier or title is empty gives no
    result. *)
Lemma ReadWN_items ms :
  Forall (fun mt => defined (groups mt) 5) ms ->
  forall acc w, exists rs,
    for_of ms ReadWN.search_item acc w = (Ret (acc ++ rs), w)
    /\ Forall (fun res => exists mt path src,
                 In mt ms /\ grp mt 1 = Some path
                 /\ sr_path res = Some path
                 /\ sr_id res = last_segment path []
                 /\ grp mt 2 = Some src
                 /\ sr_coverUrl res
                    = Some (if startsWith (js "http") src then src
                            else ReadWN.currentSiteUrl ++ src)) rs
    /\ ((forall mt path t, In mt ms ->
           grp mt 1 = Some path -> grp mt 4 = Some t ->
           last_segment path [] = []
           \/ ReadWN.decodeEntities (trim t) = []) -> rs = []).
Proof.
  induction ms as [|mt ms IH]; intros Hd acc w; cbn [for_of].
  - exists []. rewrite app_nil_r. repeat split; constructor.
  - inversion Hd as [|? ? Hmt Hms]; subst.
    destruct (defined_nth _ _ 0 Hmt) as [v1 H1]; [lia|].
    destruct (defined_nth _ _ 1 Hmt) as [v2 H2]; [lia|].
    destruct (defined_nth _ _ 3 Hmt) as [v4 H4]; [lia|].
    unfold bind at 1. unfold ReadWN.search_item at 1. cbv zeta.
    cbn [grp]. rewrite H1, H2, H4. unfold bind, receiver, ret.
    assert (Hrest : forall acc', exists rs,
               for_of ms ReadWN.search_item acc' w = (Ret (acc' ++ rs), w)
               /\ Forall (fun res => exists mt0 path src,
                            In mt0 (mt :: ms) /\ grp mt0 1 = Some path
                            /\ sr_path res = Some path
                            /\ sr_id res = last_segment path []
                            /\ grp mt0 2 = Some src
                            /\ sr_coverUrl res
                               = Some (if startsWith (js "http") src then src
                                       else ReadWN.currentSiteUrl ++ src))
                         rs
               /\ ((forall mt0 path t, In mt0 (mt :: ms) ->
                      grp mt0 1 = Some path -> grp mt0 4 = Some t ->
                      last_segment path [] = []
                      \/ ReadWN.decodeEntities (trim t) = []) -> rs = [])).
    { intros acc'. destruct (IH Hms acc' w) as (rs & E & HF & HB).
      exists rs. split; [exact E|]. split.
      - eapply Forall_impl; [|exact HF].
        intros res (mt0 & path & src & Hin & Hres). exists mt0, path, src.
        split; [now right|exact Hres].
      - intros Hb. apply HB. intros mt0 path t Hin. apply Hb. now right. }
    destruct (nonempty (last_segment v1 [])) eqn:Ei; cbn [andb];
      [|apply Hrest].
    destruct (nonempty (ReadWN.decodeEntities (trim v4))) eqn:Et;
      [|apply Hrest].
    destruct (Hrest (acc ++
                [mkSearchResult (last_segment v1 [])
                   (ReadWN.decodeEntities (trim v4)) []
                   (Some (if startsWith (js "http") v2 then v2
                          else ReadWN.currentSiteUrl ++ v2))
                   (guarded ReadWN.cleanHtmlText (nth 4 (groups mt) None))
                   (Some v1)]))
      as (rs & E & HF & HB).
    eexists (_ :: rs). rewrite E, <- app_assoc. split; [reflexivity|]. split.
    + constructor; [|exact HF]. exists mt, v1, v2.
      cbn [sr_id sr_coverUrl sr_path grp].
      repeat split; try assumption. now left.
    + intros Hb. exfalso.
      destruct (Hb mt v1 v4 (or_introl eq_refl) H1 H4) as [Hi|Ht];
        [rewrite Hi in Ei|rewrite Ht in Et]; discriminate.
Qed.

(** MangaPill: the identifier is the link of the block, kept when it
    begins with [/manga/], and the cover is the image as it is
    written. *)
Lemma MangaPill_items ms :
  Forall (fun mt => defined (groups mt) 4) ms ->
  forall acc w, exists rs,
    for_of ms MangaPill.search_item acc w = (Ret (acc ++ rs), w)
    /\ Forall (fun res => exists mt,
                 In mt ms /\ grp mt 1 = Some (sr_id res)
                 /\ startsWith (js "/manga/") (sr_id res) = true
                 /\ sr_coverUrl res = grp mt 2) rs
    /\ ((forall mt p, In mt ms -> grp mt 1 = Some p ->
           startsWith (js "/manga/") p = false) -> rs = []).
Proof.
  induction ms as [|mt ms IH]; intros Hd acc w; cbn [for_of].
  - exists []. rewrite app_nil_r. repeat split; constructor.
  - inversion Hd as [|? ? Hmt Hms]; subst.
    destruct (defined_nth _ _ 0 Hmt) as [v1 H1]; [lia|].
    destruct (defined_nth _ _ 3 Hmt) as [v4 H4]; [lia|].
    unfold bind at 1. unfold MangaPill.search_item at 1. cbv zeta.
    cbn [grp]. rewrite H1.
    assert (Hrest : forall acc', exists rs,
               for_of ms MangaPill.search_item acc' w = (Ret (acc' ++ rs), w)
               /\ Forall (fun res => exists mt0,
                            In mt0 (mt :: ms) /\ grp mt0 1 = Some (sr_id res)
                            /\ startsWith (js "/manga/") (sr_id res) = true
                            /\ sr_coverUrl res = grp mt0 2) rs
               /\ ((forall mt0 p, In mt0 (mt :: ms) -> grp mt0 1 = Some p ->
                      startsWith (js "/manga/") p = false) -> rs = [])).
    { intros acc'. destruct (IH Hms acc' w) as (rs & E & HF & HB).
      exists rs. split; [exact E|]. split.
      - eapply Forall_impl; [|exact HF].
        intros res (mt0 & Hin & Hres). exists mt0.
        split; [now right|exact Hres].
      - intros Hb. apply HB. intros mt0 t Hin. apply Hb. now right. }
    destruct v1 as [|i0 i]; [apply Hrest|].
    destruct (startsWith (js "/manga/") (i0 :: i)) eqn:Es; [|apply Hrest].
    rewrite H4. unfold bind, receiver, ret.
    destruct (Hrest (acc ++
                [mkSearchResult (i0 :: i)
                   (MangaPill.decodeEntities (trim v4)) []
                   (nth 1 (groups mt) None) [] None]))
      as (rs & E & HF & HB).
    eexists (_ :: rs). rewrite E, <- app_assoc. split; [reflexivity|]. split.
    + constructor; [|exact HF]. exists mt. cbn [sr_id sr_coverUrl grp].
      repeat split; try assumption. now left.
    + intros Hb. exfalso.
      rewrite (Hb mt (i0 :: i) (or_introl eq_refl) H1) in Es. discriminate.
Qed.

(** ** A search whose page is read *)

Lemma V2_search_page fetch query q r html ms w :
  encodeURIComponent query = Some q ->
  fetch (V2Urls.searchRequest q) = Ret r -> ok r = true ->
  text r = Ret html ->
  ReadNovelFullV2.extractAll html ReadNovelFullV2.comprehensiveItemRegex
  = Some ms ->
  exists rs w',
    ReadNovelFullV2.search fetch query w = (Ret rs, w')
    /\ Forall (fun res => exists mt src,
                 In mt ms /\ grp mt 1 = Some (sr_id res)
                 /\ grp mt 2 = Some src
                 /\ sr_coverUrl res
                    = Some (if startsWith (js "http") src then src
                            else ReadNovelFullV2.BASE_URL ++ src)) rs
    /\ ((forall mt i t, In mt ms -> grp mt 1 = Some i -> grp mt 3 = Some t ->
           i = [] \/ ReadNovelFullV2.decodeEntities (trim t) = []) ->
        rs = []).
Proof.
  intros Hq Hf Hok Ht Hx.
  assert (Hd : Forall (fun mt => defined (groups mt) 5) ms)
    by (apply (matches_defined ReadNovelFullV2.comprehensiveItemRegex html);
        [reflexivity|reflexivity|exact Hx]).
  unfold ReadNovelFullV2.search. unfold V2Urls.searchRequest in Hf.
  rewrite Hq. unfold bind, try_catch, await_fetch, await_text. cbn.
  rewrite Hf, Hok. cbn. rewrite Ht. cbn. rewrite Hx. cbn.
  match goal with
  | |- context [for_of ms ReadNovelFullV2.search_item [] ?w1] =>
    destruct (V2_items ms Hd [] w1) as (rs & E & HF & HB); rewrite E
  end.
  cbn. exists rs. eexists. split; [reflexivity|]. split; assumption.
Qed.

Lemma ReadWN_search_page fetch query q r html ms w :
  encodeURIComponent (replace_str ReadWN.spaces_re (js "-") query) = Some q ->
  fetch (ReadWNUrls.searchRequest q) = Ret r -> ok r = true ->
  text r = Ret html ->
  ReadWN.extractAll html ReadWN.itemRegex = Some ms ->
  exists rs w',
    ReadWN.search fetch query w = (Ret rs, w')
    /\ Forall (fun res => exists mt path src,
                 In mt ms /\ grp mt 1 = Some path
                 /\ sr_path res = Some path
                 /\ sr_id res = last_segment path []
                 /\ grp mt 2 = Some src
                 /\ sr_coverUrl res
                    = Some (if startsWith (js "http") src then src
                            else ReadWN.currentSiteUrl ++ src)) rs
    /\ ((forall mt path t, In mt ms ->
           grp mt 1 = Some path -> grp mt 4 = Some t ->
           last_segment path [] = []
           \/ ReadWN.decodeEntities (trim t) = []) -> rs = []).
Proof.
  intros Hq Hf Hok Ht Hx.
  assert (Hd : Forall (fun mt => defined (groups mt) 5) ms).
  { unfold ReadWN.extractAll in Hx. destruct (negb (nonempty html)).
    - injection Hx as <-. constructor.
    - apply (matches_defined ReadWN.itemRegex html);
        [reflexivity|reflexivity|exact Hx]. }
  unfold ReadWN.search. unfold ReadWNUrls.searchRequest in Hf.
  rewrite Hq. unfold bind, try_catch, await_fetch, await_text. cbn.
  rewrite Hf, Hok. cbn. rewrite Ht. cbn. rewrite Hx. cbn.
  match goal with
  | |- context [for_of ms ReadWN.search_item [] ?w1] =>
    destruct (ReadWN_items ms Hd [] w1) as (rs & E & HF & HB); rewrite E
  end.
  cbn. exists rs. eexists. split; [reflexivity|]. split; assumption.
Qed.

Lemma MangaPill_search_page fetch query q r html ms w :
  encodeURIComponent query = Some q ->
  fetch (MangaPillUrls.searchRequest q) = Ret r -> ok r = true ->
  text r = Ret html ->
  MangaPill.extractAll html MangaPill.itemRegex = Some ms ->
  exists rs w',
    MangaPill.search fetch query w = (Ret rs, w')
    /\ Forall (fun res => exists mt,
                 In mt ms /\ grp mt 1 = Some (sr_id res)
                 /\ startsWith (js "/manga/") (sr_id res) = true
                 /\ sr_coverUrl res = grp mt 2) rs
    /\ ((forall mt p, In mt ms -> grp mt 1 = Some p ->
           startsWith (js "/manga/") p = false) -> rs = []).
Proof.
  intros Hq Hf Hok Ht Hx.
  assert (Hd : Forall (fun mt => defined (groups mt) 4) ms)
    by (apply (matches_defined MangaPill.itemRegex html);
        [reflexivity|reflexivity|exact Hx]).
  unfold MangaPill.search. unfold MangaPillUrls.searchRequest in Hf.
  rewrite Hq. unfold bind, try_catch, await_fetch, await_text. cbn.
  rewrite Hf, Hok. cbn. rewrite Ht. cbn. rewrite Hx. cbn.
  match goal with
  | |- context [for_of ms MangaPill.search_item [] ?w1] =>
    destruct (MangaPill_items ms Hd [] w1) as (rs & E & HF & HB); rewrite E
  end.
  cbn. exists rs. eexists. split; [reflexivity|]. split; assumption.
Qed.

(** ** What an operation learns from the transport *)




(** ** The cover of a book *)



(** ** The record of a book on a site that is up *)



(** ** A result and the page it was read from *)




(** ** The URL of a link *)




(** * Covers, searches and identifiers *)





(** C8 (as amended).  For a query [encodeURIComponent] accepts,
    [search] never raises: when the request fails, when the response
    is not ok, when its body cannot be read, the operation returns the
    empty list after writing an error line to the console; when the
    page holds no result block, or only blocks
    without an identifier or a title (without a [/manga/] link on
    MangaPill), it returns the empty list; and every result it returns
    has an identifier.  A query [encodeURIComponent] rejects is another
    matter: the URL is built before the [try], and the URIError leaves
    the operation with nothing requested and nothing logged. *)
Theorem C8_search_never_raises :
  (forall a fetch query w,
      In a adapters ->
      match sa_searchRequest a query with
      | Some rq =>
        (forall e, fst (sa_search a fetch query w) <> Throw e)
        /\ (forall e, fetch rq = Throw e ->
              exists w', sa_search a fetch query w = (Ret [], w')
                         /\ error_reported w w')
        /\ (forall r, fetch rq = Ret r -> ok r = false ->
              exists w', sa_search a fetch query w = (Ret [], w')
                         /\ error_reported w w')
        /\ (forall r e, fetch rq = Ret r -> ok r = true ->
              text r = Throw e ->
              exists w', sa_search a fetch query w = (Ret [], w')
                         /\ error_reported w w')
        /\ (forall r html, fetch rq = Ret r -> ok r = true ->
              text r = Ret html -> sa_items a html = Some [] ->
              exists w', sa_search a fetch query w = (Ret [], w'))
        /\ (forall rs w', sa_search a fetch query w = (Ret rs, w') ->
              Forall (fun r => nonempty (sr_id r) = true) rs)
      | None =>
        sa_search a fetch query w = (Throw (URIError (js "URI malformed")), w)
      end)
  /\ (forall fetch query q r html ms w,
        encodeURIComponent query = Some q ->
        fetch (V2Urls.searchRequest q) = Ret r -> ok r = true ->
        text r = Ret html ->
        ReadNovelFullV2.extractAll html ReadNovelFullV2.comprehensiveItemRegex
        = Some ms ->
        (forall mt i t, In mt ms -> grp mt 1 = Some i -> grp mt 3 = Some t ->
           i = [] \/ ReadNovelFullV2.decodeEntities (trim t) = []) ->
        exists w', ReadNovelFullV2.search fetch query w = (Ret [], w'))
  /\ (forall fetch query q r html ms w,
        encodeURIComponent (replace_str ReadWN.spaces_re (js "-") query)
        = Some q ->
        fetch (ReadWNUrls.searchRequest q) = Ret r -> ok r = true ->
        text r = Ret html ->
        ReadWN.extractAll html ReadWN.itemRegex = Some ms ->
        (forall mt p t, In mt ms -> grp mt 1 = Some p -> grp mt 4 = Some t ->
           last_segment p [] = [] \/ ReadWN.decodeEntities (trim t) = []) ->
        exists w', ReadWN.search fetch query w = (Ret [], w'))
  /\ (forall fetch query q r html ms w,
        encodeURIComponent query = Some q ->
        fetch (MangaPillUrls.searchRequest q) = Ret r -> ok r = true ->
        text r = Ret html ->
        MangaPill.extractAll html MangaPill.itemRegex = Some ms ->
        (forall mt p, In mt ms -> grp mt 1 = Some p ->
           startsWith (js "/manga/") p = false) ->
        exists w', MangaPill.search fetch query w = (Ret [], w')).
Proof.
  split; [|split; [|split]].
  - intros a fetch query w Ha.
    destruct (sa_searchRequest a query) as [rq|] eqn:Hrq.
    + destruct (search_quiet a Ha fetch query rq w Hrq)
        as (H1 & H2 & H3 & H4 & H5).
      repeat (split; [assumption|]).
      intros rs w' E. eapply (search_has_ids a Ha); eauto.
    + destruct Ha as [<-|[<-|[<-|[]]]];
        cbn [sa_searchRequest sa_search readNovelFullV2 readwn mangapill]
          in *.
      * unfold ReadNovelFullV2.search.
        destruct (encodeURIComponent query); [discriminate|reflexivity].
      * unfold ReadWN.search.
        destruct (encodeURIComponent _); [discriminate|reflexivity].
      * unfold MangaPill.search.
        destruct (encodeURIComponent query); [discriminate|reflexivity].
  - intros fetch query q r html ms w Hq Hr Hok Ht Hms Hb.
    destruct (V2_search_page fetch query q r html ms w Hq Hr Hok Ht Hms)
      as (rs & w' & E & _ & H).
    exists w'. now rewrite <- (H Hb).
  - intros fetch query q r html ms w Hq Hr Hok Ht Hms Hb.
    destruct (ReadWN_search_page fetch query q r html ms w Hq Hr Hok Ht Hms)
      as (rs & w' & E & _ & H).
    exists w'. now rewrite <- (H Hb).
  - intros fetch query q r html ms w Hq Hr Hok Ht Hms Hb.
    destruct (MangaPill_search_page fetch query q r html ms w
                Hq Hr Hok Ht Hms) as (rs & w' & E & _ & H).
    exists w'. now rewrite <- (H Hb).
Qed.

Lemma C8_search_never_raises_witness :
  In mangapill adapters
  /\ sa_searchRequest mangapill (js "one piece")
     = Some (MangaPillUrls.searchRequest (js "one%20piece"))
  /\ (exists w', MangaPill.search offline (js "one piece") start = (Ret [], w')
                 /\ error_reported start w')
  /\ exists w', MangaPill.search (serving untitled_page) (js "one piece") start
                = (Ret [], w').
Proof.
  assert (Ha : In mangapill adapters) by (right; right; left; reflexivity).
  split; [exact Ha|]. split; [reflexivity|]. split.
  - pose proof (proj1 C8_search_never_raises mangapill offline
                  (js "one piece") start Ha) as H.
    change (sa_searchRequest mangapill (js "one piece"))
      with (Some (MangaPillUrls.searchRequest (js "one%20piece"))) in H.
    destruct H as (_ & Hfail & _).
    exact (Hfail (TypeError (js "Failed to fetch")) eq_refl).
  - apply (proj2 (proj2 (proj2 C8_search_never_raises))
             (serving untitled_page) (js "one piece") (js "one%20piece")
             (mkResponse true 200 (js "OK")
                (req_url (MangaPillUrls.searchRequest (js "one%20piece")))
                (Ret untitled_page))
             untitled_page [] start);
      try reflexivity.
    intros mt p [].
Defined.

(** C8, as stated for every query, fails: a query with a lone
    surrogate makes [encodeURIComponent] raise before the [try] is
    entered, and [search] raises with it, nothing requested and nothing
    logged. *)
Lemma C8_search_raises_on_lone_surrogate :
  encodeURIComponent [55357] = None
  /\ ReadNovelFullV2.search offline [55357] start
     = (Throw (URIError (js "URI malformed")), start)
  /\ ReadWN.search offline [55357] start
     = (Throw (URIError (js "URI malformed")), start)
  /\ MangaPill.search offline [55357] start
     = (Throw (URIError (js "URI malformed")), start).
Proof. repeat split; vm_compute; reflexivity. Qed.



